(** * wimlib: resource reader, resource entries, capture interning and
      Windows XML inference

    A shallow embedding of the parts of wimlib that decide the archive's
    chunked resource format ([resource.c]), the interning of captured
    streams in the lookup table ([modify.c], [ntfs-capture.c]) and the
    debugging switch of the XML property inference ([xml_windows.c]),
    and of what surrounds them: the layout of a compressed resource and
    its extraction, the streams kept for reuse, the images of an archive
    ([modify.c]), the dentry tree of a capture, the security descriptors,
    DOS names and streams of an NTFS capture ([ntfs-capture.c]), the
    writing of blobs and the repair of security descriptors on an NTFS
    volume ([ntfs-3g_apply.c]), and the helpers for unaligned memory and
    compressed output ([unaligned.h], [comp.h]).

    Integers are [Z] with the C wrap-around written out, memory is
    [list byte], a C function that threads a cursor or a [FILE*] threads it
    here as an explicit value. *)

From Stdlib Require Import String Ascii.
From Stdlib Require Import ZArith List Lia Bool.
From Stdlib Require Import Strings.Byte DecimalString Sorted.
Import ListNotations.
Open Scope Z_scope.
Set Warnings "-register-all".

(** ** Fixed-width integers *)

Module Int.

Definition u8  (x : Z) : Z := x mod 2 ^ 8.
Definition u32 (x : Z) : Z := x mod 2 ^ 32.
Definition u64 (x : Z) : Z := x mod 2 ^ 64.

Definition is_u64 (x : Z) : Prop := 0 <= x < 2 ^ 64.

End Int.

(** ** Bytes and little-endian fields ([buffer_io.h]) *)

Module BufferIO.

Definition Z_of_byte (b : byte) : Z := Z.of_N (Byte.to_N b).

Definition byte_of_Z (z : Z) : byte :=
  match Byte.of_N (Z.to_N (z mod 256)) with
  | Some b => b
  | None => Byte.x00
  end.

(** The [n] low-order bytes of [v], least significant first. *)
Fixpoint le_bytes (n : nat) (v : Z) : list byte :=
  match n with
  | O => []
  | S k => byte_of_Z v :: le_bytes k (v / 256)
  end.

(** The value of a little-endian byte string. *)
Fixpoint le_value (bs : list byte) : Z :=
  match bs with
  | [] => 0
  | b :: rest => Z_of_byte b + 256 * le_value rest
  end.

(** [ztake n l] and [zdrop n l]: the first [n] elements of [l] and what
    follows them, for a count that is a C integer. *)
Fixpoint ztake {A : Type} (n : Z) (l : list A) : list A :=
  match l with
  | [] => []
  | x :: rest => if n <=? 0 then [] else x :: ztake (n - 1) rest
  end.

Fixpoint zdrop {A : Type} (n : Z) (l : list A) : list A :=
  match l with
  | [] => []
  | x :: rest => if n <=? 0 then l else zdrop (n - 1) rest
  end.

Definition zlength {A : Type} (l : list A) : Z := Z.of_nat (List.length l).

(** A read cursor [p] is the memory from [p] onwards; taking [n] bytes
    fails when fewer than [n] are left. *)
Definition take_bytes (n : nat) (p : list byte) : option (list byte * list byte) :=
  if (List.length p <? n)%nat then None else Some (firstn n p, skipn n p).

Definition get_le (n : nat) (p : list byte) : option (Z * list byte) :=
  match take_bytes n p with
  | Some (bs, p') => Some (le_value bs, p')
  | None => None
  end.

(** Modelled from the spec: [buffer_io.h] is not part of the sources at
    hand.  "All multibyte integers little-endian"; the stored size of a
    resource entry takes 7 bytes, its flags 1 byte, offset and original
    size 8 bytes each.  The readers return the value and the cursor after
    the field. *)
Definition get_u8  : list byte -> option (Z * list byte) := get_le 1.
Definition get_u56 : list byte -> option (Z * list byte) := get_le 7.
Definition get_u64 : list byte -> option (Z * list byte) := get_le 8.

(** Modelled from the spec: the writers of [buffer_io.h], little-endian as
    the readers.  A write cursor is the sequence of bytes written so far;
    the writer returns the cursor after the field. *)
Definition put_u8  (p : list byte) (v : Z) : list byte := p ++ le_bytes 1 v.
Definition put_u56 (p : list byte) (v : Z) : list byte := p ++ le_bytes 7 v.
Definition put_u64 (p : list byte) (v : Z) : list byte := p ++ le_bytes 8 v.

End BufferIO.

(** ** Error codes ([wimlib.h]) *)

(** Modelled from the spec: [wimlib.h] is not part of the sources at hand.
    "Error kinds (each is distinct and stable)"; a C function returns 0
    ([WIMLIB_ERR_SUCCESS]) on success and one of the other codes on
    failure.  The constructors are the codes the modelled functions name. *)
Inductive wimlib_error_code : Set :=
| WIMLIB_ERR_SUCCESS
| WIMLIB_ERR_DECOMPRESSION
| WIMLIB_ERR_INVALID_RESOURCE_HASH
| WIMLIB_ERR_NOMEM
| WIMLIB_ERR_NTFS_3G
| WIMLIB_ERR_OPEN
| WIMLIB_ERR_READ
| WIMLIB_ERR_STAT
| WIMLIB_ERR_WRITE.

Definition error_code_eqb (a b : wimlib_error_code) : bool :=
  match a, b with
  | WIMLIB_ERR_SUCCESS, WIMLIB_ERR_SUCCESS
  | WIMLIB_ERR_DECOMPRESSION, WIMLIB_ERR_DECOMPRESSION
  | WIMLIB_ERR_INVALID_RESOURCE_HASH, WIMLIB_ERR_INVALID_RESOURCE_HASH
  | WIMLIB_ERR_NOMEM, WIMLIB_ERR_NOMEM
  | WIMLIB_ERR_NTFS_3G, WIMLIB_ERR_NTFS_3G
  | WIMLIB_ERR_OPEN, WIMLIB_ERR_OPEN
  | WIMLIB_ERR_READ, WIMLIB_ERR_READ
  | WIMLIB_ERR_STAT, WIMLIB_ERR_STAT
  | WIMLIB_ERR_WRITE, WIMLIB_ERR_WRITE => true
  | _, _ => false
  end.

(** What a call of a C function comes to: it returns a code, or it leaves
    defined behaviour (a buffer is overrun, an array is indexed out of its
    bounds, a [wimlib_assert] fails). *)
Inductive fault : Set := BUFFER_OVERRUN | OUT_OF_BOUNDS | ASSERTION_FAILED.

Inductive status : Set :=
| Ret (code : wimlib_error_code)
| Fault (f : fault).

(** ** Resource entries ([resource.c], [get_resource_entry] and
       [put_resource_entry]) *)

Module ResourceEntry.
Import Int BufferIO.

(** [struct resource_entry]: the stored size is a 56-bit field, the flags
    an 8-bit one, offset and original size are [u64]. *)
Record resource_entry : Set := mk_resource_entry {
  size : Z;
  flags : Z;
  offset : Z;
  original_size : Z
}.

Definition WIM_RESHDR_FLAG_FREE : Z := 0x01.
Definition WIM_RESHDR_FLAG_METADATA : Z := 0x02.
Definition WIM_RESHDR_FLAG_COMPRESSED : Z := 0x04.
Definition WIM_RESHDR_FLAG_SPANNED : Z := 0x08.

Definition well_formed (e : resource_entry) : Prop :=
  0 <= size e < 2 ^ 56 /\ 0 <= flags e < 2 ^ 8 /\
  0 <= offset e < 2 ^ 64 /\ 0 <= original_size e < 2 ^ 64.

Definition truncating_offset : string := "Truncating offset in resource entry".
Definition truncating_original_size : string :=
  "Truncating original_size in resource entry".

(** One of the two 62-bit fields: the value kept and the [WARNING] issued. *)
Definition truncate_62 (msg : string) (v : Z) : Z * list string :=
  if Z.land v 0xc000000000000000 =? 0
  then (v, [])
  else (Z.land v 0x3fffffffffffffff, [msg]).

(** [get_resource_entry(p, entry)]: the cursor after the entry, the entry
    and the warnings printed; [None] when [p] has fewer than 24 bytes. *)
Definition get_resource_entry (p : list byte)
  : option (list byte * resource_entry * list string) :=
  match get_u56 p with
  | None => None
  | Some (size, p) =>
  match get_u8 p with
  | None => None
  | Some (flags, p) =>
  match get_u64 p with
  | None => None
  | Some (offset, p) =>
  let '(offset, w1) := truncate_62 truncating_offset offset in
  match get_u64 p with
  | None => None
  | Some (original_size, p) =>
  let '(original_size, w2) :=
    truncate_62 truncating_original_size original_size in
  Some (p, mk_resource_entry size flags offset original_size, w1 ++ w2)
  end end end end.

(** [put_resource_entry(p, entry)]: the cursor after the entry. *)
Definition put_resource_entry (p : list byte) (entry : resource_entry)
  : list byte :=
  let p := put_u56 p (size entry) in
  let p := put_u8 p (flags entry) in
  let p := put_u64 p (offset entry) in
  let p := put_u64 p (original_size entry) in
  p.

End ResourceEntry.

(** ** The C stream ([FILE*]) of the archive *)

Module Stdio.
Import BufferIO.

(** A regular file opened for reading: its bytes and the file position. *)
Record FILE : Set := mk_FILE { f_data : list byte; f_pos : Z }.

(** [fseeko(fp, off, SEEK_SET)] with [off] a [u64] converted to [off_t]:
    a value of 2^63 or more is a negative [off_t] and the call fails;
    seeking past the end of the file is allowed.  The limit a file
    system sets on offsets behind the end of a file is not modelled; the
    properties of [read_compressed_resource] and
    [read_uncompressed_resource] are stated so that they hold whether a
    seek to such an offset succeeds or fails. *)
Definition fseeko_SEEK_SET (fp : FILE) (off : Z) : option FILE :=
  if off <? 2 ^ 63 then Some (mk_FILE (f_data fp) off) else None.

(** [fseeko(fp, off, SEEK_CUR)]: fails when the new position does not fit
    an [off_t]. *)
Definition fseeko_SEEK_CUR (fp : FILE) (off : Z) : option FILE :=
  if f_pos fp + off <? 2 ^ 63
  then Some (mk_FILE (f_data fp) (f_pos fp + off))
  else None.

(** [fread(buf, 1, n, fp)]: the bytes delivered (fewer than [n] at end of
    file) and the stream after the call. *)
Definition fread (fp : FILE) (n : Z) : list byte * FILE :=
  let got := ztake n (zdrop (f_pos fp) (f_data fp)) in
  (got, mk_FILE (f_data fp) (f_pos fp + zlength got)).

End Stdio.

(** ** The lookup table ([lookup_table.h], [lookup_table.c]) *)

Module LookupTable.
Import BufferIO ResourceEntry Stdio.

Inductive compression_type : Set :=
| WIMLIB_COMPRESSION_TYPE_NONE
| WIMLIB_COMPRESSION_TYPE_LZX
| WIMLIB_COMPRESSION_TYPE_XPRESS.

Inductive resource_location_t : Set :=
| RESOURCE_NONEXISTENT
| RESOURCE_IN_WIM
| RESOURCE_IN_FILE_ON_DISK
| RESOURCE_IN_STAGING_FILE
| RESOURCE_IN_ATTACHED_BUFFER
| RESOURCE_IN_NTFS_VOLUME
| RESOURCE_WIN32.

(** The fields of [WIMStruct] a resource read uses: the stream of the
    archive ([NULL] is [None]) and the codec its header declares. *)
Record WIMStruct : Set := mk_WIMStruct {
  wim_fp : option FILE;
  wim_compression_type : compression_type
}.

(** [struct ntfs_location] as [capture_ntfs_streams] fills it. *)
Record ntfs_location : Set := mk_ntfs_location {
  path_utf8 : string;
  stream_name_utf16 : list Z;
  stream_name_utf16_num_chars : Z;
  is_reparse_point : bool
}.

(** [struct wim_lookup_table_entry] (in [modify.c] still
    [struct lookup_table_entry]): the fields the modelled functions read
    or write.  A [NULL] pointer is [None]; [attr] is the content of the
    opened NTFS attribute. *)
Record wim_lookup_table_entry : Set := mk_lte {
  resource_entry : ResourceEntry.resource_entry;
  resource_location : resource_location_t;
  hash : list byte;
  refcnt : Z;
  part_number : Z;
  wim : option WIMStruct;
  file_on_disk : option string;
  file_on_disk_fp : option FILE;
  attached_buffer : option (list byte);
  ntfs_loc : option ntfs_location;
  attr : option (list byte)
}.

Definition set_refcnt (v : Z) (lte : wim_lookup_table_entry) :=
  mk_lte (resource_entry lte) (resource_location lte) (hash lte) v
         (part_number lte) (wim lte) (file_on_disk lte) (file_on_disk_fp lte)
         (attached_buffer lte) (ntfs_loc lte) (attr lte).

Definition set_hash (h : list byte) (lte : wim_lookup_table_entry) :=
  mk_lte (resource_entry lte) (resource_location lte) h (refcnt lte)
         (part_number lte) (wim lte) (file_on_disk lte) (file_on_disk_fp lte)
         (attached_buffer lte) (ntfs_loc lte) (attr lte).

Fixpoint bytes_eqb (a b : list byte) : bool :=
  match a, b with
  | [], [] => true
  | x :: a', y :: b' => Byte.eqb x y && bytes_eqb a' b'
  | _, _ => false
  end.

(** [hashes_equal(h1, h2)]: the two message digests are the same bytes. *)
Definition hashes_equal (h1 h2 : list byte) : bool := bytes_eqb h1 h2.

(** Modelled from the spec: [lookup_table.h] is not part of the sources at
    hand.  A resource's size is its "uncompressed size". *)
Definition wim_resource_size (lte : wim_lookup_table_entry) : Z :=
  original_size (resource_entry lte).

(** Modelled from the spec: [lookup_table.h] is not part of the sources at
    hand.  The flags of a resource entry say whether it is compressed
    ("bit 2 compressed"), and "compression codec selection is a header
    flag" of the archive the resource is in. *)
Definition wim_resource_compression_type (lte : wim_lookup_table_entry)
  : compression_type :=
  if Z.land (flags (resource_entry lte)) WIM_RESHDR_FLAG_COMPRESSED =? 0
  then WIMLIB_COMPRESSION_TYPE_NONE
  else match resource_location lte, wim lte with
       | RESOURCE_IN_WIM, Some w => wim_compression_type w
       | _, _ => WIMLIB_COMPRESSION_TYPE_NONE
       end.

(** Modelled from the spec: [lookup_table.c] is not part of the sources at
    hand.  The table is "a hash-addressed map keyed by the 20-byte SHA-1";
    a lookup gives the first entry with the digest, an insertion links the
    entry in without looking for the digest.  The table is the list of its
    entries, the most recently inserted first; a pointer to an entry of
    the table is the entry's digest. *)
Definition lookup_table : Set := list wim_lookup_table_entry.

Definition lookup_resource (table : lookup_table) (h : list byte)
  : option wim_lookup_table_entry :=
  find (fun lte => hashes_equal (hash lte) h) table.

Definition lookup_table_insert (table : lookup_table)
  (lte : wim_lookup_table_entry) : lookup_table :=
  lte :: table.

(** [lte->refcnt++] on the entry a lookup of [h] returned. *)
Fixpoint refcnt_increment (table : lookup_table) (h : list byte)
  : lookup_table :=
  match table with
  | [] => []
  | lte :: rest =>
      if hashes_equal (hash lte) h
      then set_refcnt (refcnt lte + 1) lte :: rest
      else lte :: refcnt_increment rest h
  end.

(** The reference count the table holds for a digest, 0 when it has no
    entry for it. *)
Definition refcnt_of (table : lookup_table) (h : list byte) : Z :=
  match lookup_resource table h with
  | Some lte => refcnt lte
  | None => 0
  end.

(** The digests of the entries, in table order. *)
Definition hashes (table : lookup_table) : list (list byte) :=
  map hash table.

(** What interning a stream with digest [h] makes of a table: with an
    entry for [h] present, no entry comes or goes and the entry counts one
    reference more; without one, a new entry for [h] that counts one
    reference is put in; the count of every other digest stays. *)
Definition interned (t : lookup_table) (h : list byte) (t' : lookup_table)
  : Prop :=
  match lookup_resource t h with
  | Some lte => hashes t' = hashes t /\ refcnt_of t' h = refcnt lte + 1
  | None => exists lte, t' = lte :: t /\ hash lte = h /\ refcnt lte = 1
  end /\
  forall h', h' <> h -> refcnt_of t' h' = refcnt_of t h'.

(** Interning the digests [hs] one after the other. *)
Inductive interned_all : lookup_table -> list (list byte) -> lookup_table
                         -> Prop :=
| interned_nil t : interned_all t [] t
| interned_cons t h t1 hs t2 :
    interned t h t1 -> interned_all t1 hs t2 -> interned_all t (h :: hs) t2.

Definition hash_eq_dec (a b : list byte) : {a = b} + {a <> b} :=
  list_eq_dec Byte.byte_eq_dec a b.

End LookupTable.

(** ** Reading resources ([resource.c]) *)

Module Resource.
Import Int BufferIO ResourceEntry Stdio LookupTable.

Definition WIM_CHUNK_SIZE : Z := 32768.

(** What a read does to the outside, in order: the calls on the stream,
    the [DEBUG2] line at the head of each turn of the chunk loop, and the
    calls of the decompressor with the two sizes it is given. *)
Inductive event : Set :=
| call_fseeko_SEEK_SET (off : Z)
| call_fseeko_SEEK_CUR (off : Z)
| call_fread (pos n : Z)
| DEBUG2_chunk (i : Z)
| call_decompress (ctype : compression_type)
                  (compressed_chunk_size uncompressed_chunk_size : Z).

(** The chunks a trace visits, in order, and the indices
    [first, first + 1, ...] of [count] chunks in a row. *)
Fixpoint chunk_indices (evs : list event) : list Z :=
  match evs with
  | [] => []
  | DEBUG2_chunk i :: rest => i :: chunk_indices rest
  | _ :: rest => chunk_indices rest
  end.

Definition chunk_range (first : Z) (count : nat) : list Z :=
  map (fun j => first + Z.of_nat j) (seq 0 count).

(** The state a read threads: the stream, the bytes written to
    [contents_ret] so far, and the events so far. *)
Record io_state : Set := mk_io_state {
  fp : FILE;
  out : list byte;
  trace : list event
}.

Inductive result (A : Type) : Type :=
| Value (a : A)
| Return (s : status).
Arguments Value {A} a.
Arguments Return {A} s.

(** A piece of the function body: it goes on with a value or leaves the
    function with a status. *)
Definition io (A : Type) : Type := io_state -> result A * io_state.

Definition io_ret {A : Type} (a : A) : io A := fun s => (Value a, s).

Definition io_bind {A B : Type} (m : io A) (k : A -> io B) : io B :=
  fun s =>
    match m s with
    | (Value a, s') => k a s'
    | (Return st, s') => (Return st, s')
    end.

Definition io_return {A : Type} (st : status) : io A := fun s => (Return st, s).

Declare Scope io_scope.
Delimit Scope io_scope with io.
Notation "x <- m ;; k" := (io_bind m (fun x => k))
  (at level 61, m at next level, right associativity) : io_scope.
Notation "m ;; k" := (io_bind m (fun _ => k))
  (at level 61, right associativity) : io_scope.
Open Scope io_scope.

(** Every event [m] adds to the trace satisfies [P]; every status [m]
    leaves the function with satisfies [Q]. *)
Definition only_events (P : event -> Prop) {A : Type} (m : io A) : Prop :=
  forall s, exists evs,
    trace (snd (m s)) = trace s ++ evs /\ Forall P evs.

Definition returns_only (Q : status -> Prop) {A : Type} (m : io A) : Prop :=
  forall s st, fst (m s) = Return st -> Q st.

(** An event other than the head of a turn of the chunk loop, and a call
    of the decompressor whose two sizes differ. *)
Definition inside_chunk (e : event) : Prop :=
  match e with
  | DEBUG2_chunk _ => False
  | call_decompress _ c u => c <> u
  | _ => True
  end.

Definition sizes_differ (e : event) : Prop :=
  match e with
  | call_decompress _ c u => c <> u
  | _ => True
  end.

(** The statuses the function is left with from inside its body, and the
    statuses of a call. *)
Definition failure_status (st : status) : Prop :=
  st = Ret WIMLIB_ERR_READ \/ st = Ret WIMLIB_ERR_DECOMPRESSION \/
  exists f, st = Fault f.

Definition body_status (st : status) : Prop :=
  st = Ret WIMLIB_ERR_SUCCESS \/ failure_status st.

Definition emit (e : event) : io unit :=
  fun s => (Value tt, mk_io_state (fp s) (out s) (trace s ++ [e])).

(** The two seeks: [true] when the call returns 0. *)
Definition do_fseeko_SEEK_SET (off : Z) : io bool :=
  fun s =>
    let tr := trace s ++ [call_fseeko_SEEK_SET off] in
    match fseeko_SEEK_SET (fp s) off with
    | Some fp' => (Value true, mk_io_state fp' (out s) tr)
    | None => (Value false, mk_io_state (fp s) (out s) tr)
    end.

Definition do_fseeko_SEEK_CUR (off : Z) : io bool :=
  fun s =>
    let tr := trace s ++ [call_fseeko_SEEK_CUR off] in
    match fseeko_SEEK_CUR (fp s) off with
    | Some fp' => (Value true, mk_io_state fp' (out s) tr)
    | None => (Value false, mk_io_state (fp s) (out s) tr)
    end.

(** [fread] of [n] bytes into a buffer of [cap] bytes: the bytes
    delivered; the buffer is overrun when more than [cap] arrive. *)
Definition do_fread (cap n : Z) : io (list byte) :=
  fun s =>
    let '(got, fp') := fread (fp s) n in
    let s' := mk_io_state fp' (out s) (trace s ++ [call_fread (f_pos (fp s)) n]) in
    if cap <? zlength got then (Return (Fault BUFFER_OVERRUN), s')
    else (Value got, s').

(** Writing [bs] at [out_p] and advancing it; [contents_ret] holds [cap]
    bytes in all. *)
Definition write_out (cap : Z) (bs : list byte) : io unit :=
  fun s =>
    if cap <? zlength (out s) + zlength bs
    then (Return (Fault BUFFER_OVERRUN), s)
    else (Value tt, mk_io_state (fp s) (out s ++ bs) (trace s)).

(** [fread(out_p, 1, n, fp)]: the bytes delivered land in [contents_ret]. *)
Definition do_fread_out (cap n : Z) : io (list byte) :=
  fun s =>
    (got <- do_fread (cap - zlength (out s)) n ;;
     write_out cap got ;;
     io_ret got) s.

(** [a[idx]] for an array of [u64]; [None] outside the array. *)
Definition array_get (a : list Z) (idx : Z) : option Z :=
  if idx <? 0 then None else nth_error a (Z.to_nat idx).

(** A decompressor: from the compressed bytes, their number and the
    number of bytes to produce, the bytes produced, or [None] when it
    returns nonzero. *)
Definition decompressor : Type := list byte -> Z -> Z -> option (list byte).

(** The [n]-byte buffer a decompressor was given, after it wrote [d]. *)
Definition buffer_of (n : Z) (d : list byte) : list byte :=
  let w := ztake n d in
  w ++ repeat Byte.x00 (Z.to_nat (n - zlength w)).

(** The entries of a chunk table read into [buf]: [n] little-endian
    integers of [esz] bytes each. *)
Fixpoint decode_entries (esz : nat) (n : nat) (buf : list byte) : list Z :=
  match n with
  | O => []
  | S n' => le_value (firstn esz buf) :: decode_entries esz n' (skipn esz buf)
  end.

Section read_compressed_resource.

Variables lzx_decompress xpress_decompress : decompressor.

Variables resource_compressed_size resource_uncompressed_size
          resource_offset : Z.
Variable resource_ctype : compression_type.
Variables len offset : Z.

Definition decompress : decompressor :=
  match resource_ctype with
  | WIMLIB_COMPRESSION_TYPE_LZX => lzx_decompress
  | _ => xpress_decompress
  end.

Definition num_chunks : Z :=
  u64 (resource_uncompressed_size + WIM_CHUNK_SIZE - 1) / WIM_CHUNK_SIZE.

Definition num_chunk_entries : Z := u64 (num_chunks - 1).

Definition start_chunk : Z := offset / WIM_CHUNK_SIZE.
Definition start_chunk_offset : Z := offset mod WIM_CHUNK_SIZE.

Definition end_chunk : Z := u64 (offset + len - 1) / WIM_CHUNK_SIZE.
Definition end_chunk_offset : Z := u64 (offset + len - 1) mod WIM_CHUNK_SIZE.

Definition num_needed_chunks : Z :=
  let n := u64 (end_chunk - start_chunk + 1) in
  if negb (end_chunk =? u64 (num_chunks - 1)) then u64 (n + 1) else n.

Definition chunk_entry_size : Z :=
  if 2 ^ 32 <=? resource_uncompressed_size then 8 else 4.

Definition chunk_table_size : Z := u64 (chunk_entry_size * num_chunk_entries).

Definition start_table_idx : Z :=
  if start_chunk =? 0 then 0 else u64 (start_chunk - 1).

Definition num_needed_chunk_entries : Z :=
  if start_chunk =? 0 then u64 (num_needed_chunks - 1) else num_needed_chunks.

Definition file_offset_of_needed_chunk_entries : Z :=
  u64 (resource_offset + u64 (start_table_idx * chunk_entry_size)).

(** The number of bytes read from the chunk table ([size]). *)
Definition chunk_tab_buf_size : Z :=
  u64 (num_needed_chunk_entries * chunk_entry_size).

(** Lines 137-203: [chunk_offsets] filled from the table in the file. *)
Definition read_chunk_table : io (list Z) :=
  ok <- do_fseeko_SEEK_SET file_offset_of_needed_chunk_entries ;;
  if negb ok then io_return (Ret WIMLIB_ERR_READ) else
  chunk_tab_buf <- do_fread chunk_tab_buf_size chunk_tab_buf_size ;;
  if negb (zlength chunk_tab_buf =? chunk_tab_buf_size)
  then io_return (Ret WIMLIB_ERR_READ) else
  io_ret ((if start_chunk =? 0 then [0] else []) ++
          decode_entries (Z.to_nat chunk_entry_size)
                         (Z.to_nat num_needed_chunk_entries) chunk_tab_buf).

Definition file_offset_of_first_needed_chunk (chunk_offsets_0 : Z) : Z :=
  u64 (u64 (resource_offset + chunk_table_size) + chunk_offsets_0).

(** Lines 236-268: the compressed and the uncompressed size of chunk [i],
    both [unsigned]; [None] when [chunk_offsets] is indexed outside its
    bounds. *)
Definition chunk_sizes (chunk_offsets : list Z) (i : Z) : option (Z * Z) :=
  if negb (i =? u64 (num_chunks - 1)) then
    match array_get chunk_offsets (u64 (i + 1 - start_chunk)),
          array_get chunk_offsets (u64 (i - start_chunk)) with
    | Some next, Some this => Some (u32 (u64 (next - this)), WIM_CHUNK_SIZE)
    | _, _ => None
    end
  else
    match array_get chunk_offsets (u64 (i - start_chunk)) with
    | Some this =>
        let compressed_chunk_size :=
          u32 (u64 (u64 (resource_compressed_size - chunk_table_size) - this)) in
        let uncompressed_chunk_size :=
          u32 (resource_uncompressed_size mod WIM_CHUNK_SIZE) in
        Some (compressed_chunk_size,
              if uncompressed_chunk_size =? 0 then WIM_CHUNK_SIZE
              else uncompressed_chunk_size)
    | None => None
    end.

Definition start_offset (i : Z) : Z :=
  if i =? start_chunk then start_chunk_offset else 0.

Definition end_offset (i : Z) : Z :=
  if i =? end_chunk then end_chunk_offset else WIM_CHUNK_SIZE - 1.

Definition partial_chunk_size (i : Z) : Z :=
  u64 (end_offset i + 1 - start_offset i).

(** Lines 295-341: chunk [i] with its two sizes known. *)
Definition read_chunk_data (i compressed_chunk_size uncompressed_chunk_size : Z)
  : io unit :=
  let is_partial_chunk :=
    negb (partial_chunk_size i =? uncompressed_chunk_size) in
  if compressed_chunk_size =? uncompressed_chunk_size then
    ok <- (if negb (start_offset i =? 0)
           then do_fseeko_SEEK_CUR (start_offset i)
           else io_ret true) ;;
    if negb ok then io_return (Ret WIMLIB_ERR_READ) else
    got <- do_fread_out len (partial_chunk_size i) ;;
    if negb (zlength got =? partial_chunk_size i)
    then io_return (Ret WIMLIB_ERR_READ)
    else io_ret tt
  else
    compressed_buf <- do_fread (WIM_CHUNK_SIZE - 1) compressed_chunk_size ;;
    if negb (zlength compressed_buf =? compressed_chunk_size)
    then io_return (Ret WIMLIB_ERR_READ) else
    emit (call_decompress resource_ctype compressed_chunk_size
                          uncompressed_chunk_size) ;;
    match decompress compressed_buf compressed_chunk_size
                     uncompressed_chunk_size with
    | None => io_return (Ret WIMLIB_ERR_DECOMPRESSION)
    | Some d =>
        let uncompressed_buf := buffer_of uncompressed_chunk_size d in
        if is_partial_chunk then
          if uncompressed_chunk_size <? start_offset i + partial_chunk_size i
          then io_return (Fault BUFFER_OVERRUN)
          else write_out len (ztake (partial_chunk_size i)
                                    (zdrop (start_offset i) uncompressed_buf))
        else write_out len uncompressed_buf
    end.

(** One turn of the loop of lines 231-346. *)
Definition read_chunk (chunk_offsets : list Z) (i : Z) : io unit :=
  emit (DEBUG2_chunk i) ;;
  match chunk_sizes chunk_offsets i with
  | None => io_return (Fault OUT_OF_BOUNDS)
  | Some (compressed_chunk_size, uncompressed_chunk_size) =>
      read_chunk_data i compressed_chunk_size uncompressed_chunk_size
  end.

(** [for (i = ...; i <= end_chunk; i++)] with [n] turns left. *)
Fixpoint read_chunks (chunk_offsets : list Z) (n : nat) (i : Z) : io unit :=
  match n with
  | O => io_ret tt
  | S n' => read_chunk chunk_offsets i ;; read_chunks chunk_offsets n' (i + 1)
  end.

(** Lines 205-346: the body once [chunk_offsets] is filled. *)
Definition after_chunk_table (chunk_offsets : list Z) : io unit :=
  match array_get chunk_offsets 0 with
  | None => io_return (Fault OUT_OF_BOUNDS)
  | Some chunk_offsets_0 =>
      ok <- do_fseeko_SEEK_SET
              (file_offset_of_first_needed_chunk chunk_offsets_0) ;;
      if negb ok then io_return (Ret WIMLIB_ERR_READ) else
      read_chunks chunk_offsets (Z.to_nat (end_chunk - start_chunk + 1))
                  start_chunk
  end.

Definition read_compressed_resource_body : io unit :=
  if len =? 0 then io_return (Ret WIMLIB_ERR_SUCCESS) else
  io_bind read_chunk_table after_chunk_table.

End read_compressed_resource.

(** The events of a turn of the chunk loop that reads chunk [i] through,
    the read needing [count] bytes of the chunk behind its first [skip]
    bytes, and [u] being the uncompressed size of the chunk: the [DEBUG2]
    line, and then either, for a chunk stored as it is, a seek over the
    bytes that are not needed (if there are any) and the one [fread] of
    the bytes that are; or the one [fread] of the compressed chunk, of a
    size other than [u], and the call of the decompressor on it. *)
Definition reads_chunk (ctype : compression_type) (i skip count u : Z)
  (turn : list event) : Prop :=
  exists pos,
    turn = DEBUG2_chunk i ::
           (if skip =? 0 then [] else [call_fseeko_SEEK_CUR skip]) ++
           [call_fread pos count] \/
    exists c,
      c <> u /\
      turn = [DEBUG2_chunk i; call_fread pos c; call_decompress ctype c u].

(** A function body run from its first line: falling off its end is
    [return 0]. *)
Definition run_io (m : io unit) (fp0 : FILE) : status * io_state :=
  match m (mk_io_state fp0 [] []) with
  | (Value _, s) => (Ret WIMLIB_ERR_SUCCESS, s)
  | (Return st, s) => (st, s)
  end.

Definition read_compressed_resource
  (lzx_decompress xpress_decompress : decompressor) (fp0 : FILE)
  (resource_compressed_size resource_uncompressed_size resource_offset : Z)
  (resource_ctype : compression_type) (len offset : Z)
  : status * io_state :=
  run_io (read_compressed_resource_body lzx_decompress xpress_decompress
            resource_compressed_size resource_uncompressed_size
            resource_offset resource_ctype len offset) fp0.

(** [read_uncompressed_resource(fp, offset, len, contents_ret)]. *)
Definition read_uncompressed_resource (fp0 : FILE) (offset len : Z)
  : status * io_state :=
  run_io (ok <- do_fseeko_SEEK_SET offset ;;
          if negb ok then io_return (Ret WIMLIB_ERR_READ) else
          got <- do_fread_out len len ;;
          if negb (zlength got =? len) then io_return (Ret WIMLIB_ERR_READ)
          else io_ret tt) fp0.

(** The flag bits of [read_wim_resource]; [0] is [no_flags]. *)
Record resource_flags : Set := mk_resource_flags {
  WIMLIB_RESOURCE_FLAG_RAW : bool;
  WIMLIB_RESOURCE_FLAG_MULTITHREADED : bool
}.

Definition no_flags : resource_flags := mk_resource_flags false false.

Section read_wim_resource.

Variables lzx_decompress xpress_decompress : decompressor.

(** [tfopen(path, "rb")]: the stream of the file, [None] for [NULL]. *)
Variable tfopen : string -> option FILE.

Definition is_none_ctype (c : compression_type) : bool :=
  match c with WIMLIB_COMPRESSION_TYPE_NONE => true | _ => false end.

(** [read_wim_resource(lte, buf, size, offset, flags)] built without
    [WITH_FUSE] and without [__WIN32__]: the status and the bytes put in
    [buf]. *)
Definition read_wim_resource (lte : wim_lookup_table_entry)
  (size offset : Z) (flags : resource_flags) : status * list byte :=
  let entry := resource_entry lte in
  let limit := if WIMLIB_RESOURCE_FLAG_RAW flags
               then ResourceEntry.size entry
               else original_size entry in
  if negb (u64 (offset + size) <=? limit) then (Fault ASSERTION_FAILED, [])
  else
  match resource_location lte with
  | RESOURCE_IN_WIM =>
      match wim lte with
      | None => (Fault ASSERTION_FAILED, [])
      | Some w =>
          if WIMLIB_RESOURCE_FLAG_MULTITHREADED flags
          then (Fault ASSERTION_FAILED, [])
          else
          match wim_fp w with
          | None => (Fault ASSERTION_FAILED, [])
          | Some fp0 =>
              let ctype := wim_resource_compression_type lte in
              if negb (negb (is_none_ctype ctype) ||
                       (original_size entry =? ResourceEntry.size entry))
              then (Fault ASSERTION_FAILED, [])
              else
              let '(ret, s) :=
                if WIMLIB_RESOURCE_FLAG_RAW flags || is_none_ctype ctype
                then read_uncompressed_resource fp0
                       (u64 (ResourceEntry.offset entry + offset)) size
                else read_compressed_resource lzx_decompress xpress_decompress
                       fp0 (ResourceEntry.size entry) (original_size entry)
                       (ResourceEntry.offset entry) ctype size offset in
              (ret, out s)
          end
      end
  | RESOURCE_IN_STAGING_FILE
  | RESOURCE_IN_FILE_ON_DISK =>
      match file_on_disk lte with
      | None => (Fault ASSERTION_FAILED, [])
      | Some path =>
          let opened :=
            match file_on_disk_fp lte with
            | Some fp0 => Some fp0
            | None => tfopen path
            end in
          match opened with
          | None => (Ret WIMLIB_ERR_OPEN, [])
          | Some fp0 =>
              let '(ret, s) := read_uncompressed_resource fp0 offset size in
              (ret, out s)
          end
      end
  | RESOURCE_IN_ATTACHED_BUFFER =>
      match attached_buffer lte with
      | None => (Fault ASSERTION_FAILED, [])
      | Some b =>
          if zlength b <? offset + size then (Fault OUT_OF_BOUNDS, [])
          else (Ret WIMLIB_ERR_SUCCESS, ztake size (zdrop offset b))
      end
  | RESOURCE_IN_NTFS_VOLUME =>
      match ntfs_loc lte, attr lte with
      | Some loc, Some a =>
          let offset := if is_reparse_point loc then u64 (offset + 8)
                        else offset in
          let got := ztake size (zdrop offset a) in
          if zlength got =? size then (Ret WIMLIB_ERR_SUCCESS, got)
          else (Ret WIMLIB_ERR_NTFS_3G, got)
      | _, _ => (Fault ASSERTION_FAILED, [])
      end
  | _ => (Fault ASSERTION_FAILED, [])
  end.

End read_wim_resource.

(** The statuses of [read_wim_resource]. *)
Definition read_status (st : status) : Prop :=
  body_status st \/ st = Ret WIMLIB_ERR_OPEN \/ st = Ret WIMLIB_ERR_NTFS_3G.

(** Modelled from the spec: [sha1.h] is not part of the sources at hand.
    The context of an incremental SHA-1 stands for the message fed to it
    so far; finishing it gives "SHA-1 over the output", the digest [sha1]
    of that message. *)
Definition SHA_CTX : Set := list byte.
Definition sha1_init : SHA_CTX := [].
Definition sha1_update (ctx : SHA_CTX) (buf : list byte) (len : Z) : SHA_CTX :=
  ctx ++ ztake len buf.
Definition sha1_final (sha1 : list byte -> list byte) (ctx : SHA_CTX)
  : list byte := sha1 ctx.

Section extract_wim_resource.

Variables lzx_decompress xpress_decompress : decompressor.
Variable tfopen : string -> option FILE.
Variable sha1 : list byte -> list byte.

(** The callback [extract_chunk(buf, len, offset, arg)] and what [arg]
    points to. *)
Variable sink : Type.
Variable extract_chunk : list byte -> Z -> Z -> sink -> wimlib_error_code * sink.

(** The local state of the loop of [extract_wim_resource]; [extracted] is
    not a variable of the code: it collects the bytes handed to
    [extract_chunk]. *)
Record extract_state : Type := mk_extract_state {
  ctx : SHA_CTX;
  arg : sink;
  extracted : list byte
}.

(** [while (bytes_remaining) { ... }]; [None] when [fuel] turns do not
    finish the loop. *)
Fixpoint extract_loop (fuel : nat) (lte : wim_lookup_table_entry)
  (sizeof_buf : Z) (check_hash : bool) (bytes_remaining offset : Z)
  (st : extract_state) : option (wimlib_error_code + fault) * extract_state :=
  if bytes_remaining =? 0 then (Some (inl WIMLIB_ERR_SUCCESS), st) else
  match fuel with
  | O => (None, st)
  | S fuel' =>
      let to_read := Z.min bytes_remaining sizeof_buf in
      match read_wim_resource lzx_decompress xpress_decompress tfopen
              lte to_read offset no_flags with
      | (Fault f, _) => (Some (inr f), st)
      | (Ret WIMLIB_ERR_SUCCESS, buf) =>
          let ctx' := if check_hash then sha1_update (ctx st) buf to_read
                      else ctx st in
          let '(ret, arg') := extract_chunk buf to_read offset (arg st) in
          let st' := mk_extract_state ctx' arg'
                       (extracted st ++ ztake to_read buf) in
          match ret with
          | WIMLIB_ERR_SUCCESS =>
              extract_loop fuel' lte sizeof_buf check_hash
                (u64 (bytes_remaining - to_read)) (u64 (offset + to_read)) st'
          | _ => (Some (inl ret), st')
          end
      | (Ret ret, _) => (Some (inl ret), st)
      end
  end.

(** [extract_wim_resource(lte, size, extract_chunk, extract_chunk_arg)]:
    the status and the state its loop ended in; the status is [None] only
    if the loop did not finish within the turns it was given. *)
Definition extract_wim_resource (lte : wim_lookup_table_entry) (size : Z)
  (extract_chunk_arg : sink) : option status * extract_state :=
  let bytes_remaining := size in
  let sizeof_buf := Z.min WIM_CHUNK_SIZE bytes_remaining in
  let check_hash := size =? wim_resource_size lte in
  let ctx0 := sha1_init in
  match extract_loop (Z.to_nat ((size + WIM_CHUNK_SIZE - 1) / WIM_CHUNK_SIZE))
          lte sizeof_buf check_hash bytes_remaining 0
          (mk_extract_state ctx0 extract_chunk_arg []) with
  | (None, st) => (None, st)
  | (Some (inr f), st) => (Some (Fault f), st)
  | (Some (inl WIMLIB_ERR_SUCCESS), st) =>
      if check_hash then
        let hash := sha1_final sha1 (ctx st) in
        if negb (hashes_equal hash (LookupTable.hash lte))
        then (Some (Ret WIMLIB_ERR_INVALID_RESOURCE_HASH), st)
        else (Some (Ret WIMLIB_ERR_SUCCESS), st)
      else (Some (Ret WIMLIB_ERR_SUCCESS), st)
  | (Some (inl ret), st) => (Some (Ret ret), st)
  end.

End extract_wim_resource.

End Resource.

(** ** Capture from a directory tree ([modify.c], [build_dentry_tree]) *)

Module Modify.
Import BufferIO ResourceEntry LookupTable.

Definition WIM_HASH_SIZE : nat := 20.

(** [struct dentry]: the fields [build_dentry_tree] sets. *)
Inductive dentry : Set :=
| mk_dentry (file_name : string) (is_directory : bool) (hash : list byte)
            (children : list dentry).

Definition dentry_hash (d : dentry) : list byte :=
  match d with mk_dentry _ _ h _ => h end.

Definition dentry_children (d : dentry) : list dentry :=
  match d with mk_dentry _ _ _ c => c end.

(** Modelled from the spec: [dentry.c] is not part of the sources at hand.
    [new_dentry(name)] is a dentry with that name and nothing else set. *)
Definition new_dentry (name : string) : dentry :=
  mk_dentry name false (repeat Byte.x00 WIM_HASH_SIZE) [].

(** Modelled from the spec: [dentry.c] is not part of the sources at hand.
    [link_dentry(child, parent)] makes [child] a child of [parent]; "order
    of children is the source's natural order". *)
Definition link_dentry (child parent : dentry) : dentry :=
  match parent with
  | mk_dentry n d h c => mk_dentry n d h (c ++ [child])
  end.

(** What the calls made for one regular file answer: the return value of
    [sha1sum], and whether [STRDUP] and [new_lookup_table_entry] return
    memory. *)
Record file_calls : Set := mk_file_calls {
  sha1sum_ret : wimlib_error_code;
  STRDUP_ok : bool;
  new_lookup_table_entry_ok : bool
}.

(** A path on disk as [stat], [opendir] and [readdir] show it.  A
    directory lists its entries by name ("." and ".." among them when the
    file system gives them); an entry [stat] fails on has no node. *)
Inductive source : Set :=
| source_file (st_size : Z) (content : list byte) (calls : file_calls)
| source_dir (opendir_ok : bool) (entries : list (string * option source)).

Definition is_dot_or_dotdot (d_name : string) : bool :=
  (d_name =? ".")%string || (d_name =? "..")%string.

Section build_dentry_tree.

(** The SHA-1 of a message; [sha1sum(path, md)] puts the digest of the
    content of the file in [md]. *)
Variable sha1 : list byte -> list byte.

(** The [else] branch of [build_dentry_tree], lines 104-144: a file that
    is not a directory. *)
Definition capture_file (root_name source_path : string) (st_size : Z)
  (content : list byte) (calls : file_calls) (table : lookup_table)
  : wimlib_error_code * dentry * lookup_table :=
  match sha1sum_ret calls with
  | WIMLIB_ERR_SUCCESS =>
      let root := mk_dentry root_name false (sha1 content) [] in
      match lookup_resource table (dentry_hash root) with
      | Some _ =>
          (WIMLIB_ERR_SUCCESS, root, refcnt_increment table (dentry_hash root))
      | None =>
          if negb (STRDUP_ok calls) then (WIMLIB_ERR_NOMEM, root, table)
          else if negb (new_lookup_table_entry_ok calls)
          then (WIMLIB_ERR_NOMEM, root, table)
          else
            let lte :=
              mk_lte (mk_resource_entry st_size 0 0 st_size)
                     RESOURCE_NONEXISTENT (dentry_hash root) 1 1
                     None (Some source_path) None None None None in
            (WIMLIB_ERR_SUCCESS, root, lookup_table_insert table lte)
      end
  | ret => (ret, new_dentry root_name, table)
  end.

(** The [while ((p = readdir(dir)) != NULL)] loop of lines 86-102 over the
    entries [readdir] still has to deliver; [build] is the recursive
    call. *)
Fixpoint readdir_loop
  (build : string -> string -> source -> lookup_table ->
           wimlib_error_code * dentry * lookup_table)
  (source_path : string) (entries : list (string * option source))
  (root : dentry) (table : lookup_table)
  : wimlib_error_code * dentry * lookup_table :=
  match entries with
  | [] => (WIMLIB_ERR_SUCCESS, root, table)
  | (d_name, child_source) :: rest =>
      if is_dot_or_dotdot d_name
      then readdir_loop build source_path rest root table
      else
        match child_source with
        | None => (WIMLIB_ERR_STAT, root, table)
        | Some c =>
            let name := (source_path ++ "/" ++ d_name)%string in
            match build d_name name c table with
            | (WIMLIB_ERR_SUCCESS, child, table') =>
                readdir_loop build source_path rest (link_dentry child root)
                             table'
            | (ret, _, table') => (ret, root, table')
            end
        end
  end.

(** [build_dentry_tree(root, source_path, root_stat, lookup_table)] for
    the dentry [new_dentry(root_name)]: the return value, the dentry and
    the lookup table afterwards. *)
Fixpoint build_dentry_tree (root_name source_path : string) (src : source)
  (table : lookup_table) {struct src}
  : wimlib_error_code * dentry * lookup_table :=
  match src with
  | source_file st_size content calls =>
      capture_file root_name source_path st_size content calls table
  | source_dir opendir_ok entries =>
      let root := mk_dentry root_name true (repeat Byte.x00 WIM_HASH_SIZE) [] in
      if negb opendir_ok then (WIMLIB_ERR_OPEN, root, table)
      else readdir_loop build_dentry_tree source_path entries root table
  end.

End build_dentry_tree.

(** The contents of the regular files [build_dentry_tree] reaches in a
    tree, in the order it reaches them; it stops at an entry [stat] fails
    on. *)
Fixpoint captured_entries (captured : source -> list (list byte))
  (entries : list (string * option source)) : list (list byte) :=
  match entries with
  | [] => []
  | (d_name, child_source) :: rest =>
      if is_dot_or_dotdot d_name then captured_entries captured rest
      else match child_source with
           | None => []
           | Some c => captured c ++ captured_entries captured rest
           end
  end.

Fixpoint captured_files (src : source) : list (list byte) :=
  match src with
  | source_file _ content _ => [content]
  | source_dir _ entries => captured_entries captured_files entries
  end.

(** A capture function [build] interns the contents of the files of
    [src], one after the other. *)
Definition build_interns (sha1 : list byte -> list byte)
  (build : string -> string -> source -> lookup_table ->
           wimlib_error_code * dentry * lookup_table) (src : source) : Prop :=
  forall root_name source_path t d t',
    build root_name source_path src t = (WIMLIB_ERR_SUCCESS, d, t') ->
    interned_all t (map sha1 (captured_files src)) t'.

End Modify.

(** ** Capture from an NTFS volume ([ntfs-capture.c],
       [ntfs_attr_sha1sum] and [capture_ntfs_streams]) *)

Module NtfsCapture.
Import Int BufferIO ResourceEntry LookupTable.

Inductive ATTR_TYPES : Set := AT_DATA | AT_REPARSE_POINT | AT_OTHER.

Definition ATTR_TYPES_eqb (a b : ATTR_TYPES) : bool :=
  match a, b with
  | AT_DATA, AT_DATA | AT_REPARSE_POINT, AT_REPARSE_POINT
  | AT_OTHER, AT_OTHER => true
  | _, _ => false
  end.

(** An attribute of an NTFS inode ([ATTR_RECORD]) with what the calls made
    for it answer: whether [ntfs_get_attribute_value_length] fails (it
    then returns 0 and sets [errno]), whether [ntfs_attr_open] gives an
    attribute, whether [ntfs_attr_pread] delivers the bytes asked for,
    whether [CALLOC], [MALLOC] and [new_lookup_table_entry] return memory,
    the return value and the string of [utf16_to_utf8] on the name, and
    whether [inode_add_ads] returns an entry. *)
Record ATTR_RECORD : Set := mk_ATTR_RECORD {
  type : ATTR_TYPES;
  name : list Z;
  data : list byte;
  value_length_fails : bool;
  ntfs_attr_open_ok : bool;
  ntfs_attr_pread_ok : bool;
  CALLOC_ntfs_loc_ok : bool;
  MALLOC_path_ok : bool;
  MALLOC_stream_name_ok : bool;
  new_lookup_table_entry_ok : bool;
  utf16_to_utf8_ret : wimlib_error_code;
  stream_name_utf8 : string;
  inode_add_ads_ok : bool
}.

Definition name_length (ar : ATTR_RECORD) : Z := zlength (name ar).

(** [ntfs_get_attribute_value_length(attr)]. *)
Definition ntfs_get_attribute_value_length (ar : ATTR_RECORD) : Z :=
  if value_length_fails ar then 0 else zlength (data ar).

(** [struct wim_ads_entry] and [struct wim_inode]: a pointer to a lookup
    table entry is the entry's digest, [None] is [NULL]. *)
Record wim_ads_entry : Set := mk_wim_ads_entry {
  ads_stream_name : string;
  ads_lte : option (list byte)
}.

Record wim_inode : Set := mk_wim_inode {
  i_lte : option (list byte);
  i_reparse_tag : Z;
  ads_entries : list wim_ads_entry
}.

(** Modelled from the spec: [lookup_table.c] is not part of the sources at
    hand.  [new_lookup_table_entry()] gives a zeroed entry that counts one
    reference: interning "returns the existing entry if present (and
    increments refcount) or inserts a new one", so that a table entry
    counts the streams that refer to it. *)
Definition new_lookup_table_entry : wim_lookup_table_entry :=
  mk_lte (mk_resource_entry 0 0 0 0) RESOURCE_NONEXISTENT [] 1 1
         None None None None None None.

Section capture_ntfs_streams.

Variable sha1 : list byte -> list byte.

(** [BUFFER_SIZE], the size of [buf] in [ntfs_attr_sha1sum]. *)
Variable BUFFER_SIZE : Z.

(** [free_lookup_table_entry(lte)] as the lookup table sees it: [lte] is
    given by its digest, [None] is [NULL].  The function is not part of
    the sources at hand. *)
Variable free_lookup_table_entry :
  lookup_table -> option (list byte) -> lookup_table.

(** [ntfs_attr_pread(na, pos, count, buf)]: the bytes delivered, [None]
    when the call returns an error. *)
Definition ntfs_attr_pread (ar : ATTR_RECORD) (pos count : Z)
  : option (list byte) :=
  if ntfs_attr_pread_ok ar then Some (ztake count (zdrop pos (data ar)))
  else None.

(** The loop of [ntfs_attr_sha1sum], lines 231-238: [None] when [fuel]
    turns do not finish it, [Some None] at [out_error]. *)
Fixpoint sha1sum_loop (fuel : nat) (ar : ATTR_RECORD) (pos bytes_remaining : Z)
  (ctx : Resource.SHA_CTX) : option (option Resource.SHA_CTX) :=
  if bytes_remaining =? 0 then Some (Some ctx) else
  match fuel with
  | O => None
  | S fuel' =>
      let to_read := Z.min bytes_remaining BUFFER_SIZE in
      match ntfs_attr_pread ar pos to_read with
      | None => Some None
      | Some buf =>
          if negb (zlength buf =? to_read) then Some None
          else sha1sum_loop fuel' ar (pos + to_read)
                 (bytes_remaining - to_read)
                 (Resource.sha1_update ctx buf to_read)
      end
  end.

(** [ntfs_attr_sha1sum(ni, ar, md, is_reparse_point, reparse_tag_ret)]:
    the return value, [md] and [*reparse_tag_ret]. *)
Definition ntfs_attr_sha1sum (ar : ATTR_RECORD) (is_reparse_point : bool)
  : option (wimlib_error_code * list byte * Z) :=
  if negb (ntfs_attr_open_ok ar) then Some (WIMLIB_ERR_NTFS_3G, [], 0) else
  let bytes_remaining := zlength (data ar) in
  let header :=
    if is_reparse_point then
      match ntfs_attr_pread ar 0 8 with
      | None => None
      | Some buf =>
          if negb (zlength buf =? 8) then None
          else Some (le_value (firstn 4 buf), 8, bytes_remaining - 8)
      end
    else Some (0, 0, bytes_remaining) in
  match header with
  | None => Some (WIMLIB_ERR_NTFS_3G, [], 0)
  | Some (reparse_tag, pos, bytes_remaining) =>
      match sha1sum_loop (S (List.length (data ar))) ar pos bytes_remaining
              Resource.sha1_init with
      | None => None
      | Some None => Some (WIMLIB_ERR_NTFS_3G, [], reparse_tag)
      | Some (Some ctx) =>
          Some (WIMLIB_ERR_SUCCESS, Resource.sha1_final sha1 ctx, reparse_tag)
      end
  end.

(** Lines 305-350: the lookup table entry for a stream with digest
    [attr_hash], made or found: the table afterwards, or the error. *)
Definition intern_stream (type0 : ATTR_TYPES) (path : string)
  (ar : ATTR_RECORD) (data_size : Z) (attr_hash : list byte)
  (table : lookup_table)
  : wimlib_error_code * lookup_table :=
  match lookup_resource table attr_hash with
  | Some _ => (WIMLIB_ERR_SUCCESS, refcnt_increment table attr_hash)
  | None =>
      if negb (CALLOC_ntfs_loc_ok ar) then (WIMLIB_ERR_NOMEM, table) else
      if negb (MALLOC_path_ok ar) then (WIMLIB_ERR_NOMEM, table) else
      if negb (name_length ar =? 0) && negb (MALLOC_stream_name_ok ar)
      then (WIMLIB_ERR_NOMEM, table) else
      if negb (new_lookup_table_entry_ok ar) then (WIMLIB_ERR_NOMEM, table)
      else
        let is_reparse := ATTR_TYPES_eqb type0 AT_REPARSE_POINT in
        let ntfs_loc :=
          mk_ntfs_location path
            (if name_length ar =? 0 then [] else name ar)
            (if name_length ar =? 0 then 0 else name_length ar)
            is_reparse in
        let stream_size :=
          if is_reparse then u64 (data_size - 8) else data_size in
        let lte := new_lookup_table_entry in
        let lte :=
          mk_lte (mk_resource_entry stream_size (flags (resource_entry lte))
                    (offset (resource_entry lte)) stream_size)
                 RESOURCE_IN_NTFS_VOLUME attr_hash (refcnt lte)
                 (part_number lte) (wim lte) (file_on_disk lte)
                 (file_on_disk_fp lte) (attached_buffer lte)
                 (Some ntfs_loc) (attr lte) in
        (WIMLIB_ERR_SUCCESS, lookup_table_insert table lte)
  end.

(** The state the loop of [capture_ntfs_streams] works on. *)
Record capture_state : Set := mk_capture_state {
  table : lookup_table;
  d_inode : wim_inode
}.

(** Lines 352-392: the stream is put in the inode; [inl] goes on with the
    loop, [inr] is the value returned after [out_free_lte]. *)
Definition attach_stream (ar : ATTR_RECORD) (lte : option (list byte))
  (st : capture_state) : capture_state + (wimlib_error_code * capture_state) :=
  let inode := d_inode st in
  if name_length ar =? 0 then
    match i_lte inode with
    | Some _ =>
        inl (mk_capture_state (free_lookup_table_entry (table st) lte) inode)
    | None =>
        inl (mk_capture_state (table st)
               (mk_wim_inode lte (i_reparse_tag inode) (ads_entries inode)))
    end
  else
    let out_free_lte ret :=
      inr (ret, mk_capture_state (free_lookup_table_entry (table st) lte)
                  inode) in
    match utf16_to_utf8_ret ar with
    | WIMLIB_ERR_SUCCESS =>
        if negb (inode_add_ads_ok ar) then out_free_lte WIMLIB_ERR_SUCCESS
        else
          inl (mk_capture_state (table st)
                 (mk_wim_inode (i_lte inode) (i_reparse_tag inode)
                    (ads_entries inode ++
                     [mk_wim_ads_entry (stream_name_utf8 ar) lte])))
    | ret => out_free_lte ret
    end.

(** One turn of the loop of lines 272-393 for the attribute [ar] that
    [ntfs_attr_lookup] found; the outer [None] is a checksum loop that ran
    out of turns. *)
Definition capture_stream (type0 : ATTR_TYPES) (path : string)
  (ar : ATTR_RECORD) (st : capture_state)
  : option (capture_state + (wimlib_error_code * capture_state)) :=
  let data_size := ntfs_get_attribute_value_length ar in
  if data_size =? 0 then
    if value_length_fails ar then Some (inr (WIMLIB_ERR_NTFS_3G, st))
    else Some (attach_stream ar None st)
  else
    let is_reparse := ATTR_TYPES_eqb type0 AT_REPARSE_POINT in
    if is_reparse && (data_size <? 8) then Some (inr (WIMLIB_ERR_NTFS_3G, st))
    else
      match ntfs_attr_sha1sum ar is_reparse with
      | None => None
      | Some (WIMLIB_ERR_SUCCESS, attr_hash, reparse_tag) =>
          let inode := d_inode st in
          let inode :=
            if is_reparse
            then mk_wim_inode (i_lte inode) reparse_tag (ads_entries inode)
            else inode in
          match intern_stream type0 path ar data_size attr_hash (table st) with
          | (WIMLIB_ERR_SUCCESS, table') =>
              Some (attach_stream ar (Some attr_hash)
                      (mk_capture_state table' inode))
          | (ret, table') => Some (inr (ret, mk_capture_state table' inode))
          end
      | Some (ret, _, _) => Some (inr (ret, st))
      end.

(** [while (!ntfs_attr_lookup(type, ...))] over the attributes the search
    still has to visit. *)
Fixpoint capture_loop (type0 : ATTR_TYPES) (path : string)
  (attrs : list ATTR_RECORD) (st : capture_state)
  : option (wimlib_error_code * capture_state) :=
  match attrs with
  | [] => Some (WIMLIB_ERR_SUCCESS, st)
  | ar :: rest =>
      match capture_stream type0 path ar st with
      | None => None
      | Some (inl st') => capture_loop type0 path rest st'
      | Some (inr r) => Some r
      end
  end.

(** [capture_ntfs_streams(dentry, ni, path, path_len, lookup_table,
    ntfs_vol_p, type)] on an inode with the attributes [ni]; the search
    context is taken to be available. *)
Definition capture_ntfs_streams (inode : wim_inode) (ni : list ATTR_RECORD)
  (path : string) (lookup_table0 : lookup_table) (type0 : ATTR_TYPES)
  : option (wimlib_error_code * capture_state) :=
  capture_loop type0 path
    (filter (fun ar => ATTR_TYPES_eqb (type ar) type0) ni)
    (mk_capture_state lookup_table0 inode).

End capture_ntfs_streams.

(** The bytes of a stream that are checksummed (a reparse point without
    its header of 8 bytes), and the digests of the streams that are not
    empty, in the order of the attributes. *)
Definition stream_payload (type0 : ATTR_TYPES) (ar : ATTR_RECORD) : list byte :=
  zdrop (if ATTR_TYPES_eqb type0 AT_REPARSE_POINT then 8 else 0) (data ar).

Definition stream_digests (sha1 : list byte -> list byte) (type0 : ATTR_TYPES)
  (attrs : list ATTR_RECORD) : list (list byte) :=
  flat_map (fun ar => if zlength (data ar) =? 0 then []
                      else [sha1 (stream_payload type0 ar)]) attrs.

(** A stream without a name: the data of the file itself. *)
Definition unnamed (ar : ATTR_RECORD) : bool := name_length ar =? 0.

End NtfsCapture.

(** ** Windows-specific XML properties ([xml_windows.c]) *)

Module XmlWindows.
Import Int BufferIO.
Local Open Scope string_scope.
Local Open Scope Z_scope.

Definition dquote : string := String (ascii_of_nat 34) EmptyString.

(** Modelled from the spec: [registry.h] is not part of the sources at
    hand.  The result of "a registry hive operation"; the code tells
    [HIVE_OK] and [HIVE_OUT_OF_MEMORY] from the rest. *)
Inductive hive_status : Set :=
| HIVE_OK
| HIVE_CORRUPT
| HIVE_UNSUPPORTED
| HIVE_KEY_NOT_FOUND
| HIVE_VALUE_NOT_FOUND
| HIVE_VALUE_IS_WRONG_TYPE
| HIVE_OUT_OF_MEMORY
| HIVE_ITERATION_STOPPED.

Definition is_HIVE_OK (s : hive_status) : bool :=
  match s with HIVE_OK => true | _ => false end.

Definition is_HIVE_OUT_OF_MEMORY (s : hive_status) : bool :=
  match s with HIVE_OUT_OF_MEMORY => true | _ => false end.

Definition is_WIMLIB_ERR_NOMEM (c : wimlib_error_code) : bool :=
  match c with WIMLIB_ERR_NOMEM => true | _ => false end.

(** A printed message: the macro it was written with, its format and the
    arguments of the format. *)
Inductive message_macro : Set := by_WARNING | by_XML_WARN | by_ERROR.

Inductive printf_arg : Set :=
| arg_string (s : string)
| arg_number (n : Z).

Record message : Set := mk_message {
  macro : message_macro;
  format : string;
  args : list printf_arg
}.

Definition is_XML_WARN (m : message) : bool :=
  match macro m with by_XML_WARN => true | _ => false end.

(** The XML document of the image: the properties set, latest last. *)
Definition xml_info : Set := list (string * string).

(** [struct windows_info_ctx]; [wim_xml] is the XML document of
    [ctx->wim], and [printed], which is not a field of the structure,
    collects the messages printed. *)
Record windows_info_ctx : Set := mk_ctx {
  wim_xml : xml_info;
  image : Z;
  oom_encountered : bool;
  debug_enabled : bool;
  printed : list message
}.

(** A function that takes [ctx]: its value and the context afterwards. *)
Definition M (A : Type) : Type := windows_info_ctx -> A * windows_info_ctx.

Definition ret {A : Type} (a : A) : M A := fun ctx => (a, ctx).

Definition bind {A B : Type} (m : M A) (k : A -> M B) : M B :=
  fun ctx => let '(a, ctx') := m ctx in k a ctx'.

Declare Scope xml_scope.
Delimit Scope xml_scope with xml.
Notation "x <- m ;; k" := (bind m (fun x => k))
  (at level 61, m at next level, right associativity) : xml_scope.
Notation "m ;; k" := (bind m (fun _ => k))
  (at level 61, right associativity) : xml_scope.
Open Scope xml_scope.

Definition print (m : message) : M unit :=
  fun ctx => (tt, mk_ctx (wim_xml ctx) (image ctx) (oom_encountered ctx)
                         (debug_enabled ctx) (printed ctx ++ [m])%list).

Definition WARNING (fmt : string) (a : list printf_arg) : M unit :=
  print (mk_message by_WARNING fmt a).

Definition ERROR (fmt : string) (a : list printf_arg) : M unit :=
  print (mk_message by_ERROR fmt a).

(** [#define XML_WARN(format, ...) if (ctx->debug_enabled) WARNING(...)] *)
Definition XML_WARN (fmt : string) (a : list printf_arg) : M unit :=
  fun ctx =>
    if debug_enabled ctx then print (mk_message by_XML_WARN fmt a) ctx
    else (tt, ctx).

(** [ctx->oom_encountered |= b] *)
Definition or_oom_encountered (b : bool) : M unit :=
  fun ctx => (tt, mk_ctx (wim_xml ctx) (image ctx) (oom_encountered ctx || b)
                         (debug_enabled ctx) (printed ctx)).

(** The path separator of a build that is not for Windows. *)
Definition WIMLIB_WIM_PATH_SEPARATOR_STRING : string := "/".

Definition wim_path (components : list string) : string :=
  fold_right (fun c rest => (WIMLIB_WIM_PATH_SEPARATOR_STRING ++ c ++ rest)%string)
             EmptyString components.

(** Two contexts that differ at most in the debugging switch, off in the
    first, and in the messages written with [XML_WARN]; and a function
    that keeps two such contexts such and gives the same value in both. *)
Definition same_but_XML_WARN (c1 c2 : windows_info_ctx) : Prop :=
  wim_xml c1 = wim_xml c2 /\ image c1 = image c2 /\
  oom_encountered c1 = oom_encountered c2 /\
  debug_enabled c1 = false /\
  printed c1 = filter (fun m => negb (is_XML_WARN m)) (printed c2).

Definition debug_only_adds_XML_WARN {A : Type} (m : M A) : Prop :=
  forall c1 c2,
    same_but_XML_WARN c1 c2 ->
    fst (m c1) = fst (m c2) /\ same_but_XML_WARN (snd (m c1)) (snd (m c2)).

(** A function that only adds to the messages printed and leaves the
    debugging switch as it is. *)
Definition only_prints {A : Type} (m : M A) : Prop :=
  forall c, debug_enabled (snd (m c)) = debug_enabled c /\
            exists l, printed (snd (m c)) = (printed c ++ l)%list.

Definition software_hive_path : string :=
  wim_path ["Windows"; "System32"; "config"; "SOFTWARE"].
Definition system_hive_path : string :=
  wim_path ["Windows"; "System32"; "config"; "SYSTEM"].
Definition kernel32_dll_path : string :=
  wim_path ["Windows"; "System32"; "kernel32.dll"].

Definition language_id_map : list (Z * Z) :=
  [(0x0000, 0); (0x0001, 6); (0x0002, 12); (0x0003, 18);
   (0x0004, 24); (0x0005, 30); (0x0006, 36); (0x0007, 42);
   (0x0008, 48); (0x0009, 54); (0x000a, 60); (0x000b, 66);
   (0x000c, 72); (0x000d, 78); (0x000e, 84); (0x000f, 90);
   (0x0010, 96); (0x0011, 102); (0x0012, 108); (0x0013, 114);
   (0x0014, 120); (0x0015, 126); (0x0016, 132); (0x0017, 138);
   (0x0018, 144); (0x0019, 150); (0x001a, 156); (0x001b, 162);
   (0x001c, 168); (0x001d, 174); (0x001e, 180); (0x001f, 186);
   (0x0020, 192); (0x0021, 198); (0x0022, 204); (0x0023, 210);
   (0x0024, 216); (0x0025, 222); (0x0026, 228); (0x0027, 234);
   (0x0028, 240); (0x0029, 251); (0x002a, 257); (0x002b, 263);
   (0x002c, 269); (0x002d, 280); (0x002e, 286); (0x002f, 293);
   (0x0030, 299); (0x0031, 305); (0x0032, 311); (0x0033, 317);
   (0x0034, 323); (0x0035, 329); (0x0036, 335); (0x0037, 341);
   (0x0038, 347); (0x0039, 353); (0x003a, 359); (0x003b, 365);
   (0x003c, 371); (0x003d, 377); (0x003e, 384); (0x003f, 390);
   (0x0040, 396); (0x0041, 402); (0x0042, 408); (0x0043, 414);
   (0x0044, 425); (0x0045, 431); (0x0046, 437); (0x0047, 443);
   (0x0048, 449); (0x0049, 455); (0x004a, 461); (0x004b, 467);
   (0x004c, 473); (0x004d, 479); (0x004e, 485); (0x004f, 491);
   (0x0050, 497); (0x0051, 503); (0x0052, 509); (0x0053, 515);
   (0x0054, 521); (0x0055, 527); (0x0056, 533); (0x0057, 539);
   (0x0058, 546); (0x0059, 553); (0x005a, 564); (0x005b, 571);
   (0x005c, 577); (0x005d, 589); (0x005e, 600); (0x005f, 606);
   (0x0060, 618); (0x0061, 629); (0x0062, 635); (0x0063, 641);
   (0x0064, 647); (0x0065, 654); (0x0066, 660); (0x0067, 667);
   (0x0068, 678); (0x0069, 689); (0x006a, 696); (0x006b, 702);
   (0x006c, 709); (0x006d, 716); (0x006e, 722); (0x006f, 728);
   (0x0070, 734); (0x0071, 740); (0x0072, 746); (0x0073, 752);
   (0x0074, 758); (0x0075, 764); (0x0076, 771); (0x0077, 778);
   (0x0078, 784); (0x0079, 790); (0x007a, 798); (0x007c, 805);
   (0x007e, 812); (0x007f, 818); (0x0080, 819); (0x0081, 825);
   (0x0082, 831); (0x0083, 837); (0x0084, 843); (0x0085, 850);
   (0x0086, 857); (0x0087, 869); (0x0088, 875); (0x008c, 881);
   (0x0091, 888); (0x0092, 894); (0x0400, 905); (0x0401, 911);
   (0x0402, 917); (0x0403, 923); (0x0404, 929); (0x0405, 935);
   (0x0406, 941); (0x0407, 947); (0x0408, 953); (0x0409, 959);
   (0x040a, 965); (0x040b, 978); (0x040c, 984); (0x040d, 990);
   (0x040e, 996); (0x040f, 1002); (0x0410, 1008); (0x0411, 1014);
   (0x0412, 1020); (0x0413, 1026); (0x0414, 1032); (0x0415, 1038);
   (0x0416, 1044); (0x0417, 1050); (0x0418, 1056); (0x0419, 1062);
   (0x041a, 1068); (0x041b, 1074); (0x041c, 1080); (0x041d, 1086);
   (0x041e, 1092); (0x041f, 1098); (0x0420, 1104); (0x0421, 1110);
   (0x0422, 1116); (0x0423, 1122); (0x0424, 1128); (0x0425, 1134);
   (0x0426, 1140); (0x0427, 1146); (0x0428, 1152); (0x0429, 1163);
   (0x042a, 1169); (0x042b, 1175); (0x042c, 1181); (0x042d, 1192);
   (0x042e, 1198); (0x042f, 1205); (0x0430, 1211); (0x0431, 1217);
   (0x0432, 1223); (0x0433, 1229); (0x0434, 1235); (0x0435, 1241);
   (0x0436, 1247); (0x0437, 1253); (0x0438, 1259); (0x0439, 1265);
   (0x043a, 1271); (0x043b, 1277); (0x043d, 1283); (0x043e, 1290);
   (0x043f, 1296); (0x0440, 1302); (0x0441, 1308); (0x0442, 1314);
   (0x0443, 1320); (0x0444, 1331); (0x0445, 1337); (0x0446, 1343);
   (0x0447, 1349); (0x0448, 1355); (0x0449, 1361); (0x044a, 1367);
   (0x044b, 1373); (0x044c, 1379); (0x044d, 1385); (0x044e, 1391);
   (0x044f, 1397); (0x0450, 1403); (0x0451, 1409); (0x0452, 1415);
   (0x0453, 1421); (0x0454, 1427); (0x0455, 1433); (0x0456, 1439);
   (0x0457, 1445); (0x0458, 1452); (0x0459, 1459); (0x045a, 1470);
   (0x045b, 1477); (0x045c, 1483); (0x045d, 1495); (0x045e, 1506);
   (0x045f, 1512); (0x0460, 1524); (0x0461, 1535); (0x0462, 1541);
   (0x0463, 1547); (0x0464, 1553); (0x0465, 1560); (0x0466, 1566);
   (0x0467, 1573); (0x0468, 1579); (0x0469, 1590); (0x046a, 1597);
   (0x046b, 1603); (0x046c, 1610); (0x046d, 1617); (0x046e, 1623);
   (0x046f, 1629); (0x0470, 1635); (0x0471, 1641); (0x0472, 1647);
   (0x0473, 1653); (0x0474, 1659); (0x0475, 1665); (0x0476, 1672);
   (0x0477, 1679); (0x0478, 1685); (0x0479, 1691); (0x047a, 1699);
   (0x047c, 1706); (0x047e, 1713); (0x0480, 1719); (0x0481, 1725);
   (0x0482, 1731); (0x0483, 1737); (0x0484, 1743); (0x0485, 1750);
   (0x0486, 1757); (0x0487, 1769); (0x0488, 1775); (0x048c, 1781);
   (0x0491, 1788); (0x0492, 1794); (0x0501, 1805); (0x05fe, 1814);
   (0x0800, 1824); (0x0801, 1830); (0x0803, 1836); (0x0804, 1851);
   (0x0807, 1857); (0x0809, 1863); (0x080a, 1869); (0x080c, 1875);
   (0x0810, 1881); (0x0813, 1887); (0x0814, 1893); (0x0816, 1899);
   (0x0818, 1905); (0x0819, 1911); (0x081a, 1917); (0x081d, 1928);
   (0x0820, 1934); (0x082c, 1940); (0x082e, 1951); (0x0832, 1958);
   (0x083b, 1964); (0x083c, 1970); (0x083e, 1976); (0x0843, 1982);
   (0x0845, 1993); (0x0846, 1999); (0x0849, 2010); (0x0850, 2016);
   (0x0859, 2027); (0x085d, 2038); (0x085f, 2049); (0x0860, 2061);
   (0x0861, 2072); (0x0867, 2078); (0x086b, 2089); (0x0873, 2096);
   (0x0901, 2102); (0x09ff, 2116); (0x0c00, 2126); (0x0c01, 2132);
   (0x0c04, 2138); (0x0c07, 2144); (0x0c09, 2150); (0x0c0a, 2156);
   (0x0c0c, 2162); (0x0c1a, 2168); (0x0c3b, 2179); (0x0c50, 2185);
   (0x0c51, 2196); (0x0c6b, 2202); (0x1000, 2209); (0x1001, 2220);
   (0x1004, 2226); (0x1007, 2232); (0x1009, 2238); (0x100a, 2244);
   (0x100c, 2250); (0x101a, 2256); (0x103b, 2262); (0x105f, 2269);
   (0x1401, 2281); (0x1404, 2287); (0x1407, 2293); (0x1409, 2299);
   (0x140a, 2305); (0x140c, 2311); (0x141a, 2317); (0x143b, 2328);
   (0x1801, 2335); (0x1809, 2341); (0x180a, 2347); (0x180c, 2353);
   (0x181a, 2359); (0x183b, 2370); (0x1c01, 2377); (0x1c09, 2383);
   (0x1c0a, 2389); (0x1c0c, 2395); (0x1c1a, 2402); (0x1c3b, 2413);
   (0x2000, 2420); (0x2001, 2426); (0x2009, 2432); (0x200a, 2438);
   (0x200c, 2444); (0x201a, 2450); (0x203b, 2461); (0x2400, 2468);
   (0x2401, 2474); (0x2409, 2480); (0x240a, 2487); (0x240c, 2493);
   (0x241a, 2499); (0x243b, 2510); (0x2800, 2517); (0x2801, 2523);
   (0x2809, 2529); (0x280a, 2535); (0x280c, 2541); (0x281a, 2547);
   (0x2c00, 2558); (0x2c01, 2564); (0x2c09, 2570); (0x2c0a, 2576);
   (0x2c0c, 2582); (0x2c1a, 2588); (0x3000, 2599); (0x3001, 2605);
   (0x3009, 2611); (0x300a, 2617); (0x300c, 2623); (0x301a, 2629);
   (0x3400, 2640); (0x3401, 2646); (0x3409, 2652); (0x340a, 2658);
   (0x340c, 2664); (0x3800, 2670); (0x3801, 2676); (0x3809, 2682);
   (0x380a, 2688); (0x380c, 2694); (0x3c00, 2700); (0x3c01, 2706);
   (0x3c09, 2712); (0x3c0a, 2718); (0x3c0c, 2724); (0x4000, 2730);
   (0x4001, 2736); (0x4009, 2742); (0x400a, 2748); (0x4400, 2754);
   (0x4409, 2760); (0x440a, 2766); (0x4800, 2772); (0x4809, 2778);
   (0x480a, 2784); (0x4c00, 2790); (0x4c0a, 2796); (0x500a, 2802);
   (0x540a, 2808); (0x580a, 2814); (0x5c0a, 2821); (0x641a, 2827);
   (0x681a, 2838); (0x6c1a, 2849); (0x701a, 2860); (0x703b, 2871);
   (0x742c, 2878); (0x743b, 2889); (0x7804, 2896); (0x7814, 2902);
   (0x781a, 2908); (0x782c, 2919); (0x783b, 2930); (0x7843, 2937);
   (0x7850, 2948); (0x785d, 2954); (0x785f, 2965); (0x7c04, 2977);
   (0x7c14, 2983); (0x7c1a, 2989); (0x7c28, 3000); (0x7c2e, 3011);
   (0x7c3b, 3018); (0x7c43, 3025); (0x7c46, 3036); (0x7c50, 3047);
   (0x7c59, 3058); (0x7c5c, 3069); (0x7c5d, 3081); (0x7c5f, 3092);
   (0x7c67, 3104); (0x7c68, 3115); (0x7c86, 3126); (0x7c92, 3138)].

Definition language_name_list : list string :=
  ["en-US"; "ar-SA"; "bg-BG"; "ca-ES"; "zh-CN"; "cs-CZ"; "da-DK";
   "de-DE"; "el-GR"; "en-US"; "es-ES"; "fi-FI"; "fr-FR"; "he-IL";
   "hu-HU"; "is-IS"; "it-IT"; "ja-JP"; "ko-KR"; "nl-NL"; "nb-NO";
   "pl-PL"; "pt-BR"; "rm-CH"; "ro-RO"; "ru-RU"; "hr-HR"; "sk-SK";
   "sq-AL"; "sv-SE"; "th-TH"; "tr-TR"; "ur-PK"; "id-ID"; "uk-UA";
   "be-BY"; "sl-SI"; "et-EE"; "lv-LV"; "lt-LT"; "tg-Cyrl-TJ"; "fa-IR";
   "vi-VN"; "hy-AM"; "az-Latn-AZ"; "eu-ES"; "hsb-DE"; "mk-MK"; "st-ZA";
   "ts-ZA"; "tn-ZA"; "ve-ZA"; "xh-ZA"; "zu-ZA"; "af-ZA"; "ka-GE";
   "fo-FO"; "hi-IN"; "mt-MT"; "se-NO"; "ga-IE"; "yi-001"; "ms-MY";
   "kk-KZ"; "ky-KG"; "sw-KE"; "tk-TM"; "uz-Latn-UZ"; "tt-RU"; "bn-IN";
   "pa-IN"; "gu-IN"; "or-IN"; "ta-IN"; "te-IN"; "kn-IN"; "ml-IN";
   "as-IN"; "mr-IN"; "sa-IN"; "mn-MN"; "bo-CN"; "cy-GB"; "km-KH";
   "lo-LA"; "my-MM"; "gl-ES"; "kok-IN"; "mni-IN"; "sd-Arab-PK";
   "syr-SY"; "si-LK"; "chr-Cher-US"; "iu-Latn-CA"; "am-ET";
   "tzm-Latn-DZ"; "ks-Arab-IN"; "ne-NP"; "fy-NL"; "ps-AF"; "fil-PH";
   "dv-MV"; "bin-NG"; "ff-Latn-SN"; "ha-Latn-NG"; "ibb-NG"; "yo-NG";
   "quz-BO"; "nso-ZA"; "ba-RU"; "lb-LU"; "kl-GL"; "ig-NG"; "kr-NG";
   "om-ET"; "ti-ER"; "gn-PY"; "haw-US"; "la-001"; "so-SO"; "ii-CN";
   "pap-029"; "arn-CL"; "moh-CA"; "br-FR"; EmptyString; "ug-CN";
   "mi-NZ"; "oc-FR"; "co-FR"; "gsw-FR"; "sah-RU"; "quc-Latn-GT";
   "rw-RW"; "wo-SN"; "prs-AF"; "gd-GB"; "ku-Arab-IQ"; "en-US"; "ar-SA";
   "bg-BG"; "ca-ES"; "zh-TW"; "cs-CZ"; "da-DK"; "de-DE"; "el-GR";
   "en-US"; "es-ES_tradnl"; "fi-FI"; "fr-FR"; "he-IL"; "hu-HU"; "is-IS";
   "it-IT"; "ja-JP"; "ko-KR"; "nl-NL"; "nb-NO"; "pl-PL"; "pt-BR";
   "rm-CH"; "ro-RO"; "ru-RU"; "hr-HR"; "sk-SK"; "sq-AL"; "sv-SE";
   "th-TH"; "tr-TR"; "ur-PK"; "id-ID"; "uk-UA"; "be-BY"; "sl-SI";
   "et-EE"; "lv-LV"; "lt-LT"; "tg-Cyrl-TJ"; "fa-IR"; "vi-VN"; "hy-AM";
   "az-Latn-AZ"; "eu-ES"; "hsb-DE"; "mk-MK"; "st-ZA"; "ts-ZA"; "tn-ZA";
   "ve-ZA"; "xh-ZA"; "zu-ZA"; "af-ZA"; "ka-GE"; "fo-FO"; "hi-IN";
   "mt-MT"; "se-NO"; "yi-001"; "ms-MY"; "kk-KZ"; "ky-KG"; "sw-KE";
   "tk-TM"; "uz-Latn-UZ"; "tt-RU"; "bn-IN"; "pa-IN"; "gu-IN"; "or-IN";
   "ta-IN"; "te-IN"; "kn-IN"; "ml-IN"; "as-IN"; "mr-IN"; "sa-IN";
   "mn-MN"; "bo-CN"; "cy-GB"; "km-KH"; "lo-LA"; "my-MM"; "gl-ES";
   "kok-IN"; "mni-IN"; "sd-Deva-IN"; "syr-SY"; "si-LK"; "chr-Cher-US";
   "iu-Cans-CA"; "am-ET"; "tzm-Arab-MA"; "ks-Arab-IN"; "ne-NP"; "fy-NL";
   "ps-AF"; "fil-PH"; "dv-MV"; "bin-NG"; "ff-NG"; "ha-Latn-NG";
   "ibb-NG"; "yo-NG"; "quz-BO"; "nso-ZA"; "ba-RU"; "lb-LU"; "kl-GL";
   "ig-NG"; "kr-NG"; "om-ET"; "ti-ET"; "gn-PY"; "haw-US"; "la-001";
   "so-SO"; "ii-CN"; "pap-029"; "arn-CL"; "moh-CA"; "br-FR"; "ug-CN";
   "mi-NZ"; "oc-FR"; "co-FR"; "gsw-FR"; "sah-RU"; "quc-Latn-GT";
   "rw-RW"; "wo-SN"; "prs-AF"; "gd-GB"; "ku-Arab-IQ"; "qps-ploc";
   "qps-ploca"; "en-US"; "ar-IQ"; "ca-ES-valencia"; "zh-CN"; "de-CH";
   "en-GB"; "es-MX"; "fr-BE"; "it-CH"; "nl-BE"; "nn-NO"; "pt-PT";
   "ro-MD"; "ru-MD"; "sr-Latn-CS"; "sv-FI"; "ur-IN"; "az-Cyrl-AZ";
   "dsb-DE"; "tn-BW"; "se-SE"; "ga-IE"; "ms-BN"; "uz-Cyrl-UZ"; "bn-BD";
   "pa-Arab-PK"; "ta-LK"; "mn-Mong-CN"; "sd-Arab-PK"; "iu-Latn-CA";
   "tzm-Latn-DZ"; "ks-Deva-IN"; "ne-IN"; "ff-Latn-SN"; "quz-EC";
   "ti-ER"; "qps-Latn-x-sh"; "qps-plocm"; "en-US"; "ar-EG"; "zh-HK";
   "de-AT"; "en-AU"; "es-ES"; "fr-CA"; "sr-Cyrl-CS"; "se-FI";
   "mn-Mong-MN"; "dz-BT"; "quz-PE"; "ks-Arab-IN"; "ar-LY"; "zh-SG";
   "de-LU"; "en-CA"; "es-GT"; "fr-CH"; "hr-BA"; "smj-NO"; "tzm-Tfng-MA";
   "ar-DZ"; "zh-MO"; "de-LI"; "en-NZ"; "es-CR"; "fr-LU"; "bs-Latn-BA";
   "smj-SE"; "ar-MA"; "en-IE"; "es-PA"; "fr-MC"; "sr-Latn-BA"; "sma-NO";
   "ar-TN"; "en-ZA"; "es-DO"; "fr-029"; "sr-Cyrl-BA"; "sma-SE"; "en-US";
   "ar-OM"; "en-JM"; "es-VE"; "fr-RE"; "bs-Cyrl-BA"; "sms-FI"; "en-US";
   "ar-YE"; "en-029"; "es-CO"; "fr-CD"; "sr-Latn-RS"; "smn-FI"; "en-US";
   "ar-SY"; "en-BZ"; "es-PE"; "fr-SN"; "sr-Cyrl-RS"; "en-US"; "ar-JO";
   "en-TT"; "es-AR"; "fr-CM"; "sr-Latn-ME"; "en-US"; "ar-LB"; "en-ZW";
   "es-EC"; "fr-CI"; "sr-Cyrl-ME"; "en-US"; "ar-KW"; "en-PH"; "es-CL";
   "fr-ML"; "en-US"; "ar-AE"; "en-ID"; "es-UY"; "fr-MA"; "en-US";
   "ar-BH"; "en-HK"; "es-PY"; "fr-HT"; "en-US"; "ar-QA"; "en-IN";
   "es-BO"; "en-US"; "en-MY"; "es-SV"; "en-US"; "en-SG"; "es-HN";
   "en-US"; "es-NI"; "es-PR"; "es-US"; "es-419"; "es-CU"; "bs-Cyrl-BA";
   "bs-Latn-BA"; "sr-Cyrl-RS"; "sr-Latn-RS"; "smn-FI"; "az-Cyrl-AZ";
   "sms-FI"; "zh-CN"; "nn-NO"; "bs-Latn-BA"; "az-Latn-AZ"; "sma-SE";
   "uz-Cyrl-UZ"; "mn-MN"; "iu-Cans-CA"; "tzm-Tfng-MA"; "zh-HK"; "nb-NO";
   "sr-Latn-RS"; "tg-Cyrl-TJ"; "dsb-DE"; "smj-SE"; "uz-Latn-UZ";
   "pa-Arab-PK"; "mn-Mong-CN"; "sd-Arab-PK"; "chr-Cher-US";
   "iu-Latn-CA"; "tzm-Latn-DZ"; "ff-Latn-SN"; "ha-Latn-NG";
   "quc-Latn-GT"; "ku-Arab-IQ"].

(** [language_names]: every name followed by a NUL. *)
Definition language_names : string :=
  fold_right (fun n rest => (n ++ String Ascii.zero rest)%string)
             EmptyString language_name_list.

(** The C string that starts at [s[off]]. *)
Fixpoint until_nul (s : string) : string :=
  match s with
  | EmptyString => EmptyString
  | String c rest =>
      if Ascii.eqb c Ascii.zero then EmptyString else String c (until_nul rest)
  end.

Fixpoint string_drop (n : nat) (s : string) : string :=
  match n, s with
  | O, _ => s
  | S n', String _ rest => string_drop n' rest
  | S _, EmptyString => EmptyString
  end.

Definition c_string_at (s : string) (off : Z) : string :=
  until_nul (string_drop (Z.to_nat off) s).

(** The [do ... while (l <= r)] of [language_id_to_name] with [fuel] turns
    left. *)
Fixpoint language_search (fuel : nat) (id l r : Z) : option string :=
  match fuel with
  | O => None
  | S fuel' =>
      let m := Z.quot (l + r) 2 in
      match nth_error language_id_map (Z.to_nat m) with
      | None => None
      | Some (m_id, name_start_offset) =>
          if id <? m_id then
            let r := m - 1 in
            if l <=? r then language_search fuel' id l r else None
          else if m_id <? id then
            let l := m + 1 in
            if l <=? r then language_search fuel' id l r else None
          else Some (c_string_at language_names name_start_offset)
      end
  end.

(** [language_id_to_name(id)] for a [u16] id; [None] is [NULL]. *)
Definition language_id_to_name (id : Z) : option string :=
  language_search (List.length language_id_map) id 0
                  (zlength language_id_map - 1).

Definition IMAGE_FILE_MACHINE_I386 : Z := 0x014C.
Definition IMAGE_FILE_MACHINE_ARM : Z := 0x01C0.
Definition IMAGE_FILE_MACHINE_ARMV7 : Z := 0x01C4.
Definition IMAGE_FILE_MACHINE_THUMB : Z := 0x01C2.
Definition IMAGE_FILE_MACHINE_IA64 : Z := 0x0200.
Definition IMAGE_FILE_MACHINE_AMD64 : Z := 0x8664.
Definition IMAGE_FILE_MACHINE_ARM64 : Z := 0xAA64.

Definition PROCESSOR_ARCHITECTURE_INTEL : Z := 0.
Definition PROCESSOR_ARCHITECTURE_ARM : Z := 5.
Definition PROCESSOR_ARCHITECTURE_IA64 : Z := 6.
Definition PROCESSOR_ARCHITECTURE_AMD64 : Z := 9.
Definition PROCESSOR_ARCHITECTURE_ARM64 : Z := 12.

Definition pe_arch_to_windows_arch (pe_arch : Z) : Z :=
  if pe_arch =? IMAGE_FILE_MACHINE_I386 then PROCESSOR_ARCHITECTURE_INTEL
  else if (pe_arch =? IMAGE_FILE_MACHINE_ARM)
          || (pe_arch =? IMAGE_FILE_MACHINE_ARMV7)
          || (pe_arch =? IMAGE_FILE_MACHINE_THUMB)
  then PROCESSOR_ARCHITECTURE_ARM
  else if pe_arch =? IMAGE_FILE_MACHINE_IA64 then PROCESSOR_ARCHITECTURE_IA64
  else if pe_arch =? IMAGE_FILE_MACHINE_AMD64 then PROCESSOR_ARCHITECTURE_AMD64
  else if pe_arch =? IMAGE_FILE_MACHINE_ARM64 then PROCESSOR_ARCHITECTURE_ARM64
  else -1.

(** [struct blob_descriptor] with what [read_blob_into_alloc_buf] answers
    for it, and a dentry with the blob of its unnamed data stream. *)
Record blob_descriptor : Set := mk_blob {
  size : Z;
  read_ret : wimlib_error_code;
  contents : list byte
}.

Record wim_dentry : Set := mk_wim_dentry {
  unnamed_data_stream_blob : option blob_descriptor
}.

(** The little-endian integer of [n] bytes at [contents + off]. *)
Definition le_at (n : nat) (contents : list byte) (off : Z) : Z :=
  le_value (firstn n (zdrop off contents)).

(** [tsprintf(buffer, "%lld", value)]. *)
Definition tsprintf_s64 (value : Z) : string :=
  DecimalString.NilZero.string_of_int (Z.to_int value).

Section set_windows_specific_info.

(** The environment of the process: [tgetenv(name)], [None] for [NULL]. *)
Variable tgetenv : string -> option string.

(** The selected image: [get_dentry(wim, path, WIMLIB_CASE_INSENSITIVE)]. *)
Variable get_dentry : string -> option wim_dentry.

(** [wimlib_set_image_property(wim, image, name, value)] on the XML
    document: its return value and the document afterwards. *)
Variable wimlib_set_image_property :
  Z -> string -> string -> xml_info -> wimlib_error_code * xml_info.

Variable wimlib_get_error_string : wimlib_error_code -> string.

(** The registry functions of [registry.c] on a hive loaded in memory. *)
Variable hive_validate : list byte -> Z -> hive_status.
Variable hive_get_string : list byte -> string -> string -> hive_status * string.
Variable hive_get_number : list byte -> string -> string -> hive_status * Z.
Variable hive_list_subkeys : list byte -> string -> hive_status * list string.
Variable hive_status_to_string : hive_status -> string.

(** [tscanf(s, "%lld.%lld", &a, &b)]: the values converted, in order; their
    number is the return value.  [tscanf(s, "%x", &v)]: the value when the
    call returns 1. *)
Variable tscanf_version : string -> list Z.
Variable tscanf_hex : string -> option Z.

(** [tsprintf(property_name, "WINDOWS/LANGUAGES/LANGUAGE[%zu]", n)]. *)
Definition language_property_name (n : Z) : string :=
  ("WINDOWS/LANGUAGES/LANGUAGE[" ++ tsprintf_s64 n ++ "]")%string.

Definition set_string_property (name value : string) : M unit :=
  fun ctx =>
    let '(r, xml') := wimlib_set_image_property (image ctx) name value
                        (wim_xml ctx) in
    let ctx := mk_ctx xml' (image ctx) (oom_encountered ctx)
                      (debug_enabled ctx) (printed ctx) in
    match r with
    | WIMLIB_ERR_SUCCESS => (tt, ctx)
    | _ =>
        (or_oom_encountered (is_WIMLIB_ERR_NOMEM r) ;;
         WARNING ("Failed to set image property " ++ dquote ++ "%s" ++ dquote
                  ++ " to value " ++ dquote ++ "%s" ++ dquote ++ ": %s")
                 [arg_string name; arg_string value;
                  arg_string (wimlib_get_error_string r)]) ctx
    end.

Definition set_number_property (name : string) (value : Z) : M unit :=
  set_string_property name (tsprintf_s64 value).

Definition or_null (s : option string) : string :=
  match s with Some s => s | None => "(null)" end.

Definition check_hive_status (status : hive_status) (key value : option string)
  : M bool :=
  if is_HIVE_OK status then ret true else
  or_oom_encountered (is_HIVE_OUT_OF_MEMORY status) ;;
  XML_WARN "%s; key=%s value=%s"
           [arg_string (hive_status_to_string status);
            arg_string (or_null key); arg_string (or_null value)] ;;
  ret false.

Definition is_registry_valid (hive_mem : list byte) (hive_size : Z) : M bool :=
  check_hive_status (hive_validate hive_mem hive_size) None None.

Definition get_string_from_registry (regf : list byte)
  (key_name value_name : string) : M (option string) :=
  let '(status, value) := hive_get_string regf key_name value_name in
  ok <- check_hive_status status (Some key_name) (Some value_name) ;;
  ret (if ok then Some value else None).

Definition get_number_from_registry (regf : list byte)
  (key_name value_name : string) : M (option Z) :=
  let '(status, value) := hive_get_number regf key_name value_name in
  ok <- check_hive_status status (Some key_name) (Some value_name) ;;
  ret (if ok then Some value else None).

Definition list_subkeys_in_registry (regf : list byte) (key_name : string)
  : M (option (list string)) :=
  let '(status, subkeys) := hive_list_subkeys regf key_name in
  ok <- check_hive_status status (Some key_name) None ;;
  ret (if ok then Some subkeys else None).

Definition copy_registry_string (regf : list byte)
  (key_name value_name property_name : string) : M unit :=
  s <- get_string_from_registry regf key_name value_name ;;
  match s with
  | Some string => set_string_property property_name string
  | None => ret tt
  end.

Definition set_info_from_kernel32 (contents : list byte) (size : Z) : M unit :=
  let invalid := XML_WARN "kernel32.dll is not a valid PE binary." [] in
  if size <? 0x40 then invalid else
  let e_lfanew := le_at 4 contents 0x3C in
  if (size <? e_lfanew) || (size - e_lfanew <? 6)
     || negb (Z.land e_lfanew 3 =? 0)
  then invalid else
  if negb (le_at 4 contents e_lfanew =? 0x00004550) then invalid else
  let pe_arch := le_at 2 contents (e_lfanew + 4) in
  let arch := pe_arch_to_windows_arch pe_arch in
  if 0 <=? arch then set_number_property "WINDOWS/ARCH" arch
  else XML_WARN "Architecture value %x from kernel32.dll header not recognized"
                [arg_number pe_arch].

Definition set_info_from_software_hive (regf : list byte) : M unit :=
  let version_key := "Microsoft\Windows NT\CurrentVersion" in
  copy_registry_string regf version_key "EditionID" "FLAGS" ;;
  copy_registry_string regf version_key "ProductName" "DISPLAYNAME" ;;
  copy_registry_string regf version_key "ProductName" "DISPLAYDESCRIPTION" ;;
  copy_registry_string regf version_key "EditionID" "WINDOWS/EDITIONID" ;;
  copy_registry_string regf version_key "InstallationType"
                       "WINDOWS/INSTALLATIONTYPE" ;;
  copy_registry_string regf version_key "ProductName" "WINDOWS/PRODUCTNAME" ;;
  major <- get_number_from_registry regf version_key
             "CurrentMajorVersionNumber" ;;
  let major_version := match major with Some v => v | None => -1 end in
  minor <- get_number_from_registry regf version_key
             "CurrentMinorVersionNumber" ;;
  let minor_version := match minor with Some v => v | None => -1 end in
  versions <-
    (if (major_version <? 0) || (minor_version <? 0) then
       s <- get_string_from_registry regf version_key "CurrentVersion" ;;
       match s with
       | Some version_string =>
           let converted := tscanf_version version_string in
           (if negb (zlength converted =? 2)
            then XML_WARN "Unrecognized CurrentVersion: %s"
                          [arg_string version_string]
            else ret tt) ;;
           ret (nth 0 converted major_version, nth 1 converted minor_version)
       | None => ret (major_version, minor_version)
       end
     else ret (major_version, minor_version)) ;;
  let '(major_version, minor_version) := versions in
  (if 0 <=? major_version then
     set_number_property "WINDOWS/VERSION/MAJOR" major_version ;;
     if 0 <=? minor_version
     then set_number_property "WINDOWS/VERSION/MINOR" minor_version
     else ret tt
   else ret tt) ;;
  copy_registry_string regf version_key "CurrentBuild" "WINDOWS/VERSION/BUILD".

Definition set_default_language (regf : list byte) : M unit :=
  s <- get_string_from_registry regf "ControlSet001\Control\Nls\Language"
         "InstallLanguage" ;;
  match s with
  | None => ret tt
  | Some string =>
      let unrecognized :=
        XML_WARN "Unrecognized InstallLanguage: %s" [arg_string string] in
      match tscanf_hex string with
      | Some language_id =>
          match language_id_to_name (language_id mod 2 ^ 16) with
          | Some language_name =>
              set_string_property "WINDOWS/LANGUAGES/DEFAULT" language_name
          | None => unrecognized
          end
      | None => unrecognized
      end
  end.

(** The [for] over the subkeys: the [n]-th language, counted from 1. *)
Fixpoint set_languages (subkeys : list string) (n : Z) : M unit :=
  match subkeys with
  | [] => ret tt
  | p :: rest =>
      set_string_property (language_property_name n) p ;;
      set_languages rest (n + 1)
  end.

Definition set_info_from_system_hive (regf : list byte) : M unit :=
  let windows_key := "ControlSet001\Control\Windows" in
  let uilanguages_key := "ControlSet001\Control\MUI\UILanguages" in
  let productoptions_key := "ControlSet001\Control\ProductOptions" in
  spbuild <- get_number_from_registry regf windows_key "CSDBuildNumber" ;;
  match spbuild with
  | Some v => set_number_property "WINDOWS/VERSION/SPBUILD" v
  | None => ret tt
  end ;;
  splevel <- get_number_from_registry regf windows_key "CSDVersion" ;;
  match splevel with
  | Some v => set_number_property "WINDOWS/VERSION/SPLEVEL" (Z.shiftr v 8)
  | None => ret tt
  end ;;
  copy_registry_string regf productoptions_key "ProductType"
                       "WINDOWS/PRODUCTTYPE" ;;
  copy_registry_string regf productoptions_key "ProductSuite"
                       "WINDOWS/PRODUCTSUITE" ;;
  copy_registry_string regf
    "ControlSet001\Control\Class\{4D36E966-E325-11CE-BFC1-08002BE10318}\0000"
    "MatchingDeviceId" "WINDOWS/HAL" ;;
  subkeys <- list_subkeys_in_registry regf uilanguages_key ;;
  match subkeys with
  | Some l => set_languages l 1
  | None => ret tt
  end ;;
  set_default_language regf.

(** [load_file_contents(ctx, path, &size)]: the contents and the size,
    [None] for [NULL]. *)
Definition load_file_contents (path : string) : M (option (list byte * Z)) :=
  match get_dentry path with
  | None =>
      XML_WARN ("File " ++ dquote ++ "%s" ++ dquote ++ " not found")
               [arg_string path] ;;
      ret None
  | Some dentry =>
      match unnamed_data_stream_blob dentry with
      | None =>
          XML_WARN ("File " ++ dquote ++ "%s" ++ dquote ++ " has no contents")
                   [arg_string path] ;;
          ret None
      | Some blob =>
          match read_ret blob with
          | WIMLIB_ERR_SUCCESS => ret (Some (contents blob, size blob))
          | r =>
              XML_WARN ("Error loading file " ++ dquote ++ "%s" ++ dquote
                        ++ " (size=%llu): %s")
                       [arg_string path; arg_number (size blob);
                        arg_string (wimlib_get_error_string r)] ;;
              or_oom_encountered (is_WIMLIB_ERR_NOMEM r
                                  && (size blob <? 100000000)) ;;
              ret None
          end
      end
  end.

(** [load_hive(ctx, path)]: the hive, [None] for [NULL]. *)
Definition load_hive (path : string) : M (option (list byte)) :=
  loaded <- load_file_contents path ;;
  match loaded with
  | None => ret None
  | Some (hive_mem, hive_size) =>
      valid <- is_registry_valid hive_mem hive_size ;;
      if negb valid then
        XML_WARN (dquote ++ "%s" ++ dquote ++ " is not a valid registry hive!")
                 [arg_string path] ;;
        ret None
      else ret (Some hive_mem)
  end.

(** The name of the environment variable the function looks up. *)
Definition debug_variable : string := "WIMLIB_DEBUG_XML_INFO".

Definition set_windows_specific_info_body : M wimlib_error_code :=
  loaded <- load_file_contents kernel32_dll_path ;;
  match loaded with
  | Some (contents, size) =>
      set_string_property "WINDOWS/SYSTEMROOT" "WINDOWS" ;;
      set_info_from_kernel32 contents size
  | None => ret tt
  end ;;
  software <- load_hive software_hive_path ;;
  match software with
  | Some contents => set_info_from_software_hive contents
  | None => ret tt
  end ;;
  system <- load_hive system_hive_path ;;
  match system with
  | Some contents => set_info_from_system_hive contents
  | None => ret tt
  end ;;
  fun ctx =>
    if oom_encountered ctx then
      (ERROR ("Ran out of memory while setting Windows-specific " ++
              "metadata in the WIM file's XML document.") [] ;;
       ret WIMLIB_ERR_NOMEM) ctx
    else ret WIMLIB_ERR_SUCCESS ctx.

(** [set_windows_specific_info(wim)] for a [WIMStruct] with the XML
    document [xml] and the selected image [current_image]: the return
    value and the context at the end. *)
Definition set_windows_specific_info (xml : xml_info) (current_image : Z)
  : wimlib_error_code * windows_info_ctx :=
  let ctx := mk_ctx xml current_image false
               (match tgetenv debug_variable with
                | Some _ => true
                | None => false
                end) [] in
  set_windows_specific_info_body ctx.

End set_windows_specific_info.

End XmlWindows.

(** ** Data of the examples *)

Module Examples.
Import BufferIO ResourceEntry Stdio LookupTable Resource Modify NtfsCapture.

(** A stand-in decompressor: it fills the buffer with the byte [A]. *)
Definition fill_A : decompressor :=
  fun _ _ uncompressed_len => Some (repeat Byte.x41 (Z.to_nat uncompressed_len)).

(** A two-chunk resource of 32769 bytes: its chunk table (one entry of 4
    bytes, the offset 3 of chunk 1), three bytes of compressed data for
    chunk 0, and chunk 1 stored as it is. *)
Definition two_chunk_file : FILE :=
  mk_FILE [Byte.x03; Byte.x00; Byte.x00; Byte.x00;
           Byte.x01; Byte.x02; Byte.x03; Byte.x2a] 0.

(** Two damaged two-chunk resources, each with its chunk table (one
    entry of 4 bytes) and 40000 bytes and more behind it.  In the first
    the entry puts chunk 1 at offset 40000, so that the compressed size
    derived for chunk 0 is 40000; in the second it puts chunk 1 at offset
    10, past the 8 bytes the resource is said to hold. *)
Definition overlong_chunk_file : FILE :=
  mk_FILE ([Byte.x40; Byte.x9c; Byte.x00; Byte.x00] ++
           repeat Byte.x55 (Z.to_nat 40001)) 0.

Definition misplaced_chunk_file : FILE :=
  mk_FILE ([Byte.x0a; Byte.x00; Byte.x00; Byte.x00] ++
           repeat Byte.x55 (Z.to_nat 40000)) 0.

(** A stand-in digest (the message itself), a callback that appends the
    chunk to a list, a file system without files, and a resource of the
    five bytes [hello] in an attached buffer. *)
Definition toy_sha1 : list byte -> list byte := fun message => message.

Definition append_chunk (buf : list byte) (len offset : Z) (arg : list byte)
  : wimlib_error_code * list byte :=
  (WIMLIB_ERR_SUCCESS, arg ++ ztake len buf).

Definition no_file : string -> option FILE := fun _ => None.

Definition hello : list byte :=
  [Byte.x68; Byte.x65; Byte.x6c; Byte.x6c; Byte.x6f].

Definition hello_lte (stored_hash : list byte) : wim_lookup_table_entry :=
  mk_lte (mk_resource_entry 5 0 0 5) RESOURCE_IN_ATTACHED_BUFFER stored_hash
         1 1 None None None (Some hello) None None.

(** A tree with the content [hello] in two files and the byte [*] in a
    third one; every call made for a file succeeds. *)
Definition ok_calls : file_calls := mk_file_calls WIMLIB_ERR_SUCCESS true true.

Definition twin_tree : source :=
  source_dir true
    [("."%string, None);
     ("a"%string, Some (source_file 5 hello ok_calls));
     ("sub"%string,
      Some (source_dir true
              [("b"%string, Some (source_file 5 hello ok_calls));
               ("c"%string, Some (source_file 1 [Byte.x2a] ok_calls))]))].

(** For [free_lookup_table_entry]: the table keeps its links. *)
Definition keep_table : lookup_table -> option (list byte) -> lookup_table :=
  fun t _ => t.

(** An unnamed data stream without content, and an inode without streams. *)
Definition empty_stream : ATTR_RECORD :=
  mk_ATTR_RECORD AT_DATA [] [] false true true true true true true
                 WIMLIB_ERR_SUCCESS EmptyString true.

Definition no_streams_inode : wim_inode := mk_wim_inode None 0 [].

(** An image without files, an XML document that takes every property,
    a registry without keys, and two environments: one with only the
    variable [DEBUG_XML_INFO] set, one with only [WIMLIB_DEBUG_XML_INFO]. *)
Definition empty_image : string -> option XmlWindows.wim_dentry :=
  fun _ => None.

Definition take_property (image : Z) (name value : string)
  (xml : XmlWindows.xml_info) : wimlib_error_code * XmlWindows.xml_info :=
  (WIMLIB_ERR_SUCCESS, xml ++ [(name, value)]).

Definition error_string : wimlib_error_code -> string :=
  fun _ => "error"%string.

Definition hive_status_string : XmlWindows.hive_status -> string :=
  fun _ => "hive status"%string.

Definition no_hive_validate : list byte -> Z -> XmlWindows.hive_status :=
  fun _ _ => XmlWindows.HIVE_CORRUPT.
Definition no_hive_string
  : list byte -> string -> string -> XmlWindows.hive_status * string :=
  fun _ _ _ => (XmlWindows.HIVE_KEY_NOT_FOUND, EmptyString).
Definition no_hive_number
  : list byte -> string -> string -> XmlWindows.hive_status * Z :=
  fun _ _ _ => (XmlWindows.HIVE_KEY_NOT_FOUND, 0).
Definition no_hive_subkeys
  : list byte -> string -> XmlWindows.hive_status * list string :=
  fun _ _ => (XmlWindows.HIVE_KEY_NOT_FOUND, []).
Definition scan_nothing : string -> list Z := fun _ => [].
Definition scan_no_hex : string -> option Z := fun _ => None.

Definition only_variable (variable : string) : string -> option string :=
  fun name => if String.eqb name variable then Some "1"%string else None.

Definition env_DEBUG_XML_INFO : string -> option string :=
  only_variable "DEBUG_XML_INFO".
Definition env_WIMLIB_DEBUG_XML_INFO : string -> option string :=
  only_variable "WIMLIB_DEBUG_XML_INFO".

(** [set_windows_specific_info] on the empty image in an environment. *)
Definition infer_on_empty_image (env : string -> option string)
  : wimlib_error_code * XmlWindows.windows_info_ctx :=
  XmlWindows.set_windows_specific_info env empty_image take_property
    error_string no_hive_validate no_hive_string no_hive_number
    no_hive_subkeys hive_status_string scan_nothing scan_no_hex [] 1.

End Examples.

(** ** Resources that are kept as they are *)

Module PlainResource.
Import BufferIO ResourceEntry Stdio LookupTable Resource.

(** The bytes of a resource that [read_wim_resource] reads without a
    decompressor and from its first byte on: a buffer attached to the
    entry, or a file on disk (its open stream if the entry has one, the
    stream [tfopen] gives otherwise). *)
Definition plain_content (tfopen : string -> option FILE)
  (lte : wim_lookup_table_entry) : option (list byte) :=
  match resource_location lte with
  | RESOURCE_IN_ATTACHED_BUFFER => attached_buffer lte
  | RESOURCE_IN_STAGING_FILE
  | RESOURCE_IN_FILE_ON_DISK =>
      match file_on_disk lte, file_on_disk_fp lte with
      | Some _, Some fp0 => Some (f_data fp0)
      | Some path, None =>
          match tfopen path with
          | Some fp0 => Some (f_data fp0)
          | None => None
          end
      | None, _ => None
      end
  | _ => None
  end.

(** A callback that appends what it is given to a list of bytes, and an
    entry whose resource is the attached buffer [b]. *)
Definition collect (buf : list byte) (len offset : Z) (arg : list byte)
  : wimlib_error_code * list byte :=
  (WIMLIB_ERR_SUCCESS, arg ++ ztake len buf).

Definition buffer_lte (b stored_hash : list byte) : wim_lookup_table_entry :=
  mk_lte (mk_resource_entry (zlength b) 0 0 (zlength b))
         RESOURCE_IN_ATTACHED_BUFFER stored_hash 1 1 None None None
         (Some b) None None.

End PlainResource.

(** ** What the inference of Windows properties can fail with *)

Module XmlWindowsMemory.
Import XmlWindows.

(** A function that does not note an exhausted memory of its own: with
    [oom_encountered] clear before, it is clear afterwards. *)
Definition keeps_memory {A : Type} (m : M A) : Prop :=
  forall c, oom_encountered c = false -> oom_encountered (snd (m c)) = false.

(** A [kernel32.dll] of 0x48 bytes for the architecture [pe_arch]: the
    offset 0x40 at 0x3C, and there the signature and the architecture. *)
Definition tiny_kernel32 (pe_arch : Z) : list byte :=
  repeat Byte.x00 60 ++ BufferIO.le_bytes 4 0x40 ++
  BufferIO.le_bytes 4 0x00004550 ++ BufferIO.le_bytes 2 pe_arch ++
  [Byte.x00; Byte.x00].

End XmlWindowsMemory.

(** ** Unaligned memory accesses ([unaligned.h]) *)

Module Unaligned.
Import Int BufferIO.

Definition u16 (x : Z) : Z := x mod 2 ^ 16.

(** What the header is compiled for: [UNALIGNED_ACCESS_IS_FAST] and the
    byte order of the CPU ([CPU_IS_BIG_ENDIAN] is the other one). *)
Record platform : Set := mk_platform {
  UNALIGNED_ACCESS_IS_FAST : bool;
  CPU_IS_LITTLE_ENDIAN : bool
}.

(** [p[i]] as a [u8]; [None] outside the memory at [p]. *)
Definition byte_at (p : list byte) (i : nat) : option Z :=
  match nth_error p i with
  | Some b => Some (Z_of_byte b)
  | None => None
  end.

(** [load_<type>_unaligned(p)], [memcpy(&v, p, sizeof(v))] for a type of
    [n] bytes: the value the CPU sees in the [n] bytes at [p]. *)
Definition load_unaligned (pf : platform) (n : nat) (p : list byte)
  : option Z :=
  if (List.length p <? n)%nat then None
  else Some (if CPU_IS_LITTLE_ENDIAN pf then le_value (firstn n p)
             else le_value (rev (firstn n p))).

(** [store_<type>_unaligned(v, p)], [memcpy(p, &v, sizeof(v))]: the memory
    at [p] afterwards. *)
Definition store_unaligned (pf : platform) (n : nat) (v : Z) (p : list byte)
  : option (list byte) :=
  if (List.length p <? n)%nat then None
  else Some ((if CPU_IS_LITTLE_ENDIAN pf then le_bytes n v
              else rev (le_bytes n v)) ++ skipn n p).

(** Modelled from the spec: [endianness.h] is not part of the sources at
    hand.  "All multibyte integers little-endian": [le16_to_cpu],
    [le32_to_cpu] and their inverses [cpu_to_le16], [cpu_to_le32] leave a
    value as it is on a little-endian CPU and swap its bytes on a
    big-endian one. *)
Definition bswap (n : nat) (v : Z) : Z := le_value (rev (le_bytes n v)).

Definition le_to_cpu (pf : platform) (n : nat) (v : Z) : Z :=
  if CPU_IS_LITTLE_ENDIAN pf then v else bswap n v.

Definition cpu_to_le (pf : platform) (n : nat) (v : Z) : Z :=
  if CPU_IS_LITTLE_ENDIAN pf then v else bswap n v.

Definition get_unaligned_le16 (pf : platform) (p : list byte) : option Z :=
  if UNALIGNED_ACCESS_IS_FAST pf then
    match load_unaligned pf 2 p with
    | Some v => Some (le_to_cpu pf 2 v)
    | None => None
    end
  else
    match byte_at p 1, byte_at p 0 with
    | Some p1, Some p0 => Some (u16 (Z.lor (Z.shiftl (u16 p1) 8) p0))
    | _, _ => None
    end.

Definition get_unaligned_le32 (pf : platform) (p : list byte) : option Z :=
  if UNALIGNED_ACCESS_IS_FAST pf then
    match load_unaligned pf 4 p with
    | Some v => Some (le_to_cpu pf 4 v)
    | None => None
    end
  else
    match byte_at p 3, byte_at p 2, byte_at p 1, byte_at p 0 with
    | Some p3, Some p2, Some p1, Some p0 =>
        Some (Z.lor (Z.lor (Z.lor (u32 (Z.shiftl (u32 p3) 24))
                                  (u32 (Z.shiftl (u32 p2) 16)))
                           (u32 (Z.shiftl (u32 p1) 8)))
                    p0)
    | _, _, _, _ => None
    end.

(** [put_unaligned_le16(v, p)] for a [u16] [v]: the memory at [p]
    afterwards. *)
Definition put_unaligned_le16 (pf : platform) (v : Z) (p : list byte)
  : option (list byte) :=
  if UNALIGNED_ACCESS_IS_FAST pf then
    store_unaligned pf 2 (cpu_to_le pf 2 v) p
  else
    if (List.length p <? 2)%nat then None
    else Some (byte_of_Z (u8 (Z.shiftr v 0)) ::
               byte_of_Z (u8 (Z.shiftr v 8)) :: skipn 2 p).

Definition put_unaligned_le32 (pf : platform) (v : Z) (p : list byte)
  : option (list byte) :=
  if UNALIGNED_ACCESS_IS_FAST pf then
    store_unaligned pf 4 (cpu_to_le pf 4 v) p
  else
    if (List.length p <? 4)%nat then None
    else Some (byte_of_Z (u8 (Z.shiftr v 0)) ::
               byte_of_Z (u8 (Z.shiftr v 8)) ::
               byte_of_Z (u8 (Z.shiftr v 16)) ::
               byte_of_Z (u8 (Z.shiftr v 24)) :: skipn 4 p).

Definition loaded_u32_to_u24 (pf : platform) (v : Z) : Z :=
  if CPU_IS_LITTLE_ENDIAN pf then Z.land v 0xFFFFFF else Z.shiftr v 8.

Definition LOAD_U24_REQUIRED_NBYTES (pf : platform) : nat :=
  if UNALIGNED_ACCESS_IS_FAST pf then 4%nat else 3%nat.

Definition load_u24_unaligned (pf : platform) (p : list byte) : option Z :=
  if UNALIGNED_ACCESS_IS_FAST pf then
    match load_unaligned pf 4 p with
    | Some v => Some (loaded_u32_to_u24 pf v)
    | None => None
    end
  else
    match byte_at p 0, byte_at p 1, byte_at p 2 with
    | Some p0, Some p1, Some p2 =>
        if CPU_IS_LITTLE_ENDIAN pf
        then Some (Z.lor (Z.lor (u32 (Z.shiftl (u32 p0) 0))
                                (u32 (Z.shiftl (u32 p1) 8)))
                         (u32 (Z.shiftl (u32 p2) 16)))
        else Some (Z.lor (Z.lor (u32 (Z.shiftl (u32 p2) 0))
                                (u32 (Z.shiftl (u32 p1) 8)))
                         (u32 (Z.shiftl (u32 p0) 16)))
    | _, _, _ => None
    end.

End Unaligned.

(** ** The output bitstream of the compressors ([comp.h]) *)

Module Comp.
Import Int BufferIO Unaligned.

(** [struct output_bitstream]: [output] is the memory from the pointer
    [output] to the end of the buffer the stream writes to, [written]
    (not a field of the structure) the bytes stored before [output], in
    order; [bitbuf] and [free_bits] are fields the two functions here
    leave alone. *)
Record output_bitstream : Set := mk_output_bitstream {
  bitbuf : Z;
  free_bits : Z;
  written : list byte;
  output : list byte;
  num_bytes_remaining : Z
}.

(** [bitstream_put_byte(ostream, n)]: the return value and the stream
    afterwards; [None] when the store goes past the end of the buffer. *)
Definition bitstream_put_byte (ostream : output_bitstream) (n : Z)
  : option (Z * output_bitstream) :=
  if num_bytes_remaining ostream <? 1 then Some (1, ostream) else
  match output ostream with
  | [] => None
  | _ :: rest =>
      Some (0, mk_output_bitstream (bitbuf ostream) (free_bits ostream)
                 (written ostream ++ [byte_of_Z n]) rest
                 (num_bytes_remaining ostream - 1))
  end.

(** [bitstream_put_two_bytes(ostream, n)]; the store through [u16*] puts
    the two bytes of [cpu_to_le16(n)] in the byte order of the CPU. *)
Definition bitstream_put_two_bytes (pf : platform) (ostream : output_bitstream)
  (n : Z) : option (Z * output_bitstream) :=
  if num_bytes_remaining ostream <? 2 then Some (1, ostream) else
  match store_unaligned pf 2 (cpu_to_le pf 2 n) (output ostream) with
  | None => None
  | Some mem =>
      Some (0, mk_output_bitstream (bitbuf ostream) (free_bits ostream)
                 (written ostream ++ firstn 2 mem) (skipn 2 mem)
                 (num_bytes_remaining ostream - 2))
  end.

(** A call of one of the two functions, and a sequence of calls that goes
    on whatever the calls return. *)
Inductive put : Set :=
| put_byte (n : Z)
| put_two_bytes (n : Z).

Definition do_put (pf : platform) (ostream : output_bitstream) (c : put)
  : option (Z * output_bitstream) :=
  match c with
  | put_byte n => bitstream_put_byte ostream n
  | put_two_bytes n => bitstream_put_two_bytes pf ostream n
  end.

Fixpoint do_puts (pf : platform) (ostream : output_bitstream) (cs : list put)
  : option (list Z * output_bitstream) :=
  match cs with
  | [] => Some ([], ostream)
  | c :: rest =>
      match do_put pf ostream c with
      | None => None
      | Some (r, ostream') =>
          match do_puts pf ostream' rest with
          | None => None
          | Some (rs, ostream'') => Some (r :: rs, ostream'')
          end
      end
  end.

(** The bytes a call stores when it returns 0. *)
Definition bytes_of (c : put) : list byte :=
  match c with
  | put_byte n => [byte_of_Z n]
  | put_two_bytes n => le_bytes 2 n
  end.

(** The bytes of the calls that returned 0. *)
Fixpoint stored (cs : list put) (rs : list Z) : list byte :=
  match cs, rs with
  | c :: cs', r :: rs' =>
      (if r =? 0 then bytes_of c else []) ++ stored cs' rs'
  | _, _ => []
  end.

End Comp.

(** ** Search trees of the NTFS capture ([ntfs-capture.c], [rbtree.h]) *)

Module RbTree.

(** The tree under a [struct rb_root]: a [NULL] pointer or a node with its
    two subtrees and the structure the [rb_node] is embedded in.  The
    colours are the business of [rb_insert_color] and are not kept. *)
Inductive rb_tree (A : Type) : Type :=
| rb_NULL
| rb_node (rb_left : rb_tree A) (entry : A) (rb_right : rb_tree A).
Arguments rb_NULL {A}.
Arguments rb_node {A} rb_left entry rb_right.

(** The entries from left to right. *)
Fixpoint inorder {A : Type} (t : rb_tree A) : list A :=
  match t with
  | rb_NULL => []
  | rb_node l x r => inorder l ++ x :: inorder r
  end.

(** The loop that walks down from the root to find an entry: [cmp] is the
    comparison of what is looked for with the entry of the node, the walk
    goes left when it is negative, right when it is positive, and stops
    at the node where it is neither. *)
Fixpoint rb_walk {A : Type} (cmp : A -> Z) (node : rb_tree A) : option A :=
  match node with
  | rb_NULL => None
  | rb_node l this r =>
      if cmp this <? 0 then rb_walk cmp l
      else if 0 <? cmp this then rb_walk cmp r
      else Some this
  end.

(** The loop that walks down to the [NULL] link where a new entry belongs,
    and [rb_link_node] there: the tree with the new leaf, or the entry
    the walk stopped at when the comparison is neither negative nor
    positive. *)
Fixpoint rb_link {A : Type} (cmp : A -> Z) (new : A) (node : rb_tree A)
  : rb_tree A + A :=
  match node with
  | rb_NULL => inl (rb_node rb_NULL new rb_NULL)
  | rb_node l this r =>
      if cmp this <? 0 then
        match rb_link cmp new l with
        | inl l' => inl (rb_node l' this r)
        | inr found => inr found
        end
      else if 0 <? cmp this then
        match rb_link cmp new r with
        | inl r' => inl (rb_node l this r')
        | inr found => inr found
        end
      else inr this
  end.

(** A tree in which the keys grow strictly from left to right, for a
    key and a comparison of keys. *)
Definition ordered {A K : Type} (key : A -> K) (kcmp : K -> K -> Z)
  (t : rb_tree A) : Prop :=
  StronglySorted (fun a b => kcmp (key a) (key b) < 0) (inorder t).

(** A comparison that is a strict total order: 0 exactly on equal keys,
    the sign turns when the arguments are exchanged, and "less" is
    transitive. *)
Definition total_order {K : Type} (kcmp : K -> K -> Z) : Prop :=
  (forall a b, kcmp a b = 0 <-> a = b) /\
  (forall a b, kcmp a b < 0 <-> 0 < kcmp b a) /\
  (forall a b c, kcmp a b < 0 -> kcmp b c < 0 -> kcmp a c < 0).

End RbTree.

(** ** The set of security descriptors of a capture ([ntfs-capture.c]) *)

Module SdSet.
Import BufferIO RbTree.

(** [struct wim_security_data]: the fields [sd_set_add_sd] uses.  The
    arrays are the lists of their elements.  The header that declares
    the structure is not among the sources: its counters are numbers
    here, and the properties below are stated for counters that stay
    below the limits of 32-bit fields, where [sd->num_entries++] and
    [sd->total_length += ...] do not wrap. *)
Record wim_security_data : Set := mk_wim_security_data {
  num_entries : Z;
  descriptors : list (list byte);
  sizes : list Z;
  total_length : Z
}.

Record sd_node : Set := mk_sd_node {
  security_id : Z;
  hash : list byte
}.

(** A number stored in an [int], as [security_id] is. *)
Definition to_int (x : Z) : Z := (x + 2 ^ 31) mod 2 ^ 32 - 2 ^ 31.

Record sd_set : Set := mk_sd_set {
  sd : wim_security_data;
  rb_root : rb_tree sd_node
}.

(** The allocations of [sd_set_add_sd], in the order it makes them. *)
Inductive allocation : Set :=
| MALLOC_new
| MALLOC_descr_copy
| REALLOC_descriptors
| REALLOC_sizes.

(** An array of [n] elements reallocated to [n + 1] elements, with [x]
    stored in the last one. *)
Definition realloc_and_store {A : Type} (a : list A) (n : Z) (x : A) : list A :=
  ztake n a ++ [x].

Section sd_set.

(** [sha1_buffer(buffer, size, hash)] and [hashes_cmp(h1, h2)]. *)
Variable sha1_buffer : list byte -> list byte.
Variable hashes_cmp : list byte -> list byte -> Z.

(** [rb_insert_color(&new->rb_node, root)] on the tree [new] was linked
    into. *)
Variable rb_insert_color : sd_node -> rb_tree sd_node -> rb_tree sd_node.

(** [insert_sd_node(set, new)]; [None] when the assertion in the loop
    fails. *)
Definition insert_sd_node (set : sd_set) (new : sd_node) : option sd_set :=
  match rb_link (fun this => hashes_cmp (hash new) (hash this)) new
                (rb_root set) with
  | inl linked => Some (mk_sd_set (sd set) (rb_insert_color new linked))
  | inr _ => None
  end.

Definition lookup_sd (set : sd_set) (h : list byte) : Z :=
  match rb_walk (fun this => hashes_cmp h (hash this)) (rb_root set) with
  | Some this => security_id this
  | None => -1
  end.

(** [sd_set_add_sd(sd_set, descriptor, size)] for a descriptor of [size]
    bytes, with the allocations that fail: the return value and the set
    afterwards. *)
Definition sd_set_add_sd (fails : allocation -> bool) (set : sd_set)
  (descriptor : list byte) : option (Z * sd_set) :=
  let size := zlength descriptor in
  let h := sha1_buffer descriptor in
  let id := lookup_sd set h in
  if 0 <=? id then Some (id, set) else
  if fails MALLOC_new then Some (-1, set) else
  if fails MALLOC_descr_copy then Some (-1, set) else
  let descr_copy := ztake size descriptor in
  let new := mk_sd_node (to_int (num_entries (sd set))) h in
  if fails REALLOC_descriptors then Some (-1, set) else
  if fails REALLOC_sizes then Some (-1, set) else
  let sd' :=
    mk_wim_security_data
      (num_entries (sd set) + 1)
      (realloc_and_store (descriptors (sd set)) (num_entries (sd set))
                         descr_copy)
      (realloc_and_store (sizes (sd set)) (num_entries (sd set)) size)
      (total_length (sd set) + (size + 8)) in
  match insert_sd_node (mk_sd_set sd' (rb_root set)) new with
  | Some set' => Some (security_id new, set')
  | None => None
  end.

(** A set as [sd_set_add_sd] keeps it: the tree is in the order of the
    digests, the arrays hold [num_entries] elements, and the node of a
    digest has the index of a descriptor with that digest. *)
Definition sd_set_ok (set : sd_set) : Prop :=
  ordered hash hashes_cmp (rb_root set) /\
  zlength (descriptors (sd set)) = num_entries (sd set) /\
  zlength (sizes (sd set)) = num_entries (sd set) /\
  forall node, In node (inorder (rb_root set)) ->
    0 <= security_id node < num_entries (sd set) /\
    exists d, nth_error (descriptors (sd set))
                        (Z.to_nat (security_id node)) = Some d /\
              sha1_buffer d = hash node.

End sd_set.

(** [memcmp] on two byte strings of one length: the difference of the
    first two bytes that differ; a shorter string is smaller. *)
Fixpoint memcmp (a b : list byte) : Z :=
  match a, b with
  | [], [] => 0
  | [], _ :: _ => -1
  | _ :: _, [] => 1
  | x :: a', y :: b' =>
      if Z_of_byte x =? Z_of_byte y then memcmp a' b'
      else Z_of_byte x - Z_of_byte y
  end.

(** An empty set, a digest that is the descriptor itself, and no
    rebalancing. *)
Definition empty_set : sd_set :=
  mk_sd_set (mk_wim_security_data 0 [] [] 0) rb_NULL.
Definition plain_digest (d : list byte) : list byte := d.
Definition no_rotation (new : sd_node) (t : rb_tree sd_node)
  : rb_tree sd_node := t.
Definition no_failure (a : allocation) : bool := false.

End SdSet.

(** ** The DOS names of a directory ([ntfs-capture.c]) *)

Module DosNames.
Import Int BufferIO RbTree.

Record dos_name_node : Set := mk_dos_name_node {
  dos_name : list byte;
  name_len_bytes : Z;
  ntfs_ino : Z
}.

(** [struct dos_name_map]: the tree under its [rb_root]. *)
Definition dos_name_map : Set := rb_tree dos_name_node.

(** The two comparisons of the loops, [a < b] and then [a > b], as one
    value: negative, positive or 0. *)
Definition ino_cmp (a b : Z) : Z :=
  if a <? b then -1 else if b <? a then 1 else 0.

Definition sizeof_ntfschar : Z := 2.

(** [insert_dos_name(map, dos_name, name_len, ntfs_ino)], with whether
    [MALLOC] gives memory: the return value and the map afterwards;
    [None] when the assertion on the length of the name fails.
    [dos_name] is the memory at the pointer.  The number of bytes,
    [name_len * sizeof(ntfschar)], is computed in [size_t]. *)
Definition insert_dos_name
  (rb_insert_color : dos_name_node -> dos_name_map -> dos_name_map)
  (malloc_ok : bool) (map : dos_name_map) (name : list byte)
  (name_len ino : Z) : option (Z * dos_name_map) :=
  if negb malloc_ok then Some (-1, map) else
  let num_bytes := u64 (name_len * sizeof_ntfschar) in
  if negb (num_bytes <=? 24) then None else
  let new_node := mk_dos_name_node (ztake num_bytes name) num_bytes ino in
  match rb_link (fun this => ino_cmp (ntfs_ino new_node) (ntfs_ino this))
                new_node map with
  | inl linked => Some (0, rb_insert_color new_node linked)
  | inr _ => Some (-1, map)
  end.

Definition lookup_dos_name (map : dos_name_map) (ino : Z)
  : option dos_name_node :=
  rb_walk (fun this => ino_cmp ino (ntfs_ino this)) map.

(** The fields of [struct wim_dentry] and of its inode that
    [set_dentry_dos_name] uses. *)
Record wim_dentry : Set := mk_wim_dentry {
  is_win32_name : bool;
  i_ino : Z;
  short_name : option (list byte);
  short_name_len : Z
}.

(** [set_dentry_dos_name(dentry, map)], with whether [MALLOC] gives
    memory: the return value, the dentry afterwards and whether the
    warning was printed. *)
Definition set_dentry_dos_name (malloc_ok : bool) (dentry : wim_dentry)
  (map : dos_name_map) : wimlib_error_code * wim_dentry * bool :=
  if is_win32_name dentry then
    match lookup_dos_name map (i_ino dentry) with
    | Some node =>
        if negb malloc_ok
        then (WIMLIB_ERR_NOMEM,
              mk_wim_dentry (is_win32_name dentry) (i_ino dentry) None
                            (short_name_len dentry), false)
        else (WIMLIB_ERR_SUCCESS,
              mk_wim_dentry (is_win32_name dentry) (i_ino dentry)
                (Some (ztake (name_len_bytes node) (dos_name node)))
                (name_len_bytes node), false)
    | None => (WIMLIB_ERR_SUCCESS, dentry, true)
    end
  else (WIMLIB_ERR_SUCCESS, dentry, false).

Definition keep_shape (new : dos_name_node) (t : dos_name_map)
  : dos_name_map := t.

End DosNames.

(** ** Security descriptors for NTFS-3g ([ntfs-3g_apply.c]) *)

Module SdFixup.
Import Int BufferIO.

(** Modelled from the spec: [security_descriptor.h] is not part of the
    sources at hand.  A "binary Windows security descriptor" in its
    self-relative form: revision and padding (one byte each), the control
    bits (16 bits), then the offsets of owner, group, SACL and DACL (32
    bits each), little-endian.  An ACL header takes 8 bytes, a SID 8 bytes
    and 4 more for each sub-authority, their number being the second
    byte of the SID; the [SID] of libntfs-3g has room for one. *)
Definition sizeof_SECURITY_DESCRIPTOR_RELATIVE : Z := 20.
Definition sizeof_ACL : Z := 8.
Definition sizeof_SID : Z := 12.
Definition offsetof_sub_authority : Z := 8.
Definition control_at : Z := 2.
Definition owner_offset_at : Z := 4.
Definition group_offset_at : Z := 8.
Definition sacl_offset_at : Z := 12.
Definition dacl_offset_at : Z := 16.
Definition wimlib_SE_DACL_PRESENT : Z := 0x0004.
Definition wimlib_SE_SACL_PRESENT : Z := 0x0010.

(** The little-endian field of [n] bytes at [desc + off]. *)
Definition field (n : nat) (desc : list byte) (off : Z) : Z :=
  le_value (firstn n (zdrop off desc)).

(** The memory with the [n]-byte field at [off] set to [v]. *)
Definition set_field (n : nat) (desc : list byte) (off v : Z) : list byte :=
  ztake off desc ++ le_bytes n v ++ zdrop (off + Z.of_nat n) desc.

(** [sid_size(sid)] for the SID at [desc + off]. *)
Definition sid_size (desc : list byte) (off : Z) : Z :=
  offsetof_sub_authority + 4 * field 1 desc (off + 1).

(** What [sd_fixup] returns: the pointer it was given, or a new buffer
    and the size it stored in [*size_p]. *)
Inductive fixed : Set :=
| same_descriptor
| new_descriptor (desc_new : list byte) (size : Z).

Definition sid_valid (desc : list byte) (size off : Z) : bool :=
  negb (off =? 0) && (off mod 4 =? 0) && (off <=? size - sizeof_SID) &&
  (off + sid_size desc off <=? size) &&
  (sizeof_SECURITY_DESCRIPTOR_RELATIVE <=? off).

(** [sd_fixup(_desc, size_p)] for a descriptor of [*size_p = size] bytes,
    built with or without [HAVE_NTFS_MNT_RDONLY], with whether [MALLOC]
    gives memory. *)
Definition sd_fixup (HAVE_NTFS_MNT_RDONLY malloc_ok : bool)
  (desc : list byte) (size : Z) : fixed :=
  if size <? sizeof_SECURITY_DESCRIPTOR_RELATIVE then same_descriptor else
  let control := field 2 desc control_at in
  let dacl_offset :=
    if negb (Z.land control wimlib_SE_DACL_PRESENT =? 0)
    then field 4 desc dacl_offset_at else 0 in
  let sacl_offset :=
    if negb (Z.land control wimlib_SE_SACL_PRESENT =? 0)
    then field 4 desc sacl_offset_at else 0 in
  if negb ((negb HAVE_NTFS_MNT_RDONLY &&
            (negb (sacl_offset =? 0) && (sacl_offset =? size - sizeof_ACL)))
           || (negb (dacl_offset =? 0) && (dacl_offset =? size - sizeof_ACL)))
  then same_descriptor else
  let owner_offset := field 4 desc owner_offset_at in
  let group_offset := field 4 desc group_offset_at in
  let owner_valid := sid_valid desc size owner_offset in
  let group_valid := sid_valid desc size group_offset in
  if negb (owner_valid || group_valid) then same_descriptor else
  let sid := if owner_valid then owner_offset else group_offset in
  if negb malloc_ok then same_descriptor else
  let desc_new := ztake size desc in
  let desc_new :=
    if owner_valid then set_field 4 desc_new owner_offset_at (u32 size)
    else set_field 4 desc_new group_offset_at (u32 size) in
  new_descriptor (desc_new ++ ztake (sid_size desc sid) (zdrop sid desc))
                 (size + sid_size desc sid).

(** A descriptor of 40 bytes that ends with an empty DACL: the header
    (control [SE_DACL_PRESENT], owner at 20, no group, no SACL, DACL at
    32), the owner SID with one sub-authority, the empty ACL. *)
Definition ends_with_empty_dacl : list byte :=
  [Byte.x01; Byte.x00] ++ le_bytes 2 0x0004 ++
  le_bytes 4 20 ++ le_bytes 4 0 ++ le_bytes 4 0 ++ le_bytes 4 32 ++
  [Byte.x01; Byte.x01; Byte.x00; Byte.x00; Byte.x00; Byte.x00; Byte.x00;
   Byte.x05] ++ le_bytes 4 18 ++
  [Byte.x02; Byte.x00] ++ le_bytes 2 8 ++ le_bytes 2 0 ++ le_bytes 2 0.

End SdFixup.

(** ** Deleting images ([modify.c]) *)

Module Images.
Import Int BufferIO.

(** Modelled from the spec: [wimlib.h] is not part of the sources at
    hand.  "The archive holds N images, indexed 1..N, plus a boot index
    (0 = none)": [WIM_NO_IMAGE] is 0, and [WIM_ALL_IMAGES] is a value that
    is no index. *)
Definition WIM_NO_IMAGE : Z := 0.
Definition WIM_ALL_IMAGES : Z := -1.

Section wimlib_delete_image.

(** [struct image_metadata]. *)
Variable image_metadata_t : Type.

(** What [wimlib_delete_image] does outside the [WIMStruct] fields kept
    here, in order. *)
Inductive event : Type :=
| call_free_dentry_tree (imd : image_metadata_t)
| call_free_security_data (imd : image_metadata_t)
| call_lookup_table_remove (imd : image_metadata_t)
| call_xml_delete_image (image : Z).

(** The fields of [WIMStruct] and of its header the function uses; the
    array [image_metadata] is the list of its elements, [NULL] the empty
    list. *)
Record WIMStruct : Type := mk_WIMStruct {
  image_count : Z;
  boot_idx : Z;
  image_metadata : list image_metadata_t;
  current_image : Z;
  events : list event
}.

(** [wimlib_select_image(w, image)]: its return value as an [int] and the
    [WIMStruct] afterwards. *)
Variable wimlib_select_image : WIMStruct -> Z -> Z * WIMStruct.

(** Whether the library is built with [ENABLE_SECURITY_DATA]. *)
Variable ENABLE_SECURITY_DATA : bool.

(** [a[i] = x]; [None] outside the array. *)
Definition array_set {A : Type} (a : list A) (i : Z) (x : A)
  : option (list A) :=
  if (i <? 0) || (zlength a <=? i) then None
  else Some (ztake i a ++ x :: zdrop (i + 1) a).

Definition array_at {A : Type} (a : list A) (i : Z) : option A :=
  if i <? 0 then None else nth_error a (Z.to_nat i).

(** [for (i = ...; i < w->hdr.image_count - 1; i++) memcpy(...)] with [n]
    turns left. *)
Fixpoint close_the_slot (n : nat) (i : Z) (md : list image_metadata_t)
  : option (list image_metadata_t) :=
  match n with
  | O => Some md
  | S n' =>
      match array_at md (i + 1) with
      | None => None
      | Some next =>
          match array_set md i next with
          | None => None
          | Some md' => close_the_slot n' (i + 1) md'
          end
      end
  end.

(** [wimlib_delete_image(w, image)] for an [image] that is not
    [WIM_ALL_IMAGES]; [None] when an array is used outside its bounds.
    [image] and [i] are [int], the image count and the boot index of the
    header are [u32]: a comparison of the two is one of unsigned numbers. *)
Definition delete_one_image (w : WIMStruct) (image : Z)
  : option (Z * WIMStruct) :=
  let '(ret, w) := wimlib_select_image w image in
  if negb (ret =? 0) then Some (ret, w) else
  match array_at (image_metadata w) (current_image w - 1) with
  | None => None
  | Some imd =>
      let log :=
        events w ++ [call_free_dentry_tree imd] ++
        (if ENABLE_SECURITY_DATA then [call_free_security_data imd] else []) ++
        [call_lookup_table_remove imd] in
      match close_the_slot
              (Z.to_nat (u32 (image_count w - 1) - u32 (image - 1)))
              (image - 1) (image_metadata w) with
      | None => None
      | Some md =>
          let count := u32 (image_count w - 1) in
          let md := if count =? 0 then [] else md in
          let boot :=
            if boot_idx w =? u32 image then 0
            else if u32 image <? boot_idx w then u32 (boot_idx w - 1)
            else boot_idx w in
          Some (0, mk_WIMStruct count boot md WIM_NO_IMAGE
                     (log ++ [call_xml_delete_image image]))
      end
  end.

(** The loop of the [WIM_ALL_IMAGES] case with [n] turns left. *)
Fixpoint delete_first_images (n : nat) (w : WIMStruct)
  : option (Z * WIMStruct) :=
  match n with
  | O => Some (0, w)
  | S n' =>
      match delete_one_image w 1 with
      | None => None
      | Some (ret, w') =>
          if negb (ret =? 0) then Some (ret, w')
          else delete_first_images n' w'
      end
  end.

(** [num_images = w->hdr.image_count]: a [u32] stored in an [int]. *)
Definition int_of_u32 (x : Z) : Z := if x <? 2 ^ 31 then x else x - 2 ^ 32.

Definition wimlib_delete_image (w : WIMStruct) (image : Z)
  : option (Z * WIMStruct) :=
  if image =? WIM_ALL_IMAGES then
    let num_images := int_of_u32 (image_count w) in
    delete_first_images (Z.to_nat num_images) w
  else delete_one_image w image.

End wimlib_delete_image.

Arguments image_count {image_metadata_t} w.
Arguments boot_idx {image_metadata_t} w.
Arguments image_metadata {image_metadata_t} w.
Arguments current_image {image_metadata_t} w.
Arguments events {image_metadata_t} w.
Arguments call_free_dentry_tree {image_metadata_t} imd.
Arguments call_free_security_data {image_metadata_t} imd.
Arguments call_lookup_table_remove {image_metadata_t} imd.
Arguments call_xml_delete_image {image_metadata_t} image.

(** [k] deletions of the first image in a row, each of which returns 0:
    the archive before them and after them. *)
Inductive deleted_first (image_metadata_t : Type)
  (wimlib_select_image :
     WIMStruct image_metadata_t -> Z -> Z * WIMStruct image_metadata_t)
  (ENABLE_SECURITY_DATA : bool)
  : nat -> WIMStruct image_metadata_t -> WIMStruct image_metadata_t -> Prop :=
| deleted_first_O w :
    deleted_first image_metadata_t wimlib_select_image ENABLE_SECURITY_DATA
      O w w
| deleted_first_S k w w1 w2 :
    delete_one_image image_metadata_t wimlib_select_image ENABLE_SECURITY_DATA
      w 1 = Some (0, w1) ->
    deleted_first image_metadata_t wimlib_select_image ENABLE_SECURITY_DATA
      k w1 w2 ->
    deleted_first image_metadata_t wimlib_select_image ENABLE_SECURITY_DATA
      (S k) w w2.

(** What [wimlib_delete_image] relies on from [wimlib_select_image]: it
    leaves the header and the size of the array alone, and when it
    returns 0 the image is one of the archive and is the current one. *)
Definition selects_images (A : Type)
  (wimlib_select_image : WIMStruct A -> Z -> Z * WIMStruct A) : Prop :=
  forall w i r w1,
    wimlib_select_image w i = (r, w1) ->
    image_count w1 = image_count w /\
    boot_idx w1 = boot_idx w /\
    List.length (image_metadata w1) = List.length (image_metadata w) /\
    (r = 0 -> current_image w1 = i /\ 1 <= i <= image_count w).

(** A selection that takes every index of an image and nothing else, for
    images that are their names. *)
Definition select_existing (w : WIMStruct string) (image : Z)
  : Z * WIMStruct string :=
  if (1 <=? image) && (image <=? image_count w)
  then (0, mk_WIMStruct string (image_count w) (boot_idx w)
             (image_metadata w) image (events w))
  else (18, w).

Definition three_images : WIMStruct string :=
  mk_WIMStruct string 3 2 ["first"%string; "second"%string; "third"%string]
               WIM_NO_IMAGE [].

End Images.

(** ** The structure of a compressed resource ([resource.c]) *)

Module ResourceLayout.
Import Int BufferIO Stdio LookupTable Resource.

(** [read_compressed_resource] describes what it reads: "The structure of
    a compressed resource consists of a table of chunk offsets followed by
    the chunks themselves.  Each chunk consists of compressed data, and
    there is one chunk for each WIM_CHUNK_SIZE = 32768 bytes of the
    uncompressed file, with the last chunk having any remaining bytes.
    The chunk offsets are measured relative to the end of the chunk
    table.  The first chunk is omitted from the table".

    Chunk [i] of the uncompressed data. *)
Definition chunk_of (data : list byte) (i : Z) : list byte :=
  ztake WIM_CHUNK_SIZE (zdrop (i * WIM_CHUNK_SIZE) data).

(** The offset of the stored chunk [k], from the end of the table. *)
Definition offset_of_chunk (chunks : list (list byte)) (k : nat) : Z :=
  zlength (concat (firstn k chunks)).

(** The table: the offsets of the chunks but the first, each in
    [entry_size] bytes. *)
Definition chunk_table (entry_size : Z) (chunks : list (list byte))
  : list byte :=
  concat (map (fun k => le_bytes (Z.to_nat entry_size)
                                 (offset_of_chunk chunks k))
              (seq 1 (List.length chunks - 1))).

Definition compressed_resource (uncompressed_size : Z)
  (chunks : list (list byte)) : list byte :=
  chunk_table (chunk_entry_size uncompressed_size) chunks ++ concat chunks.

(** The bytes [c] stored for the chunk [u]: the chunk as it is, or fewer
    bytes from which the decompressor gives the chunk. *)
Definition stores (decompress : decompressor) (c u : list byte) : Prop :=
  c = u \/
  (zlength c < zlength u /\ decompress c (zlength c) (zlength u) = Some u).

(** [chunks] are the stored chunks of [data], one for each of its
    chunks. *)
Definition chunks_store (decompress : decompressor)
  (chunks : list (list byte)) (data : list byte) : Prop :=
  Z.of_nat (List.length chunks) = num_chunks (zlength data) /\
  forall i c, nth_error chunks i = Some c ->
              stores decompress c (chunk_of data (Z.of_nat i)).

End ResourceLayout.

(** ** Compressed resources of an archive ([resource.c]) *)

Module WimResource.
Import Int BufferIO ResourceEntry Stdio LookupTable Resource ResourceLayout.

(** The entry [lte] designates, in the stream [fp0] of its archive, a
    compressed resource that holds [data] in the stored chunks [chunks],
    between the bytes [before] and [behind]. *)
Definition compressed_in_wim (lzx_decompress xpress_decompress : decompressor)
  (lte : wim_lookup_table_entry) (fp0 : FILE)
  (before behind : list byte) (chunks : list (list byte))
  (data : list byte) : Prop :=
  resource_location lte = RESOURCE_IN_WIM /\
  (exists w, wim lte = Some w /\ wim_fp w = Some fp0) /\
  wim_resource_compression_type lte <> WIMLIB_COMPRESSION_TYPE_NONE /\
  f_data fp0 =
    before ++ compressed_resource (zlength data) chunks ++ behind /\
  size (resource_entry lte) =
    zlength (compressed_resource (zlength data) chunks) /\
  original_size (resource_entry lte) = zlength data /\
  offset (resource_entry lte) = zlength before /\
  chunks_store (decompress lzx_decompress xpress_decompress
                  (wim_resource_compression_type lte)) chunks data.

(** An archive of five bytes whose middle is a resource of the five bytes
    [AAAAA] in one chunk of three bytes, and the entry of this resource
    with the digest [stored_hash]. *)
Definition tiny_archive : FILE :=
  mk_FILE [Byte.xff; Byte.x01; Byte.x02; Byte.x03; Byte.xee] 0.

Definition tiny_lte (stored_hash : list byte) : wim_lookup_table_entry :=
  mk_lte (mk_resource_entry 3 WIM_RESHDR_FLAG_COMPRESSED 1 5)
         RESOURCE_IN_WIM stored_hash 1 1
         (Some (mk_WIMStruct (Some tiny_archive) WIMLIB_COMPRESSION_TYPE_LZX))
         None None None None None.

End WimResource.

(** ** The dentry tree of a directory tree ([modify.c]) *)

Module DentryTree.
Import BufferIO ResourceEntry LookupTable Modify.

(** The dentries of the entries of a directory, in the order [readdir]
    gives them, without [.] and [..], up to an entry [stat] fails on. *)
Fixpoint tree_of_entries (tree_of : string -> source -> dentry)
  (entries : list (string * option source)) : list dentry :=
  match entries with
  | [] => []
  | (d_name, child_source) :: rest =>
      if is_dot_or_dotdot d_name then tree_of_entries tree_of rest
      else match child_source with
           | None => []
           | Some c => tree_of d_name c :: tree_of_entries tree_of rest
           end
  end.

(** The dentry tree of a path: a regular file has the digest of its
    content, a directory the dentries of its entries as children. *)
Fixpoint tree_of (sha1 : list byte -> list byte) (name : string)
  (src : source) : dentry :=
  match src with
  | source_file _ content _ => mk_dentry name false (sha1 content) []
  | source_dir _ entries =>
      mk_dentry name true (repeat Byte.x00 WIM_HASH_SIZE)
                (tree_of_entries (tree_of sha1) entries)
  end.

(** Every call made for the tree succeeds: [stat] and [opendir] on every
    path, and for every regular file [sha1sum], [STRDUP] and
    [new_lookup_table_entry]. *)
Fixpoint all_entries (ok : source -> bool)
  (entries : list (string * option source)) : bool :=
  match entries with
  | [] => true
  | (d_name, child_source) :: rest =>
      (is_dot_or_dotdot d_name ||
       match child_source with Some c => ok c | None => false end) &&
      all_entries ok rest
  end.

Fixpoint every_call_succeeds (src : source) : bool :=
  match src with
  | source_file _ _ calls =>
      error_code_eqb (sha1sum_ret calls) WIMLIB_ERR_SUCCESS &&
      STRDUP_ok calls && Modify.new_lookup_table_entry_ok calls
  | source_dir opendir_ok entries =>
      opendir_ok && all_entries every_call_succeeds entries
  end.

End DentryTree.

(** ** The streams of an archive kept for reuse ([resource.c],
       [wim_get_fp] and [wim_release_fp]) *)

Module FpTab.
Import Stdio.

(** The fields of [WIMStruct] the two functions use.  The array [fp_tab]
    with its length [num_allocated_fps] is the list of its elements, a
    [NULL] entry is [None]; the mutex the functions hold is left out. *)
Record WIMStruct : Set := mk_WIMStruct {
  filename : option string;
  fp_tab : list (option FILE)
}.

Definition num_allocated_fps (w : WIMStruct) : Z :=
  Z.of_nat (List.length (fp_tab w)).

(** The loop of [wim_get_fp] from the entry at the head of [tab] on: the
    first stream of the table and the table with [NULL] in its place. *)
Fixpoint take_first_fp (tab : list (option FILE))
  : option (FILE * list (option FILE)) :=
  match tab with
  | [] => None
  | Some fp :: rest => Some (fp, None :: rest)
  | None :: rest =>
      match take_first_fp rest with
      | Some (fp, rest') => Some (fp, None :: rest')
      | None => None
      end
  end.

(** [wim_get_fp(w)]: the stream returned ([None] for [NULL]) and the
    [WIMStruct] afterwards. *)
Definition wim_get_fp (tfopen : string -> option FILE) (w : WIMStruct)
  : fault + (option FILE * WIMStruct) :=
  match filename w with
  | None => inl ASSERTION_FAILED
  | Some name =>
      match take_first_fp (fp_tab w) with
      | Some (fp, tab) => inr (Some fp, mk_WIMStruct (filename w) tab)
      | None => inr (tfopen name, w)
      end
  end.

(** The loop of [wim_release_fp]: [fp] in the place of the first [NULL]
    entry. *)
Fixpoint put_first_free (tab : list (option FILE)) (fp : FILE)
  : option (list (option FILE)) :=
  match tab with
  | [] => None
  | None :: rest => Some (Some fp :: rest)
  | Some other :: rest =>
      match put_first_free rest fp with
      | Some rest' => Some (Some other :: rest')
      | None => None
      end
  end.

(** [wim_release_fp(w, fp)]; [REALLOC_ok] tells whether [REALLOC] returns
    memory. *)
Definition wim_release_fp (REALLOC_ok : bool) (w : WIMStruct) (fp : FILE)
  : wimlib_error_code * WIMStruct :=
  match put_first_free (fp_tab w) fp with
  | Some tab => (WIMLIB_ERR_SUCCESS, mk_WIMStruct (filename w) tab)
  | None =>
      if negb REALLOC_ok then (WIMLIB_ERR_NOMEM, w)
      else (WIMLIB_ERR_SUCCESS,
            mk_WIMStruct (filename w)
                         (fp_tab w ++ [Some fp; None; None; None]))
  end.

(** The streams a table holds, in the order of their entries. *)
Fixpoint streams (tab : list (option FILE)) : list FILE :=
  match tab with
  | [] => []
  | Some fp :: rest => fp :: streams rest
  | None :: rest => streams rest
  end.

End FpTab.

(** ** Adding an image ([modify.c], [add_new_dentry_tree]) *)

Module AddImage.
Import Int BufferIO ResourceEntry LookupTable Images.

(** [struct image_metadata]: the fields [add_new_dentry_tree] sets.  A
    pointer to a lookup table entry is the entry's digest, [None] is
    [NULL]. *)
Record struct_image_metadata (dentry : Type) : Type := mk_image_metadata {
  root_dentry : option dentry;
  lookup_table_entry : option (list byte);
  modified : bool
}.
Arguments mk_image_metadata {dentry} root_dentry lookup_table_entry modified.
Arguments root_dentry {dentry} _.
Arguments lookup_table_entry {dentry} _.
Arguments modified {dentry} _.

Section add_new_dentry_tree.

Variable dentry : Type.

Variable wimlib_select_image :
  WIMStruct (struct_image_metadata dentry) -> Z ->
  Z * WIMStruct (struct_image_metadata dentry).

(** Whether [CALLOC] and [new_lookup_table_entry] return memory, and the
    bytes [randomize_byte_array] puts in the digest. *)
Variables CALLOC_ok new_lookup_table_entry_ok : bool.
Variable random_hash : list byte.

(** The lookup table entry made for the metadata of the image. *)
Definition imd_lookup_entry : wim_lookup_table_entry :=
  let lte := NtfsCapture.new_lookup_table_entry in
  mk_lte (mk_resource_entry (size (resource_entry lte))
            WIM_RESHDR_FLAG_METADATA
            (offset (resource_entry lte))
            (original_size (resource_entry lte)))
         (resource_location lte) random_hash (refcnt lte) (part_number lte)
         (wim lte) (file_on_disk lte) (file_on_disk_fp lte)
         (attached_buffer lte) (ntfs_loc lte) (attr lte).

(** [add_new_dentry_tree(w, root_dentry)] with the lookup table of [w]:
    [inl] is a code the function names itself, [inr] the value
    [wimlib_select_image] returns; [None] when an array is used outside
    its bounds.  The new array has [image_count + 1] elements, a [u32],
    all zero before the old ones are copied into it. *)
Definition add_new_dentry_tree (table : lookup_table)
  (w : WIMStruct (struct_image_metadata dentry)) (root : dentry)
  : option ((wimlib_error_code + Z) * lookup_table *
            WIMStruct (struct_image_metadata dentry)) :=
  if negb CALLOC_ok then Some (inl WIMLIB_ERR_NOMEM, table, w) else
  let allocated := u32 (image_count w + 1) in
  if (zlength (image_metadata w) <? image_count w)
     || (allocated <? image_count w)
  then None else
  let imd := ztake (image_count w) (image_metadata w) ++
             repeat (mk_image_metadata None None false)
                    (Z.to_nat (allocated - image_count w)) in
  if negb new_lookup_table_entry_ok
  then Some (inl WIMLIB_ERR_NOMEM, table, w) else
  let table := lookup_table_insert table imd_lookup_entry in
  let count := u32 (image_count w + 1) in
  match array_set imd (count - 1)
          (mk_image_metadata (Some root) (Some random_hash) true) with
  | None => None
  | Some imd =>
      let '(ret, w') :=
        wimlib_select_image
          (mk_WIMStruct _ count (boot_idx w) imd (current_image w)
                        (events w)) count in
      Some (inr ret, table, w')
  end.

End add_new_dentry_tree.

(** A selection that takes the images of the archive and changes nothing
    else. *)
Definition selects_in_place (A : Type)
  (wimlib_select_image : WIMStruct A -> Z -> Z * WIMStruct A) : Prop :=
  forall w i,
    1 <= i <= image_count w ->
    wimlib_select_image w i =
    (0, mk_WIMStruct A (image_count w) (boot_idx w) (image_metadata w) i
                     (events w)).

End AddImage.

(** ** The streams of a captured NTFS inode ([ntfs-capture.c]) *)

Module NtfsStreams.
Import Int BufferIO ResourceEntry LookupTable NtfsCapture.

(** The lookup table entry a stream is given: none for an empty stream,
    the entry of the digest of its payload otherwise. *)
Definition stream_lte (sha1 : list byte -> list byte) (type0 : ATTR_TYPES)
  (ar : ATTR_RECORD) : option (list byte) :=
  if zlength (data ar) =? 0 then None
  else Some (sha1 (stream_payload type0 ar)).

(** The alternate data stream entries of the named streams among
    [attrs], and the entry of the first unnamed one. *)
Definition named_streams (sha1 : list byte -> list byte) (type0 : ATTR_TYPES)
  (attrs : list ATTR_RECORD) : list wim_ads_entry :=
  map (fun ar => mk_wim_ads_entry (stream_name_utf8 ar)
                                  (stream_lte sha1 type0 ar))
      (filter (fun ar => negb (unnamed ar)) attrs).

Definition unnamed_stream (sha1 : list byte -> list byte)
  (type0 : ATTR_TYPES) (attrs : list ATTR_RECORD) (otherwise : option (list byte))
  : option (list byte) :=
  match filter unnamed attrs with
  | ar :: _ => stream_lte sha1 type0 ar
  | [] => otherwise
  end.

End NtfsStreams.

(** ** Writing a blob to an NTFS volume ([ntfs-3g_apply.c]) *)

Module NtfsApply.
Import Int BufferIO.

(** A call [ntfs_attr_pwrite(attr, pos, count, buf)]. *)
Inductive pwrite_call : Set :=
| call_ntfs_attr_pwrite (attr pos count : Z) (buf : list byte).

(** The fields of [struct ntfs_3g_apply_ctx] that [ntfs_3g_extract_chunk]
    uses: the [num_open_attrs] first elements of [open_attrs] (an open
    attribute is a number), [offset], and [reparse_ptr] as the number of
    bytes between [rpbuf.rpdata] and the byte it points to ([None] for
    [NULL]) with the bytes of [rpbuf.rpdata]; [pwrites] collects the
    calls made. *)
Record ntfs_3g_apply_ctx : Set := mk_ctx {
  open_attrs : list Z;
  offset : Z;
  reparse_ptr : option Z;
  rpdata : list byte;
  pwrites : list pwrite_call
}.

Section ntfs_3g_extract_chunk.

(** What [ntfs_attr_pwrite] returns. *)
Variable ntfs_attr_pwrite : Z -> Z -> Z -> list byte -> Z.

(** The loop over the open attributes: [false] at the first call that
    does not return [size].  A call is recorded with the values of
    [ctx->offset] and [size] that it is handed; [ntfs_attr_pwrite] takes
    both as [s64], which for values below 2^63 is the same number. *)
Fixpoint write_to_attrs (attrs : list Z) (offset size : Z)
  (chunk : list byte) (calls : list pwrite_call)
  : bool * list pwrite_call :=
  match attrs with
  | [] => (true, calls)
  | attr :: rest =>
      let res := ntfs_attr_pwrite attr offset size chunk in
      let calls := calls ++ [call_ntfs_attr_pwrite attr offset size chunk] in
      if negb (u64 res =? size) then (false, calls)
      else write_to_attrs rest offset size chunk calls
  end.

(** [ntfs_3g_extract_chunk(chunk, size, ctx)]. *)
Definition ntfs_3g_extract_chunk (chunk : list byte) (size : Z)
  (ctx : ntfs_3g_apply_ctx) : status * ntfs_3g_apply_ctx :=
  let '(ok, calls) :=
    write_to_attrs (open_attrs ctx) (offset ctx) size chunk (pwrites ctx) in
  let ctx := mk_ctx (open_attrs ctx) (offset ctx) (reparse_ptr ctx)
                    (rpdata ctx) calls in
  if negb ok then (Ret WIMLIB_ERR_NTFS_3G, ctx) else
  match reparse_ptr ctx with
  | Some p =>
      if (zlength chunk <? size) || (zlength (rpdata ctx) <? p + size)
      then (Fault BUFFER_OVERRUN, ctx)
      else
        (Ret WIMLIB_ERR_SUCCESS,
         mk_ctx (open_attrs ctx) (u64 (offset ctx + size)) (Some (p + size))
                (ztake p (rpdata ctx) ++ ztake size chunk ++
                 zdrop (p + size) (rpdata ctx))
                (pwrites ctx))
  | None =>
      (Ret WIMLIB_ERR_SUCCESS,
       mk_ctx (open_attrs ctx) (u64 (offset ctx + size)) None (rpdata ctx)
              (pwrites ctx))
  end.

(** Modelled from the spec: the reader of a blob is not part of the
    sources at hand.  "callbacks are [begin_blob(blob, targets)], repeated
    [chunk(bytes)], [end_blob(status)]", and "a failure on any single
    target during [chunk] aborts the blob". *)
Fixpoint extract_chunks (chunks : list (list byte)) (ctx : ntfs_3g_apply_ctx)
  : status * ntfs_3g_apply_ctx :=
  match chunks with
  | [] => (Ret WIMLIB_ERR_SUCCESS, ctx)
  | chunk :: rest =>
      match ntfs_3g_extract_chunk chunk (zlength chunk) ctx with
      | (Ret WIMLIB_ERR_SUCCESS, ctx') => extract_chunks rest ctx'
      | r => r
      end
  end.

End ntfs_3g_extract_chunk.

(** The calls that write [chunks] one behind the other, from [offset]
    on, each to every attribute of [attrs]. *)
Fixpoint fan_out (attrs : list Z) (offset : Z) (chunks : list (list byte))
  : list pwrite_call :=
  match chunks with
  | [] => []
  | chunk :: rest =>
      map (fun attr => call_ntfs_attr_pwrite attr offset (zlength chunk) chunk)
          attrs ++
      fan_out attrs (offset + zlength chunk) rest
  end.

Section ntfs_3g_first_extraction_alias.

(** [struct wim_dentry], and [dentry_has_short_name(dentry)], which is
    not part of the sources at hand. *)
Variable wim_dentry : Type.
Variable dentry_has_short_name : wim_dentry -> bool.

(** The [do ... while] loop with [dentry] the entry of [next] and [rest]
    the entries between it and the head of the list. *)
Fixpoint alias_from (dentry : wim_dentry) (rest : list wim_dentry)
  : wim_dentry :=
  if dentry_has_short_name dentry then dentry
  else match rest with
       | [] => dentry
       | next :: rest' => alias_from next rest'
       end.

(** [ntfs_3g_first_extraction_alias(inode)] for the list
    [i_extraction_aliases] of the inode; on an empty list the loop takes
    the head of the list for a dentry. *)
Definition ntfs_3g_first_extraction_alias
  (i_extraction_aliases : list wim_dentry) : fault + wim_dentry :=
  match i_extraction_aliases with
  | [] => inl OUT_OF_BOUNDS
  | first :: rest => inr (alias_from first rest)
  end.

End ntfs_3g_first_extraction_alias.

End NtfsApply.

(** ** Reading back a captured NTFS stream ([ntfs-capture.c],
       [resource.c]) *)

Module NtfsResource.
Import Int BufferIO ResourceEntry LookupTable.

(** The entry with its NTFS attribute opened: [lte->attr] gives the bytes
    [content]. *)
Definition with_open_attr (content : list byte)
  (lte : wim_lookup_table_entry) : wim_lookup_table_entry :=
  mk_lte (resource_entry lte) (resource_location lte) (hash lte) (refcnt lte)
         (part_number lte) (wim lte) (file_on_disk lte) (file_on_disk_fp lte)
         (attached_buffer lte) (ntfs_loc lte) (Some content).

End NtfsResource.

(** * Properties *)

(** ** Fixed-width integers and little-endian fields *)

Module BufferIOTheory.
Import Int BufferIO.

Lemma u64_range x : 0 <= u64 x < 2 ^ 64.
Proof. unfold u64. apply Z.mod_pos_bound. lia. Qed.

Lemma u32_range x : 0 <= u32 x < 2 ^ 32.
Proof. unfold u32. apply Z.mod_pos_bound. lia. Qed.

Lemma u64_small x : 0 <= x < 2 ^ 64 -> u64 x = x.
Proof. intros H. unfold u64. now apply Z.mod_small. Qed.

Lemma u32_small x : 0 <= x < 2 ^ 32 -> u32 x = x.
Proof. intros H. unfold u32. now apply Z.mod_small. Qed.

Lemma Z_of_byte_range b : 0 <= Z_of_byte b < 256.
Proof.
  unfold Z_of_byte. pose proof (Byte.to_N_bounded b) as H.
  split; [apply N2Z.is_nonneg|]. lia.
Qed.

Lemma Z_of_byte_of_Z z : Z_of_byte (byte_of_Z z) = z mod 256.
Proof.
  unfold Z_of_byte, byte_of_Z.
  assert (Hr : 0 <= z mod 256 < 256) by (apply Z.mod_pos_bound; lia).
  destruct (Byte.of_N (Z.to_N (z mod 256))) as [b|] eqn:E.
  - apply Byte.to_of_N in E. rewrite E. rewrite Z2N.id; lia.
  - apply Byte.of_N_None_iff in E. lia.
Qed.

Lemma le_bytes_length n v : List.length (le_bytes n v) = n.
Proof.
  revert v. induction n as [|n IH]; intros v; simpl; [reflexivity|].
  now rewrite IH.
Qed.

Lemma le_value_range bs : 0 <= le_value bs < 256 ^ Z.of_nat (List.length bs).
Proof.
  induction bs as [|b bs IH].
  - simpl. lia.
  - cbn [le_value List.length]. rewrite Nat2Z.inj_succ, Z.pow_succ_r by lia.
    pose proof (Z_of_byte_range b). lia.
Qed.

Lemma le_value_le_bytes n v : le_value (le_bytes n v) = v mod 256 ^ Z.of_nat n.
Proof.
  revert v. induction n as [|n IH]; intros v.
  - simpl. now rewrite Z.mod_1_r.
  - cbn [le_bytes le_value]. rewrite Z_of_byte_of_Z, IH.
    rewrite Nat2Z.inj_succ, Z.pow_succ_r by lia.
    rewrite Z.rem_mul_r by lia. lia.
Qed.

Lemma firstn_exact {A} (a b : list A) : firstn (List.length a) (a ++ b) = a.
Proof.
  rewrite firstn_app, Nat.sub_diag, firstn_all. simpl. apply app_nil_r.
Qed.

Lemma skipn_exact {A} (a b : list A) : skipn (List.length a) (a ++ b) = b.
Proof. rewrite skipn_app, Nat.sub_diag, skipn_all. reflexivity. Qed.

Lemma take_bytes_app n bs rest :
  List.length bs = n -> take_bytes n (bs ++ rest) = Some (bs, rest).
Proof.
  intros H. unfold take_bytes. rewrite length_app.
  destruct (Nat.ltb_spec (List.length bs + List.length rest) n) as [L|L]; [lia|].
  subst n. now rewrite firstn_exact, skipn_exact.
Qed.

Lemma take_bytes_enough n p :
  (n <= List.length p)%nat -> take_bytes n p = Some (firstn n p, skipn n p).
Proof.
  intros H. unfold take_bytes.
  destruct (Nat.ltb_spec (List.length p) n) as [L|L]; [lia|reflexivity].
Qed.

Lemma get_le_put n v rest :
  get_le n (le_bytes n v ++ rest) = Some (v mod 256 ^ Z.of_nat n, rest).
Proof.
  unfold get_le. rewrite take_bytes_app by apply le_bytes_length.
  now rewrite le_value_le_bytes.
Qed.

Lemma get_le_enough n p :
  (n <= List.length p)%nat ->
  get_le n p = Some (le_value (firstn n p), skipn n p).
Proof. intros H. unfold get_le. now rewrite take_bytes_enough. Qed.

(** [ztake] and [zdrop] are [firstn] and [skipn]. *)
Lemma ztake_firstn {A} n (l : list A) : ztake n l = firstn (Z.to_nat n) l.
Proof.
  revert n. induction l as [|x l IH]; intros n; simpl.
  - now rewrite firstn_nil.
  - destruct (Z.leb_spec n 0) as [L|L].
    + replace (Z.to_nat n) with 0%nat by lia. reflexivity.
    + replace (Z.to_nat n) with (S (Z.to_nat (n - 1))) by lia.
      simpl. now rewrite IH.
Qed.

Lemma zdrop_skipn {A} n (l : list A) : zdrop n l = skipn (Z.to_nat n) l.
Proof.
  revert n. induction l as [|x l IH]; intros n; simpl.
  - now rewrite skipn_nil.
  - destruct (Z.leb_spec n 0) as [L|L].
    + replace (Z.to_nat n) with 0%nat by lia. reflexivity.
    + replace (Z.to_nat n) with (S (Z.to_nat (n - 1))) by lia.
      simpl. now rewrite IH.
Qed.

Lemma zlength_nonneg {A} (l : list A) : 0 <= zlength l.
Proof. unfold zlength. lia. Qed.

Lemma zlength_app {A} (a b : list A) : zlength (a ++ b) = zlength a + zlength b.
Proof. unfold zlength. rewrite length_app. lia. Qed.

Lemma zlength_ztake {A} n (l : list A) :
  zlength (ztake n l) = Z.min (Z.max 0 n) (zlength l).
Proof. unfold zlength. rewrite ztake_firstn, length_firstn. lia. Qed.

Lemma zlength_ztake_le {A} n (l : list A) : zlength (ztake n l) <= Z.max 0 n.
Proof. rewrite zlength_ztake. lia. Qed.

Lemma ztake_all {A} n (l : list A) : zlength l <= n -> ztake n l = l.
Proof.
  unfold zlength. intros H. rewrite ztake_firstn. apply firstn_all2. lia.
Qed.

Lemma ztake_app_exact {A} (a b : list A) : ztake (zlength a) (a ++ b) = a.
Proof.
  unfold zlength. rewrite ztake_firstn, Nat2Z.id. apply firstn_exact.
Qed.

Lemma zdrop_app_exact {A} (a b : list A) : zdrop (zlength a) (a ++ b) = b.
Proof.
  unfold zlength. rewrite zdrop_skipn, Nat2Z.id. apply skipn_exact.
Qed.

(** The two masks of [get_resource_entry]. *)
Lemma land_reserved_bits v :
  0 <= v < 2 ^ 64 ->
  Z.land v 0xc000000000000000 = 2 ^ 62 * (v / 2 ^ 62).
Proof.
  intros H.
  change 0xc000000000000000 with (Z.land (Z.ones 64) (Z.lnot (Z.ones 62))).
  rewrite Z.land_assoc, Z.land_ones by lia.
  rewrite Z.mod_small by lia.
  change (Z.land v (Z.lnot (Z.ones 62))) with (Z.ldiff v (Z.ones 62)).
  rewrite Z.ldiff_ones_r by lia.
  rewrite Z.shiftl_mul_pow2, Z.shiftr_div_pow2 by lia. lia.
Qed.

Lemma land_low_62 v : Z.land v 0x3fffffffffffffff = v mod 2 ^ 62.
Proof.
  change 0x3fffffffffffffff with (Z.ones 62). apply Z.land_ones. lia.
Qed.

Lemma reserved_bits_clear_iff v :
  0 <= v < 2 ^ 64 -> (Z.land v 0xc000000000000000 =? 0) = (v <? 2 ^ 62).
Proof.
  intros H. rewrite land_reserved_bits by assumption.
  destruct (Z.ltb_spec v (2 ^ 62)) as [L|L].
  - rewrite Z.div_small by lia. reflexivity.
  - apply Z.eqb_neq.
    assert (1 <= v / 2 ^ 62) by (apply Z.div_le_lower_bound; lia). lia.
Qed.

End BufferIOTheory.

(** ** Resource entries *)

Module ResourceEntryTheory.
Import Int BufferIO ResourceEntry BufferIOTheory.

Lemma truncate_62_spec msg v :
  0 <= v < 2 ^ 64 ->
  truncate_62 msg v =
  (v mod 2 ^ 62, if v <? 2 ^ 62 then [] else [msg]).
Proof.
  intros H. unfold truncate_62.
  rewrite reserved_bits_clear_iff by assumption.
  destruct (Z.ltb_spec v (2 ^ 62)) as [L|L].
  - now rewrite Z.mod_small by lia.
  - now rewrite land_low_62.
Qed.

(** Bits 62 and 63 of a [u64] are clear exactly when it is below 2^62. *)
Lemma upper_two_bits v :
  0 <= v < 2 ^ 64 ->
  Z.testbit v 62 || Z.testbit v 63 = negb (v <? 2 ^ 62).
Proof.
  intros H.
  rewrite !Z.testbit_odd, !Z.shiftr_div_pow2 by lia.
  assert (Hq : 0 <= v / 2 ^ 62 < 4).
  { split; [apply Z.div_pos; lia|]. apply Z.div_lt_upper_bound; lia. }
  assert (E : v / 2 ^ 63 = v / 2 ^ 62 / 2).
  { rewrite Z.div_div by lia. reflexivity. }
  rewrite E.
  destruct (Z.ltb_spec v (2 ^ 62)) as [L|L].
  - rewrite Z.div_small by lia. reflexivity.
  - assert (1 <= v / 2 ^ 62) by (apply Z.div_le_lower_bound; lia).
    assert (C : v / 2 ^ 62 = 1 \/ v / 2 ^ 62 = 2 \/ v / 2 ^ 62 = 3) by lia.
    destruct C as [C|[C|C]]; rewrite C; reflexivity.
Qed.

Lemma bits_of_mod_62 v n :
  0 <= v < 2 ^ 64 ->
  Z.testbit (v mod 2 ^ 62) n =
  if (n =? 62) || (n =? 63) then false else Z.testbit v n.
Proof.
  intros H.
  destruct (Z.ltb_spec n 0) as [N|N].
  - rewrite !Z.testbit_neg_r by lia.
    destruct (Z.eqb_spec n 62), (Z.eqb_spec n 63); try lia; reflexivity.
  - destruct (Z.ltb_spec n 62) as [L|L].
    + rewrite Z.mod_pow2_bits_low by lia.
      destruct (Z.eqb_spec n 62), (Z.eqb_spec n 63); try lia; reflexivity.
    + rewrite Z.mod_pow2_bits_high by lia.
      destruct (Z.eqb_spec n 62), (Z.eqb_spec n 63); try reflexivity.
      symmetry. destruct (Z.eq_dec v 0) as [->|NZ]; [apply Z.bits_0|].
      apply Z.bits_above_log2; [lia|].
      apply Z.log2_lt_pow2; [lia|].
      apply Z.lt_le_trans with (2 ^ 64); [lia|].
      apply Z.pow_le_mono_r; lia.
Qed.

Lemma le_value_u64 bs : List.length bs = 8%nat -> 0 <= le_value bs < 2 ^ 64.
Proof.
  intros H. pose proof (le_value_range bs) as R. rewrite H in R.
  change (256 ^ Z.of_nat 8) with (2 ^ 64) in R. exact R.
Qed.

(** C7.  For every on-disk resource entry (24 bytes at [p]):
    [get_resource_entry] takes the stored size and the flags as they are,
    and in each of the fields offset and original size it clears bits 62
    and 63 and leaves every other bit as it is; it prints the warning of a
    field exactly when bit 62 or bit 63 of the field is set, so a field
    without those bits is parsed unchanged and without a warning. *)
Theorem get_resource_entry_truncates_reserved_bits (p : list byte) :
  (24 <= List.length p)%nat ->
  let raw_offset := le_value (firstn 8 (skipn 8 p)) in
  let raw_original_size := le_value (firstn 8 (skipn 16 p)) in
  let reserved v := Z.testbit v 62 || Z.testbit v 63 in
  exists entry warnings,
    get_resource_entry p = Some (skipn 24 p, entry, warnings) /\
    size entry = le_value (firstn 7 p) /\
    flags entry = le_value (firstn 1 (skipn 7 p)) /\
    (forall n, Z.testbit (offset entry) n =
               if (n =? 62) || (n =? 63) then false
               else Z.testbit raw_offset n) /\
    (forall n, Z.testbit (original_size entry) n =
               if (n =? 62) || (n =? 63) then false
               else Z.testbit raw_original_size n) /\
    (reserved raw_offset = false -> offset entry = raw_offset) /\
    (reserved raw_original_size = false ->
     original_size entry = raw_original_size) /\
    warnings =
      (if reserved raw_offset then [truncating_offset] else []) ++
      (if reserved raw_original_size then [truncating_original_size] else []).
Proof.
  intros Hlen raw_offset raw_original_size reserved.
  assert (Ro : 0 <= raw_offset < 2 ^ 64).
  { apply le_value_u64. rewrite length_firstn, length_skipn. lia. }
  assert (Rs : 0 <= raw_original_size < 2 ^ 64).
  { apply le_value_u64. rewrite length_firstn, length_skipn. lia. }
  unfold get_resource_entry, get_u56, get_u8, get_u64.
  rewrite get_le_enough by lia.
  rewrite get_le_enough by (rewrite length_skipn; lia).
  rewrite get_le_enough by (rewrite !length_skipn; lia).
  rewrite !skipn_skipn. cbn [Nat.add].
  fold raw_offset. rewrite truncate_62_spec by exact Ro.
  rewrite get_le_enough by (rewrite !length_skipn; lia).
  rewrite !skipn_skipn. cbn [Nat.add].
  fold raw_original_size. rewrite truncate_62_spec by exact Rs.
  eexists. eexists. split; [reflexivity|]. cbn [size flags offset original_size].
  unfold reserved. rewrite !upper_two_bits by assumption.
  repeat split.
  - intros n. now apply bits_of_mod_62.
  - intros n. now apply bits_of_mod_62.
  - intros E. apply negb_false_iff, Z.ltb_lt in E. apply Z.mod_small. lia.
  - intros E. apply negb_false_iff, Z.ltb_lt in E. apply Z.mod_small. lia.
  - destruct (raw_offset <? 2 ^ 62), (raw_original_size <? 2 ^ 62);
      reflexivity.
Qed.

(** Witness of C7: an entry whose offset has bit 62 set. *)
Lemma get_resource_entry_truncates_reserved_bits_witness :
  let p := put_resource_entry []
             (mk_resource_entry 1000 4 (2 ^ 62 + 5) 70000) in
  exists entry warnings,
    get_resource_entry p = Some (skipn 24 p, entry, warnings) /\
    offset entry = 5 /\ original_size entry = 70000 /\
    warnings = [truncating_offset].
Proof.
  intros p.
  destruct (get_resource_entry_truncates_reserved_bits p) as
    (entry & warnings & E & _ & _ & _ & _ & _ & _ & W).
  - vm_compute. lia.
  - exists entry, warnings. rewrite E.
    split; [reflexivity|].
    vm_compute in E. injection E as <- <-.
    repeat split; reflexivity.
Defined.

(** C8.  For every resource entry with a stored size below 2^56, flags
    that fit their byte and an offset and an original size below 2^62,
    [put_resource_entry] writes exactly 24 bytes after the cursor (the
    size on 7 bytes, the flags on 1, the offset on 8, the original size
    on 8), and
    [get_resource_entry] on these bytes gives back the same entry, with no
    warning, and leaves the cursor exactly 24 bytes further. *)
Theorem resource_entry_round_trip (entry : resource_entry) (p rest : list byte) :
  0 <= size entry < 2 ^ 56 ->
  0 <= flags entry < 2 ^ 8 ->
  0 <= offset entry < 2 ^ 62 ->
  0 <= original_size entry < 2 ^ 62 ->
  put_resource_entry [] entry =
    le_bytes 7 (size entry) ++ le_bytes 1 (flags entry) ++
    le_bytes 8 (offset entry) ++ le_bytes 8 (original_size entry) /\
  List.length (put_resource_entry [] entry) = 24%nat /\
  put_resource_entry p entry = p ++ put_resource_entry [] entry /\
  get_resource_entry (put_resource_entry [] entry ++ rest) =
    Some (rest, entry, []).
Proof.
  intros Hs Hf Ho Hz. destruct entry as [s f o z].
  cbn [size flags offset original_size] in *.
  unfold put_resource_entry, put_u56, put_u8, put_u64.
  cbn [size flags offset original_size].
  split; [|split; [|split]].
  - rewrite !app_nil_l, <- !app_assoc. reflexivity.
  - rewrite !length_app, !le_bytes_length. reflexivity.
  - rewrite !app_nil_l, <- !app_assoc. reflexivity.
  - rewrite !app_nil_l, <- !app_assoc.
    unfold get_resource_entry, get_u56, get_u8, get_u64.
    rewrite get_le_put. rewrite get_le_put. rewrite get_le_put.
    change (256 ^ Z.of_nat 7) with (2 ^ 56).
    change (256 ^ Z.of_nat 1) with (2 ^ 8).
    change (256 ^ Z.of_nat 8) with (2 ^ 64).
    rewrite (Z.mod_small s), (Z.mod_small f), (Z.mod_small o) by lia.
    rewrite truncate_62_spec by lia.
    rewrite get_le_put.
    change (256 ^ Z.of_nat 8) with (2 ^ 64).
    rewrite (Z.mod_small z) by lia.
    rewrite truncate_62_spec by lia.
    rewrite !Z.mod_small by lia.
    destruct (Z.ltb_spec o (2 ^ 62)), (Z.ltb_spec z (2 ^ 62)); try lia.
    reflexivity.
Qed.

(** Witness of C8. *)
Lemma resource_entry_round_trip_witness :
  let entry := mk_resource_entry 123456 4 (2 ^ 40 + 208) 654321 in
  put_resource_entry [] entry =
    le_bytes 7 (size entry) ++ le_bytes 1 (flags entry) ++
    le_bytes 8 (offset entry) ++ le_bytes 8 (original_size entry) /\
  List.length (put_resource_entry [] entry) = 24%nat /\
  put_resource_entry [Byte.x2a] entry = [Byte.x2a] ++ put_resource_entry [] entry /\
  get_resource_entry (put_resource_entry [] entry ++ [Byte.xff]) =
    Some ([Byte.xff], entry, []).
Proof.
  intros entry.
  apply (resource_entry_round_trip entry [Byte.x2a] [Byte.xff]);
    cbn; lia.
Defined.

End ResourceEntryTheory.

(** ** The reader of compressed resources *)

Module ResourceTheory.
Import Int BufferIO ResourceEntry Stdio LookupTable Resource Examples.
Import BufferIOTheory.

(** *** What a piece of the body adds to the trace *)

Section OnlyEvents.

Variable P : event -> Prop.

Lemma only_events_ret {A} (a : A) : only_events P (io_ret a).
Proof. intros s. exists []. simpl. now rewrite app_nil_r. Qed.

Lemma only_events_return {A} st : only_events P (@io_return A st).
Proof. intros s. exists []. simpl. now rewrite app_nil_r. Qed.

Lemma only_events_bind {A B} (m : io A) (k : A -> io B) :
  only_events P m -> (forall a, only_events P (k a)) -> only_events P (io_bind m k).
Proof.
  intros Hm Hk s. unfold io_bind.
  destruct (Hm s) as (e1 & E1 & F1).
  destruct (m s) as [[a|st] s1]; cbn [snd] in E1.
  - destruct (Hk a s1) as (e2 & E2 & F2).
    exists (e1 ++ e2). rewrite E2, E1, app_assoc. split; [reflexivity|].
    apply Forall_app; now split.
  - exists e1. now split.
Qed.

Lemma only_events_emit e : P e -> only_events P (emit e).
Proof. intros H s. exists [e]. simpl. split; [reflexivity|]. now constructor. Qed.

Lemma only_events_seek_set off :
  P (call_fseeko_SEEK_SET off) -> only_events P (do_fseeko_SEEK_SET off).
Proof.
  intros H s. exists [call_fseeko_SEEK_SET off]. unfold do_fseeko_SEEK_SET.
  destruct (fseeko_SEEK_SET (fp s) off); simpl; (split; [reflexivity|]);
    now constructor.
Qed.

Lemma only_events_seek_cur off :
  P (call_fseeko_SEEK_CUR off) -> only_events P (do_fseeko_SEEK_CUR off).
Proof.
  intros H s. exists [call_fseeko_SEEK_CUR off]. unfold do_fseeko_SEEK_CUR.
  destruct (fseeko_SEEK_CUR (fp s) off); simpl; (split; [reflexivity|]);
    now constructor.
Qed.

Lemma only_events_fread cap n :
  (forall pos, P (call_fread pos n)) -> only_events P (do_fread cap n).
Proof.
  intros H s. exists [call_fread (f_pos (fp s)) n]. unfold do_fread.
  destruct (fread (fp s) n) as [got fp'].
  destruct (cap <? zlength got); simpl; (split; [reflexivity|]);
    now constructor.
Qed.

Lemma only_events_write_out cap bs : only_events P (write_out cap bs).
Proof.
  intros s. exists []. unfold write_out.
  destruct (cap <? zlength (out s) + zlength bs); simpl;
    now rewrite app_nil_r.
Qed.

Lemma only_events_fread_out cap n :
  (forall pos, P (call_fread pos n)) -> only_events P (do_fread_out cap n).
Proof.
  intros H s. unfold do_fread_out.
  apply (only_events_bind (do_fread (cap - zlength (out s)) n)).
  - now apply only_events_fread.
  - intros got. apply only_events_bind; [apply only_events_write_out|].
    intros _. apply only_events_ret.
Qed.

Lemma only_events_if {A} (b : bool) (m1 m2 : io A) :
  only_events P m1 -> only_events P m2 -> only_events P (if b then m1 else m2).
Proof. now destruct b. Qed.

End OnlyEvents.

Create HintDb trace.

#[local] Hint Resolve only_events_ret only_events_return only_events_emit
  only_events_seek_set only_events_seek_cur only_events_fread
  only_events_write_out only_events_fread_out : trace.

Lemma only_events_weaken (P Q : event -> Prop) {A} (m : io A) :
  (forall e, P e -> Q e) -> only_events P m -> only_events Q m.
Proof.
  intros PQ H s. destruct (H s) as (evs & E & F). exists evs. split; [exact E|].
  eapply Forall_impl; eauto.
Qed.

(** *** The statuses a piece of the body leaves the function with *)

Section ReturnsOnly.

Variable Q : status -> Prop.

Lemma returns_only_ret {A} (a : A) : returns_only Q (io_ret a).
Proof. intros s st H. discriminate. Qed.

Lemma returns_only_return {A} st : Q st -> returns_only Q (@io_return A st).
Proof. intros H s st' E. simpl in E. now injection E as <-. Qed.

Lemma returns_only_bind {A B} (m : io A) (k : A -> io B) :
  returns_only Q m -> (forall a, returns_only Q (k a)) ->
  returns_only Q (io_bind m k).
Proof.
  intros Hm Hk s st. unfold io_bind. specialize (Hm s).
  destruct (m s) as [[a|st1] s1]; cbn [fst] in *.
  - apply Hk.
  - intros E. injection E as <-. now apply Hm.
Qed.

Lemma returns_only_emit e : returns_only Q (emit e).
Proof. intros s st H. discriminate. Qed.

Lemma returns_only_seek_set off : returns_only Q (do_fseeko_SEEK_SET off).
Proof.
  intros s st. unfold do_fseeko_SEEK_SET.
  destruct (fseeko_SEEK_SET (fp s) off); discriminate.
Qed.

Lemma returns_only_seek_cur off : returns_only Q (do_fseeko_SEEK_CUR off).
Proof.
  intros s st. unfold do_fseeko_SEEK_CUR.
  destruct (fseeko_SEEK_CUR (fp s) off); discriminate.
Qed.

Hypothesis Q_fault : forall f, Q (Fault f).

Lemma returns_only_fread cap n : returns_only Q (do_fread cap n).
Proof.
  intros s st. unfold do_fread. destruct (fread (fp s) n) as [got fp'].
  destruct (cap <? zlength got); cbn [fst]; [|discriminate].
  intros E. injection E as <-. apply Q_fault.
Qed.

Lemma returns_only_write_out cap bs : returns_only Q (write_out cap bs).
Proof.
  intros s st. unfold write_out.
  destruct (cap <? zlength (out s) + zlength bs); cbn [fst]; [|discriminate].
  intros E. injection E as <-. apply Q_fault.
Qed.

Lemma returns_only_fread_out cap n : returns_only Q (do_fread_out cap n).
Proof.
  intros s. unfold do_fread_out.
  apply (returns_only_bind (do_fread (cap - zlength (out s)) n)).
  - apply returns_only_fread.
  - intros got. apply returns_only_bind; [apply returns_only_write_out|].
    intros _. apply returns_only_ret.
Qed.

End ReturnsOnly.

Lemma inside_chunk_indices evs : Forall inside_chunk evs -> chunk_indices evs = [].
Proof.
  induction 1 as [|e evs He _ IH]; [reflexivity|].
  destruct e; simpl in *; try assumption. contradiction.
Qed.

Lemma chunk_indices_app a b :
  chunk_indices (a ++ b) = chunk_indices a ++ chunk_indices b.
Proof.
  induction a as [|e a IH]; [reflexivity|].
  destruct e; simpl; now rewrite IH.
Qed.

Lemma chunk_range_S first count :
  chunk_range first (S count) = first :: chunk_range (first + 1) count.
Proof.
  unfold chunk_range. cbn [seq map]. rewrite Z.add_0_r. f_equal.
  rewrite <- seq_shift, map_map. apply map_ext. intros j. lia.
Qed.

Lemma do_fseeko_SEEK_CUR_value off s ok s' :
  do_fseeko_SEEK_CUR off s = (Value ok, s') ->
  out s' = out s /\
  (ok = true ->
   f_data (fp s') = f_data (fp s) /\ f_pos (fp s') = f_pos (fp s) + off).
Proof.
  unfold do_fseeko_SEEK_CUR, fseeko_SEEK_CUR.
  destruct (f_pos (fp s) + off <? 2 ^ 63); intros E; injection E as <- <-;
    cbn [out fp f_data f_pos]; split; auto; discriminate.
Qed.

Lemma do_fread_out_value cap n s got s' :
  do_fread_out cap n s = (Value got, s') ->
  got = ztake n (zdrop (f_pos (fp s)) (f_data (fp s))) /\
  out s' = out s ++ got.
Proof.
  unfold do_fread_out, io_bind, do_fread, fread, write_out, io_ret.
  cbn [fp out trace f_pos f_data].
  destruct (_ <? _); [discriminate|]. cbn [fp out trace f_pos f_data].
  destruct (_ <? _); [discriminate|].
  intros E. injection E as <- <-. cbn [out]. auto.
Qed.

Lemma do_fread_trace cap n s :
  trace (snd (do_fread cap n s)) = trace s ++ [call_fread (f_pos (fp s)) n].
Proof.
  unfold do_fread. destruct (fread (fp s) n) as [got fp'].
  destruct (cap <? zlength got); reflexivity.
Qed.

Section Reader.

Variables lzx_decompress xpress_decompress : decompressor.
Variables resource_compressed_size resource_uncompressed_size
          resource_offset : Z.
Variable resource_ctype : compression_type.
Variables len offset : Z.

Local Abbreviation read_chunk_data' :=
  (read_chunk_data lzx_decompress xpress_decompress resource_ctype len offset).
Local Abbreviation read_chunk' :=
  (read_chunk lzx_decompress xpress_decompress resource_compressed_size
     resource_uncompressed_size resource_ctype len offset).
Local Abbreviation read_chunks' :=
  (read_chunks lzx_decompress xpress_decompress resource_compressed_size
     resource_uncompressed_size resource_ctype len offset).
Local Abbreviation after_chunk_table' :=
  (after_chunk_table lzx_decompress xpress_decompress
     resource_compressed_size resource_uncompressed_size resource_offset
     resource_ctype len offset).
Local Abbreviation body' :=
  (read_compressed_resource_body lzx_decompress xpress_decompress
     resource_compressed_size resource_uncompressed_size resource_offset
     resource_ctype len offset).

Lemma read_chunk_data_events i c u :
  only_events inside_chunk (read_chunk_data' i c u).
Proof.
  unfold read_chunk_data.
  destruct (Z.eqb_spec c u) as [E|NE].
  - apply only_events_bind.
    + apply only_events_if; [apply only_events_seek_cur|apply only_events_ret];
        exact I.
    + intros ok. apply only_events_if; [apply only_events_return|].
      apply only_events_bind; [apply only_events_fread_out; intros; exact I|].
      intros got. apply only_events_if; auto with trace.
  - apply only_events_bind; [apply only_events_fread; intros; exact I|].
    intros buf. apply only_events_if; [apply only_events_return|].
    apply only_events_bind; [apply only_events_emit; exact NE|].
    intros _. destruct (decompress _ _ _ _ _ _); [|apply only_events_return].
    repeat apply only_events_if; auto with trace.
Qed.

Lemma read_chunk_events chunk_offsets i s :
  exists evs,
    trace (snd (read_chunk' chunk_offsets i s)) =
      trace s ++ DEBUG2_chunk i :: evs /\
    Forall inside_chunk evs.
Proof.
  unfold read_chunk, io_bind, emit. cbv beta iota.
  set (s1 := mk_io_state _ _ _).
  destruct (chunk_sizes _ _ _ _ _) as [[c u]|].
  - destruct (read_chunk_data_events i c u s1) as (evs & E & F).
    exists evs. rewrite E. subst s1. simpl. now rewrite <- app_assoc.
  - exists []. subst s1. simpl. split; [reflexivity|constructor].
Qed.

Lemma read_chunks_events chunk_offsets n : forall i s,
  exists evs k,
    trace (snd (read_chunks' chunk_offsets n i s)) = trace s ++ evs /\
    (k <= n)%nat /\
    chunk_indices evs = chunk_range i k /\
    (forall a, fst (read_chunks' chunk_offsets n i s) = Value a -> k = n) /\
    Forall sizes_differ evs /\
    (evs = [] \/ exists evs', evs = DEBUG2_chunk i :: evs').
Proof.
  induction n as [|n IH]; intros i s.
  - exists [], 0%nat. simpl. rewrite app_nil_r. repeat split; auto.
  - cbn [read_chunks]. unfold io_bind.
    destruct (read_chunk_events chunk_offsets i s) as (e1 & E1 & F1).
    destruct (read_chunk' chunk_offsets i s) as [[[]|st] s1] eqn:R;
      cbn [snd] in E1; cbv beta iota.
    + destruct (IH (i + 1) s1) as (e2 & k & E2 & Hk & C2 & V2 & F2 & _).
      exists ((DEBUG2_chunk i :: e1) ++ e2), (S k).
      rewrite E2, E1, <- app_assoc. split; [reflexivity|].
      split; [lia|]. split.
      { rewrite chunk_range_S. cbn [app chunk_indices]. f_equal.
        rewrite chunk_indices_app, (inside_chunk_indices e1 F1). exact C2. }
      split; [intros a Ha; f_equal; eapply V2; exact Ha|].
      split.
      { cbn [app]. constructor; [exact I|]. apply Forall_app. split; [|exact F2].
        eapply Forall_impl; [|exact F1]. intros [] H; simpl in *; auto. }
      right. eexists. reflexivity.
    + exists (DEBUG2_chunk i :: e1), 1%nat. split; [exact E1|].
      split; [lia|]. split.
      { cbn [chunk_indices]. rewrite (inside_chunk_indices e1 F1).
        rewrite chunk_range_S. reflexivity. }
      split; [intros a Ha; discriminate|].
      split.
      { constructor; [exact I|].
        eapply Forall_impl; [|exact F1]. intros [] H; simpl in *; auto. }
      right. eexists. reflexivity.
Qed.

Lemma failure_status_fault f : failure_status (Fault f).
Proof. right. right. now exists f. Qed.

Lemma read_chunk_data_status i c u :
  returns_only failure_status (read_chunk_data' i c u).
Proof.
  pose proof failure_status_fault as QF.
  assert (QR : failure_status (Ret WIMLIB_ERR_READ)) by now left.
  assert (QD : failure_status (Ret WIMLIB_ERR_DECOMPRESSION))
    by (right; now left).
  unfold read_chunk_data.
  destruct (c =? u).
  - apply returns_only_bind.
    + destruct (negb _); [apply returns_only_seek_cur|apply returns_only_ret].
    + intros ok. destruct (negb ok); [now apply returns_only_return|].
      apply returns_only_bind; [now apply returns_only_fread_out|].
      intros got. destruct (negb _);
        [now apply returns_only_return|apply returns_only_ret].
  - apply returns_only_bind; [now apply returns_only_fread|].
    intros buf. destruct (negb _); [now apply returns_only_return|].
    apply returns_only_bind; [apply returns_only_emit|].
    intros _. destruct (decompress _ _ _ _ _ _);
      [|now apply returns_only_return].
    destruct (negb _).
    + destruct (_ <? _);
        [now apply returns_only_return|now apply returns_only_write_out].
    + now apply returns_only_write_out.
Qed.

Lemma read_chunk_status chunk_offsets i :
  returns_only failure_status (read_chunk' chunk_offsets i).
Proof.
  unfold read_chunk. apply returns_only_bind; [apply returns_only_emit|].
  intros _. destruct (chunk_sizes _ _ _ _ _) as [[c u]|].
  - apply read_chunk_data_status.
  - apply returns_only_return, failure_status_fault.
Qed.

Lemma read_chunks_status chunk_offsets n : forall i,
  returns_only failure_status (read_chunks' chunk_offsets n i).
Proof.
  induction n as [|n IH]; intros i; cbn [read_chunks].
  - apply returns_only_ret.
  - apply returns_only_bind; [apply read_chunk_status|]. intros _. apply IH.
Qed.

Lemma array_get_0 a : array_get a 0 = nth_error a 0.
Proof. reflexivity. Qed.

(** The arithmetic of lines 109-181 for a read that stays inside the
    resource. *)
Section InRange.

Hypothesis len_pos : 0 < len.
Hypothesis offset_nonneg : 0 <= offset.
Hypothesis in_resource : offset + len <= resource_uncompressed_size.
Hypothesis size_62 : resource_uncompressed_size < 2 ^ 62.
Hypothesis offset_62 : 0 <= resource_offset < 2 ^ 62.

Let sc := offset / 32768.
Let ec := (offset + len - 1) / 32768.
Let last := (resource_uncompressed_size - 1) / 32768.
Let w := if resource_uncompressed_size <? 2 ^ 32 then 4 else 8.
Let first_entry := Z.max sc 1.
Let last_entry := if ec =? last then ec else ec + 1.

Lemma start_chunk_eq : start_chunk offset = sc.
Proof. reflexivity. Qed.

Lemma end_chunk_eq : end_chunk len offset = ec.
Proof.
  unfold end_chunk, u64, WIM_CHUNK_SIZE. subst ec.
  rewrite Z.mod_small by lia. reflexivity.
Qed.

Lemma last_chunk_eq : u64 (num_chunks resource_uncompressed_size - 1) = last.
Proof.
  unfold num_chunks, u64, WIM_CHUNK_SIZE. subst last.
  Z.to_euclidean_division_equations. lia.
Qed.

Lemma chunk_order : 0 <= sc <= ec /\ ec <= last /\ last < 2 ^ 47.
Proof. subst sc ec last. Z.to_euclidean_division_equations. lia. Qed.

Lemma chunk_entry_size_eq : chunk_entry_size resource_uncompressed_size = w.
Proof.
  unfold chunk_entry_size. subst w.
  destruct (Z.leb_spec (2 ^ 32) resource_uncompressed_size),
           (Z.ltb_spec resource_uncompressed_size (2 ^ 32)); lia.
Qed.

Lemma w_cases : w = 4 \/ w = 8.
Proof. subst w. destruct (_ <? _); auto. Qed.

Lemma chunk_table_size_eq :
  chunk_table_size resource_uncompressed_size = w * last.
Proof.
  unfold chunk_table_size, num_chunk_entries.
  rewrite last_chunk_eq, chunk_entry_size_eq.
  pose proof chunk_order. apply u64_small.
  pose proof w_cases as [W|W]; rewrite W; lia.
Qed.

Lemma num_needed_chunks_eq :
  num_needed_chunks resource_uncompressed_size len offset =
  last_entry - sc + 1.
Proof.
  unfold num_needed_chunks. rewrite end_chunk_eq, start_chunk_eq, last_chunk_eq.
  pose proof chunk_order. subst last_entry.
  rewrite (u64_small (ec - sc + 1)) by lia.
  destruct (Z.eqb_spec ec last); cbn [negb]; [lia|].
  rewrite u64_small by lia. lia.
Qed.

Lemma num_needed_chunk_entries_eq :
  num_needed_chunk_entries resource_uncompressed_size len offset =
  last_entry - first_entry + 1.
Proof.
  unfold num_needed_chunk_entries.
  rewrite num_needed_chunks_eq, start_chunk_eq.
  pose proof chunk_order. subst first_entry last_entry.
  destruct (Z.eqb_spec sc 0).
  - rewrite u64_small by (destruct (ec =? last); lia).
    destruct (ec =? last); lia.
  - destruct (ec =? last); lia.
Qed.

Lemma entries_count_range : 0 <= last_entry - first_entry + 1 < 2 ^ 48.
Proof.
  pose proof chunk_order. subst first_entry last_entry.
  destruct (Z.eqb_spec ec last); lia.
Qed.

Lemma file_offset_of_needed_chunk_entries_eq :
  file_offset_of_needed_chunk_entries resource_uncompressed_size
    resource_offset offset =
  resource_offset + (first_entry - 1) * w.
Proof.
  unfold file_offset_of_needed_chunk_entries, start_table_idx.
  rewrite chunk_entry_size_eq, start_chunk_eq.
  pose proof chunk_order as O.
  assert (I : (if sc =? 0 then 0 else u64 (sc - 1)) = first_entry - 1).
  { subst first_entry. destruct (Z.eqb_spec sc 0); [lia|].
    rewrite u64_small; lia. }
  rewrite I.
  assert (R : 0 <= (first_entry - 1) * w < 2 ^ 51).
  { subst first_entry. pose proof w_cases as [W|W]; rewrite W; lia. }
  rewrite (u64_small ((first_entry - 1) * w)) by lia.
  apply u64_small. lia.
Qed.

Lemma chunk_tab_buf_size_eq :
  chunk_tab_buf_size resource_uncompressed_size len offset =
  (last_entry - first_entry + 1) * w.
Proof.
  unfold chunk_tab_buf_size.
  rewrite num_needed_chunk_entries_eq, chunk_entry_size_eq.
  pose proof entries_count_range. apply u64_small.
  pose proof w_cases as [W|W]; rewrite W; lia.
Qed.

Lemma read_chunk_table_run s :
  let r := read_chunk_table resource_uncompressed_size resource_offset
             len offset s in
  trace (snd r) =
    trace s ++ [call_fseeko_SEEK_SET (resource_offset + (first_entry - 1) * w);
                call_fread (resource_offset + (first_entry - 1) * w)
                           ((last_entry - first_entry + 1) * w)] /\
  (fst r = Return (Ret WIMLIB_ERR_READ) \/
   exists chunk_offsets,
     fst r = Value chunk_offsets /\
     (exists c0, nth_error chunk_offsets 0 = Some c0) /\
     (sc = 0 -> nth_error chunk_offsets 0 = Some 0)).
Proof.
  unfold read_chunk_table, io_bind, do_fseeko_SEEK_SET, fseeko_SEEK_SET.
  rewrite file_offset_of_needed_chunk_entries_eq, chunk_tab_buf_size_eq.
  rewrite num_needed_chunk_entries_eq, start_chunk_eq.
  set (toff := resource_offset + (first_entry - 1) * w).
  set (count := last_entry - first_entry + 1).
  pose proof chunk_order as O. pose proof entries_count_range as C.
  fold count in C.
  assert (T : toff < 2 ^ 63).
  { subst toff first_entry. pose proof w_cases as [W|W]; rewrite W; lia. }
  assert (N : 0 <= count * w).
  { pose proof w_cases as [W|W]; rewrite W; lia. }
  destruct (Z.ltb_spec toff (2 ^ 63)) as [_|]; [|lia].
  cbn [negb]. cbv beta iota. unfold do_fread, fread. cbn [fp f_pos f_data out trace].
  set (got := ztake (count * w) (zdrop toff (f_data (fp s)))).
  assert (G : zlength got <= count * w).
  { subst got. pose proof (zlength_ztake_le (count * w)
                             (zdrop toff (f_data (fp s)))). lia. }
  destruct (Z.ltb_spec (count * w) (zlength got)) as [|_]; [lia|].
  cbv beta iota.
  destruct (zlength got =? count * w); cbn [negb]; cbv beta iota;
    unfold io_return, io_ret; cbn [fst snd trace];
    (split; [now rewrite <- app_assoc|]).
  - right. eexists. split; [reflexivity|].
    destruct (Z.eqb_spec sc 0) as [Z0|NZ].
    + split; [exists 0; reflexivity|]. reflexivity.
    + split; [|intros; lia].
      assert (P : (0 < Z.to_nat count)%nat).
      { subst count first_entry last_entry. destruct (ec =? last); lia. }
      destruct (Z.to_nat count) as [|k]; [lia|].
      eexists. reflexivity.
  - left. reflexivity.
Qed.

Lemma read_compressed_resource_in_range (fp0 : FILE) :
  let run := read_compressed_resource lzx_decompress xpress_decompress fp0
               resource_compressed_size resource_uncompressed_size
               resource_offset resource_ctype len offset in
  let table_offset := resource_offset + (first_entry - 1) * w in
  let table_bytes := (last_entry - first_entry + 1) * w in
  exists rest,
    trace (snd run) =
      call_fseeko_SEEK_SET table_offset ::
      call_fread table_offset table_bytes :: rest /\
    (exists k,
       (k <= Z.to_nat (ec - sc + 1))%nat /\
       chunk_indices rest = chunk_range sc k /\
       (fst run = Ret WIMLIB_ERR_SUCCESS -> k = Z.to_nat (ec - sc + 1))) /\
    (rest = [] \/
     exists data_offset rest',
       rest = call_fseeko_SEEK_SET data_offset :: rest' /\
       (rest' = [] \/ exists rest'', rest' = DEBUG2_chunk sc :: rest'') /\
       (sc = 0 -> data_offset = resource_offset + w * last)).
Proof.
  intros run table_offset table_bytes. subst run.
  destruct (read_compressed_resource _ _ _ _ _ _ _ _ _) as [st sf] eqn:R.
  cbn [fst snd].
  unfold read_compressed_resource, run_io, read_compressed_resource_body,
    after_chunk_table in R.
  destruct (Z.eqb_spec len 0) as [|_]; [lia|].
  unfold io_bind in R.
  set (s0 := mk_io_state fp0 [] []) in R.
  destruct (read_chunk_table_run s0) as (TR & RES).
  destruct (read_chunk_table _ _ _ _ s0) as [r s1].
  cbn [fst snd] in TR, RES. cbn [trace s0 app] in TR.
  destruct RES as [-> | (co & -> & (c0 & C0) & CZ)].
  - (* the table could not be read whole *)
    injection R as <- <-. exists []. split; [exact TR|]. split.
    + exists 0%nat. split; [lia|]. split; [reflexivity|]. discriminate.
    + now left.
  - rewrite array_get_0, C0 in R. unfold do_fseeko_SEEK_SET in R.
    set (coff := file_offset_of_first_needed_chunk _ _ _) in R.
    assert (CO : sc = 0 -> coff = resource_offset + w * last).
    { intros Z0. specialize (CZ Z0). rewrite C0 in CZ. injection CZ as ->.
      subst coff. unfold file_offset_of_first_needed_chunk.
      rewrite chunk_table_size_eq. pose proof chunk_order.
      rewrite Z.add_0_r. rewrite (u64_small (resource_offset + w * last));
        [apply u64_small|]; pose proof w_cases as [W|W]; rewrite W; lia. }
    destruct (fseeko_SEEK_SET (fp s1) coff) as [fp1|]; cbn [negb] in R.
    + rewrite end_chunk_eq, start_chunk_eq in R.
      set (s2 := mk_io_state fp1 _ _) in R.
      destruct (read_chunks_events co (Z.to_nat (ec - sc + 1)) sc s2)
        as (evs & k & E & Hk & CI & V & _ & HD).
      pose proof (read_chunks_status co (Z.to_nat (ec - sc + 1)) sc s2) as ST.
      destruct (read_chunks _ _ _ _ _ _ _ _ _ _ s2) as [[[]|st'] s3];
        injection R as <- <-; cbn [fst snd] in *; subst s2; cbn [trace] in E;
        rewrite E, TR; cbn [app];
        (exists (call_fseeko_SEEK_SET coff :: evs));
        (split; [reflexivity|]); cbn [chunk_indices].
      * split.
        { exists k. split; [exact Hk|]. split; [exact CI|].
          intros _. now apply (V tt). }
        right. exists coff, evs. auto.
      * split.
        { exists k. split; [exact Hk|]. split; [exact CI|].
          intros S. subst st'. exfalso.
          destruct (ST _ eq_refl) as [X|[X|[f X]]]; discriminate. }
        right. exists coff, evs. auto.
    + injection R as <- <-. cbn [trace]. rewrite TR. cbn [app].
      exists [call_fseeko_SEEK_SET coff]. split; [reflexivity|]. split.
      * exists 0%nat. split; [lia|]. split; [reflexivity|]. discriminate.
      * right. exists coff, []. auto.
Qed.

End InRange.

(** *** The whole body, for any arguments *)

Lemma read_chunk_table_events :
  only_events sizes_differ
    (read_chunk_table resource_uncompressed_size resource_offset len offset).
Proof.
  unfold read_chunk_table.
  apply only_events_bind; [apply only_events_seek_set; exact I|].
  intros ok. apply only_events_if; [apply only_events_return|].
  apply only_events_bind; [apply only_events_fread; intros; exact I|].
  intros buf. apply only_events_if; auto with trace.
Qed.

Lemma read_chunks_only_events chunk_offsets n i :
  only_events sizes_differ (read_chunks' chunk_offsets n i).
Proof.
  intros s.
  destruct (read_chunks_events chunk_offsets n i s)
    as (evs & k & E & _ & _ & _ & F & _).
  now exists evs.
Qed.

Lemma after_chunk_table_events co :
  only_events sizes_differ (after_chunk_table' co).
Proof.
  unfold after_chunk_table.
  destruct (array_get co 0); [|apply only_events_return].
  apply only_events_bind; [apply only_events_seek_set; exact I|].
  intros ok. apply only_events_if; [apply only_events_return|].
  apply read_chunks_only_events.
Qed.

Lemma body_events : only_events sizes_differ body'.
Proof.
  unfold read_compressed_resource_body.
  apply only_events_if; [apply only_events_return|].
  apply only_events_bind; [apply read_chunk_table_events|].
  exact after_chunk_table_events.
Qed.

Lemma read_chunk_table_trace s :
  let r := read_chunk_table resource_uncompressed_size resource_offset
             len offset s in
  let table_offset :=
    file_offset_of_needed_chunk_entries resource_uncompressed_size
      resource_offset offset in
  (fst r = Return (Ret WIMLIB_ERR_READ) /\
   trace (snd r) = trace s ++ [call_fseeko_SEEK_SET table_offset]) \/
  trace (snd r) =
    trace s ++ [call_fseeko_SEEK_SET table_offset;
                call_fread table_offset
                  (chunk_tab_buf_size resource_uncompressed_size len offset)].
Proof.
  intros r table_offset. subst r.
  unfold read_chunk_table, io_bind, do_fseeko_SEEK_SET, fseeko_SEEK_SET.
  fold table_offset.
  destruct (table_offset <? 2 ^ 63); cbn [negb]; cbv beta iota.
  - right. unfold do_fread, fread. cbn [fp out trace f_pos f_data].
    destruct (_ <? _); cbv beta iota; cbn [snd trace].
    + now rewrite <- app_assoc.
    + destruct (negb _); cbn [io_return io_ret snd trace];
        now rewrite <- app_assoc.
  - left. split; reflexivity.
Qed.

(** The first events of a call that reads something. *)
Lemma table_read_first fp0 :
  len <> 0 ->
  let table_offset :=
    file_offset_of_needed_chunk_entries resource_uncompressed_size
      resource_offset offset in
  let events :=
    trace (snd (read_compressed_resource lzx_decompress xpress_decompress
                  fp0 resource_compressed_size resource_uncompressed_size
                  resource_offset resource_ctype len offset)) in
  events = [call_fseeko_SEEK_SET table_offset] \/
  exists rest,
    events = call_fseeko_SEEK_SET table_offset ::
             call_fread table_offset
               (chunk_tab_buf_size resource_uncompressed_size len offset) ::
             rest.
Proof.
  intros NZ table_offset events. subst events.
  unfold read_compressed_resource, run_io, read_compressed_resource_body.
  destruct (Z.eqb_spec len 0) as [|_]; [contradiction|].
  unfold io_bind.
  pose proof (read_chunk_table_trace (mk_io_state fp0 [] [])) as T.
  cbv zeta in T. fold table_offset in T.
  destruct (read_chunk_table _ _ _ _ _) as [[co|st] s1]; cbn [fst snd trace app] in T.
  - destruct T as [[T _]|T]; [discriminate|].
    right.
    destruct (after_chunk_table_events co s1) as (evs & E & _).
    exists evs.
    destruct (after_chunk_table' co s1) as [[[]|st] s2]; cbn [snd] in *;
      now rewrite E, T.
  - cbn [snd]. destruct T as [[_ T]|T]; [now left|right].
    exists []. exact T.
Qed.

Lemma body_returns : returns_only body_status body'.
Proof.
  assert (QF : forall f, body_status (Fault f))
    by (intros f; right; apply failure_status_fault).
  assert (QR : body_status (Ret WIMLIB_ERR_READ)) by (right; now left).
  unfold read_compressed_resource_body.
  destruct (len =? 0); [apply returns_only_return; now left|].
  apply returns_only_bind.
  - unfold read_chunk_table.
    apply returns_only_bind; [apply returns_only_seek_set|].
    intros ok. destruct (negb ok); [now apply returns_only_return|].
    apply returns_only_bind; [now apply returns_only_fread|].
    intros buf. destruct (negb _);
      [now apply returns_only_return|apply returns_only_ret].
  - intros co. unfold after_chunk_table.
    destruct (array_get co 0); [|now apply returns_only_return].
    apply returns_only_bind; [apply returns_only_seek_set|].
    intros ok. destruct (negb ok); [now apply returns_only_return|].
    intros s st H. right. eapply read_chunks_status. exact H.
Qed.

(** The status of a whole call and the events of its trace. *)
Lemma read_compressed_resource_status_cases fp0 :
  body_status
    (fst (read_compressed_resource lzx_decompress xpress_decompress fp0
            resource_compressed_size resource_uncompressed_size
            resource_offset resource_ctype len offset)).
Proof.
  unfold read_compressed_resource, run_io.
  pose proof (body_returns (mk_io_state fp0 [] [])) as H.
  destruct (body' (mk_io_state fp0 [] [])) as [[[]|st] s]; cbn [fst] in *.
  - now left.
  - now apply H.
Qed.

Lemma read_compressed_resource_trace fp0 :
  Forall sizes_differ
    (trace (snd (read_compressed_resource lzx_decompress xpress_decompress fp0
                   resource_compressed_size resource_uncompressed_size
                   resource_offset resource_ctype len offset))).
Proof.
  unfold read_compressed_resource, run_io.
  destruct (body_events (mk_io_state fp0 [] [])) as (evs & E & F).
  destruct (body' (mk_io_state fp0 [] [])) as [[[]|st] s]; cbn [fst snd] in *;
    rewrite E; exact F.
Qed.

End Reader.

(** The entries decoded from a buffer. *)
Lemma decode_entries_length esz n : forall buf,
  List.length (decode_entries esz n buf) = n.
Proof.
  induction n as [|n IH]; intros buf; cbn [decode_entries List.length];
    [reflexivity|]. now rewrite IH.
Qed.

Lemma decode_entries_nth esz n : forall buf k,
  (k < n)%nat ->
  nth_error (decode_entries esz n buf) k =
  Some (le_value (firstn esz (skipn (k * esz) buf))).
Proof.
  induction n as [|n IH]; intros buf k K.
  { now apply Nat.nlt_0_r in K. }
  cbn [decode_entries]. destruct k as [|k]; [reflexivity|].
  cbn [nth_error]. rewrite IH by lia. rewrite skipn_skipn.
  replace (S k * esz)%nat with (k * esz + esz)%nat by (cbn; lia).
  reflexivity.
Qed.

Lemma firstn_skipn_firstn {A} (l : list A) a n size :
  (a + n <= size)%nat ->
  firstn n (skipn a (firstn size l)) = firstn n (skipn a l).
Proof.
  intros H. rewrite skipn_firstn_comm, firstn_firstn. f_equal. lia.
Qed.

(** What [read_chunk_table] leaves in [chunk_offsets]. *)
Lemma read_chunk_table_entries
  (resource_uncompressed_size resource_offset len offset : Z)
  (s s' : io_state) (chunk_offsets : list Z) :
  let width := chunk_entry_size resource_uncompressed_size in
  let entries :=
    num_needed_chunk_entries resource_uncompressed_size len offset in
  let table_offset :=
    file_offset_of_needed_chunk_entries resource_uncompressed_size
      resource_offset offset in
  let implicit := if start_chunk offset =? 0 then 1 else 0 in
  read_chunk_table resource_uncompressed_size resource_offset len offset s =
    (Value chunk_offsets, s') ->
  entries * width < 2 ^ 64 ->
  zlength chunk_offsets = implicit + entries /\
  (start_chunk offset = 0 -> array_get chunk_offsets 0 = Some 0) /\
  forall k, 0 <= k < entries ->
    array_get chunk_offsets (implicit + k) =
    Some (le_value (ztake width
                      (zdrop (table_offset + k * width) (f_data (fp s))))).
Proof.
  intros width entries table_offset implicit R B.
  assert (W : width = 4 \/ width = 8).
  { subst width. unfold chunk_entry_size. destruct (_ <=? _); auto. }
  assert (E0 : 0 <= entries < 2 ^ 64).
  { subst entries. clear.
    unfold num_needed_chunk_entries, num_needed_chunks, u64. cbv zeta.
    repeat match goal with
           | |- context [if ?b then _ else _] => destruct b
           end; apply Z.mod_pos_bound; reflexivity. }
  assert (T0 : 0 <= table_offset).
  { subst table_offset. unfold file_offset_of_needed_chunk_entries, u64.
    apply Z.mod_pos_bound. reflexivity. }
  revert R. unfold read_chunk_table, io_bind, do_fseeko_SEEK_SET,
    fseeko_SEEK_SET.
  fold table_offset.
  destruct (table_offset <? 2 ^ 63); cbn [negb]; cbv beta iota;
    [|discriminate].
  unfold do_fread, fread. cbn [fp out trace f_pos f_data].
  unfold chunk_tab_buf_size. fold entries width.
  rewrite (u64_small (entries * width)) by lia.
  set (got := ztake (entries * width) (zdrop table_offset (f_data (fp s)))).
  destruct (_ <? zlength got); [discriminate|]. cbv beta iota.
  destruct (Z.eqb_spec (zlength got) (entries * width)) as [G|G];
    cbn [negb]; [|discriminate].
  unfold io_ret. intros [= <- _].
  fold implicit.
  assert (I : (if start_chunk offset =? 0 then [0] else []) =
              repeat 0 (Z.to_nat implicit)).
  { subst implicit. now destruct (_ =? _). }
  assert (I01 : implicit = 0 \/ implicit = 1).
  { subst implicit. destruct (_ =? _); auto. }
  rewrite I. split; [|split].
  - unfold zlength. rewrite length_app, repeat_length, decode_entries_length.
    lia.
  - intros Z0. subst implicit. rewrite Z0. reflexivity.
  - intros k K. unfold array_get.
    destruct (Z.ltb_spec (implicit + k) 0) as [|_]; [lia|].
    rewrite nth_error_app2 by (rewrite repeat_length; lia).
    rewrite repeat_length.
    replace (Z.to_nat (implicit + k) - Z.to_nat implicit)%nat
      with (Z.to_nat k) by lia.
    rewrite decode_entries_nth by lia. do 2 f_equal.
    subst got. rewrite !ztake_firstn, !zdrop_skipn.
    rewrite firstn_skipn_firstn by nia.
    rewrite skipn_skipn. do 2 f_equal. nia.
Qed.

(** The seek to the data of the first needed chunk. *)
Lemma data_seek_event
  (lzx_decompress xpress_decompress : decompressor) (fp0 : FILE)
  (resource_compressed_size resource_uncompressed_size resource_offset : Z)
  (resource_ctype : compression_type) (len offset : Z) :
  let width := chunk_entry_size resource_uncompressed_size in
  let entries :=
    num_needed_chunk_entries resource_uncompressed_size len offset in
  let table_offset :=
    file_offset_of_needed_chunk_entries resource_uncompressed_size
      resource_offset offset in
  let events :=
    trace (snd (read_compressed_resource lzx_decompress xpress_decompress
                  fp0 resource_compressed_size resource_uncompressed_size
                  resource_offset resource_ctype len offset)) in
  len <> 0 ->
  entries * width < 2 ^ 64 ->
  forall e1 e2 e rest,
    events = e1 :: e2 :: e :: rest ->
    e = call_fseeko_SEEK_SET
          (u64 (u64 (resource_offset +
                     chunk_table_size resource_uncompressed_size) +
                (if start_chunk offset =? 0 then 0
                 else le_value (ztake width
                                  (zdrop table_offset (f_data fp0)))))).
Proof.
  intros width entries table_offset events NZ B e1 e2 e rest.
  subst events.
  unfold read_compressed_resource, run_io, read_compressed_resource_body.
  destruct (Z.eqb_spec len 0) as [|_]; [contradiction|].
  unfold io_bind.
  set (s0 := mk_io_state fp0 [] []).
  pose proof (read_chunk_table_trace resource_uncompressed_size
                resource_offset len offset s0) as T.
  cbv zeta in T.
  pose proof (read_chunk_table_entries resource_uncompressed_size
                resource_offset len offset s0) as D.
  cbv zeta in D. fold width entries table_offset in D.
  destruct (read_chunk_table _ _ _ _ s0) as [[co|st] s1];
    cbn [fst snd trace app s0] in T.
  2:{ cbn [snd]. destruct T as [[_ T]|T]; rewrite T; discriminate. }
  destruct T as [[T _]|T]; [discriminate|].
  destruct (D s1 co eq_refl B) as (L & Z0 & Nth).
  unfold after_chunk_table.
  destruct (array_get co 0) as [c0|] eqn:C0.
  2:{ unfold io_return. cbn [snd]. rewrite T. discriminate. }
  unfold io_bind.
  assert (C : c0 = if start_chunk offset =? 0 then 0
                   else le_value (ztake width
                                    (zdrop table_offset (f_data fp0)))).
  { destruct (Z.eqb_spec (start_chunk offset) 0) as [E|E].
    - specialize (Z0 E). congruence.
    - assert (P : 0 < entries).
      { unfold array_get in C0. cbn in C0.
        destruct co; [discriminate|].
        unfold zlength in L. cbn [List.length] in L. lia. }
      specialize (Nth 0 ltac:(lia)). rewrite Z.add_0_l in Nth.
      rewrite Z.mul_0_l, Z.add_0_r in Nth. unfold s0 in Nth.
      cbn [fp] in Nth. congruence. }
  rewrite <- C. unfold do_fseeko_SEEK_SET, file_offset_of_first_needed_chunk.
  destruct (fseeko_SEEK_SET (fp s1) _) as [fp1|]; cbn [negb];
    cbv beta iota zeta.
  - match goal with
    | |- context [read_chunks ?a ?b ?c ?d ?e ?f ?g ?h ?i ?j ?s2] =>
        destruct (read_chunks_only_events a b c d e f g h i j s2)
          as (evs & E & _);
        destruct (read_chunks a b c d e f g h i j s2) as [[[]|st] s3]
    end; cbn [snd trace] in *; rewrite E, T; cbn [app];
      now intros [= _ _ <- _].
  - unfold io_return. cbn [snd trace]. rewrite T. cbn [app].
    now intros [= _ _ <- _].
Qed.

Lemma zlength_buffer_of n d : 0 <= n -> zlength (buffer_of n d) = n.
Proof.
  intros N. unfold buffer_of. rewrite zlength_app.
  pose proof (zlength_ztake_le n d). pose proof (zlength_nonneg (ztake n d)).
  unfold zlength at 2. rewrite repeat_length. lia.
Qed.

Lemma zlength_window {A} (l : list A) a n :
  0 <= a -> 0 <= n -> a + n <= zlength l ->
  zlength (ztake n (zdrop a l)) = n.
Proof.
  intros Pa Pn H. rewrite zlength_ztake. unfold zlength in *.
  rewrite zdrop_skipn, length_skipn. lia.
Qed.

Section Through.

Variables lzx_decompress xpress_decompress : decompressor.
Variables resource_compressed_size resource_uncompressed_size
          resource_offset : Z.
Variable resource_ctype : compression_type.
Variables len offset : Z.

Local Abbreviation read_chunk' :=
  (read_chunk lzx_decompress xpress_decompress resource_compressed_size
     resource_uncompressed_size resource_ctype len offset).
Local Abbreviation read_chunks' :=
  (read_chunks lzx_decompress xpress_decompress resource_compressed_size
     resource_uncompressed_size resource_ctype len offset).

(** A turn of the loop that goes through. *)
Lemma read_chunk_through chunk_offsets i s s' :
  read_chunk' chunk_offsets i s = (Value tt, s') ->
  exists c u turn,
    chunk_sizes resource_compressed_size resource_uncompressed_size offset
      chunk_offsets i = Some (c, u) /\
    trace s' = trace s ++ turn /\
    reads_chunk resource_ctype i (start_offset offset i)
      (partial_chunk_size len offset i) u turn /\
    (0 <= start_offset offset i -> 0 <= partial_chunk_size len offset i ->
     zlength (out s') = zlength (out s) + partial_chunk_size len offset i).
Proof.
  unfold read_chunk, io_bind at 1, emit. cbv beta iota.
  destruct (chunk_sizes _ _ _ _ _) as [[c u]|]; [|discriminate].
  set (s1 := mk_io_state (fp s) (out s) (trace s ++ [DEBUG2_chunk i])).
  set (st := start_offset offset i). set (p := partial_chunk_size len offset i).
  intros R. exists c, u.
  unfold read_chunk_data in R. fold st p in R.
  destruct (Z.eqb_spec c u) as [E|NE].
  - (* stored as it is *)
    unfold io_bind in R.
    assert (K : forall s2 evs,
              trace s2 = trace s ++ DEBUG2_chunk i :: evs ->
              out s2 = out s ->
              (let (r, s3) := do_fread_out len p s2 in
               match r with
               | Value got =>
                   (if negb (zlength got =? p)
                    then io_return (Ret WIMLIB_ERR_READ) else io_ret tt) s3
               | Return st0 => (Return st0, s3)
               end) = (Value tt, s') ->
              trace s' = trace s ++ DEBUG2_chunk i :: evs ++
                         [call_fread (f_pos (fp s2)) p] /\
              zlength (out s') = zlength (out s) + p).
    { intros s2 evs T2 O2 R2.
      pose proof (do_fread_out_value len p s2) as V.
      assert (T : forall got s3, do_fread_out len p s2 = (Value got, s3) ->
                  trace s3 = trace s2 ++ [call_fread (f_pos (fp s2)) p]).
      { unfold do_fread_out, io_bind, do_fread, fread, write_out, io_ret.
        cbn [fp out trace f_pos f_data].
        destruct (_ <? _); [discriminate|]. cbn [fp out trace f_pos f_data].
        destruct (_ <? _); [discriminate|].
        intros got s3 [= _ <-]. reflexivity. }
      destruct (do_fread_out len p s2) as [[got|st0] s3]; [|discriminate].
      destruct (V got s3 eq_refl) as [_ O3]. specialize (T got s3 eq_refl).
      destruct (Z.eqb_spec (zlength got) p) as [G|G]; cbn [negb] in R2;
        [|discriminate].
      injection R2 as <-. rewrite T, T2, O3, O2, zlength_app, G.
      rewrite <- app_assoc. cbn [app]. split; reflexivity. }
    destruct (Z.eqb_spec st 0) as [Z0|NZ]; cbn [negb] in R.
    + unfold io_ret at 1 in R. cbn [negb] in R.
      destruct (K s1 [] eq_refl eq_refl R) as [T O].
      eexists. split; [reflexivity|]. split; [exact T|]. split.
      * exists (f_pos (fp s1)). left.
        destruct (Z.eqb_spec st 0); [reflexivity|contradiction].
      * intros _ _. exact O.
    + pose proof (do_fseeko_SEEK_CUR_value st s1) as V.
      assert (T : trace (snd (do_fseeko_SEEK_CUR st s1)) =
                  trace s1 ++ [call_fseeko_SEEK_CUR st]).
      { unfold do_fseeko_SEEK_CUR. destruct (fseeko_SEEK_CUR _ _); reflexivity. }
      destruct (do_fseeko_SEEK_CUR st s1) as [[ok|st0] s2]; [|discriminate].
      destruct (V ok s2 eq_refl) as [O2 _]. cbn [snd] in T.
      destruct ok; cbn [negb] in R; [|discriminate].
      destruct (K s2 [call_fseeko_SEEK_CUR st]) as [T' O]; [| |exact R|].
      { rewrite T. subst s1. cbn [trace]. now rewrite <- app_assoc. }
      { rewrite O2. reflexivity. }
      eexists. split; [reflexivity|]. split; [exact T'|]. split.
      * exists (f_pos (fp s2)). left.
        destruct (Z.eqb_spec st 0); [contradiction|reflexivity].
      * intros _ _. exact O.
  - (* compressed *)
    unfold io_bind at 1 in R.
    pose proof (do_fread_trace (WIM_CHUNK_SIZE - 1) c s1) as T.
    assert (O1 : forall buf s2,
              do_fread (WIM_CHUNK_SIZE - 1) c s1 = (Value buf, s2) ->
              out s2 = out s).
    { intros buf s2. unfold do_fread. destruct (fread _ _) as [got fp'].
      cbv zeta. destruct (WIM_CHUNK_SIZE - 1 <? zlength got); intros E;
        [discriminate E|].
      now injection E as _ <-. }
    destruct (do_fread (WIM_CHUNK_SIZE - 1) c s1) as [[buf|st0] s2];
      [|discriminate].
    specialize (O1 buf s2 eq_refl). cbn [snd] in T.
    destruct (negb (zlength buf =? c)); [discriminate|].
    unfold io_bind, emit in R. cbv beta iota in R.
    set (s3 := mk_io_state _ _ _) in R.
    assert (W : forall bs,
              write_out len bs s3 = (Value tt, s') ->
              trace s' = trace s ++
                [DEBUG2_chunk i; call_fread (f_pos (fp s1)) c;
                 call_decompress resource_ctype c u] /\
              zlength (out s') = zlength (out s) + zlength bs).
    { intros bs E. unfold write_out in E.
      destruct (len <? zlength (out s3) + zlength bs); [discriminate E|].
      injection E as <-. cbn [trace out s3]. rewrite T, O1, zlength_app.
      subst s1. cbn [trace]. rewrite <- !app_assoc. split; reflexivity. }
    destruct (decompress _ _ _ _ _ _) as [d|]; [|discriminate].
    eexists. split; [reflexivity|].
    destruct (negb (p =? u)) eqn:Partial.
    + destruct (Z.ltb_spec u (st + p)) as [|Fit]; [discriminate|].
      destruct (W _ R) as [T' O]. split; [exact T'|]. split.
      * exists (f_pos (fp s1)). right. exists c. split; [exact NE|reflexivity].
      * intros St P. rewrite O. f_equal.
        apply zlength_window; [lia|lia|].
        rewrite zlength_buffer_of by lia. lia.
    + destruct (W _ R) as [T' O]. split; [exact T'|]. split.
      * exists (f_pos (fp s1)). right. exists c. split; [exact NE|reflexivity].
      * intros St P. rewrite O. f_equal.
        apply negb_false_iff, Z.eqb_eq in Partial.
        rewrite zlength_buffer_of by lia. lia.
Qed.

End Through.

(** Reads that stay inside the resource and go through. *)
Section ThroughInRange.

Variables lzx_decompress xpress_decompress : decompressor.
Variables resource_compressed_size resource_uncompressed_size
          resource_offset : Z.
Variable resource_ctype : compression_type.
Variables len offset : Z.

Hypothesis len_pos : 0 < len.
Hypothesis offset_nonneg : 0 <= offset.
Hypothesis in_resource : offset + len <= resource_uncompressed_size.
Hypothesis size_62 : resource_uncompressed_size < 2 ^ 62.
Hypothesis offset_62 : 0 <= resource_offset < 2 ^ 62.

Let sc := offset / 32768.
Let ec := (offset + len - 1) / 32768.
Let last := (resource_uncompressed_size - 1) / 32768.

(** The first byte of the resource that the read needs of chunk [i], the
    first byte behind the last one, and the number of bytes that are
    written before the turn of chunk [i]. *)
Let first (i : Z) : Z := Z.max offset (i * 32768).
Let behind (i : Z) : Z := Z.min (offset + len) ((i + 1) * 32768).
Let written (i : Z) : Z := Z.min len (Z.max 0 (i * 32768 - offset)).

Lemma needed_part i :
  sc <= i <= ec ->
  start_offset offset i = first i - i * 32768 /\
  partial_chunk_size len offset i = behind i - first i /\
  0 <= first i - i * 32768 /\ 0 < behind i - first i /\
  written (i + 1) = written i + (behind i - first i).
Proof.
  intros I.
  pose proof (chunk_order resource_uncompressed_size resource_offset len
                offset len_pos offset_nonneg in_resource size_62 offset_62)
    as O. fold sc ec last in O.
  unfold partial_chunk_size, start_offset, end_offset.
  rewrite (end_chunk_eq resource_uncompressed_size len offset len_pos
             offset_nonneg in_resource size_62), start_chunk_eq.
  fold sc ec.
  unfold start_chunk_offset, end_chunk_offset, WIM_CHUNK_SIZE.
  rewrite (u64_small (offset + len - 1)) by lia.
  assert (M1 : 0 <= offset mod 32768 < 32768) by (apply Z.mod_pos_bound; lia).
  assert (M2 : 0 <= (offset + len - 1) mod 32768 < 32768)
    by (apply Z.mod_pos_bound; lia).
  assert (D1 : offset = 32768 * sc + offset mod 32768)
    by (subst sc; apply Z.div_mod; lia).
  assert (D2 : offset + len - 1 = 32768 * ec + (offset + len - 1) mod 32768)
    by (subst ec; apply Z.div_mod; lia).
  subst first behind written. cbv beta.
  destruct (Z.eqb_spec i sc) as [Es|Es], (Z.eqb_spec i ec) as [Ee|Ee];
    rewrite u64_small by lia; lia.
Qed.

Lemma written_ends : written sc = 0 /\ written (ec + 1) = len.
Proof.
  assert (D1 : offset = 32768 * sc + offset mod 32768)
    by (subst sc; apply Z.div_mod; lia).
  assert (D2 : offset + len - 1 = 32768 * ec + (offset + len - 1) mod 32768)
    by (subst ec; apply Z.div_mod; lia).
  assert (M1 : 0 <= offset mod 32768 < 32768) by (apply Z.mod_pos_bound; lia).
  assert (M2 : 0 <= (offset + len - 1) mod 32768 < 32768)
    by (apply Z.mod_pos_bound; lia).
  subst written. cbv beta. lia.
Qed.

(** The uncompressed size the loop takes for chunk [i]. *)
Lemma chunk_sizes_uncompressed chunk_offsets i c u :
  sc <= i <= ec ->
  chunk_sizes resource_compressed_size resource_uncompressed_size offset
    chunk_offsets i = Some (c, u) ->
  u = Z.min 32768 (resource_uncompressed_size - i * 32768).
Proof.
  intros I.
  pose proof (chunk_order resource_uncompressed_size resource_offset len
                offset len_pos offset_nonneg in_resource size_62 offset_62)
    as O. fold sc ec last in O.
  unfold chunk_sizes.
  rewrite (last_chunk_eq resource_uncompressed_size resource_offset len
             offset len_pos offset_nonneg in_resource size_62 offset_62).
  fold last.
  assert (D : 32768 * last <= resource_uncompressed_size - 1
              < 32768 * last + 32768)
    by (subst last; Z.to_euclidean_division_equations; lia).
  destruct (Z.eqb_spec i last) as [E|NE]; cbn [negb].
  - destruct (array_get _ _); [|discriminate]. intros [= _ <-].
    unfold WIM_CHUNK_SIZE.
    assert (M : 0 <= resource_uncompressed_size mod 32768 < 32768)
      by (apply Z.mod_pos_bound; lia).
    rewrite u32_small by lia.
    destruct (Z.eqb_spec (resource_uncompressed_size mod 32768) 0);
      Z.to_euclidean_division_equations; lia.
  - destruct (array_get _ _); [|discriminate].
    destruct (array_get _ _); [|discriminate]. intros [= _ <-].
    unfold WIM_CHUNK_SIZE. lia.
Qed.

Local Abbreviation read_chunks' :=
  (read_chunks lzx_decompress xpress_decompress resource_compressed_size
     resource_uncompressed_size resource_ctype len offset).

Lemma read_chunks_through chunk_offsets n : forall i s s',
  sc <= i -> i + Z.of_nat n = ec + 1 ->
  read_chunks' chunk_offsets n i s = (Value tt, s') ->
  exists turns,
    trace s' = trace s ++ concat turns /\
    List.length turns = n /\
    (forall j turn, nth_error turns j = Some turn ->
       let k := i + Z.of_nat j in
       reads_chunk resource_ctype k (first k - k * 32768)
         (behind k - first k)
         (Z.min 32768 (resource_uncompressed_size - k * 32768)) turn) /\
    zlength (out s') = zlength (out s) + (written (ec + 1) - written i).
Proof.
  induction n as [|n IH]; intros i s s' I N R; cbn [read_chunks] in R.
  - injection R as <-. exists []. cbn [concat]. rewrite app_nil_r.
    split; [reflexivity|]. split; [reflexivity|]. split.
    + intros [|j] turn E; discriminate E.
    + replace (ec + 1) with i by lia. lia.
  - unfold io_bind in R.
    destruct (read_chunk _ _ _ _ _ _ _ chunk_offsets i s) as [[[]|st] s1]
      eqn:R1; [|discriminate].
    apply read_chunk_through in R1.
    destruct R1 as (c & u & turn & Sz & T1 & RC & O1).
    destruct (needed_part i ltac:(lia)) as (St & Pa & P0 & P1 & Wr).
    apply chunk_sizes_uncompressed in Sz; [|lia].
    destruct (IH (i + 1) s1 s' ltac:(lia) ltac:(lia) R)
      as (turns & T & L & RCs & O).
    exists (turn :: turns). cbn [concat List.length].
    split; [now rewrite T, T1, <- app_assoc|]. split; [now rewrite L|].
    split.
    + intros [|j] t E; cbn [nth_error] in E.
      * injection E as <-. cbv zeta. rewrite Z.add_0_r.
        rewrite <- St, <- Pa, <- Sz. exact RC.
      * specialize (RCs j t E). cbv zeta in *.
        replace (i + Z.of_nat (S j)) with (i + 1 + Z.of_nat j) by lia.
        exact RCs.
    + rewrite O, O1 by lia. lia.
Qed.

Lemma read_chunk_table_out s chunk_offsets s' :
  read_chunk_table resource_uncompressed_size resource_offset len offset s =
    (Value chunk_offsets, s') ->
  out s' = out s.
Proof.
  unfold read_chunk_table, io_bind, do_fseeko_SEEK_SET.
  destruct (fseeko_SEEK_SET _ _) as [fp1|]; cbn [negb]; cbv beta iota zeta;
    [|discriminate].
  unfold do_fread. cbn [fp out trace].
  destruct (fread _ _) as [got fp2]. cbv zeta.
  destruct (_ <? zlength got); [discriminate|]. cbv beta iota.
  destruct (negb _); [discriminate|].
  unfold io_ret. now intros [= _ <-].
Qed.

Lemma read_compressed_resource_through (fp0 : FILE) :
  let run := read_compressed_resource lzx_decompress xpress_decompress fp0
               resource_compressed_size resource_uncompressed_size
               resource_offset resource_ctype len offset in
  let entry_size := if resource_uncompressed_size <? 2 ^ 32 then 4 else 8 in
  let first_entry := Z.max sc 1 in
  let last_entry := if ec =? last then ec else ec + 1 in
  let table_offset := resource_offset + (first_entry - 1) * entry_size in
  let table_bytes := (last_entry - first_entry + 1) * entry_size in
  fst run = Ret WIMLIB_ERR_SUCCESS ->
  exists data_offset turns,
    trace (snd run) =
      call_fseeko_SEEK_SET table_offset ::
      call_fread table_offset table_bytes ::
      call_fseeko_SEEK_SET data_offset :: concat turns /\
    List.length turns = Z.to_nat (ec - sc + 1) /\
    (forall j turn, nth_error turns j = Some turn ->
       let k := sc + Z.of_nat j in
       reads_chunk resource_ctype k (first k - k * 32768)
         (behind k - first k)
         (Z.min 32768 (resource_uncompressed_size - k * 32768)) turn) /\
    zlength (out (snd run)) = len.
Proof.
  intros run entry_size first_entry last_entry table_offset table_bytes.
  subst run.
  pose proof (chunk_order resource_uncompressed_size resource_offset len
                offset len_pos offset_nonneg in_resource size_62 offset_62)
    as O. fold sc ec last in O.
  unfold read_compressed_resource, run_io, read_compressed_resource_body.
  destruct (Z.eqb_spec len 0) as [|_]; [lia|].
  unfold io_bind.
  set (s0 := mk_io_state fp0 [] []).
  destruct (read_chunk_table_run resource_uncompressed_size resource_offset
              len offset len_pos offset_nonneg in_resource size_62 offset_62
              s0) as (TR & RES).
  fold sc ec last in TR, RES. fold entry_size first_entry in TR.
  fold last_entry in TR. fold table_offset table_bytes in TR.
  pose proof (read_chunk_table_out s0) as TO.
  destruct (read_chunk_table _ _ _ _ s0) as [[co|st] s1];
    cbn [fst snd] in *.
  2:{ intros ->. destruct RES as [RES|(co & RES & _)]; discriminate RES. }
  destruct RES as [RES|(co' & RES & (c0 & C0) & _)]; [discriminate RES|].
  injection RES as <-.
  specialize (TO co s1 eq_refl). cbn [out s0] in TO. cbn [trace s0 app] in TR.
  unfold after_chunk_table. rewrite array_get_0, C0.
  unfold io_bind, do_fseeko_SEEK_SET.
  set (coff := file_offset_of_first_needed_chunk _ _ _).
  destruct (fseeko_SEEK_SET (fp s1) coff) as [fp1|]; cbn [negb];
    cbv beta iota zeta; [|discriminate].
  rewrite (end_chunk_eq resource_uncompressed_size len offset len_pos
             offset_nonneg in_resource size_62), start_chunk_eq.
  fold sc ec.
  set (s2 := mk_io_state fp1 _ _).
  pose proof (read_chunks_status lzx_decompress xpress_decompress
                resource_compressed_size resource_uncompressed_size
                resource_ctype len offset co (Z.to_nat (ec - sc + 1)) sc s2)
    as ST.
  pose proof (read_chunks_through co (Z.to_nat (ec - sc + 1)) sc s2) as TH.
  destruct (read_chunks _ _ _ _ _ _ _ co _ sc s2) as [[[]|st] s3];
    cbn [fst snd] in *.
  2:{ intros ->. destruct (ST _ eq_refl) as [X|[X|[f X]]]; discriminate X. }
  intros _.
  destruct (TH s3 ltac:(lia) ltac:(lia) eq_refl) as (turns & T & L & RC & Ou).
  exists coff, turns. split.
  { rewrite T. subst s2. cbn [trace]. rewrite TR. reflexivity. }
  split; [exact L|]. split; [exact RC|].
  rewrite Ou. subst s2. cbn [out]. rewrite TO.
  destruct written_ends as [W0 W1]. rewrite W0, W1.
  unfold zlength. cbn [List.length]. lia.
Qed.

End ThroughInRange.

(** C2.  For every chunk whose derived compressed size equals its
    uncompressed size, whatever codec the resource declares: the turn of
    the loop for the chunk calls no decompressor, and when it goes through
    it has appended to the output exactly the bytes stored in the file at
    the chunk's position (from the read's first byte in the chunk, as many
    as the read needs of the chunk); the turn is the same for every codec
    and every pair of decompressors.  In a whole read every call of a
    decompressor is for a chunk whose two sizes differ. *)
Theorem stored_chunk_is_copied_not_decompressed
  (lzx_decompress xpress_decompress : decompressor)
  (resource_compressed_size resource_uncompressed_size resource_offset : Z)
  (resource_ctype : compression_type) (len offset : Z) :
  (forall chunk_offsets i size s,
     chunk_sizes resource_compressed_size resource_uncompressed_size offset
                 chunk_offsets i = Some (size, size) ->
     let turn := read_chunk lzx_decompress xpress_decompress
                   resource_compressed_size resource_uncompressed_size
                   resource_ctype len offset chunk_offsets i s in
     let stored :=
       ztake (partial_chunk_size len offset i)
             (zdrop (f_pos (fp s) + start_offset offset i) (f_data (fp s))) in
     (exists evs,
        trace (snd turn) = trace s ++ DEBUG2_chunk i :: evs /\
        forall ct c u, ~ In (call_decompress ct c u) evs) /\
     (fst turn = Value tt ->
      out (snd turn) = out s ++ stored /\
      zlength stored = partial_chunk_size len offset i) /\
     (forall lzx' xpress' ctype',
        read_chunk lzx' xpress' resource_compressed_size
          resource_uncompressed_size ctype' len offset chunk_offsets i s =
        turn)) /\
  (forall fp0 ct c u,
     In (call_decompress ct c u)
        (trace (snd (read_compressed_resource lzx_decompress xpress_decompress
                       fp0 resource_compressed_size resource_uncompressed_size
                       resource_offset resource_ctype len offset))) ->
     c <> u).
Proof.
  split.
  - intros chunk_offsets i size s Hsz turn stored.
    assert (T : forall lzx xpress ctype,
              read_chunk lzx xpress resource_compressed_size
                resource_uncompressed_size ctype len offset chunk_offsets i s =
              (ok <- (if negb (start_offset offset i =? 0)
                      then do_fseeko_SEEK_CUR (start_offset offset i)
                      else io_ret true) ;;
               if negb ok then io_return (Ret WIMLIB_ERR_READ) else
               got <- do_fread_out len (partial_chunk_size len offset i) ;;
               if negb (zlength got =? partial_chunk_size len offset i)
               then io_return (Ret WIMLIB_ERR_READ)
               else io_ret tt)
                (mk_io_state (fp s) (out s) (trace s ++ [DEBUG2_chunk i]))).
    { intros lzx xpress ctype. unfold read_chunk, io_bind at 1, emit.
      cbv beta iota. rewrite Hsz. unfold read_chunk_data.
      rewrite Z.eqb_refl. reflexivity. }
    split; [|split].
    + subst turn. rewrite T.
      match goal with |- context [?m (mk_io_state ?a ?b ?c)] =>
        assert (E : only_events
                  (fun e => match e with call_decompress _ _ _ => False
                                         | _ => True end) m)
      end.
      { apply only_events_bind.
        - apply only_events_if;
            [apply only_events_seek_cur|apply only_events_ret]; exact I.
        - intros ok. apply only_events_if; [apply only_events_return|].
          apply only_events_bind;
            [apply only_events_fread_out; intros; exact I|].
          intros got. apply only_events_if;
            [apply only_events_return|apply only_events_ret]. }
      destruct (E (mk_io_state (fp s) (out s) (trace s ++ [DEBUG2_chunk i])))
        as (evs & Etr & F).
      exists evs. rewrite Etr. cbn [trace]. rewrite <- app_assoc.
      split; [reflexivity|].
      intros ct c u Hin. rewrite Forall_forall in F. exact (F _ Hin).
    + subst turn. rewrite T. unfold io_bind.
      set (s1 := mk_io_state (fp s) (out s) (trace s ++ [DEBUG2_chunk i])).
      assert (P : forall s2,
                out s2 = out s ->
                f_data (fp s2) = f_data (fp s) ->
                f_pos (fp s2) = f_pos (fp s) + start_offset offset i ->
                fst (let (r, s3) :=
                       do_fread_out len (partial_chunk_size len offset i) s2 in
                     match r with
                     | Value got =>
                         (if negb (zlength got =? partial_chunk_size len offset i)
                          then io_return (Ret WIMLIB_ERR_READ)
                          else io_ret tt) s3
                     | Return st => (Return st, s3)
                     end) = Value tt ->
                out (snd (let (r, s3) :=
                       do_fread_out len (partial_chunk_size len offset i) s2 in
                     match r with
                     | Value got =>
                         (if negb (zlength got =? partial_chunk_size len offset i)
                          then io_return (Ret WIMLIB_ERR_READ)
                          else io_ret tt) s3
                     | Return st => (Return st, s3)
                     end)) = out s ++ stored /\
                zlength stored = partial_chunk_size len offset i).
      { intros s2 Ho Hd Hp.
        destruct (do_fread_out _ _ s2) as [[got|st] s3] eqn:FR;
          [|discriminate].
        apply do_fread_out_value in FR. destruct FR as [G O3].
        rewrite Hd, Hp in G. fold stored in G. subst got.
        destruct (Z.eqb_spec (zlength stored) (partial_chunk_size len offset i));
          cbn [negb]; [|discriminate].
        intros _. cbn [io_ret snd]. rewrite O3, Ho. auto. }
      destruct (Z.eqb_spec (start_offset offset i) 0) as [Z0|NZ]; cbn [negb].
      * unfold io_ret at 1. cbn [negb]. apply P; subst s1; cbn [out fp]; auto.
        rewrite Z0. lia.
      * destruct (do_fseeko_SEEK_CUR _ s1) as [[ok|st] s2] eqn:SK;
          [|discriminate].
        apply do_fseeko_SEEK_CUR_value in SK. destruct SK as [O2 F2].
        destruct ok; cbn [negb]; [|discriminate].
        destruct (F2 eq_refl) as [D2 P2].
        apply P; [exact O2|exact D2|exact P2].
    + intros lzx' xpress' ctype'. subst turn. now rewrite !T.
  - intros fp0 ct c u Hin.
    pose proof (read_compressed_resource_trace lzx_decompress xpress_decompress
                  resource_compressed_size resource_uncompressed_size
                  resource_offset resource_ctype len offset fp0) as F.
    rewrite Forall_forall in F. exact (F _ Hin).
Qed.

(** Witness of C2: a resource of the five bytes [hello], stored as they
    are. *)
Lemma stored_chunk_is_copied_not_decompressed_witness :
  let s0 := mk_io_state
              (mk_FILE [Byte.x68; Byte.x65; Byte.x6c; Byte.x6c; Byte.x6f] 0)
              [] [] in
  chunk_sizes 5 5 0 [0] 0 = Some (5, 5) /\
  out (snd (read_chunk fill_A fill_A 5 5 WIMLIB_COMPRESSION_TYPE_LZX 5 0
              [0] 0 s0)) =
    [Byte.x68; Byte.x65; Byte.x6c; Byte.x6c; Byte.x6f].
Proof.
  intros s0. split; [reflexivity|].
  destruct (stored_chunk_is_copied_not_decompressed fill_A fill_A 5 5 0
              WIMLIB_COMPRESSION_TYPE_LZX 5 0) as [H _].
  destruct (H [0] 0 5 s0 eq_refl) as (_ & C & _).
  destruct (C eq_refl) as [O _]. rewrite O. reflexivity.
Defined.



(** C3.  The width of a chunk table entry is 4 bytes when the resource's
    uncompressed size is below 2^32 and 8 bytes from 2^32 on, and that is
    the width the reader uses.  Of every read of [len <> 0] bytes the
    trace begins with the seek to the table, and the next event, if there
    is one, is the [fread] of the table, which asks for the number of
    needed entries times that width.  The offsets the reader then fills
    [chunk_offsets] with are, behind the implicit offset of chunk 0 when
    the read starts in it, the little-endian values of the successive
    pieces of that width of the table in the file, one for each needed
    entry; and the seek that follows the table goes to the data by the
    first of them. *)
Theorem chunk_table_entry_width
  (lzx_decompress xpress_decompress : decompressor) (fp0 : FILE)
  (resource_compressed_size resource_uncompressed_size resource_offset : Z)
  (resource_ctype : compression_type) (len offset : Z) :
  let width := chunk_entry_size resource_uncompressed_size in
  let entries :=
    num_needed_chunk_entries resource_uncompressed_size len offset in
  let table_offset :=
    file_offset_of_needed_chunk_entries resource_uncompressed_size
      resource_offset offset in
  let events :=
    trace (snd (read_compressed_resource lzx_decompress xpress_decompress
                  fp0 resource_compressed_size resource_uncompressed_size
                  resource_offset resource_ctype len offset)) in
  (resource_uncompressed_size < 2 ^ 32 -> width = 4) /\
  (2 ^ 32 <= resource_uncompressed_size -> width = 8) /\
  (len <> 0 ->
   events = [call_fseeko_SEEK_SET table_offset] \/
   exists rest,
     events = call_fseeko_SEEK_SET table_offset ::
              call_fread table_offset (u64 (entries * width)) :: rest) /\
  (entries * width < 2 ^ 64 ->
   (forall s chunk_offsets s',
      read_chunk_table resource_uncompressed_size resource_offset len offset
        s = (Value chunk_offsets, s') ->
      let implicit := if start_chunk offset =? 0 then 1 else 0 in
      zlength chunk_offsets = implicit + entries /\
      forall k, 0 <= k < entries ->
        array_get chunk_offsets (implicit + k) =
        Some (le_value
                (ztake width
                   (zdrop (table_offset + k * width) (f_data (fp s)))))) /\
   (len <> 0 ->
    forall e1 e2 e rest,
      events = e1 :: e2 :: e :: rest ->
      e = call_fseeko_SEEK_SET
            (u64 (u64 (resource_offset +
                       chunk_table_size resource_uncompressed_size) +
                  (if start_chunk offset =? 0 then 0
                   else le_value
                          (ztake width
                             (zdrop table_offset (f_data fp0)))))))).
Proof.
  intros width entries table_offset events.
  split; [|split; [|split]].
  - intros H. subst width. unfold chunk_entry_size.
    destruct (Z.leb_spec (2 ^ 32) resource_uncompressed_size); lia.
  - intros H. subst width. unfold chunk_entry_size.
    destruct (Z.leb_spec (2 ^ 32) resource_uncompressed_size); lia.
  - intros NZ.
    exact (table_read_first lzx_decompress xpress_decompress
             resource_compressed_size resource_uncompressed_size
             resource_offset resource_ctype len offset fp0 NZ).
  - intros B. split.
    + intros s chunk_offsets s' R implicit.
      destruct (read_chunk_table_entries resource_uncompressed_size
                  resource_offset len offset s s' chunk_offsets R B)
        as (L & _ & Nth).
      split; [exact L|exact Nth].
    + intros NZ.
      exact (data_seek_event lzx_decompress xpress_decompress fp0
               resource_compressed_size resource_uncompressed_size
               resource_offset resource_ctype len offset NZ B).
Qed.

(** Witness of C3: the two sides of 2^32, and the entry of chunk 1 in
    the table of the two-chunk resource. *)
Lemma chunk_table_entry_width_witness :
  chunk_entry_size (2 ^ 32 - 1) = 4 /\ chunk_entry_size (2 ^ 32) = 8 /\
  exists chunk_offsets s',
    read_chunk_table 32769 0 2 32767 (mk_io_state two_chunk_file [] []) =
      (Value chunk_offsets, s') /\
    array_get chunk_offsets 1 = Some 3.
Proof.
  split; [|split].
  - apply (proj1 (chunk_table_entry_width fill_A fill_A two_chunk_file
                    0 (2 ^ 32 - 1) 0 WIMLIB_COMPRESSION_TYPE_LZX 1 0)). lia.
  - apply (proj1 (proj2 (chunk_table_entry_width fill_A fill_A
                    two_chunk_file 0 (2 ^ 32) 0 WIMLIB_COMPRESSION_TYPE_LZX
                    1 0))). lia.
  - destruct (read_chunk_table 32769 0 2 32767
                (mk_io_state two_chunk_file [] [])) as [[co|st] s'] eqn:R;
      [|vm_compute in R; discriminate].
    exists co, s'. split; [reflexivity|].
    destruct (proj2 (proj2 (proj2
                (chunk_table_entry_width fill_A fill_A two_chunk_file
                   8 32769 0 WIMLIB_COMPRESSION_TYPE_LZX 2 32767))))
      as [D _]; [vm_compute; reflexivity|].
    destruct (D _ _ _ R) as [_ Nth].
    specialize (Nth 0).
    change ((if start_chunk 32767 =? 0 then 1 else 0) + 0) with 1 in Nth.
    rewrite Nth by (vm_compute; split; [discriminate|reflexivity]).
    reflexivity.
Defined.

(** C4.  The compressed size derived for a chunk is not checked, and the
    buffer [compressed_buf] of [WIM_CHUNK_SIZE - 1] bytes, whose comment
    takes that size for the largest a chunk can have, is overrun.  In the
    first damaged resource the size derived for chunk 0 is 40000; a read
    of the first byte does not fail with an error for a corrupt resource:
    it goes on to [fread] 40000 bytes into the buffer, and the file has
    them.  In the second one the size derived for chunk 1 is negative
    (8 - 4 - 10) and wraps to 2^32 - 6; that many bytes are asked for,
    and the 40000 bytes and more the file has from there on arrive. *)
Theorem unchecked_chunk_size_overruns_compressed_buf :
  let run := read_compressed_resource fill_A fill_A overlong_chunk_file
               40005 32769 0 WIMLIB_COMPRESSION_TYPE_XPRESS 1 0 in
  let run' := read_compressed_resource fill_A fill_A misplaced_chunk_file
                8 32769 0 WIMLIB_COMPRESSION_TYPE_XPRESS 1 32768 in
  (chunk_sizes 40005 32769 0 [0; 40000] 0 = Some (40000, 32768) /\
   WIM_CHUNK_SIZE - 1 < 40000 /\
   trace (snd run) =
     [call_fseeko_SEEK_SET 0; call_fread 0 4; call_fseeko_SEEK_SET 4;
      DEBUG2_chunk 0; call_fread 4 40000] /\
   fst run = Fault BUFFER_OVERRUN) /\
  (8 - chunk_table_size 32769 - 10 < 0 /\
   chunk_sizes 8 32769 32768 [10] 1 = Some (2 ^ 32 - 6, 1) /\
   trace (snd run') =
     [call_fseeko_SEEK_SET 0; call_fread 0 4; call_fseeko_SEEK_SET 14;
      DEBUG2_chunk 1; call_fread 14 (2 ^ 32 - 6)] /\
   fst run' = Fault BUFFER_OVERRUN).
Proof.
  vm_compute. repeat split; reflexivity.
Qed.

(** *** Reading through a lookup table entry *)

Lemma read_uncompressed_resource_status fp0 offset len :
  body_status (fst (read_uncompressed_resource fp0 offset len)).
Proof.
  unfold read_uncompressed_resource, run_io.
  match goal with |- context [?m (mk_io_state fp0 [] [])] =>
    assert (R : returns_only body_status m)
  end.
  { assert (QF : forall f, body_status (Fault f))
      by (intros f; right; apply failure_status_fault).
    assert (QR : body_status (Ret WIMLIB_ERR_READ)) by (right; now left).
    apply returns_only_bind; [apply returns_only_seek_set|].
    intros ok. destruct (negb ok); [now apply returns_only_return|].
    apply returns_only_bind; [now apply returns_only_fread_out|].
    intros got. destruct (negb _);
      [now apply returns_only_return|apply returns_only_ret]. }
  specialize (R (mk_io_state fp0 [] [])).
  match goal with |- context [?m (mk_io_state fp0 [] [])] =>
    destruct (m (mk_io_state fp0 [] [])) as [[[]|st] s]
  end; cbn [fst] in *.
  - now left.
  - now apply R.
Qed.

Lemma read_wim_resource_status lzx xpress tfopen lte size offset flags :
  read_status (fst (read_wim_resource lzx xpress tfopen lte size offset flags)).
Proof.
  assert (QF : forall f, read_status (Fault f))
    by (intros f; left; right; apply failure_status_fault).
  unfold read_wim_resource.
  destruct (negb _); [apply QF|].
  destruct (resource_location lte); try apply QF.
  - destruct (wim lte) as [w|]; [|apply QF].
    destruct (WIMLIB_RESOURCE_FLAG_MULTITHREADED flags); [apply QF|].
    destruct (wim_fp w) as [fp0|]; [|apply QF].
    destruct (negb _); [apply QF|].
    destruct (_ || _).
    + pose proof (read_uncompressed_resource_status fp0
                    (u64 (ResourceEntry.offset (resource_entry lte) + offset))
                    size) as S.
      destruct (read_uncompressed_resource _ _ _) as [st s]. now left.
    + pose proof (read_compressed_resource_status_cases lzx xpress
                    (ResourceEntry.size (resource_entry lte))
                    (original_size (resource_entry lte))
                    (ResourceEntry.offset (resource_entry lte))
                    (wim_resource_compression_type lte) size offset fp0) as S.
      destruct (read_compressed_resource _ _ _ _ _ _ _ _ _) as [st s].
      now left.
  - destruct (file_on_disk lte) as [path|]; [|apply QF].
    destruct (match file_on_disk_fp lte with Some _ => _ | None => _ end)
      as [fp0|]; [|right; now left].
    pose proof (read_uncompressed_resource_status fp0 offset size) as S.
    destruct (read_uncompressed_resource _ _ _) as [st s]. now left.
  - destruct (file_on_disk lte) as [path|]; [|apply QF].
    destruct (match file_on_disk_fp lte with Some _ => _ | None => _ end)
      as [fp0|]; [|right; now left].
    pose proof (read_uncompressed_resource_status fp0 offset size) as S.
    destruct (read_uncompressed_resource _ _ _) as [st s]. now left.
  - destruct (attached_buffer lte); [|apply QF].
    destruct (_ <? _); [apply QF|]. left. now left.
  - destruct (ntfs_loc lte), (attr lte); try apply QF.
    destruct (_ =? _); [left; now left|right; now right].
Qed.

Lemma read_status_not_hash st :
  read_status st -> st <> Ret WIMLIB_ERR_INVALID_RESOURCE_HASH.
Proof.
  intros [[H|[H|[H|[f H]]]]|[H|H]]; subst; discriminate.
Qed.

(** The stored digest takes no part in a read. *)
Lemma read_wim_resource_set_hash lzx xpress tfopen h lte size offset flags :
  read_wim_resource lzx xpress tfopen (set_hash h lte) size offset flags =
  read_wim_resource lzx xpress tfopen lte size offset flags.
Proof. destruct lte. reflexivity. Qed.

Lemma fuel_enough size :
  0 < size ->
  0 < Z.min WIM_CHUNK_SIZE size /\
  size <= Z.of_nat (Z.to_nat ((size + WIM_CHUNK_SIZE - 1) / WIM_CHUNK_SIZE))
          * Z.min WIM_CHUNK_SIZE size.
Proof.
  intros H. unfold WIM_CHUNK_SIZE. split; [lia|].
  rewrite Z2Nat.id by (Z.to_euclidean_division_equations; lia).
  destruct (Z.le_gt_cases size 32768).
  - rewrite Z.min_r by lia.
    assert ((size + 32768 - 1) / 32768 = 1)
      by (Z.to_euclidean_division_equations; lia).
    lia.
  - rewrite Z.min_l by lia. Z.to_euclidean_division_equations. lia.
Qed.

Section Extract.

Variables lzx_decompress xpress_decompress : decompressor.
Variable tfopen : string -> option FILE.
Variable sink : Type.
Variable extract_chunk : list byte -> Z -> Z -> sink -> wimlib_error_code * sink.

Local Abbreviation loop :=
  (extract_loop lzx_decompress xpress_decompress tfopen sink extract_chunk).

(** The loop ends within the turns it is given. *)
Lemma extract_loop_total lte sizeof_buf check_hash : forall fuel remaining offset st,
  0 < sizeof_buf ->
  0 <= remaining <= Z.of_nat fuel * sizeof_buf ->
  remaining < 2 ^ 64 ->
  fst (loop fuel lte sizeof_buf check_hash remaining offset st) <> None.
Proof.
  induction fuel as [|fuel IH]; intros remaining offset st B R U.
  - assert (remaining = 0) by lia. subst. cbn. discriminate.
  - cbn [extract_loop].
    destruct (Z.eqb_spec remaining 0); [cbn; discriminate|].
    destruct (read_wim_resource _ _ _ _ _ _ _) as [[code|f] buf];
      [|cbn; discriminate].
    destruct code; try (cbn; discriminate).
    destruct (extract_chunk _ _ _ _) as [ret arg'].
    destruct ret; try (cbn; discriminate).
    apply IH; try assumption.
    + rewrite u64_small by lia. lia.
    + pose proof (u64_range (remaining - Z.min remaining sizeof_buf)). lia.
Qed.

(** With [check_hash] the context is fed exactly the bytes handed to the
    callback; without it the context is not touched. *)
Lemma extract_loop_ctx lte sizeof_buf : forall fuel remaining offset st,
  ctx sink st = extracted sink st ->
  let st' := snd (loop fuel lte sizeof_buf true remaining offset st) in
  ctx sink st' = extracted sink st'.
Proof.
  induction fuel as [|fuel IH]; intros remaining offset st E; cbn [extract_loop].
  - destruct (remaining =? 0); exact E.
  - destruct (remaining =? 0); [exact E|].
    destruct (read_wim_resource _ _ _ _ _ _ _) as [[code|f] buf]; [|exact E].
    destruct code; try exact E.
    destruct (extract_chunk _ _ _ _) as [ret arg'].
    destruct ret; try (cbn; unfold sha1_update; now rewrite E).
    apply IH. cbn. unfold sha1_update. now rewrite E.
Qed.

Lemma extract_loop_no_ctx lte sizeof_buf : forall fuel remaining offset st,
  ctx sink (snd (loop fuel lte sizeof_buf false remaining offset st)) =
  ctx sink st.
Proof.
  induction fuel as [|fuel IH]; intros remaining offset st; cbn [extract_loop].
  - destruct (remaining =? 0); reflexivity.
  - destruct (remaining =? 0); [reflexivity|].
    destruct (read_wim_resource _ _ _ _ _ _ _) as [[code|f] buf];
      [|reflexivity].
    destruct code; try reflexivity.
    destruct (extract_chunk _ _ _ _) as [ret arg'].
    destruct ret; try reflexivity.
    rewrite IH. reflexivity.
Qed.

(** The loop never ends with the hash error unless the callback returns
    it. *)
Lemma extract_loop_not_hash lte sizeof_buf check_hash :
  (forall buf n off a,
     fst (extract_chunk buf n off a) <> WIMLIB_ERR_INVALID_RESOURCE_HASH) ->
  forall fuel remaining offset st,
  fst (loop fuel lte sizeof_buf check_hash remaining offset st) <>
  Some (inl WIMLIB_ERR_INVALID_RESOURCE_HASH).
Proof.
  intros CB. induction fuel as [|fuel IH]; intros remaining offset st;
    cbn [extract_loop].
  - destruct (remaining =? 0); cbn; discriminate.
  - destruct (remaining =? 0); [cbn; discriminate|].
    pose proof (read_wim_resource_status lzx_decompress xpress_decompress
                  tfopen lte (Z.min remaining sizeof_buf) offset no_flags) as S.
    apply read_status_not_hash in S.
    destruct (read_wim_resource _ _ _ _ _ _ _) as [[code|f] buf];
      [|cbn; discriminate].
    cbn [fst] in S.
    destruct code; try (cbn; discriminate); try (exfalso; now apply S).
    specialize (CB buf (Z.min remaining sizeof_buf) offset (arg sink st)).
    destruct (extract_chunk _ _ _ _) as [ret arg'].
    cbn [fst] in CB.
    destruct ret; try (cbn; discriminate); try (exfalso; now apply CB).
    apply IH.
Qed.

Lemma extract_loop_set_hash h lte sizeof_buf check_hash :
  forall fuel remaining offset st,
  loop fuel (set_hash h lte) sizeof_buf check_hash remaining offset st =
  loop fuel lte sizeof_buf check_hash remaining offset st.
Proof.
  induction fuel as [|fuel IH]; intros remaining offset st; cbn [extract_loop].
  - reflexivity.
  - rewrite read_wim_resource_set_hash.
    destruct (remaining =? 0); [reflexivity|].
    destruct (read_wim_resource _ _ _ _ _ _ _) as [[code|f] buf];
      [|reflexivity].
    destruct code; try reflexivity.
    destruct (extract_chunk _ _ _ _) as [ret arg'].
    destruct ret; try reflexivity.
    apply IH.
Qed.

End Extract.

Lemma bytes_eqb_eq a : forall b, bytes_eqb a b = true <-> a = b.
Proof.
  induction a as [|x a IH]; intros [|y b]; cbn; split; intros H;
    try reflexivity; try discriminate.
  - apply andb_true_iff in H. destruct H as [H1 H2].
    apply Byte.byte_dec_bl in H1. apply IH in H2. now subst.
  - injection H as -> ->. apply andb_true_iff. split.
    + now apply Byte.byte_dec_lb.
    + now apply IH.
Qed.

(** C5.  When [extract_wim_resource] is asked for the whole resource
    ([size] is the resource's uncompressed size), the SHA-1 context is fed
    exactly the bytes handed to [extract_chunk], in order; when every read
    and every call of [extract_chunk] has succeeded, the function returns
    0 if the digest of these bytes is the digest stored in the lookup
    table entry and [WIMLIB_ERR_INVALID_RESOURCE_HASH] if it is not.  When
    a read or [extract_chunk] fails, it returns that failure. *)
Theorem extract_full_resource_verifies_sha1
  (lzx_decompress xpress_decompress : decompressor)
  (tfopen : string -> option FILE) (sha1 : list byte -> list byte)
  (sink : Type)
  (extract_chunk : list byte -> Z -> Z -> sink -> wimlib_error_code * sink)
  (lte : wim_lookup_table_entry) (size : Z) (extract_chunk_arg : sink) :
  0 <= size < 2 ^ 64 ->
  size = wim_resource_size lte ->
  let r := extract_wim_resource lzx_decompress xpress_decompress tfopen sha1
             sink extract_chunk lte size extract_chunk_arg in
  let final := snd r in
  let digest := sha1 (extracted sink final) in
  ctx sink final = extracted sink final /\
  exists loop_status,
    fst (extract_loop lzx_decompress xpress_decompress tfopen sink
           extract_chunk
           (Z.to_nat ((size + WIM_CHUNK_SIZE - 1) / WIM_CHUNK_SIZE)) lte
           (Z.min WIM_CHUNK_SIZE size) true size 0
           (mk_extract_state sink sha1_init extract_chunk_arg [])) =
      Some loop_status /\
    match loop_status with
    | inl WIMLIB_ERR_SUCCESS =>
        (digest = hash lte -> fst r = Some (Ret WIMLIB_ERR_SUCCESS)) /\
        (digest <> hash lte ->
         fst r = Some (Ret WIMLIB_ERR_INVALID_RESOURCE_HASH))
    | inl code => fst r = Some (Ret code)
    | inr f => fst r = Some (Fault f)
    end.
Proof.
  intros R F r final digest. subst digest final r.
  unfold extract_wim_resource. rewrite <- F, Z.eqb_refl.
  set (fuel := Z.to_nat ((size + WIM_CHUNK_SIZE - 1) / WIM_CHUNK_SIZE)).
  set (st0 := mk_extract_state sink sha1_init extract_chunk_arg []).
  pose proof (extract_loop_ctx lzx_decompress xpress_decompress tfopen sink
                extract_chunk lte (Z.min WIM_CHUNK_SIZE size) fuel size 0 st0
                eq_refl) as C.
  cbv zeta in C.
  assert (T : fst (extract_loop lzx_decompress xpress_decompress tfopen sink
                     extract_chunk fuel lte (Z.min WIM_CHUNK_SIZE size) true
                     size 0 st0) <> None).
  { destruct (Z.eq_dec size 0) as [->|NZ].
    - subst fuel. cbn. discriminate.
    - destruct (fuel_enough size) as [B L]; [lia|].
      apply extract_loop_total; [exact B| |lia]. subst fuel. lia. }
  destruct (extract_loop _ _ _ _ _ fuel _ _ _ _ _ st0) as [[ls|] final];
    [|contradiction].
  cbn [fst snd] in *.
  destruct ls as [code|f].
  - destruct code; cbn [snd]; (split; [try exact C|]);
      try (eexists; split; [reflexivity|reflexivity]).
    + unfold sha1_final. destruct (hashes_equal _ _); exact C.
    + eexists. split; [reflexivity|]. unfold sha1_final. rewrite C.
      unfold hashes_equal.
      destruct (bytes_eqb (sha1 (extracted sink final)) (hash lte)) eqn:Q.
      * apply bytes_eqb_eq in Q. cbn [negb fst snd].
        split; [reflexivity|]. intros N. now rewrite Q in N.
      * cbn [negb fst snd]. split; [|reflexivity].
        intros Q'. apply bytes_eqb_eq in Q'.
        unfold sha1_final in Q. congruence.
  - cbn [snd fst]. split; [exact C|]. eexists. split; reflexivity.
Qed.

(** Witness of C5: the resource [hello] extracted whole, once with its
    digest stored and once with another. *)
Lemma extract_full_resource_verifies_sha1_witness :
  fst (extract_wim_resource fill_A fill_A no_file toy_sha1 (list byte)
         append_chunk (hello_lte hello) 5 []) =
    Some (Ret WIMLIB_ERR_SUCCESS) /\
  fst (extract_wim_resource fill_A fill_A no_file toy_sha1 (list byte)
         append_chunk (hello_lte []) 5 []) =
    Some (Ret WIMLIB_ERR_INVALID_RESOURCE_HASH).
Proof.
  split.
  - destruct (extract_full_resource_verifies_sha1 fill_A fill_A no_file
                toy_sha1 (list byte) append_chunk (hello_lte hello) 5 [])
      as (_ & ls & L & M); [lia|reflexivity|].
    vm_compute in L. injection L as <-. apply M. reflexivity.
  - destruct (extract_full_resource_verifies_sha1 fill_A fill_A no_file
                toy_sha1 (list byte) append_chunk (hello_lte []) 5 [])
      as (_ & ls & L & M); [lia|reflexivity|].
    vm_compute in L. injection L as <-. apply M. discriminate.
Defined.



End ResourceTheory.

(** ** Interning in the lookup table *)

Module LookupTableTheory.
Import BufferIO ResourceEntry LookupTable BufferIOTheory.

Lemma hashes_equal_eq a b : hashes_equal a b = true <-> a = b.
Proof. apply ResourceTheory.bytes_eqb_eq. Qed.

Lemma hashes_equal_refl a : hashes_equal a a = true.
Proof. now apply hashes_equal_eq. Qed.

Lemma hashes_equal_neq a b : a <> b -> hashes_equal a b = false.
Proof.
  intros N. destruct (hashes_equal a b) eqn:E; [|reflexivity].
  apply hashes_equal_eq in E. contradiction.
Qed.

Lemma lookup_resource_Some t h lte :
  lookup_resource t h = Some lte -> In lte t /\ hash lte = h.
Proof.
  unfold lookup_resource. intros H. apply find_some in H.
  destruct H as [I E]. now apply hashes_equal_eq in E.
Qed.

Lemma lookup_resource_None t h :
  lookup_resource t h = None <-> ~ In h (hashes t).
Proof.
  unfold lookup_resource, hashes. split.
  - intros H I. apply in_map_iff in I. destruct I as (lte & E & I).
    pose proof (find_none _ _ H lte I) as N. cbn in N.
    rewrite E, hashes_equal_refl in N. discriminate.
  - intros N. induction t as [|lte t IH]; [reflexivity|].
    cbn [find map In] in *.
    destruct (hashes_equal (hash lte) h) eqn:E.
    + apply hashes_equal_eq in E. exfalso. apply N. now left.
    + apply IH. intros I. apply N. now right.
Qed.

Lemma hashes_refcnt_increment t h : hashes (refcnt_increment t h) = hashes t.
Proof.
  induction t as [|lte t IH]; [reflexivity|]. cbn [refcnt_increment].
  destruct (hashes_equal (hash lte) h); cbn [hashes map hash set_refcnt];
    [reflexivity|].
  f_equal. exact IH.
Qed.

Lemma refcnt_of_increment_same t h lte :
  lookup_resource t h = Some lte ->
  refcnt_of (refcnt_increment t h) h = refcnt lte + 1.
Proof.
  unfold refcnt_of, lookup_resource.
  induction t as [|e t IH]; [discriminate|]. cbn [refcnt_increment find].
  destruct (hashes_equal (hash e) h) eqn:E; cbn [find hash set_refcnt refcnt].
  - intros H. injection H as <-. now rewrite E.
  - rewrite E. exact IH.
Qed.

Lemma refcnt_of_increment_other t h h' :
  h' <> h -> refcnt_of (refcnt_increment t h) h' = refcnt_of t h'.
Proof.
  intros N. unfold refcnt_of, lookup_resource.
  induction t as [|e t IH]; [reflexivity|]. cbn [refcnt_increment find].
  destruct (hashes_equal (hash e) h) eqn:E; cbn [find hash set_refcnt refcnt].
  - apply hashes_equal_eq in E.
    rewrite (hashes_equal_neq (hash e) h') by congruence. reflexivity.
  - destruct (hashes_equal (hash e) h'); [reflexivity|exact IH].
Qed.

Lemma interned_increment t h lte :
  lookup_resource t h = Some lte -> interned t h (refcnt_increment t h).
Proof.
  intros L. unfold interned. rewrite L. split.
  - split; [apply hashes_refcnt_increment|].
    now apply refcnt_of_increment_same.
  - intros h' N. now apply refcnt_of_increment_other.
Qed.

Lemma interned_insert t h lte :
  lookup_resource t h = None -> hash lte = h -> refcnt lte = 1 ->
  interned t h (lookup_table_insert t lte).
Proof.
  intros L H R. unfold interned. rewrite L. split.
  - exists lte. auto.
  - intros h' N. unfold refcnt_of, lookup_resource, lookup_table_insert.
    cbn [find].
    rewrite H, (hashes_equal_neq h h') by congruence. reflexivity.
Qed.

(** What follows from [interned]. *)
Lemma interned_refcnt t h t' h' :
  interned t h t' ->
  refcnt_of t' h' = refcnt_of t h' + (if hash_eq_dec h' h then 1 else 0).
Proof.
  intros [C O]. destruct (hash_eq_dec h' h) as [->|N].
  - unfold refcnt_of at 2. destruct (lookup_resource t h) as [lte|].
    + now destruct C.
    + destruct C as (lte & -> & H & R). unfold refcnt_of, lookup_resource.
      cbn [find]. rewrite H, hashes_equal_refl. lia.
  - rewrite (O h' N). lia.
Qed.

Lemma interned_hashes t h t' :
  interned t h t' ->
  hashes t' = if in_dec hash_eq_dec h (hashes t) then hashes t
              else h :: hashes t.
Proof.
  intros [C _]. destruct (lookup_resource t h) as [lte|] eqn:L.
  - apply lookup_resource_Some in L. destruct L as [I E].
    destruct (in_dec hash_eq_dec h (hashes t)) as [_|N]; [now destruct C|].
    exfalso. apply N. subst h. now apply in_map.
  - apply lookup_resource_None in L.
    destruct (in_dec hash_eq_dec h (hashes t)) as [I|_]; [contradiction|].
    destruct C as (lte & -> & H & _). cbn. now rewrite H.
Qed.

Lemma interned_NoDup t h t' :
  interned t h t' -> NoDup (hashes t) -> NoDup (hashes t').
Proof.
  intros I N. rewrite (interned_hashes _ _ _ I).
  destruct (in_dec hash_eq_dec h (hashes t)); [exact N|now constructor].
Qed.

Lemma interned_In t h t' x :
  interned t h t' -> (In x (hashes t') <-> x = h \/ In x (hashes t)).
Proof.
  intros I. rewrite (interned_hashes _ _ _ I).
  destruct (in_dec hash_eq_dec h (hashes t)) as [Y|N]; cbn.
  - split; [auto|]. intros [->|]; assumption.
  - split; intros [|]; auto.
Qed.

Lemma interned_all_app t hs1 t1 hs2 t2 :
  interned_all t hs1 t1 -> interned_all t1 hs2 t2 ->
  interned_all t (hs1 ++ hs2) t2.
Proof.
  induction 1 as [|t h t1' hs t1 I A IH]; intros B; [exact B|].
  cbn. econstructor; [exact I|]. now apply IH.
Qed.

(** After interning [hs]: no two entries share a digest if none did, an
    entry counts the references it counted plus the times its digest is
    among [hs], and the digests of the table are the old ones and those
    of [hs]. *)
Lemma interned_all_spec t hs t' :
  interned_all t hs t' ->
  (NoDup (hashes t) -> NoDup (hashes t')) /\
  (forall h, refcnt_of t' h =
             refcnt_of t h + Z.of_nat (count_occ hash_eq_dec hs h)) /\
  (forall h, In h (hashes t') <-> In h hs \/ In h (hashes t)).
Proof.
  induction 1 as [t|t h t1 hs t2 I A (IH1 & IH2 & IH3)].
  - split; [auto|]. split; [intros; cbn; lia|]. intros h. cbn. tauto.
  - split; [|split].
    + intros N. apply IH1. eapply interned_NoDup; eauto.
    + intros x. rewrite IH2, (interned_refcnt _ _ _ x I). cbn [count_occ].
      destruct (hash_eq_dec h x) as [E1|N1], (hash_eq_dec x h) as [E2|N2];
        try congruence; lia.
    + intros x. rewrite IH3, (interned_In _ _ _ x I). cbn. intuition auto.
Qed.

End LookupTableTheory.

(** ** Capture from a directory tree *)

Module ModifyTheory.
Import BufferIO ResourceEntry LookupTable Modify LookupTableTheory.

(** Induction on a source tree, with the property at hand for every node
    under a directory. *)
Section source_induction.

Variable P : source -> Prop.
Hypothesis P_file : forall st_size content calls,
  P (source_file st_size content calls).
Hypothesis P_dir : forall opendir_ok entries,
  Forall (fun e => match snd e with Some c => P c | None => True end) entries ->
  P (source_dir opendir_ok entries).

Fixpoint source_induction (src : source) : P src :=
  match src with
  | source_file st_size content calls => P_file st_size content calls
  | source_dir opendir_ok entries =>
      P_dir opendir_ok entries
        ((fix all (es : list (string * option source))
            : Forall (fun e => match snd e with Some c => P c | None => True end)
                     es :=
            match es with
            | [] => Forall_nil _
            | (d_name, child) :: rest =>
                Forall_cons (d_name, child)
                  (match child as o
                         return match o with Some c => P c | None => True end
                   with
                   | Some c => source_induction c
                   | None => I
                   end)
                  (all rest)
            end) entries)
  end.

End source_induction.

Section Capture.

Variable sha1 : list byte -> list byte.

Lemma capture_file_interned root_name source_path st_size content calls t d t' :
  capture_file sha1 root_name source_path st_size content calls t =
    (WIMLIB_ERR_SUCCESS, d, t') ->
  interned t (sha1 content) t'.
Proof.
  unfold capture_file.
  destruct (sha1sum_ret calls); try discriminate.
  cbn [dentry_hash].
  destruct (lookup_resource t (sha1 content)) as [lte|] eqn:L.
  - intros E. injection E as <- <-. eapply interned_increment. exact L.
  - destruct (negb (STRDUP_ok calls)); [discriminate|].
    destruct (negb (Modify.new_lookup_table_entry_ok calls)); [discriminate|].
    intros E. injection E as <- <-.
    apply interned_insert; [exact L|reflexivity|reflexivity].
Qed.

Lemma readdir_loop_interned build source_path entries :
  Forall (fun e => match snd e with
                   | Some c => build_interns sha1 build c
                   | None => True
                   end) entries ->
  forall root t d t',
    readdir_loop build source_path entries root t =
      (WIMLIB_ERR_SUCCESS, d, t') ->
    interned_all t (map sha1 (captured_entries captured_files entries)) t'.
Proof.
  induction 1 as [|[d_name child] rest Hc _ IH]; intros root t d t' R;
    cbn [readdir_loop captured_entries] in *.
  - injection R as <- <-. constructor.
  - destruct (is_dot_or_dotdot d_name); [now apply (IH root t d)|].
    destruct child as [c|]; [|discriminate]. cbn [snd] in Hc.
    destruct (build d_name _ c t) as [[ret child_dentry] t1] eqn:B.
    destruct ret; try discriminate.
    rewrite map_app. eapply interned_all_app.
    + eapply Hc. exact B.
    + eapply IH. exact R.
Qed.

Lemma build_dentry_tree_interned src :
  build_interns sha1 (build_dentry_tree sha1) src.
Proof.
  induction src as [st_size content calls|opendir_ok entries IH]
    using source_induction;
    intros root_name source_path t d t' B; cbn [build_dentry_tree] in B.
  - cbn [captured_files map]. econstructor; [|constructor].
    eapply capture_file_interned. exact B.
  - destruct (negb opendir_ok); [discriminate|].
    cbn [captured_files]. eapply readdir_loop_interned; [exact IH|exact B].
Qed.

End Capture.

End ModifyTheory.

(** ** Capture from an NTFS volume *)

Module NtfsCaptureTheory.
Import Int BufferIO ResourceEntry LookupTable NtfsCapture.
Import BufferIOTheory LookupTableTheory.

Lemma ztake_zdrop_step {A} (d : list A) pos n :
  0 <= pos -> 0 <= n ->
  ztake n (zdrop pos d) ++ zdrop (pos + n) d = zdrop pos d.
Proof.
  intros P N. rewrite ztake_firstn, !zdrop_skipn.
  replace (Z.to_nat (pos + n)) with (Z.to_nat n + Z.to_nat pos)%nat by lia.
  rewrite <- skipn_skipn. apply firstn_skipn.
Qed.

Lemma zlength_zdrop {A} (d : list A) pos :
  0 <= pos -> zlength (zdrop pos d) = Z.max 0 (zlength d - pos).
Proof.
  intros P. unfold zlength. rewrite zdrop_skipn, length_skipn. lia.
Qed.

Lemma zdrop_0 {A} (d : list A) : zdrop 0 d = d.
Proof. now rewrite zdrop_skipn. Qed.

Lemma zdrop_all {A} (d : list A) pos : zlength d <= pos -> zdrop pos d = [].
Proof.
  unfold zlength. intros H. rewrite zdrop_skipn. apply skipn_all2. lia.
Qed.

Section Capture.

Variable sha1 : list byte -> list byte.
Variable BUFFER_SIZE : Z.
Variable free_lookup_table_entry :
  lookup_table -> option (list byte) -> lookup_table.

Hypothesis BUFFER_SIZE_pos : 0 < BUFFER_SIZE.

Lemma sha1sum_loop_total ar : forall fuel pos remaining ctx,
  0 <= remaining -> (Z.to_nat remaining < fuel)%nat ->
  sha1sum_loop BUFFER_SIZE fuel ar pos remaining ctx <> None.
Proof.
  induction fuel as [|fuel IH]; intros pos remaining ctx R F; [lia|].
  cbn [sha1sum_loop].
  destruct (Z.eqb_spec remaining 0); [discriminate|].
  destruct (ntfs_attr_pread ar pos _); [|discriminate].
  destruct (negb _); [discriminate|].
  apply IH; lia.
Qed.

Lemma sha1sum_loop_digest ar : forall fuel pos remaining ctx ctx',
  0 <= pos -> 0 <= remaining -> pos + remaining = zlength (data ar) ->
  sha1sum_loop BUFFER_SIZE fuel ar pos remaining ctx = Some (Some ctx') ->
  ctx' = ctx ++ zdrop pos (data ar).
Proof.
  induction fuel as [|fuel IH]; intros pos remaining ctx ctx' P R L;
    cbn [sha1sum_loop].
  - destruct (Z.eqb_spec remaining 0); [|discriminate].
    intros E. injection E as <-.
    rewrite zdrop_all by lia. now rewrite app_nil_r.
  - destruct (Z.eqb_spec remaining 0).
    + intros E. injection E as <-.
      rewrite zdrop_all by lia. now rewrite app_nil_r.
    + unfold ntfs_attr_pread. destruct (ntfs_attr_pread_ok ar); [|discriminate].
      set (to_read := Z.min remaining BUFFER_SIZE).
      destruct (Z.eqb_spec (zlength (ztake to_read (zdrop pos (data ar))))
                           to_read) as [G|]; cbn [negb]; [|discriminate].
      intros E. apply IH in E; try lia.
      rewrite E. unfold Resource.sha1_update.
      rewrite (ztake_all to_read) by lia.
      rewrite <- app_assoc. f_equal.
      apply ztake_zdrop_step; lia.
Qed.

Lemma ntfs_attr_sha1sum_total ar is_reparse :
  ntfs_attr_sha1sum sha1 BUFFER_SIZE ar is_reparse <> None.
Proof.
  unfold ntfs_attr_sha1sum.
  destruct (negb (ntfs_attr_open_ok ar)); [discriminate|].
  assert (T : forall pos remaining,
            0 <= remaining <= zlength (data ar) ->
            sha1sum_loop BUFFER_SIZE (S (List.length (data ar))) ar pos
              remaining Resource.sha1_init <> None).
  { intros pos remaining R. apply sha1sum_loop_total; [lia|].
    unfold zlength in R. lia. }
  destruct is_reparse.
  - unfold ntfs_attr_pread. destruct (ntfs_attr_pread_ok ar); [|discriminate].
    destruct (Z.eqb_spec (zlength (ztake 8 (zdrop 0 (data ar)))) 8) as [G|];
      cbn [negb]; [|discriminate].
    rewrite zlength_ztake, zlength_zdrop in G by lia.
    specialize (T 8 (zlength (data ar) - 8)).
    destruct (sha1sum_loop _ _ _ _ _ _) as [[c|]|];
      [discriminate|discriminate|].
    exfalso. apply T; [lia|reflexivity].
  - specialize (T 0 (zlength (data ar))).
    destruct (sha1sum_loop _ _ _ _ _ _) as [[c|]|];
      [discriminate|discriminate|].
    exfalso. apply T; [pose proof (zlength_nonneg (data ar)); lia|reflexivity].
Qed.

(** The digest is that of the stream's payload. *)
Lemma ntfs_attr_sha1sum_digest ar type0 md tag :
  ntfs_attr_sha1sum sha1 BUFFER_SIZE ar
    (ATTR_TYPES_eqb type0 AT_REPARSE_POINT) =
    Some (WIMLIB_ERR_SUCCESS, md, tag) ->
  md = sha1 (stream_payload type0 ar).
Proof.
  unfold ntfs_attr_sha1sum, stream_payload.
  destruct (negb (ntfs_attr_open_ok ar)); [discriminate|].
  destruct (ATTR_TYPES_eqb type0 AT_REPARSE_POINT).
  - unfold ntfs_attr_pread. destruct (ntfs_attr_pread_ok ar) eqn:OK;
      [|discriminate].
    destruct (Z.eqb_spec (zlength (ztake 8 (zdrop 0 (data ar)))) 8) as [G|];
      cbn [negb]; [|discriminate].
    rewrite zlength_ztake, zlength_zdrop in G by lia.
    destruct (sha1sum_loop _ _ _ _ _ _) as [[c|]|] eqn:L; try discriminate.
    intros E. injection E as <- <-.
    apply sha1sum_loop_digest in L; [|lia|lia|lia].
    unfold Resource.sha1_final. now rewrite L.
  - destruct (sha1sum_loop _ _ _ _ _ _) as [[c|]|] eqn:L; try discriminate.
    intros E. injection E as <- <-.
    apply sha1sum_loop_digest in L;
      [|lia|pose proof (zlength_nonneg (data ar)); lia|lia].
    unfold Resource.sha1_final. now rewrite L.
Qed.

Lemma intern_stream_interned type0 path ar data_size attr_hash t t' :
  intern_stream type0 path ar data_size attr_hash t =
    (WIMLIB_ERR_SUCCESS, t') ->
  interned t attr_hash t'.
Proof.
  unfold intern_stream.
  destruct (lookup_resource t attr_hash) as [lte|] eqn:L.
  - intros E. injection E as <-. eapply interned_increment. exact L.
  - destruct (negb (CALLOC_ntfs_loc_ok ar)); [discriminate|].
    destruct (negb (MALLOC_path_ok ar)); [discriminate|].
    destruct (_ && _); [discriminate|].
    destruct (negb (NtfsCapture.new_lookup_table_entry_ok ar)); [discriminate|].
    intros E. injection E as <-.
    apply interned_insert; [exact L|reflexivity|reflexivity].
Qed.

Lemma stream_digests_one type0 ar :
  stream_digests sha1 type0 [ar] =
  if zlength (data ar) =? 0 then [] else [sha1 (stream_payload type0 ar)].
Proof.
  unfold stream_digests. cbn [flat_map]. now rewrite app_nil_r.
Qed.

Lemma stream_digests_cons type0 ar attrs :
  stream_digests sha1 type0 (ar :: attrs) =
  stream_digests sha1 type0 [ar] ++ stream_digests sha1 type0 attrs.
Proof.
  rewrite stream_digests_one. unfold stream_digests. cbn [flat_map].
  destruct (_ =? _); reflexivity.
Qed.

(** Putting a stream in the inode leaves the table alone, unless an
    unnamed stream is already there or [inode_add_ads] fails. *)
Lemma attach_stream_table ar lte st st' :
  attach_stream free_lookup_table_entry ar lte st = inl st' ->
  (unnamed ar = true -> i_lte (d_inode st) = None) ->
  table st' = table st /\
  (unnamed ar = false -> i_lte (d_inode st') = i_lte (d_inode st)).
Proof.
  unfold attach_stream, unnamed.
  destruct (name_length ar =? 0).
  - intros E U. rewrite (U eq_refl) in E. injection E as <-. cbn.
    split; [reflexivity|discriminate].
  - destruct (utf16_to_utf8_ret ar); try discriminate.
    destruct (negb (inode_add_ads_ok ar)); [discriminate|].
    intros E _. injection E as <-. cbn. auto.
Qed.

Lemma capture_stream_step type0 path ar st st' :
  capture_stream sha1 BUFFER_SIZE free_lookup_table_entry type0 path ar st =
    Some (inl st') ->
  (unnamed ar = true -> i_lte (d_inode st) = None) ->
  interned_all (table st) (stream_digests sha1 type0 [ar]) (table st') /\
  (unnamed ar = false -> i_lte (d_inode st') = i_lte (d_inode st)).
Proof.
  unfold capture_stream, ntfs_get_attribute_value_length.
  rewrite stream_digests_one.
  destruct (value_length_fails ar).
  - cbn. discriminate.
  - destruct (zlength (data ar) =? 0).
    + intros E U. injection E as E.
      apply attach_stream_table in E; [|exact U]. destruct E as [-> I].
      split; [constructor|exact I].
    + destruct (_ && _); [discriminate|].
      destruct (ntfs_attr_sha1sum _ _ _ _) as [[[ret md] tag]|] eqn:S;
        [|discriminate].
      destruct ret; try discriminate.
      apply ntfs_attr_sha1sum_digest in S. subst md.
      destruct (intern_stream _ _ _ _ _ _) as [ret t1] eqn:N.
      destruct ret; try discriminate.
      apply intern_stream_interned in N.
      intros E U. injection E as E.
      apply attach_stream_table in E.
      * destruct E as [T I]. cbn [table d_inode] in *. rewrite T. split.
        { econstructor; [exact N|constructor]. }
        { intros F. rewrite (I F). now destruct (ATTR_TYPES_eqb _ _). }
      * cbn [d_inode]. intros F. specialize (U F).
        now destruct (ATTR_TYPES_eqb _ _).
Qed.

Lemma capture_loop_interned type0 path : forall attrs st st',
  capture_loop sha1 BUFFER_SIZE free_lookup_table_entry type0 path attrs st =
    Some (WIMLIB_ERR_SUCCESS, st') ->
  Forall (fun ar => unnamed ar = false -> inode_add_ads_ok ar = true) attrs ->
  (i_lte (d_inode st) = None /\ (List.length (filter unnamed attrs) <= 1)%nat)
  \/ List.length (filter unnamed attrs) = 0%nat ->
  interned_all (table st) (stream_digests sha1 type0 attrs) (table st').
Proof.
  induction attrs as [|ar attrs IH]; intros st st' R A U;
    cbn [capture_loop] in R.
  - injection R as <-. constructor.
  - rewrite stream_digests_cons. inversion A as [|? ? Aar Arest]; subst.
    destruct (capture_stream _ _ _ _ _ _ _) as [[st1|[ret st1]]|] eqn:C;
      [| |discriminate].
    + cbn [filter] in U.
      apply capture_stream_step in C.
      * destruct C as [I1 K].
        eapply interned_all_app; [exact I1|].
        apply (IH st1 st' R Arest).
        destruct (unnamed ar) eqn:UN; cbn [List.length] in U.
        { right. lia. }
        { destruct U as [[N L]|Z]; [left|right; exact Z].
          split; [|exact L]. rewrite (K eq_refl). exact N. }
      * intros UN. rewrite UN in U. cbn [List.length] in U.
        destruct U as [[N _]|Z]; [exact N|discriminate].
    + (* a return from inside the loop with the value 0: [inode_add_ads]
         failed *)
      exfalso. injection R as -> ->.
      revert C. unfold capture_stream, ntfs_get_attribute_value_length.
      assert (AT : forall lte s,
                attach_stream free_lookup_table_entry ar lte s <>
                inr (WIMLIB_ERR_SUCCESS, st')).
      { intros lte s. unfold attach_stream.
        destruct (name_length ar =? 0) eqn:NL.
        - destruct (i_lte (d_inode s)); discriminate.
        - destruct (utf16_to_utf8_ret ar); try discriminate.
          unfold unnamed in Aar. rewrite (Aar NL). discriminate. }
      destruct (value_length_fails ar).
      * cbn. discriminate.
      * destruct (zlength (data ar) =? 0).
        { intros E. injection E as E. now apply AT in E. }
        { destruct (_ && _); [discriminate|].
          destruct (ntfs_attr_sha1sum _ _ _ _) as [[[ret md] tag]|];
            [|discriminate].
          destruct ret; try discriminate.
          destruct (intern_stream _ _ _ _ _ _) as [ret t1].
          destruct ret; try discriminate.
          intros E. injection E as E. now apply AT in E. }
Qed.

Lemma capture_loop_total type0 path : forall attrs st,
  capture_loop sha1 BUFFER_SIZE free_lookup_table_entry type0 path attrs st
  <> None.
Proof.
  induction attrs as [|ar attrs IH]; intros st; cbn [capture_loop];
    [discriminate|].
  destruct (capture_stream _ _ _ _ _ _ _) as [[st1|r]|] eqn:C;
    [apply IH|discriminate|].
  exfalso. revert C. unfold capture_stream.
  destruct (_ =? 0); [destruct (value_length_fails ar); discriminate|].
  destruct (_ && _); [discriminate|].
  pose proof (ntfs_attr_sha1sum_total ar
                (ATTR_TYPES_eqb type0 AT_REPARSE_POINT)) as T.
  destruct (ntfs_attr_sha1sum _ _ _ _) as [[[ret md] tag]|];
    [|contradiction].
  destruct ret; try discriminate.
  destruct (intern_stream _ _ _ _ _ _) as [ret t1].
  destruct ret; discriminate.
Qed.

End Capture.

End NtfsCaptureTheory.

(** ** Captured streams share lookup table entries *)

Module CaptureTheory.
Import BufferIO ResourceEntry LookupTable Modify NtfsCapture Examples.
Import LookupTableTheory ModifyTheory NtfsCaptureTheory.
Local Open Scope string_scope.
Local Open Scope Z_scope.

(** C6, as the code has it.  During capture, for every regular file of a
    directory tree ([build_dentry_tree]) and every stream of an NTFS inode
    that is not empty and that the capture puts in the inode
    ([capture_ntfs_streams]: a named stream, or an unnamed stream of an
    inode that has none yet; an empty stream gets no lookup table entry):
    when the digest of the content is in the lookup table, the entry
    counts one reference more and no entry is put in; otherwise a new
    entry that counts one reference is put in.  So after the capture of a
    tree, or of the streams of an inode with at most one unnamed stream
    and an alternate data stream entry allocated for every named one, a
    table without two entries of one digest is still such a table, it
    has an entry for every captured content, and the entry of a digest
    counts as many references more as contents with that digest were
    captured.  Nothing is said of a second unnamed stream of an inode,
    nor of a capture in which [inode_add_ads] returns [NULL]. *)
Theorem capture_interns_streams
  (sha1 : list byte -> list byte) (BUFFER_SIZE : Z)
  (free_lookup_table_entry : lookup_table -> option (list byte) -> lookup_table) :
  0 < BUFFER_SIZE ->
  (forall root_name source_path st_size content calls t d t',
     capture_file sha1 root_name source_path st_size content calls t =
       (WIMLIB_ERR_SUCCESS, d, t') ->
     interned t (sha1 content) t') /\
  (forall root_name source_path src t d t',
     build_dentry_tree sha1 root_name source_path src t =
       (WIMLIB_ERR_SUCCESS, d, t') ->
     let digests := map sha1 (captured_files src) in
     (NoDup (hashes t) -> NoDup (hashes t')) /\
     (forall h, refcnt_of t' h =
                refcnt_of t h + Z.of_nat (count_occ hash_eq_dec digests h)) /\
     (forall h, In h (hashes t') <-> In h digests \/ In h (hashes t))) /\
  (forall type0 path ar st st',
     capture_stream sha1 BUFFER_SIZE free_lookup_table_entry type0 path ar st =
       Some (inl st') ->
     (unnamed ar = true -> i_lte (d_inode st) = None) ->
     if zlength (data ar) =? 0 then table st' = table st
     else interned (table st) (sha1 (stream_payload type0 ar)) (table st')) /\
  (forall inode ni path t type0,
     let attrs := filter (fun ar => ATTR_TYPES_eqb (type ar) type0) ni in
     let digests := stream_digests sha1 type0 attrs in
     exists ret st,
       capture_ntfs_streams sha1 BUFFER_SIZE free_lookup_table_entry
         inode ni path t type0 = Some (ret, st) /\
       (ret = WIMLIB_ERR_SUCCESS ->
        i_lte inode = None ->
        (List.length (filter unnamed attrs) <= 1)%nat ->
        Forall (fun ar => unnamed ar = false -> inode_add_ads_ok ar = true)
               attrs ->
        (NoDup (hashes t) -> NoDup (hashes (table st))) /\
        (forall h, refcnt_of (table st) h =
                   refcnt_of t h +
                   Z.of_nat (count_occ hash_eq_dec digests h)) /\
        (forall h, In h (hashes (table st)) <->
                   In h digests \/ In h (hashes t)))).
Proof.
  intros B. split; [|split; [|split]].
  - intros. eapply capture_file_interned; eauto.
  - intros root_name source_path src t d t' R digests.
    apply interned_all_spec. eapply build_dentry_tree_interned. exact R.
  - intros type0 path ar st st' C N.
    apply (capture_stream_step sha1 BUFFER_SIZE free_lookup_table_entry B)
      in C; [|exact N].
    destruct C as [I _]. rewrite stream_digests_one in I.
    destruct (zlength (data ar) =? 0).
    + now inversion I.
    + inversion I as [|? ? ? ? ? I1 I2]; subst. now inversion I2; subst.
  - intros inode ni path t type0 attrs digests.
    unfold capture_ntfs_streams. fold attrs.
    pose proof (capture_loop_total sha1 BUFFER_SIZE free_lookup_table_entry B
                  type0 path attrs (mk_capture_state t inode)) as T.
    destruct (capture_loop _ _ _ _ _ _ _) as [[ret st]|] eqn:L;
      [|contradiction].
    exists ret, st. split; [reflexivity|].
    intros -> N U A. apply interned_all_spec.
    change t with (table (mk_capture_state t inode)).
    eapply (capture_loop_interned sha1 BUFFER_SIZE free_lookup_table_entry B);
      [exact L|exact A|].
    left. split; [exact N|exact U].
Qed.

(** Witness of C6: a tree with the content [hello] in two files and
    another content in a third one, captured into an empty table; and an
    NTFS file whose unnamed stream and whose stream [Zone] both hold
    [hi]. *)
Lemma capture_interns_streams_witness :
  let main := mk_ATTR_RECORD AT_DATA [] [Byte.x68; Byte.x69]
                false true true true true true true WIMLIB_ERR_SUCCESS
                EmptyString true in
  let zone := mk_ATTR_RECORD AT_DATA [90; 111; 110; 101] [Byte.x68; Byte.x69]
                false true true true true true true WIMLIB_ERR_SUCCESS
                "Zone" true in
  (exists d t',
     build_dentry_tree toy_sha1 "root" "/src" twin_tree [] =
       (WIMLIB_ERR_SUCCESS, d, t') /\
     NoDup (hashes t') /\
     refcnt_of t' (toy_sha1 hello) = 2 /\
     List.length t' = 2%nat) /\
  (exists st,
     capture_ntfs_streams toy_sha1 4096 keep_table no_streams_inode
       [main; zone] "/f" [] AT_DATA = Some (WIMLIB_ERR_SUCCESS, st) /\
     NoDup (hashes (table st)) /\
     refcnt_of (table st) (toy_sha1 [Byte.x68; Byte.x69]) = 2).
Proof.
  intros main zone.
  destruct (capture_interns_streams toy_sha1 4096 keep_table)
    as (_ & T & _ & N); [lia|].
  split.
  - destruct (build_dentry_tree toy_sha1 "root" "/src" twin_tree [])
      as [[ret d] t'] eqn:E.
    assert (R : ret = WIMLIB_ERR_SUCCESS)
      by (vm_compute in E; congruence).
    subst ret. exists d, t'. split; [reflexivity|].
    destruct (T "root"%string "/src"%string twin_tree [] d t' E)
      as (D & C & _).
    split; [apply D; constructor|]. split.
    + rewrite C. reflexivity.
    + vm_compute in E. injection E as _ <-. reflexivity.
  - destruct (N no_streams_inode [main; zone] "/f"%string [] AT_DATA)
      as (ret & st & E & P).
    assert (R : ret = WIMLIB_ERR_SUCCESS)
      by (vm_compute in E; congruence).
    subst ret. exists st. split; [exact E|].
    destruct (P eq_refl eq_refl) as (D & C & _).
    + cbn. lia.
    + repeat constructor.
    + split; [apply D; constructor|]. rewrite C. reflexivity.
Defined.

(** C6 as the claim states it fails: the digest of the content of an
    empty NTFS stream is not in the (empty) lookup table, the capture
    succeeds, and no entry has been put in. *)
Lemma empty_ntfs_stream_counterexample :
  lookup_resource [] (toy_sha1 (data empty_stream)) = None /\
  exists st,
    capture_ntfs_streams toy_sha1 4096 keep_table no_streams_inode
      [empty_stream] "/f" [] AT_DATA = Some (WIMLIB_ERR_SUCCESS, st) /\
    table st = [].
Proof.
  split; [reflexivity|]. eexists. split; reflexivity.
Qed.

End CaptureTheory.

(** ** The debugging switch of the XML inference *)

Module XmlWindowsTheory.
Import BufferIO XmlWindows.

Lemma sim_ret {A} (a : A) : debug_only_adds_XML_WARN (ret a).
Proof. intros c1 c2 S. split; [reflexivity|exact S]. Qed.

Lemma sim_bind {A B} (m : M A) (k : A -> M B) :
  debug_only_adds_XML_WARN m ->
  (forall a, debug_only_adds_XML_WARN (k a)) ->
  debug_only_adds_XML_WARN (bind m k).
Proof.
  intros Hm Hk c1 c2 S. unfold bind.
  destruct (Hm c1 c2 S) as [V S'].
  destruct (m c1) as [a1 c1'], (m c2) as [a2 c2']. cbn [fst snd] in *.
  subst a2. now apply Hk.
Qed.

Lemma sim_print m :
  is_XML_WARN m = false -> debug_only_adds_XML_WARN (print m).
Proof.
  intros N c1 c2 (X & I & O & D & P). split; [reflexivity|].
  unfold print, same_but_XML_WARN.
  cbn [fst snd wim_xml image oom_encountered debug_enabled printed].
  repeat split; auto.
  rewrite filter_app, P. cbn [filter]. now rewrite N.
Qed.

Lemma sim_WARNING fmt a : debug_only_adds_XML_WARN (WARNING fmt a).
Proof. now apply sim_print. Qed.

Lemma sim_ERROR fmt a : debug_only_adds_XML_WARN (ERROR fmt a).
Proof. now apply sim_print. Qed.

Lemma sim_XML_WARN fmt a : debug_only_adds_XML_WARN (XML_WARN fmt a).
Proof.
  intros c1 c2 (X & I & O & D & P). split.
  - unfold XML_WARN. rewrite D. now destruct (debug_enabled c2).
  - unfold XML_WARN. rewrite D. cbn [snd].
    destruct (debug_enabled c2); unfold print, same_but_XML_WARN;
      cbn [fst snd wim_xml image oom_encountered debug_enabled printed];
      repeat split; auto.
    rewrite filter_app, P. cbn. now rewrite app_nil_r.
Qed.

Lemma sim_or_oom b : debug_only_adds_XML_WARN (or_oom_encountered b).
Proof.
  intros c1 c2 (X & I & O & D & P). split; [reflexivity|].
  unfold or_oom_encountered, same_but_XML_WARN.
  cbn [fst snd wim_xml image oom_encountered debug_enabled printed].
  repeat split; auto. now rewrite O.
Qed.

Lemma sim_if {A} (b : bool) (m1 m2 : M A) :
  debug_only_adds_XML_WARN m1 -> debug_only_adds_XML_WARN m2 ->
  debug_only_adds_XML_WARN (if b then m1 else m2).
Proof. now destruct b. Qed.

Create HintDb xml.
#[local] Hint Resolve sim_ret sim_WARNING sim_ERROR sim_XML_WARN sim_or_oom
  : xml.

(** Steps a proof that a function is [debug_only_adds_XML_WARN] repeats. *)
Ltac sim_step :=
  match goal with
  | |- debug_only_adds_XML_WARN (bind _ _) => apply sim_bind; [|intros ?]
  | |- debug_only_adds_XML_WARN (if _ then _ else _) => apply sim_if
  | |- debug_only_adds_XML_WARN (match ?x with _ => _ end) => destruct x
  | |- debug_only_adds_XML_WARN (let '(_, _) := ?x in _) => destruct x
  | |- debug_only_adds_XML_WARN _ => solve [auto with xml]
  end.

(** *** Messages are only added *)

Lemma grow_ret {A} (a : A) : only_prints (ret a).
Proof. intros c. split; [reflexivity|]. exists []. now rewrite app_nil_r. Qed.

Lemma grow_bind {A B} (m : M A) (k : A -> M B) :
  only_prints m -> (forall a, only_prints (k a)) -> only_prints (bind m k).
Proof.
  intros Hm Hk c. unfold bind.
  destruct (Hm c) as [D [l P]]. destruct (m c) as [a c']. cbn [snd] in *.
  destruct (Hk a c') as [D' [l' P']]. split; [congruence|].
  exists (l ++ l')%list. now rewrite P', P, app_assoc.
Qed.

Lemma grow_print m : only_prints (print m).
Proof. intros c. split; [reflexivity|]. now exists [m]. Qed.

Lemma grow_WARNING fmt a : only_prints (WARNING fmt a).
Proof. apply grow_print. Qed.

Lemma grow_ERROR fmt a : only_prints (ERROR fmt a).
Proof. apply grow_print. Qed.

Lemma grow_XML_WARN fmt a : only_prints (XML_WARN fmt a).
Proof.
  intros c. unfold XML_WARN. destruct (debug_enabled c) eqn:D.
  - split; [exact D|]. now eexists.
  - split; [exact D|]. exists []. now rewrite app_nil_r.
Qed.

Lemma grow_or_oom b : only_prints (or_oom_encountered b).
Proof. intros c. split; [reflexivity|]. exists []. cbn. now rewrite app_nil_r. Qed.

Lemma grow_if {A} (b : bool) (m1 m2 : M A) :
  only_prints m1 -> only_prints m2 -> only_prints (if b then m1 else m2).
Proof. now destruct b. Qed.

#[local] Hint Resolve grow_ret grow_WARNING grow_ERROR grow_XML_WARN
  grow_or_oom : xml.

Ltac grow_step :=
  match goal with
  | |- only_prints (bind _ _) => apply grow_bind; [|intros ?]
  | |- only_prints (if _ then _ else _) => apply grow_if
  | |- only_prints (match ?x with _ => _ end) => destruct x
  | |- only_prints (let '(_, _) := ?x in _) => destruct x
  | |- only_prints _ => solve [auto with xml]
  end.

Section Inference.

Variable tgetenv : string -> option string.
Variable get_dentry : string -> option wim_dentry.
Variable wimlib_set_image_property :
  Z -> string -> string -> xml_info -> wimlib_error_code * xml_info.
Variable wimlib_get_error_string : wimlib_error_code -> string.
Variable hive_validate : list byte -> Z -> hive_status.
Variable hive_get_string : list byte -> string -> string -> hive_status * string.
Variable hive_get_number : list byte -> string -> string -> hive_status * Z.
Variable hive_list_subkeys : list byte -> string -> hive_status * list string.
Variable hive_status_to_string : hive_status -> string.
Variable tscanf_version : string -> list Z.
Variable tscanf_hex : string -> option Z.

Local Abbreviation set_string_property' :=
  (set_string_property wimlib_set_image_property wimlib_get_error_string).
Local Abbreviation set_number_property' :=
  (set_number_property wimlib_set_image_property wimlib_get_error_string).
Local Abbreviation check_hive_status' :=
  (check_hive_status hive_status_to_string).

Lemma sim_set_string_property name value :
  debug_only_adds_XML_WARN (set_string_property' name value).
Proof.
  intros c1 c2 S. pose proof S as (X & I & O & D & P).
  unfold set_string_property. rewrite X, I.
  destruct (wimlib_set_image_property _ _ _ _) as [r xml'].
  assert (S' : same_but_XML_WARN
                 (mk_ctx xml' (image c2) (oom_encountered c1)
                         (debug_enabled c1) (printed c1))
                 (mk_ctx xml' (image c2) (oom_encountered c2)
                         (debug_enabled c2) (printed c2)))
    by (unfold same_but_XML_WARN;
        cbn [wim_xml image oom_encountered debug_enabled printed];
        repeat split; auto).
  destruct r; try (split; [reflexivity|exact S']);
    (apply sim_bind;
     [apply sim_or_oom|intros _; apply sim_WARNING|exact S']).
Qed.

#[local] Hint Resolve sim_set_string_property : xml.

Lemma sim_set_number_property name value :
  debug_only_adds_XML_WARN (set_number_property' name value).
Proof. apply sim_set_string_property. Qed.

#[local] Hint Resolve sim_set_number_property : xml.

Lemma sim_check_hive_status status key value :
  debug_only_adds_XML_WARN (check_hive_status' status key value).
Proof. unfold check_hive_status. repeat sim_step. Qed.

#[local] Hint Resolve sim_check_hive_status : xml.

Lemma sim_is_registry_valid hive_mem hive_size :
  debug_only_adds_XML_WARN
    (is_registry_valid hive_validate hive_status_to_string hive_mem hive_size).
Proof. unfold is_registry_valid. auto with xml. Qed.

Lemma sim_get_string_from_registry regf key_name value_name :
  debug_only_adds_XML_WARN
    (get_string_from_registry hive_get_string hive_status_to_string regf
       key_name value_name).
Proof. unfold get_string_from_registry. repeat sim_step. Qed.

Lemma sim_get_number_from_registry regf key_name value_name :
  debug_only_adds_XML_WARN
    (get_number_from_registry hive_get_number hive_status_to_string regf
       key_name value_name).
Proof. unfold get_number_from_registry. repeat sim_step. Qed.

Lemma sim_list_subkeys_in_registry regf key_name :
  debug_only_adds_XML_WARN
    (list_subkeys_in_registry hive_list_subkeys hive_status_to_string regf
       key_name).
Proof. unfold list_subkeys_in_registry. repeat sim_step. Qed.

#[local] Hint Resolve sim_is_registry_valid sim_get_string_from_registry
  sim_get_number_from_registry sim_list_subkeys_in_registry : xml.

Lemma sim_copy_registry_string regf key_name value_name property_name :
  debug_only_adds_XML_WARN
    (copy_registry_string wimlib_set_image_property wimlib_get_error_string
       hive_get_string hive_status_to_string regf key_name value_name
       property_name).
Proof. unfold copy_registry_string. repeat sim_step. Qed.

#[local] Hint Resolve sim_copy_registry_string : xml.

Lemma sim_set_info_from_kernel32 contents size :
  debug_only_adds_XML_WARN
    (set_info_from_kernel32 wimlib_set_image_property wimlib_get_error_string
       contents size).
Proof. unfold set_info_from_kernel32. repeat sim_step. Qed.

Lemma sim_set_info_from_software_hive regf :
  debug_only_adds_XML_WARN
    (set_info_from_software_hive wimlib_set_image_property
       wimlib_get_error_string hive_get_string hive_get_number
       hive_status_to_string tscanf_version regf).
Proof. unfold set_info_from_software_hive. repeat sim_step. Qed.

Lemma sim_set_default_language regf :
  debug_only_adds_XML_WARN
    (set_default_language wimlib_set_image_property wimlib_get_error_string
       hive_get_string hive_status_to_string tscanf_hex regf).
Proof. unfold set_default_language. repeat sim_step. Qed.

Lemma sim_set_languages subkeys : forall n,
  debug_only_adds_XML_WARN
    (set_languages wimlib_set_image_property wimlib_get_error_string
       subkeys n).
Proof.
  induction subkeys as [|p rest IH]; intros n; cbn [set_languages].
  - apply sim_ret.
  - apply sim_bind; [auto with xml|]. intros _. apply IH.
Qed.

#[local] Hint Resolve sim_set_info_from_kernel32
  sim_set_info_from_software_hive sim_set_default_language
  sim_set_languages : xml.

Lemma sim_set_info_from_system_hive regf :
  debug_only_adds_XML_WARN
    (set_info_from_system_hive wimlib_set_image_property
       wimlib_get_error_string hive_get_string hive_get_number
       hive_list_subkeys hive_status_to_string tscanf_hex regf).
Proof. unfold set_info_from_system_hive. repeat sim_step. Qed.

Lemma sim_load_file_contents path :
  debug_only_adds_XML_WARN
    (load_file_contents get_dentry wimlib_get_error_string path).
Proof. unfold load_file_contents. repeat sim_step. Qed.

#[local] Hint Resolve sim_set_info_from_system_hive sim_load_file_contents
  : xml.

Lemma sim_load_hive path :
  debug_only_adds_XML_WARN
    (load_hive get_dentry wimlib_get_error_string hive_validate
       hive_status_to_string path).
Proof. unfold load_hive. repeat sim_step. Qed.

#[local] Hint Resolve sim_load_hive : xml.

Lemma sim_body :
  debug_only_adds_XML_WARN
    (set_windows_specific_info_body get_dentry wimlib_set_image_property
       wimlib_get_error_string hive_validate hive_get_string hive_get_number
       hive_list_subkeys hive_status_to_string tscanf_version tscanf_hex).
Proof.
  unfold set_windows_specific_info_body. repeat sim_step.
  intros c1 c2 S. pose proof S as (_ & _ & O & _ & _). rewrite O.
  destruct (oom_encountered c2).
  - apply sim_bind; [apply sim_ERROR|intros _; apply sim_ret|exact S].
  - now apply sim_ret.
Qed.

Lemma grow_set_string_property name value :
  only_prints (set_string_property' name value).
Proof.
  intros c. unfold set_string_property.
  destruct (wimlib_set_image_property _ _ _ _) as [r xml'].
  set (c' := mk_ctx _ _ _ _ _).
  assert (E : debug_enabled c' = debug_enabled c /\ printed c' = printed c)
    by now split.
  destruct E as [D P]. rewrite <- D, <- P.
  destruct r; try apply grow_ret;
    (apply grow_bind; [apply grow_or_oom|intros _; apply grow_WARNING]).
Qed.

#[local] Hint Resolve grow_set_string_property : xml.

Lemma grow_set_number_property name value :
  only_prints (set_number_property' name value).
Proof. apply grow_set_string_property. Qed.

#[local] Hint Resolve grow_set_number_property : xml.

Lemma grow_check_hive_status status key value :
  only_prints (check_hive_status' status key value).
Proof. unfold check_hive_status. repeat grow_step. Qed.

#[local] Hint Resolve grow_check_hive_status : xml.

Lemma grow_is_registry_valid hive_mem hive_size :
  only_prints
    (is_registry_valid hive_validate hive_status_to_string hive_mem hive_size).
Proof. unfold is_registry_valid. auto with xml. Qed.

Lemma grow_get_string_from_registry regf key_name value_name :
  only_prints
    (get_string_from_registry hive_get_string hive_status_to_string regf
       key_name value_name).
Proof. unfold get_string_from_registry. repeat grow_step. Qed.

Lemma grow_get_number_from_registry regf key_name value_name :
  only_prints
    (get_number_from_registry hive_get_number hive_status_to_string regf
       key_name value_name).
Proof. unfold get_number_from_registry. repeat grow_step. Qed.

Lemma grow_list_subkeys_in_registry regf key_name :
  only_prints
    (list_subkeys_in_registry hive_list_subkeys hive_status_to_string regf
       key_name).
Proof. unfold list_subkeys_in_registry. repeat grow_step. Qed.

#[local] Hint Resolve grow_is_registry_valid grow_get_string_from_registry
  grow_get_number_from_registry grow_list_subkeys_in_registry : xml.

Lemma grow_copy_registry_string regf key_name value_name property_name :
  only_prints
    (copy_registry_string wimlib_set_image_property wimlib_get_error_string
       hive_get_string hive_status_to_string regf key_name value_name
       property_name).
Proof. unfold copy_registry_string. repeat grow_step. Qed.

#[local] Hint Resolve grow_copy_registry_string : xml.

Lemma grow_set_info_from_kernel32 contents size :
  only_prints
    (set_info_from_kernel32 wimlib_set_image_property wimlib_get_error_string
       contents size).
Proof. unfold set_info_from_kernel32. repeat grow_step. Qed.

Lemma grow_set_info_from_software_hive regf :
  only_prints
    (set_info_from_software_hive wimlib_set_image_property
       wimlib_get_error_string hive_get_string hive_get_number
       hive_status_to_string tscanf_version regf).
Proof. unfold set_info_from_software_hive. repeat grow_step. Qed.

Lemma grow_set_default_language regf :
  only_prints
    (set_default_language wimlib_set_image_property wimlib_get_error_string
       hive_get_string hive_status_to_string tscanf_hex regf).
Proof. unfold set_default_language. repeat grow_step. Qed.

Lemma grow_set_languages subkeys : forall n,
  only_prints
    (set_languages wimlib_set_image_property wimlib_get_error_string
       subkeys n).
Proof.
  induction subkeys as [|p rest IH]; intros n; cbn [set_languages].
  - apply grow_ret.
  - apply grow_bind; [auto with xml|]. intros _. apply IH.
Qed.

#[local] Hint Resolve grow_set_info_from_kernel32
  grow_set_info_from_software_hive grow_set_default_language
  grow_set_languages : xml.

Lemma grow_set_info_from_system_hive regf :
  only_prints
    (set_info_from_system_hive wimlib_set_image_property
       wimlib_get_error_string hive_get_string hive_get_number
       hive_list_subkeys hive_status_to_string tscanf_hex regf).
Proof. unfold set_info_from_system_hive. repeat grow_step. Qed.

Lemma grow_load_file_contents path :
  only_prints (load_file_contents get_dentry wimlib_get_error_string path).
Proof. unfold load_file_contents. repeat grow_step. Qed.

#[local] Hint Resolve grow_set_info_from_system_hive grow_load_file_contents
  : xml.

Lemma grow_load_hive path :
  only_prints
    (load_hive get_dentry wimlib_get_error_string hive_validate
       hive_status_to_string path).
Proof. unfold load_hive. repeat grow_step. Qed.

#[local] Hint Resolve grow_load_hive : xml.

Lemma grow_end :
  only_prints
    (fun ctx =>
       if oom_encountered ctx then
         (ERROR ("Ran out of memory while setting Windows-specific " ++
                 "metadata in the WIM file's XML document.") [] ;;
          ret WIMLIB_ERR_NOMEM) ctx
       else ret WIMLIB_ERR_SUCCESS ctx).
Proof.
  intros c. destruct (oom_encountered c).
  - apply grow_bind; [apply grow_ERROR|intros _; apply grow_ret].
  - apply grow_ret.
Qed.

Lemma grow_body :
  only_prints
    (set_windows_specific_info_body get_dentry wimlib_set_image_property
       wimlib_get_error_string hive_validate hive_get_string hive_get_number
       hive_list_subkeys hive_status_to_string tscanf_version tscanf_hex).
Proof.
  unfold set_windows_specific_info_body. repeat grow_step. apply grow_end.
Qed.

End Inference.

(** The context [set_windows_specific_info] starts from. *)
Lemma debug_off_start xml current_image debug :
  same_but_XML_WARN (mk_ctx xml current_image false false [])
                    (mk_ctx xml current_image false debug []).
Proof. now repeat split. Qed.

Lemma filter_all_kept {A} (f : A -> bool) (l : list A) :
  Forall (fun a => f a = true) (filter f l).
Proof. apply Forall_forall. intros a I. now apply filter_In in I. Qed.




End XmlWindowsTheory.

(** ** Extraction of resources that are kept as they are *)

Module PlainResourceTheory.
Import Int BufferIO ResourceEntry Stdio LookupTable Resource PlainResource.
Import BufferIOTheory ResourceTheory.

Lemma zlength_zdrop_max {A} (d : list A) pos :
  0 <= pos -> zlength (zdrop pos d) = Z.max 0 (zlength d - pos).
Proof.
  intros P. rewrite zdrop_skipn. unfold zlength. rewrite length_skipn. lia.
Qed.

Lemma zlength_ztake_min {A} (d : list A) n :
  zlength (ztake n d) = Z.max 0 (Z.min n (zlength d)).
Proof.
  rewrite ztake_firstn. unfold zlength. rewrite length_firstn. lia.
Qed.

Lemma ztake_ztake {A} (d : list A) n :
  ztake n (ztake n d) = ztake n d.
Proof. rewrite !ztake_firstn. now rewrite firstn_firstn, Nat.min_id. Qed.

(** Taking [n] more bytes after the first [pos]. *)
Lemma ztake_more {A} (d : list A) pos n :
  0 <= pos -> 0 <= n ->
  ztake pos d ++ ztake n (zdrop pos d) = ztake (pos + n) d.
Proof.
  intros P N. rewrite !ztake_firstn, zdrop_skipn.
  rewrite Z2Nat.inj_add by lia.
  rewrite <- (firstn_skipn (Z.to_nat pos) d) at 3.
  rewrite firstn_app, firstn_firstn.
  rewrite length_firstn.
  replace (Nat.min (Z.to_nat pos + Z.to_nat n) (Z.to_nat pos))
    with (Z.to_nat pos) by lia.
  f_equal.
  destruct (Nat.le_gt_cases (Z.to_nat pos) (List.length d)) as [H|H].
  - rewrite Nat.min_l by lia.
    replace (Z.to_nat pos + Z.to_nat n - Z.to_nat pos)%nat
      with (Z.to_nat n) by lia.
    reflexivity.
  - rewrite skipn_all2 by lia. now rewrite !firstn_nil.
Qed.

(** The run of [read_uncompressed_resource] on a seekable offset. *)
Lemma read_uncompressed_resource_run fp0 offset len :
  0 <= offset < 2 ^ 63 -> 0 <= len ->
  let got := ztake len (zdrop offset (f_data fp0)) in
  read_uncompressed_resource fp0 offset len =
    (if zlength got =? len then Ret WIMLIB_ERR_SUCCESS
     else Ret WIMLIB_ERR_READ,
     mk_io_state (mk_FILE (f_data fp0) (offset + zlength got)) got
       [call_fseeko_SEEK_SET offset; call_fread offset len]).
Proof.
  intros O L got.
  unfold read_uncompressed_resource, run_io, io_bind, do_fseeko_SEEK_SET,
    fseeko_SEEK_SET.
  cbn [fp out trace].
  destruct (Z.ltb_spec offset (2 ^ 63)) as [_|]; [|lia].
  cbn [negb]. unfold do_fread_out, io_bind, do_fread, fread.
  cbn [fp out trace f_pos f_data zlength List.length app].
  fold got.
  assert (G : zlength got <= len).
  { subst got. rewrite zlength_ztake_min. lia. }
  change (Z.of_nat 0) with 0. rewrite Z.sub_0_r.
  destruct (Z.ltb_spec len (zlength got)) as [|_]; [lia|].
  unfold write_out. cbn [fp out trace zlength List.length app].
  change (Z.of_nat 0) with 0. rewrite Z.add_0_l.
  fold (zlength got).
  destruct (Z.ltb_spec len (zlength got)) as [|_]; [lia|].
  unfold io_ret. cbn [fp out trace].
  destruct (zlength got =? len); reflexivity.
Qed.

(** [read_uncompressed_resource] reads the [len] bytes at [offset] of the
    file.  It returns 0 or [WIMLIB_ERR_READ].  When the bytes lie inside
    the file it returns 0 and the stream stands right behind them; when
    [len > 0] and the file ends before the last of them it returns
    [WIMLIB_ERR_READ]; and whenever it returns 0 the buffer holds exactly
    the [len] bytes of the file at [offset].  For [len = 0] and an offset
    behind the end of the file the result is the one of the seek. *)
Theorem read_uncompressed_resource_reads_the_range
  (fp0 : FILE) (offset len : Z) :
  0 <= offset -> 0 <= len ->
  let r := read_uncompressed_resource fp0 offset len in
  let file := f_data fp0 in
  (fst r = Ret WIMLIB_ERR_SUCCESS \/ fst r = Ret WIMLIB_ERR_READ) /\
  (offset + len <= zlength file -> zlength file < 2 ^ 63 ->
   fst r = Ret WIMLIB_ERR_SUCCESS /\ f_pos (fp (snd r)) = offset + len) /\
  (0 < len -> zlength file < offset + len -> fst r = Ret WIMLIB_ERR_READ) /\
  (fst r = Ret WIMLIB_ERR_SUCCESS ->
   out (snd r) = ztake len (zdrop offset file) /\
   zlength (out (snd r)) = len).
Proof.
  intros O L r file. subst r file.
  destruct (Z.ltb_spec offset (2 ^ 63)) as [S|S].
  - rewrite read_uncompressed_resource_run by lia. cbn [fst snd out fp f_pos].
    pose proof (zlength_ztake_min (zdrop offset (f_data fp0)) len) as G.
    rewrite zlength_zdrop_max in G by lia.
    pose proof (zlength_nonneg (f_data fp0)) as N.
    destruct (Z.eqb_spec (zlength (ztake len (zdrop offset (f_data fp0)))) len)
      as [E|E].
    + split; [now left|]. split; [|split].
      * intros _ _. rewrite E. split; reflexivity.
      * intros P B. lia.
      * intros _. split; [reflexivity|exact E].
    + split; [now right|]. split; [|split].
      * intros I B. lia.
      * intros _ _. reflexivity.
      * discriminate.
  - unfold read_uncompressed_resource, run_io, io_bind, do_fseeko_SEEK_SET,
      fseeko_SEEK_SET. cbn [fp out trace].
    destruct (Z.ltb_spec offset (2 ^ 63)) as [|_]; [lia|].
    cbn [negb io_return fst snd].
    split; [now right|]. split; [|split].
    + intros I B. lia.
    + intros _ _. reflexivity.
    + discriminate.
Qed.

(** Witness: the two middle bytes of a four-byte file. *)
Lemma read_uncompressed_resource_reads_the_range_witness :
  let r := read_uncompressed_resource
             (mk_FILE [Byte.x61; Byte.x62; Byte.x63; Byte.x64] 0) 1 2 in
  fst r = Ret WIMLIB_ERR_SUCCESS /\ out (snd r) = [Byte.x62; Byte.x63].
Proof.
  intros r.
  destruct (read_uncompressed_resource_reads_the_range
              (mk_FILE [Byte.x61; Byte.x62; Byte.x63; Byte.x64] 0) 1 2)
    as (_ & S & _ & V); [lia|lia|].
  destruct S as [S _]; [vm_compute; discriminate|reflexivity|].
  split; [exact S|]. destruct (V S) as [E _]. subst r. rewrite E. reflexivity.
Defined.

Section Plain.

Variables lzx_decompress xpress_decompress : decompressor.
Variable tfopen : string -> option FILE.

(** A read inside a resource that is kept as it is gives the bytes asked
    for. *)
Lemma read_plain_content lte b size offset :
  plain_content tfopen lte = Some b ->
  0 <= offset -> 0 < size -> offset + size <= zlength b ->
  offset + size <= original_size (resource_entry lte) ->
  offset + size < 2 ^ 63 ->
  read_wim_resource lzx_decompress xpress_decompress tfopen lte size offset
    no_flags = (Ret WIMLIB_ERR_SUCCESS, ztake size (zdrop offset b)).
Proof.
  intros C O S B L U.
  unfold read_wim_resource. cbn [WIMLIB_RESOURCE_FLAG_RAW no_flags].
  assert (P : 2 ^ 63 < 2 ^ 64) by reflexivity.
  rewrite u64_small by lia.
  destruct (Z.leb_spec (offset + size) (original_size (resource_entry lte)))
    as [_|]; [|lia].
  cbn [negb]. unfold plain_content in C.
  assert (F : forall fp0, f_data fp0 = b ->
            (let '(ret, s) := read_uncompressed_resource fp0 offset size in
             (ret, out s)) =
            (Ret WIMLIB_ERR_SUCCESS, ztake size (zdrop offset b))).
  { intros fp0 <-.
    rewrite read_uncompressed_resource_run by lia. cbn [out].
    rewrite zlength_ztake_min, zlength_zdrop_max by lia.
    destruct (Z.eqb_spec
                (Z.max 0 (Z.min size (Z.max 0 (zlength (f_data fp0) - offset))))
                size); [reflexivity|lia]. }
  destruct (resource_location lte); try discriminate.
  - destruct (file_on_disk lte) as [path|]; [|discriminate].
    destruct (file_on_disk_fp lte) as [fp0|].
    + apply F. congruence.
    + destruct (tfopen path) as [fp0|]; [|discriminate].
      apply F. congruence.
  - destruct (file_on_disk lte) as [path|]; [|discriminate].
    destruct (file_on_disk_fp lte) as [fp0|].
    + apply F. congruence.
    + destruct (tfopen path) as [fp0|]; [|discriminate].
      apply F. congruence.
  - rewrite C. destruct (Z.ltb_spec (zlength b) (offset + size)); [lia|].
    reflexivity.
Qed.

Variable sink : Type.
Variable extract_chunk : list byte -> Z -> Z -> sink -> wimlib_error_code * sink.

Hypothesis extract_chunk_ok :
  forall buf n off a, fst (extract_chunk buf n off a) = WIMLIB_ERR_SUCCESS.

Local Abbreviation loop :=
  (extract_loop lzx_decompress xpress_decompress tfopen sink extract_chunk).

(** The loop on a resource that is kept as it is: what has been handed to
    the callback grows from the first [offset] bytes to the first
    [offset + remaining] bytes. *)
Lemma extract_loop_plain lte b sizeof_buf check_hash :
  plain_content tfopen lte = Some b ->
  0 < sizeof_buf ->
  forall fuel remaining offset st,
  0 <= offset -> 0 <= remaining ->
  remaining <= Z.of_nat fuel * sizeof_buf ->
  offset + remaining <= zlength b ->
  offset + remaining <= original_size (resource_entry lte) ->
  offset + remaining < 2 ^ 63 ->
  extracted sink st = ztake offset b ->
  let r := loop fuel lte sizeof_buf check_hash remaining offset st in
  fst r = Some (inl WIMLIB_ERR_SUCCESS) /\
  extracted sink (snd r) = ztake (offset + remaining) b.
Proof.
  intros C SB.
  induction fuel as [|fuel IH]; intros remaining offset st O R F B L U E;
    cbn [extract_loop].
  - assert (remaining = 0) by lia. subst. cbn.
    now rewrite Z.add_0_r.
  - destruct (Z.eqb_spec remaining 0) as [->|NZ].
    + cbn. now rewrite Z.add_0_r.
    + set (to_read := Z.min remaining sizeof_buf).
      assert (T : 0 < to_read <= remaining) by (subst to_read; lia).
      rewrite (read_plain_content lte b to_read offset C) by lia.
      pose proof (extract_chunk_ok (ztake to_read (zdrop offset b)) to_read
                    offset (arg sink st)) as K.
      destruct (extract_chunk _ _ _ _) as [ret arg']. cbn [fst] in K.
      subst ret.
      assert (P : 2 ^ 63 < 2 ^ 64) by reflexivity.
      rewrite (u64_small (remaining - to_read)) by lia.
      rewrite (u64_small (offset + to_read)) by lia.
      destruct (IH (remaining - to_read) (offset + to_read)
                  (mk_extract_state sink
                     (if check_hash
                      then sha1_update (ctx sink st)
                             (ztake to_read (zdrop offset b)) to_read
                      else ctx sink st) arg'
                     (extracted sink st ++
                      ztake to_read (ztake to_read (zdrop offset b)))))
        as [S X]; try lia.
      * cbn [extracted]. rewrite ztake_ztake, E. apply ztake_more; lia.
      * split; [exact S|]. rewrite X. f_equal. lia.
Qed.

End Plain.

(** Extracting the first [size] bytes of a resource that is kept as it is
    (an attached buffer or a file on disk), with a callback that does not
    fail: the callback is handed exactly the first [size] bytes of the
    resource, in order.  A partial extraction then returns 0; a full one
    returns 0 when the digest of these bytes is the digest of the entry
    and [WIMLIB_ERR_INVALID_RESOURCE_HASH] when it is not. *)
Theorem extract_plain_resource_hands_over_its_bytes
  (lzx_decompress xpress_decompress : decompressor)
  (tfopen : string -> option FILE) (sha1 : list byte -> list byte)
  (sink : Type)
  (extract_chunk : list byte -> Z -> Z -> sink -> wimlib_error_code * sink)
  (lte : wim_lookup_table_entry) (b : list byte) (size : Z)
  (extract_chunk_arg : sink) :
  plain_content tfopen lte = Some b ->
  0 <= size -> size <= zlength b ->
  size <= wim_resource_size lte ->
  size < 2 ^ 63 ->
  (forall buf n off a,
     fst (extract_chunk buf n off a) = WIMLIB_ERR_SUCCESS) ->
  let r := extract_wim_resource lzx_decompress xpress_decompress tfopen sha1
             sink extract_chunk lte size extract_chunk_arg in
  extracted sink (snd r) = ztake size b /\
  (size < wim_resource_size lte -> fst r = Some (Ret WIMLIB_ERR_SUCCESS)) /\
  (size = wim_resource_size lte ->
   fst r = Some (Ret (if hashes_equal (sha1 (ztake size b)) (hash lte)
                      then WIMLIB_ERR_SUCCESS
                      else WIMLIB_ERR_INVALID_RESOURCE_HASH))).
Proof.
  intros C P B L U K r. subst r. unfold extract_wim_resource.
  set (fuel := Z.to_nat ((size + WIM_CHUNK_SIZE - 1) / WIM_CHUNK_SIZE)).
  set (st0 := mk_extract_state sink sha1_init extract_chunk_arg []).
  destruct (Z.eq_dec size 0) as [->|NZ].
  - assert (Z0 : forall sb ch,
              extract_loop lzx_decompress xpress_decompress tfopen sink
                extract_chunk fuel lte sb ch 0 0 st0 =
              (Some (inl WIMLIB_ERR_SUCCESS), st0))
      by (intros; destruct fuel; reflexivity).
    rewrite Z0, !(ztake_firstn 0 b). cbn [Z.to_nat firstn].
    destruct (Z.eqb_spec 0 (wim_resource_size lte)) as [Q|Q].
    + unfold sha1_final. cbn [ctx st0]. unfold sha1_init.
      destruct (hashes_equal _ _); cbn [negb fst snd extracted];
        (split; [reflexivity|split; [lia|reflexivity]]).
    + cbn [fst snd extracted st0].
      split; [reflexivity|split; [reflexivity|congruence]].
  - pose proof (fuel_enough size ltac:(lia)) as [SB F]. fold fuel in F.
    pose proof (extract_loop_plain lzx_decompress xpress_decompress tfopen
                  sink extract_chunk K lte b (Z.min WIM_CHUNK_SIZE size)
                  (size =? wim_resource_size lte) C SB fuel size 0 st0)
      as X.
    cbv zeta in X. rewrite Z.add_0_l in X.
    assert (E0 : extracted sink st0 = ztake 0 b)
      by (rewrite ztake_firstn; reflexivity).
    destruct X as [S X]; try lia; try exact E0; try exact L.
    pose proof (extract_loop_ctx lzx_decompress xpress_decompress tfopen
                  sink extract_chunk lte (Z.min WIM_CHUNK_SIZE size) fuel
                  size 0 st0 eq_refl) as Cx.
    cbv zeta in Cx.
    destruct (Z.eqb_spec size (wim_resource_size lte)) as [Q|Q].
    + destruct (extract_loop _ _ _ _ _ _ _ _ _ _ _ _) as [st final].
      cbn [fst snd] in *. rewrite S. unfold sha1_final. rewrite Cx, X.
      destruct (hashes_equal _ _); cbn [negb fst snd];
        (split; [exact X|split; [lia|reflexivity]]).
    + destruct (extract_loop _ _ _ _ _ _ _ _ _ _ _ _) as [st final].
      cbn [fst snd] in *. rewrite S. cbn [fst snd].
      split; [exact X|split; [reflexivity|lia]].
Qed.

(** Witness: the five bytes of a buffer, collected by the callback. *)
Lemma extract_plain_resource_hands_over_its_bytes_witness :
  let r := extract_wim_resource Examples.fill_A Examples.fill_A
             Examples.no_file Examples.toy_sha1 (list byte) collect
             (buffer_lte Examples.hello Examples.hello) 5 [] in
  extracted (list byte) (snd r) = Examples.hello /\
  fst r = Some (Ret WIMLIB_ERR_SUCCESS).
Proof.
  intros r.
  destruct (extract_plain_resource_hands_over_its_bytes
              Examples.fill_A Examples.fill_A Examples.no_file
              Examples.toy_sha1 (list byte) collect
              (buffer_lte Examples.hello Examples.hello) Examples.hello 5 [])
    as (X & _ & F).
  - reflexivity.
  - lia.
  - vm_compute. discriminate.
  - vm_compute. discriminate.
  - reflexivity.
  - intros. reflexivity.
  - split; [exact X|]. subst r. rewrite F; reflexivity.
Defined.

End PlainResourceTheory.

(** ** The table of language names *)

Module LanguageTheory.
Import BufferIO XmlWindows.

(** The table is in the strict order of its identifiers. *)
Lemma language_id_map_sorted :
  StronglySorted (fun a b : Z * Z => fst a < fst b) language_id_map.
Proof.
  apply Sorted_StronglySorted.
  - intros a b c. apply Z.lt_trans.
  - unfold language_id_map. repeat constructor.
Qed.

Lemma sorted_nth_error {A} (R : A -> A -> Prop) (l : list A) :
  StronglySorted R l ->
  forall i j a b,
    (i < j)%nat -> nth_error l i = Some a -> nth_error l j = Some b -> R a b.
Proof.
  induction 1 as [|x l S IH F]; intros i j a b L Ha Hb.
  - destruct i; discriminate.
  - destruct j as [|j]; [lia|]. cbn in Hb.
    destruct i as [|i]; cbn in Ha.
    + injection Ha as <-. rewrite Forall_forall in F. apply F.
      eapply nth_error_In; eauto.
    + eapply IH; [|exact Ha|exact Hb]. lia.
Qed.

Section Search.

Variable id : Z.

(** The linear search the binary search stands for. *)
Local Abbreviation hit := (fun e : Z * Z => fst e =? id).

Lemma find_at m e :
  nth_error language_id_map m = Some e -> fst e = id ->
  find hit language_id_map = Some e.
Proof.
  intros N E.
  destruct (find hit language_id_map) as [e'|] eqn:F.
  - apply find_some in F as [I H]. apply Z.eqb_eq in H.
    apply In_nth_error in I as [k K].
    destruct (Nat.lt_trichotomy k m) as [L|[->|L]].
    + pose proof (sorted_nth_error _ _ language_id_map_sorted _ _ _ _ L K N)
        as P.
      cbv beta in P. lia.
    + congruence.
    + pose proof (sorted_nth_error _ _ language_id_map_sorted _ _ _ _ L N K)
        as P.
      cbv beta in P. lia.
  - apply find_none with (x := e) in F; [|eapply nth_error_In; eauto].
    apply Z.eqb_neq in F. contradiction.
Qed.

Lemma find_nowhere :
  (forall k e, nth_error language_id_map k = Some e -> fst e <> id) ->
  find hit language_id_map = None.
Proof.
  intros H. destruct (find hit language_id_map) as [e|] eqn:F; [|reflexivity].
  apply find_some in F as [I E]. apply Z.eqb_eq in E.
  apply In_nth_error in I as [k K]. now apply H in K.
Qed.

(** The binary search between [l] and [r], when the identifier is not
    left of [l] or right of [r]. *)
Lemma language_search_spec : forall fuel l r,
  0 <= l <= r -> r < zlength language_id_map ->
  r - l < Z.of_nat fuel ->
  (forall k e, nth_error language_id_map k = Some e ->
               Z.of_nat k < l -> fst e < id) ->
  (forall k e, nth_error language_id_map k = Some e ->
               r < Z.of_nat k -> id < fst e) ->
  language_search fuel id l r =
  match find hit language_id_map with
  | Some (_, name_start_offset) =>
      Some (c_string_at language_names name_start_offset)
  | None => None
  end.
Proof.
  induction fuel as [|fuel IH]; intros l r B R F Lo Hi; [lia|].
  cbn [language_search].
  assert (Q : Z.quot (l + r) 2 = (l + r) / 2)
    by (apply Z.quot_div_nonneg; lia).
  rewrite Q. set (m := (l + r) / 2).
  assert (M : l <= m <= r) by (subst m; Z.to_euclidean_division_equations; lia).
  destruct (nth_error language_id_map (Z.to_nat m)) as [[m_id off]|] eqn:N.
  2:{ apply nth_error_None in N. unfold zlength in R. lia. }
  assert (Below : forall k e, nth_error language_id_map k = Some e ->
                              Z.of_nat k < m -> fst e < m_id).
  { intros k e K L.
    apply (sorted_nth_error _ _ language_id_map_sorted k (Z.to_nat m) e
             (m_id, off)); [lia|exact K|exact N]. }
  assert (Above : forall k e, nth_error language_id_map k = Some e ->
                              m < Z.of_nat k -> m_id < fst e).
  { intros k e K L.
    apply (sorted_nth_error _ _ language_id_map_sorted (Z.to_nat m) k
             (m_id, off) e); [lia|exact N|exact K]. }
  assert (Nowhere : forall a b,
            (forall k e, nth_error language_id_map k = Some e ->
                         Z.of_nat k < a -> fst e < id) ->
            (forall k e, nth_error language_id_map k = Some e ->
                         b < Z.of_nat k -> id < fst e) ->
            b < a -> find hit language_id_map = None).
  { intros a b La Hb AB. apply find_nowhere. intros k e K.
    destruct (Z.lt_ge_cases (Z.of_nat k) a) as [C|C].
    - specialize (La k e K C). lia.
    - specialize (Hb k e K ltac:(lia)). lia. }
  destruct (Z.ltb_spec id m_id) as [C|C].
  - assert (Hi' : forall k e, nth_error language_id_map k = Some e ->
                              m - 1 < Z.of_nat k -> id < fst e).
    { intros k e K L. destruct (Z.eq_dec (Z.of_nat k) m) as [E|E].
      - replace k with (Z.to_nat m) in K by lia.
        rewrite N in K. injection K as <-. exact C.
      - specialize (Above k e K ltac:(lia)). lia. }
    destruct (Z.leb_spec l (m - 1)) as [D|D].
    + apply IH; try lia; assumption.
    + now rewrite (Nowhere l (m - 1) Lo Hi' D).
  - destruct (Z.ltb_spec m_id id) as [C'|C'].
    + assert (Lo' : forall k e, nth_error language_id_map k = Some e ->
                                Z.of_nat k < m + 1 -> fst e < id).
      { intros k e K L. destruct (Z.eq_dec (Z.of_nat k) m) as [E|E].
        - replace k with (Z.to_nat m) in K by lia.
          rewrite N in K. injection K as <-. exact C'.
        - specialize (Below k e K ltac:(lia)). lia. }
      destruct (Z.leb_spec (m + 1) r) as [D|D].
      * apply IH; try lia; assumption.
      * now rewrite (Nowhere (m + 1) r Lo' Hi D).
    + now rewrite (find_at (Z.to_nat m) (m_id, off) N ltac:(cbn; lia)).
Qed.

End Search.

(** The names the table points at are the names of [language_names], one
    for each entry and in the order of the entries. *)
Lemma language_names_of_the_table :
  map (fun e : Z * Z => c_string_at language_names (snd e)) language_id_map =
  language_name_list.
Proof. vm_compute. reflexivity. Qed.

(** [language_id_to_name] finds every identifier of the table and nothing
    else: for an identifier with an entry it returns the name at the
    entry's offset in [language_names], for every other identifier it
    returns [NULL]; a name it returns is one of the names of the table. *)
Theorem language_id_to_name_finds_exactly_the_table (id : Z) :
  (forall name_start_offset,
     In (id, name_start_offset) language_id_map ->
     language_id_to_name id =
       Some (c_string_at language_names name_start_offset)) /\
  ((forall name_start_offset, ~ In (id, name_start_offset) language_id_map) ->
   language_id_to_name id = None) /\
  (forall name,
     language_id_to_name id = Some name -> In name language_name_list).
Proof.
  assert (E : language_id_to_name id =
              match find (fun e : Z * Z => fst e =? id) language_id_map with
              | Some (_, name_start_offset) =>
                  Some (c_string_at language_names name_start_offset)
              | None => None
              end).
  { unfold language_id_to_name. apply language_search_spec.
    - vm_compute. split; discriminate.
    - unfold zlength. lia.
    - unfold zlength. lia.
    - intros k e _ K. lia.
    - intros k e K L.
      assert (B : (k < List.length language_id_map)%nat)
        by (apply nth_error_Some; congruence).
      unfold zlength in L. lia. }
  split; [|split].
  - intros off I. rewrite E.
    apply In_nth_error in I as [m N].
    now rewrite (find_at id m (id, off) N eq_refl).
  - intros H. rewrite E, find_nowhere; [reflexivity|].
    intros k [i off] K C. cbn in C. subst i.
    apply nth_error_In in K. now apply H in K.
  - intros name. rewrite E.
    destruct (find _ _) as [[i off]|] eqn:F; [|discriminate].
    intros [= <-]. apply find_some in F as [I _].
    rewrite <- language_names_of_the_table.
    apply (in_map (fun e : Z * Z => c_string_at language_names (snd e))) in I.
    exact I.
Qed.

End LanguageTheory.

(** ** What the inference of Windows properties can fail with *)

Module XmlWindowsMemoryTheory.
Import BufferIO XmlWindows XmlWindowsMemory.
Import BufferIOTheory.

Lemma keep_ret {A} (a : A) : keeps_memory (ret a).
Proof. intros c H. exact H. Qed.

Lemma keep_bind {A B} (m : M A) (k : A -> M B) :
  keeps_memory m -> (forall a, keeps_memory (k a)) -> keeps_memory (bind m k).
Proof.
  intros Hm Hk c H. unfold bind. specialize (Hm c H).
  destruct (m c) as [a c']. now apply Hk.
Qed.

Lemma keep_print m : keeps_memory (print m).
Proof. intros c H. exact H. Qed.

Lemma keep_WARNING fmt a : keeps_memory (WARNING fmt a).
Proof. apply keep_print. Qed.

Lemma keep_ERROR fmt a : keeps_memory (ERROR fmt a).
Proof. apply keep_print. Qed.

Lemma keep_XML_WARN fmt a : keeps_memory (XML_WARN fmt a).
Proof. intros c H. unfold XML_WARN. now destruct (debug_enabled c). Qed.

Lemma keep_or_oom : keeps_memory (or_oom_encountered false).
Proof. intros c H. cbn. now rewrite H. Qed.

Lemma keep_if {A} (b : bool) (m1 m2 : M A) :
  keeps_memory m1 -> keeps_memory m2 -> keeps_memory (if b then m1 else m2).
Proof. now destruct b. Qed.

Create HintDb memory.
#[local] Hint Resolve keep_ret keep_WARNING keep_ERROR keep_XML_WARN
  keep_or_oom : memory.

Ltac keep_step :=
  match goal with
  | |- keeps_memory (bind _ _) => apply keep_bind; [|intros ?]
  | |- keeps_memory (if _ then _ else _) => apply keep_if
  | |- keeps_memory (match ?x with _ => _ end) => destruct x
  | |- keeps_memory (let '(_, _) := ?x in _) => destruct x
  | |- keeps_memory _ => solve [auto with memory]
  end.

Section Inference.

Variable get_dentry : string -> option wim_dentry.
Variable wimlib_set_image_property :
  Z -> string -> string -> xml_info -> wimlib_error_code * xml_info.
Variable wimlib_get_error_string : wimlib_error_code -> string.
Variable hive_validate : list byte -> Z -> hive_status.
Variable hive_get_string : list byte -> string -> string -> hive_status * string.
Variable hive_get_number : list byte -> string -> string -> hive_status * Z.
Variable hive_list_subkeys : list byte -> string -> hive_status * list string.
Variable hive_status_to_string : hive_status -> string.
Variable tscanf_version : string -> list Z.
Variable tscanf_hex : string -> option Z.

(** No call runs out of memory. *)
Hypothesis set_property_memory : forall image name value xml,
  fst (wimlib_set_image_property image name value xml) <> WIMLIB_ERR_NOMEM.
Hypothesis hive_validate_memory : forall hive_mem hive_size,
  hive_validate hive_mem hive_size <> HIVE_OUT_OF_MEMORY.
Hypothesis hive_get_string_memory : forall regf key value,
  fst (hive_get_string regf key value) <> HIVE_OUT_OF_MEMORY.
Hypothesis hive_get_number_memory : forall regf key value,
  fst (hive_get_number regf key value) <> HIVE_OUT_OF_MEMORY.
Hypothesis hive_list_subkeys_memory : forall regf key,
  fst (hive_list_subkeys regf key) <> HIVE_OUT_OF_MEMORY.
Hypothesis read_memory : forall path dentry blob,
  get_dentry path = Some dentry ->
  unnamed_data_stream_blob dentry = Some blob ->
  read_ret blob <> WIMLIB_ERR_NOMEM.

Lemma keep_set_string_property name value :
  keeps_memory
    (set_string_property wimlib_set_image_property wimlib_get_error_string
       name value).
Proof.
  intros c H. unfold set_string_property.
  pose proof (set_property_memory (image c) name value (wim_xml c)) as N.
  destruct (wimlib_set_image_property _ _ _ _) as [r xml']. cbn [fst] in N.
  destruct r; try contradiction; cbn; now rewrite H.
Qed.

#[local] Hint Resolve keep_set_string_property : memory.

Lemma keep_set_number_property name value :
  keeps_memory
    (set_number_property wimlib_set_image_property wimlib_get_error_string
       name value).
Proof. apply keep_set_string_property. Qed.

#[local] Hint Resolve keep_set_number_property : memory.

Lemma keep_check_hive_status status key value :
  status <> HIVE_OUT_OF_MEMORY ->
  keeps_memory (check_hive_status hive_status_to_string status key value).
Proof.
  intros N. unfold check_hive_status.
  destruct status; try contradiction; cbn [is_HIVE_OK is_HIVE_OUT_OF_MEMORY];
    repeat keep_step.
Qed.

Lemma keep_is_registry_valid hive_mem hive_size :
  keeps_memory
    (is_registry_valid hive_validate hive_status_to_string hive_mem hive_size).
Proof. apply keep_check_hive_status, hive_validate_memory. Qed.

Lemma keep_get_string_from_registry regf key_name value_name :
  keeps_memory
    (get_string_from_registry hive_get_string hive_status_to_string regf
       key_name value_name).
Proof.
  unfold get_string_from_registry.
  pose proof (hive_get_string_memory regf key_name value_name) as N.
  destruct (hive_get_string _ _ _) as [status value].
  apply keep_bind; [now apply keep_check_hive_status|intros ?; apply keep_ret].
Qed.

Lemma keep_get_number_from_registry regf key_name value_name :
  keeps_memory
    (get_number_from_registry hive_get_number hive_status_to_string regf
       key_name value_name).
Proof.
  unfold get_number_from_registry.
  pose proof (hive_get_number_memory regf key_name value_name) as N.
  destruct (hive_get_number _ _ _) as [status value].
  apply keep_bind; [now apply keep_check_hive_status|intros ?; apply keep_ret].
Qed.

Lemma keep_list_subkeys_in_registry regf key_name :
  keeps_memory
    (list_subkeys_in_registry hive_list_subkeys hive_status_to_string regf
       key_name).
Proof.
  unfold list_subkeys_in_registry.
  pose proof (hive_list_subkeys_memory regf key_name) as N.
  destruct (hive_list_subkeys _ _) as [status value].
  apply keep_bind; [now apply keep_check_hive_status|intros ?; apply keep_ret].
Qed.

#[local] Hint Resolve keep_is_registry_valid keep_get_string_from_registry
  keep_get_number_from_registry keep_list_subkeys_in_registry : memory.

Lemma keep_copy_registry_string regf key_name value_name property_name :
  keeps_memory
    (copy_registry_string wimlib_set_image_property wimlib_get_error_string
       hive_get_string hive_status_to_string regf key_name value_name
       property_name).
Proof. unfold copy_registry_string. repeat keep_step. Qed.

#[local] Hint Resolve keep_copy_registry_string : memory.

Lemma keep_set_info_from_kernel32 contents size :
  keeps_memory
    (set_info_from_kernel32 wimlib_set_image_property wimlib_get_error_string
       contents size).
Proof. unfold set_info_from_kernel32. repeat keep_step. Qed.

Lemma keep_set_info_from_software_hive regf :
  keeps_memory
    (set_info_from_software_hive wimlib_set_image_property
       wimlib_get_error_string hive_get_string hive_get_number
       hive_status_to_string tscanf_version regf).
Proof. unfold set_info_from_software_hive. repeat keep_step. Qed.

Lemma keep_set_default_language regf :
  keeps_memory
    (set_default_language wimlib_set_image_property wimlib_get_error_string
       hive_get_string hive_status_to_string tscanf_hex regf).
Proof. unfold set_default_language. repeat keep_step. Qed.

Lemma keep_set_languages subkeys : forall n,
  keeps_memory
    (set_languages wimlib_set_image_property wimlib_get_error_string
       subkeys n).
Proof.
  induction subkeys as [|p rest IH]; intros n; cbn [set_languages].
  - apply keep_ret.
  - apply keep_bind; [auto with memory|]. intros _. apply IH.
Qed.

#[local] Hint Resolve keep_set_info_from_kernel32
  keep_set_info_from_software_hive keep_set_default_language
  keep_set_languages : memory.

Lemma keep_set_info_from_system_hive regf :
  keeps_memory
    (set_info_from_system_hive wimlib_set_image_property
       wimlib_get_error_string hive_get_string hive_get_number
       hive_list_subkeys hive_status_to_string tscanf_hex regf).
Proof. unfold set_info_from_system_hive. repeat keep_step. Qed.

Lemma keep_load_file_contents path :
  keeps_memory (load_file_contents get_dentry wimlib_get_error_string path).
Proof.
  unfold load_file_contents.
  destruct (get_dentry path) as [dentry|] eqn:D; [|repeat keep_step].
  destruct (unnamed_data_stream_blob dentry) as [blob|] eqn:U;
    [|repeat keep_step].
  pose proof (read_memory path dentry blob D U) as N.
  destruct (read_ret blob); try contradiction;
    cbn [is_WIMLIB_ERR_NOMEM andb]; repeat keep_step.
Qed.

#[local] Hint Resolve keep_set_info_from_system_hive keep_load_file_contents
  : memory.

Lemma keep_load_hive path :
  keeps_memory
    (load_hive get_dentry wimlib_get_error_string hive_validate
       hive_status_to_string path).
Proof. unfold load_hive. repeat keep_step. Qed.

#[local] Hint Resolve keep_load_hive : memory.

Lemma keep_end :
  keeps_memory
    (fun ctx =>
       if oom_encountered ctx then
         (ERROR ("Ran out of memory while setting Windows-specific " ++
                 "metadata in the WIM file's XML document.") [] ;;
          ret WIMLIB_ERR_NOMEM) ctx
       else ret WIMLIB_ERR_SUCCESS ctx).
Proof. intros c H. now rewrite H. Qed.

Lemma keep_body :
  keeps_memory
    (set_windows_specific_info_body get_dentry wimlib_set_image_property
       wimlib_get_error_string hive_validate hive_get_string hive_get_number
       hive_list_subkeys hive_status_to_string tscanf_version tscanf_hex).
Proof.
  unfold set_windows_specific_info_body. repeat keep_step. apply keep_end.
Qed.

End Inference.

Lemma status_bind {A} (m : M A) (k : A -> M wimlib_error_code) c :
  (forall a c',
     fst (k a c') = if oom_encountered (snd (k a c')) then WIMLIB_ERR_NOMEM
                    else WIMLIB_ERR_SUCCESS) ->
  fst (bind m k c) = if oom_encountered (snd (bind m k c))
                     then WIMLIB_ERR_NOMEM else WIMLIB_ERR_SUCCESS.
Proof. intros H. unfold bind. destruct (m c) as [a c']. apply H. Qed.

(** The return value of [set_windows_specific_info] says whether
    [oom_encountered] is set at the end. *)
Lemma inference_status get_dentry wimlib_set_image_property
  wimlib_get_error_string hive_validate hive_get_string hive_get_number
  hive_list_subkeys hive_status_to_string tscanf_version tscanf_hex c :
  let r := set_windows_specific_info_body get_dentry
             wimlib_set_image_property wimlib_get_error_string hive_validate
             hive_get_string hive_get_number hive_list_subkeys
             hive_status_to_string tscanf_version tscanf_hex c in
  fst r = if oom_encountered (snd r) then WIMLIB_ERR_NOMEM
          else WIMLIB_ERR_SUCCESS.
Proof.
  cbv zeta. unfold set_windows_specific_info_body.
  repeat (apply status_bind; intros ? ?).
  match goal with
  | |- context [oom_encountered ?c] => destruct (oom_encountered c) eqn:O
  end; cbn; now rewrite ?O.
Qed.

(** [set_windows_specific_info] returns 0 or [WIMLIB_ERR_NOMEM], the
    second exactly when it noted an exhausted memory; whatever the image
    holds (no [kernel32.dll], no hives, invalid hives, keys or values
    missing, properties that cannot be set), it returns 0 as long as no
    call it makes reports that memory ran out. *)
Theorem set_windows_specific_info_fails_only_out_of_memory
  (tgetenv : string -> option string)
  (get_dentry : string -> option wim_dentry)
  (wimlib_set_image_property :
     Z -> string -> string -> xml_info -> wimlib_error_code * xml_info)
  (wimlib_get_error_string : wimlib_error_code -> string)
  (hive_validate : list byte -> Z -> hive_status)
  (hive_get_string : list byte -> string -> string -> hive_status * string)
  (hive_get_number : list byte -> string -> string -> hive_status * Z)
  (hive_list_subkeys : list byte -> string -> hive_status * list string)
  (hive_status_to_string : hive_status -> string)
  (tscanf_version : string -> list Z)
  (tscanf_hex : string -> option Z)
  (xml : xml_info) (current_image : Z) :
  let r := set_windows_specific_info tgetenv get_dentry
             wimlib_set_image_property wimlib_get_error_string hive_validate
             hive_get_string hive_get_number hive_list_subkeys
             hive_status_to_string tscanf_version tscanf_hex
             xml current_image in
  (fst r = WIMLIB_ERR_SUCCESS \/ fst r = WIMLIB_ERR_NOMEM) /\
  (fst r = WIMLIB_ERR_NOMEM <-> oom_encountered (snd r) = true) /\
  ((forall image name value doc,
      fst (wimlib_set_image_property image name value doc)
      <> WIMLIB_ERR_NOMEM) ->
   (forall hive_mem hive_size,
      hive_validate hive_mem hive_size <> HIVE_OUT_OF_MEMORY) ->
   (forall regf key value,
      fst (hive_get_string regf key value) <> HIVE_OUT_OF_MEMORY) ->
   (forall regf key value,
      fst (hive_get_number regf key value) <> HIVE_OUT_OF_MEMORY) ->
   (forall regf key,
      fst (hive_list_subkeys regf key) <> HIVE_OUT_OF_MEMORY) ->
   (forall path dentry blob,
      get_dentry path = Some dentry ->
      unnamed_data_stream_blob dentry = Some blob ->
      read_ret blob <> WIMLIB_ERR_NOMEM) ->
   fst r = WIMLIB_ERR_SUCCESS).
Proof.
  intros r. subst r. unfold set_windows_specific_info.
  set (c0 := mk_ctx _ _ _ _ _).
  pose proof (inference_status get_dentry wimlib_set_image_property
                wimlib_get_error_string hive_validate hive_get_string
                hive_get_number hive_list_subkeys hive_status_to_string
                tscanf_version tscanf_hex c0) as S.
  cbv zeta in S. split; [|split].
  - rewrite S. destruct (oom_encountered _); auto.
  - rewrite S. destruct (oom_encountered _); split; congruence.
  - intros H1 H2 H3 H4 H5 H6. rewrite S.
    rewrite (keep_body get_dentry wimlib_set_image_property
               wimlib_get_error_string hive_validate hive_get_string
               hive_get_number hive_list_subkeys hive_status_to_string
               tscanf_version tscanf_hex H1 H2 H3 H4 H5 H6 c0 eq_refl).
    reflexivity.
Qed.

(** Witness: an image without files. *)
Lemma set_windows_specific_info_fails_only_out_of_memory_witness :
  fst (Examples.infer_on_empty_image Examples.env_WIMLIB_DEBUG_XML_INFO) =
  WIMLIB_ERR_SUCCESS.
Proof.
  apply (set_windows_specific_info_fails_only_out_of_memory
           Examples.env_WIMLIB_DEBUG_XML_INFO Examples.empty_image
           Examples.take_property Examples.error_string
           Examples.no_hive_validate Examples.no_hive_string
           Examples.no_hive_number Examples.no_hive_subkeys
           Examples.hive_status_string Examples.scan_nothing
           Examples.scan_no_hex [] 1);
    intros; cbn; discriminate.
Defined.

(** A read of [n] bytes at [off] that ends within the first [size] bytes
    does not see what comes after them. *)
Lemma le_at_ztake n contents size off :
  0 <= off -> off + Z.of_nat n <= size ->
  le_at n (ztake size contents) off = le_at n contents off.
Proof.
  intros O B. unfold le_at. f_equal.
  rewrite !zdrop_skipn, ztake_firstn, skipn_firstn_comm, firstn_firstn.
  f_equal. lia.
Qed.

(** [set_info_from_kernel32] reads nothing outside the [size] bytes of
    the file: what lies behind them in memory has no part in what it
    does. *)
Theorem set_info_from_kernel32_reads_inside_the_file
  (wimlib_set_image_property :
     Z -> string -> string -> xml_info -> wimlib_error_code * xml_info)
  (wimlib_get_error_string : wimlib_error_code -> string)
  (contents behind : list byte) (size : Z) :
  size = zlength contents ->
  set_info_from_kernel32 wimlib_set_image_property wimlib_get_error_string
    (contents ++ behind) size =
  set_info_from_kernel32 wimlib_set_image_property wimlib_get_error_string
    contents size.
Proof.
  intros S.
  assert (T : contents = ztake size (contents ++ behind))
    by (subst size; now rewrite ztake_app_exact).
  rewrite T at 2. set (c := contents ++ behind). clearbody c.
  assert (P : 0 <= size) by (subst size; apply zlength_nonneg).
  clear S T. unfold set_info_from_kernel32.
  destruct (Z.ltb_spec size 0x40) as [|B]; [reflexivity|].
  rewrite (le_at_ztake 4 c size 0x3C) by lia.
  set (e_lfanew := le_at 4 c 0x3C).
  assert (E : 0 <= e_lfanew)
    by (unfold e_lfanew, le_at; apply le_value_range).
  destruct (Z.ltb_spec size e_lfanew) as [|B1]; [reflexivity|].
  destruct (Z.ltb_spec (size - e_lfanew) 6) as [|B2]; [reflexivity|].
  cbn [orb].
  rewrite (le_at_ztake 4 c size e_lfanew) by lia.
  rewrite (le_at_ztake 2 c size (e_lfanew + 4)) by lia.
  reflexivity.
Qed.

(** Witness: a small [kernel32.dll] followed by other bytes. *)
Lemma set_info_from_kernel32_reads_inside_the_file_witness :
  set_info_from_kernel32 Examples.take_property Examples.error_string
    (tiny_kernel32 0x8664 ++ [Byte.xff; Byte.xff]) 0x48 =
  set_info_from_kernel32 Examples.take_property Examples.error_string
    (tiny_kernel32 0x8664) 0x48.
Proof.
  apply (set_info_from_kernel32_reads_inside_the_file
           Examples.take_property Examples.error_string
           (tiny_kernel32 0x8664) [Byte.xff; Byte.xff] 0x48).
  reflexivity.
Defined.

End XmlWindowsMemoryTheory.

(** ** Unaligned memory accesses *)

Module UnalignedTheory.
Import Int BufferIO Unaligned.
Import BufferIOTheory.

(** Two values in disjoint bits are joined by addition. *)
Lemma lor_shiftl_add a b n :
  0 <= n -> 0 <= b < 2 ^ n -> Z.lor (Z.shiftl a n) b = a * 2 ^ n + b.
Proof.
  intros N B. rewrite Z.shiftl_mul_pow2 by lia.
  assert (L : Z.land (a * 2 ^ n) b = 0).
  { apply Z.bits_inj'. intros k K. rewrite Z.land_spec, Z.bits_0.
    destruct (Z.lt_ge_cases k n) as [C|C].
    - rewrite Z.mul_pow2_bits_low by lia. reflexivity.
    - destruct (Z.eq_dec b 0) as [->|NZ];
        [now rewrite Z.bits_0, andb_false_r|].
      rewrite (Z.bits_above_log2 b k), andb_false_r; [reflexivity|lia|].
      apply Z.lt_le_trans with n; [|lia]. apply Z.log2_lt_pow2; lia. }
  rewrite <- (Z.lxor_lor _ _ L), <- (Z.add_nocarry_lxor _ _ L). reflexivity.
Qed.

Lemma byte_of_Z_of_byte b : byte_of_Z (Z_of_byte b) = b.
Proof. destruct b; reflexivity. Qed.

Lemma byte_of_Z_mod z : byte_of_Z (z mod 256) = byte_of_Z z.
Proof. unfold byte_of_Z. now rewrite Z.mod_mod by lia. Qed.

Lemma byte_of_Z_add b z : byte_of_Z (Z_of_byte b + 256 * z) = b.
Proof.
  rewrite <- byte_of_Z_mod.
  replace ((Z_of_byte b + 256 * z) mod 256) with (Z_of_byte b).
  - apply byte_of_Z_of_byte.
  - pose proof (Z_of_byte_range b). Z.to_euclidean_division_equations. lia.
Qed.

(** The bytes of the value of a byte string are the byte string. *)
Lemma le_bytes_le_value bs : le_bytes (List.length bs) (le_value bs) = bs.
Proof.
  induction bs as [|b bs IH]; [reflexivity|].
  cbn [List.length le_bytes le_value]. rewrite byte_of_Z_add. f_equal.
  replace ((Z_of_byte b + 256 * le_value bs) / 256) with (le_value bs);
    [exact IH|].
  pose proof (Z_of_byte_range b). Z.to_euclidean_division_equations. lia.
Qed.

Lemma bswap_bytes n v : le_bytes n (bswap n v) = rev (le_bytes n v).
Proof.
  unfold bswap.
  rewrite <- (le_bytes_length n v) at 1. rewrite <- length_rev.
  apply le_bytes_le_value.
Qed.

Lemma bswap_value bs :
  bswap (List.length bs) (le_value (rev bs)) = le_value bs.
Proof.
  unfold bswap. rewrite <- (length_rev bs), le_bytes_le_value.
  now rewrite rev_involutive.
Qed.

(** [load] and [store] with the conversion are little-endian on both
    CPUs. *)
Lemma load_le pf n p :
  (n <= List.length p)%nat ->
  match load_unaligned pf n p with
  | Some v => Some (le_to_cpu pf n v)
  | None => None
  end = Some (le_value (firstn n p)).
Proof.
  intros L. unfold load_unaligned, le_to_cpu.
  destruct (Nat.ltb_spec (List.length p) n) as [|_]; [lia|].
  destruct (CPU_IS_LITTLE_ENDIAN pf); [reflexivity|].
  f_equal. rewrite <- (bswap_value (firstn n p)).
  rewrite length_firstn, Nat.min_l by lia. reflexivity.
Qed.

Lemma store_le pf n v p :
  (n <= List.length p)%nat ->
  store_unaligned pf n (cpu_to_le pf n v) p = Some (le_bytes n v ++ skipn n p).
Proof.
  intros L. unfold store_unaligned, cpu_to_le.
  destruct (Nat.ltb_spec (List.length p) n) as [|_]; [lia|].
  destruct (CPU_IS_LITTLE_ENDIAN pf); [reflexivity|].
  now rewrite bswap_bytes, rev_involutive.
Qed.

Lemma get_unaligned_le16_value pf p :
  (2 <= List.length p)%nat ->
  get_unaligned_le16 pf p = Some (le_value (firstn 2 p)).
Proof.
  intros L. unfold get_unaligned_le16.
  destruct (UNALIGNED_ACCESS_IS_FAST pf); [now apply load_le|].
  destruct p as [|b0 [|b1 rest]]; try (cbn in L; lia).
  cbn [byte_at nth_error firstn le_value]. f_equal.
  pose proof (Z_of_byte_range b0). pose proof (Z_of_byte_range b1).
  unfold u16. rewrite (Z.mod_small (Z_of_byte b1)) by lia.
  rewrite lor_shiftl_add by lia. rewrite Z.mod_small by lia. lia.
Qed.

Lemma get_unaligned_le32_value pf p :
  (4 <= List.length p)%nat ->
  get_unaligned_le32 pf p = Some (le_value (firstn 4 p)).
Proof.
  intros L. unfold get_unaligned_le32.
  destruct (UNALIGNED_ACCESS_IS_FAST pf); [now apply load_le|].
  destruct p as [|b0 [|b1 [|b2 [|b3 rest]]]]; try (cbn in L; lia).
  cbn [byte_at nth_error firstn le_value]. f_equal.
  pose proof (Z_of_byte_range b0). pose proof (Z_of_byte_range b1).
  pose proof (Z_of_byte_range b2). pose proof (Z_of_byte_range b3).
  unfold u32. rewrite !(Z.mod_small (Z_of_byte _)) by lia.
  rewrite !Z.shiftl_mul_pow2 by lia.
  rewrite !Z.mod_small by lia.
  rewrite <- !Z.shiftl_mul_pow2 by lia.
  rewrite <- !Z.lor_assoc.
  assert (E1 : Z.lor (Z.shiftl (Z_of_byte b1) 8) (Z_of_byte b0) =
               Z_of_byte b1 * 2 ^ 8 + Z_of_byte b0)
    by (apply lor_shiftl_add; lia).
  rewrite E1.
  assert (E2 : Z.lor (Z.shiftl (Z_of_byte b2) 16)
                     (Z_of_byte b1 * 2 ^ 8 + Z_of_byte b0) =
               Z_of_byte b2 * 2 ^ 16 + (Z_of_byte b1 * 2 ^ 8 + Z_of_byte b0))
    by (apply lor_shiftl_add; lia).
  rewrite E2. rewrite lor_shiftl_add by lia. lia.
Qed.

Lemma put_unaligned_le16_bytes pf v p :
  (2 <= List.length p)%nat ->
  put_unaligned_le16 pf v p = Some (le_bytes 2 v ++ skipn 2 p).
Proof.
  intros L. unfold put_unaligned_le16.
  destruct (UNALIGNED_ACCESS_IS_FAST pf); [now apply store_le|].
  destruct (Nat.ltb_spec (List.length p) 2) as [|_]; [lia|].
  unfold u8. rewrite !byte_of_Z_mod, Z.shiftr_0_r.
  rewrite Z.shiftr_div_pow2 by lia. reflexivity.
Qed.

Lemma put_unaligned_le32_bytes pf v p :
  (4 <= List.length p)%nat ->
  put_unaligned_le32 pf v p = Some (le_bytes 4 v ++ skipn 4 p).
Proof.
  intros L. unfold put_unaligned_le32.
  destruct (UNALIGNED_ACCESS_IS_FAST pf); [now apply store_le|].
  destruct (Nat.ltb_spec (List.length p) 4) as [|_]; [lia|].
  unfold u8. rewrite !byte_of_Z_mod, Z.shiftr_0_r.
  rewrite !Z.shiftr_div_pow2 by lia.
  cbn [le_bytes app]. rewrite !Z.div_div by lia. reflexivity.
Qed.

(** On every platform (unaligned accesses fast or not, CPU little-endian
    or big-endian) [get_unaligned_le16] and [get_unaligned_le32] give the
    little-endian value of the two or four bytes at [p], and a value put
    with [put_unaligned_le16] or [put_unaligned_le32] is the value got
    back: the put writes the little-endian bytes of the value at [p] and
    leaves the memory behind them as it is. *)
Theorem unaligned_le_accessors_round_trip
  (pf : platform) (v : Z) (p : list byte) :
  ((2 <= List.length p)%nat ->
   get_unaligned_le16 pf p = Some (le_value (firstn 2 p))) /\
  ((4 <= List.length p)%nat ->
   get_unaligned_le32 pf p = Some (le_value (firstn 4 p))) /\
  ((2 <= List.length p)%nat -> 0 <= v < 2 ^ 16 ->
   exists p',
     put_unaligned_le16 pf v p = Some p' /\
     get_unaligned_le16 pf p' = Some v /\
     List.length p' = List.length p /\
     firstn 2 p' = le_bytes 2 v /\ skipn 2 p' = skipn 2 p) /\
  ((4 <= List.length p)%nat -> 0 <= v < 2 ^ 32 ->
   exists p',
     put_unaligned_le32 pf v p = Some p' /\
     get_unaligned_le32 pf p' = Some v /\
     List.length p' = List.length p /\
     firstn 4 p' = le_bytes 4 v /\ skipn 4 p' = skipn 4 p).
Proof.
  assert (R : forall n,
            (n <= List.length p)%nat -> 0 <= v < 256 ^ Z.of_nat n ->
            let p' := le_bytes n v ++ skipn n p in
            le_value (firstn n p') = v /\
            List.length p' = List.length p /\
            firstn n p' = le_bytes n v /\ skipn n p' = skipn n p).
  { intros n L V p'. subst p'.
    pose proof (le_bytes_length n v) as E.
    assert (F : firstn n (le_bytes n v ++ skipn n p) = le_bytes n v)
      by (rewrite <- E at 1; apply firstn_exact).
    assert (S : skipn n (le_bytes n v ++ skipn n p) = skipn n p)
      by (rewrite <- E at 1; apply skipn_exact).
    rewrite F, S, le_value_le_bytes, Z.mod_small by lia.
    rewrite length_app, E, length_skipn. repeat split. lia. }
  split; [apply get_unaligned_le16_value|].
  split; [apply get_unaligned_le32_value|].
  split.
  - intros L V. destruct (R 2%nat L V) as (E & N & F & S).
    eexists. split; [now apply put_unaligned_le16_bytes|].
    rewrite get_unaligned_le16_value by lia. now rewrite E.
  - intros L V. destruct (R 4%nat L V) as (E & N & F & S).
    eexists. split; [now apply put_unaligned_le32_bytes|].
    rewrite get_unaligned_le32_value by lia. now rewrite E.
Qed.

(** Witness: a 32-bit value put into six bytes on a big-endian CPU
    without fast unaligned accesses. *)
Lemma unaligned_le_accessors_round_trip_witness :
  exists p',
    put_unaligned_le32 (mk_platform false false) 0x12345678
      [Byte.x00; Byte.x01; Byte.x02; Byte.x03; Byte.x04; Byte.x05] =
      Some p' /\
    get_unaligned_le32 (mk_platform false false) p' = Some 0x12345678 /\
    skipn 4 p' = [Byte.x04; Byte.x05].
Proof.
  destruct (unaligned_le_accessors_round_trip (mk_platform false false)
              0x12345678
              [Byte.x00; Byte.x01; Byte.x02; Byte.x03; Byte.x04; Byte.x05])
    as (_ & _ & _ & H).
  destruct H as (p' & P & G & _ & _ & S); [cbn; lia|lia|].
  exists p'. repeat split; assumption.
Defined.

(** [load_u24_unaligned] at a place with [LOAD_U24_REQUIRED_NBYTES] bytes:
    whichever variant is compiled, the value is made of the first three
    bytes only, in the byte order of the CPU, and its upper eight bits
    are 0. *)
Theorem load_u24_unaligned_takes_three_bytes (pf : platform) (p : list byte) :
  (LOAD_U24_REQUIRED_NBYTES pf <= List.length p)%nat ->
  exists v,
    load_u24_unaligned pf p = Some v /\
    0 <= v < 2 ^ 24 /\
    v = if CPU_IS_LITTLE_ENDIAN pf then le_value (firstn 3 p)
        else le_value (rev (firstn 3 p)).
Proof.
  intros L. unfold load_u24_unaligned, LOAD_U24_REQUIRED_NBYTES in *.
  assert (V : forall b0 b1 b2 : byte,
            0 <= le_value [b0; b1; b2] < 2 ^ 24).
  { intros. pose proof (le_value_range [b0; b1; b2]) as R.
    cbn [List.length] in R. exact R. }
  destruct (UNALIGNED_ACCESS_IS_FAST pf).
  - destruct p as [|b0 [|b1 [|b2 [|b3 rest]]]]; try (cbn in L; lia).
    unfold load_unaligned, loaded_u32_to_u24.
    cbn [List.length Nat.ltb Nat.leb firstn rev app].
    pose proof (Z_of_byte_range b0). pose proof (Z_of_byte_range b1).
    pose proof (Z_of_byte_range b2). pose proof (Z_of_byte_range b3).
    destruct (CPU_IS_LITTLE_ENDIAN pf); eexists; (split; [reflexivity|]).
    + change 0xFFFFFF with (Z.ones 24). rewrite Z.land_ones by lia.
      assert (E : le_value [b0; b1; b2; b3] mod 2 ^ 24 = le_value [b0; b1; b2]).
      { cbn [le_value]. Z.to_euclidean_division_equations. lia. }
      rewrite E. split; [apply V|reflexivity].
    + rewrite Z.shiftr_div_pow2 by lia.
      assert (E : le_value [b3; b2; b1; b0] / 2 ^ 8 = le_value [b2; b1; b0]).
      { cbn [le_value]. Z.to_euclidean_division_equations. lia. }
      rewrite E. split; [apply V|reflexivity].
  - destruct p as [|b0 [|b1 [|b2 rest]]]; try (cbn in L; lia).
    cbn [byte_at nth_error firstn rev app].
    pose proof (Z_of_byte_range b0). pose proof (Z_of_byte_range b1).
    pose proof (Z_of_byte_range b2).
    assert (J : forall x y z,
              0 <= x < 256 -> 0 <= y < 256 -> 0 <= z < 256 ->
              Z.lor (Z.lor (u32 (Z.shiftl (u32 x) 0))
                           (u32 (Z.shiftl (u32 y) 8)))
                    (u32 (Z.shiftl (u32 z) 16)) =
              x + 256 * (y + 256 * z)).
    { intros x y z X Y Z0. unfold u32.
      rewrite !(Z.mod_small x), !(Z.mod_small y), !(Z.mod_small z) by lia.
      rewrite ?Z.shiftl_0_r. rewrite !Z.shiftl_mul_pow2 by lia.
      rewrite !Z.mod_small by lia.
      rewrite <- !Z.shiftl_mul_pow2 by lia.
      rewrite (Z.lor_comm x), (Z.lor_comm _ (Z.shiftl z 16)).
      rewrite (lor_shiftl_add y x 8) by lia.
      rewrite lor_shiftl_add by lia. lia. }
    destruct (CPU_IS_LITTLE_ENDIAN pf); eexists; (split; [reflexivity|]);
      rewrite J by lia.
    + pose proof (V b0 b1 b2) as R. cbn [le_value] in *. lia.
    + pose proof (V b2 b1 b0) as R. cbn [le_value] in *. lia.
Qed.

(** Witness: four bytes, read on a big-endian CPU with fast unaligned
    accesses. *)
Lemma load_u24_unaligned_takes_three_bytes_witness :
  load_u24_unaligned (mk_platform true false)
    [Byte.x01; Byte.x02; Byte.x03; Byte.xff] = Some 0x010203.
Proof.
  destruct (load_u24_unaligned_takes_three_bytes (mk_platform true false)
              [Byte.x01; Byte.x02; Byte.x03; Byte.xff])
    as (v & E & _ & V); [cbn; lia|].
  rewrite E, V. reflexivity.
Defined.

End UnalignedTheory.

(** ** The output bitstream of the compressors *)

Module CompTheory.
Import Int BufferIO Unaligned Comp.
Import BufferIOTheory UnalignedTheory.

(** One call on a stream whose count of remaining bytes does not exceed
    the buffer. *)
Lemma do_put_step pf ostream c :
  num_bytes_remaining ostream <= zlength (output ostream) ->
  exists r ostream',
    do_put pf ostream c = Some (r, ostream') /\
    (r = 0 \/ r = 1) /\
    (r = 1 <-> num_bytes_remaining ostream < zlength (bytes_of c)) /\
    (r = 1 -> ostream' = ostream) /\
    output ostream' =
      skipn (if r =? 0 then List.length (bytes_of c) else 0) (output ostream) /\
    written ostream' =
      written ostream ++ (if r =? 0 then bytes_of c else []) /\
    num_bytes_remaining ostream' =
      num_bytes_remaining ostream -
      (if r =? 0 then zlength (bytes_of c) else 0) /\
    num_bytes_remaining ostream' <= zlength (output ostream') /\
    bitbuf ostream' = bitbuf ostream /\ free_bits ostream' = free_bits ostream.
Proof.
  intros I. destruct c as [n|n]; cbn [do_put bytes_of].
  - unfold bitstream_put_byte.
    destruct (Z.ltb_spec (num_bytes_remaining ostream) 1) as [F|F].
    + exists 1, ostream. cbn [Z.eqb]. rewrite app_nil_r. cbn [skipn].
      unfold zlength in *. cbn [List.length].
      repeat split; auto; lia.
    + destruct (output ostream) as [|b rest] eqn:O;
        [unfold zlength in I; cbn in I; lia|].
      eexists 0, _. split; [reflexivity|].
      cbn [written output num_bytes_remaining bitbuf free_bits Z.eqb skipn
           List.length].
      unfold zlength in *. cbn [List.length] in *.
      repeat split; auto; try lia; try discriminate.
  - unfold bitstream_put_two_bytes.
    destruct (Z.ltb_spec (num_bytes_remaining ostream) 2) as [F|F].
    + exists 1, ostream. cbn [Z.eqb]. rewrite app_nil_r. cbn [skipn].
      unfold zlength in *. cbn [List.length le_bytes].
      repeat split; auto; lia.
    + assert (L : (2 <= List.length (output ostream))%nat)
        by (unfold zlength in I; lia).
      rewrite store_le by exact L.
      change (firstn 2 (le_bytes 2 n ++ skipn 2 (output ostream)))
        with (le_bytes 2 n).
      change (skipn 2 (le_bytes 2 n ++ skipn 2 (output ostream)))
        with (skipn 2 (output ostream)).
      eexists 0, _. split; [reflexivity|].
      cbn [written output num_bytes_remaining bitbuf free_bits Z.eqb].
      unfold zlength in *. rewrite length_skipn.
      cbn [List.length le_bytes] in *.
      repeat split; auto; try lia; try discriminate.
Qed.

(** Any sequence of calls of [bitstream_put_byte] and
    [bitstream_put_two_bytes], on a stream whose count of remaining bytes
    is not beyond its buffer: no call stores outside the buffer; a call
    returns 1 and changes nothing exactly when the count is too small for
    it, and otherwise stores its bytes (the two bytes least significant
    first, on every platform) right behind what was stored before; the
    count goes down by the number of bytes stored and never below 0. *)
Theorem bitstream_puts_stay_inside_the_buffer
  (pf : platform) (cs : list put) : forall ostream : output_bitstream,
  0 <= num_bytes_remaining ostream <= zlength (output ostream) ->
  (forall c, exists r ostream',
     do_put pf ostream c = Some (r, ostream') /\
     (r = 0 \/ r = 1) /\
     (r = 1 <-> num_bytes_remaining ostream < zlength (bytes_of c)) /\
     (r = 1 -> ostream' = ostream)) /\
  exists rs ostream',
    do_puts pf ostream cs = Some (rs, ostream') /\
    List.length rs = List.length cs /\
    Forall (fun r => r = 0 \/ r = 1) rs /\
    written ostream' = written ostream ++ stored cs rs /\
    output ostream' = skipn (List.length (stored cs rs)) (output ostream) /\
    num_bytes_remaining ostream' =
      num_bytes_remaining ostream - zlength (stored cs rs) /\
    0 <= num_bytes_remaining ostream' <= zlength (output ostream') /\
    bitbuf ostream' = bitbuf ostream /\ free_bits ostream' = free_bits ostream.
Proof.
  assert (One : forall ostream : output_bitstream,
            0 <= num_bytes_remaining ostream <= zlength (output ostream) ->
            forall c, exists r ostream',
              do_put pf ostream c = Some (r, ostream') /\
              (r = 0 \/ r = 1) /\
              (r = 1 <-> num_bytes_remaining ostream < zlength (bytes_of c)) /\
              (r = 1 -> ostream' = ostream)).
  { intros ostream I c.
    destruct (do_put_step pf ostream c ltac:(lia))
      as (r & o1 & E & R & F & U & _).
    now exists r, o1. }
  intros ostream I. split; [now apply One|]. revert ostream I.
  induction cs as [|c cs IH]; intros ostream I; cbn [do_puts].
  - exists [], ostream. cbn [stored List.length skipn].
    change (zlength (@nil byte)) with 0. rewrite app_nil_r.
    repeat split; auto; lia.
  - destruct (do_put_step pf ostream c ltac:(lia))
      as (r & o1 & E & R & F & U & O & W & N & Inv & B1 & B2).
    rewrite E.
    assert (I1 : 0 <= num_bytes_remaining o1 <= zlength (output o1)).
    { split; [|exact Inv]. rewrite N.
      destruct R as [-> | ->]; cbn [Z.eqb]; [|lia].
      destruct (Z.lt_ge_cases (num_bytes_remaining ostream)
                  (zlength (bytes_of c))) as [C|C]; [|lia].
      apply F in C. discriminate. }
    destruct (IH o1 I1) as (rs & o2 & E2 & L2 & F2 & W2 & O2 & N2 & I2 & B3 & B4).
    rewrite E2. exists (r :: rs), o2. cbn [stored List.length].
    split; [reflexivity|]. split; [now rewrite L2|].
    split; [now constructor|].
    split; [now rewrite W2, W, app_assoc|].
    split.
    { rewrite O2, O, skipn_skipn, length_app. f_equal.
      destruct R as [-> | ->]; cbn [Z.eqb List.length]; lia. }
    split.
    { rewrite N2, N. unfold zlength. rewrite length_app.
      destruct R as [-> | ->]; cbn [Z.eqb List.length]; lia. }
    split; [exact I2|]. split; congruence.
Qed.

(** Witness: three calls on a stream with three bytes left; the second
    call of [bitstream_put_two_bytes] does not fit. *)
Lemma bitstream_puts_stay_inside_the_buffer_witness :
  exists ostream',
    do_puts (mk_platform true false)
      (mk_output_bitstream 0 16 [] [Byte.x00; Byte.x00; Byte.x00; Byte.x00] 3)
      [put_two_bytes 0x1234; put_two_bytes 0x5678; put_byte 0x9a] =
      Some ([0; 1; 0], ostream') /\
    written ostream' = [Byte.x34; Byte.x12; Byte.x9a] /\
    num_bytes_remaining ostream' = 0.
Proof.
  destruct (bitstream_puts_stay_inside_the_buffer (mk_platform true false)
              [put_two_bytes 0x1234; put_two_bytes 0x5678; put_byte 0x9a]
              (mk_output_bitstream 0 16 []
                 [Byte.x00; Byte.x00; Byte.x00; Byte.x00] 3))
    as (_ & rs & o & E & _ & _ & W & _ & N & _).
  - vm_compute. split; discriminate.
  - exists o. vm_compute in E. injection E as <- <-.
    repeat split; reflexivity.
Defined.

End CompTheory.

(** ** Search trees *)

Module RbTreeTheory.
Import RbTree.

Section Ordered.

Context {A K : Type}.
Variable key : A -> K.
Variable kcmp : K -> K -> Z.
Hypothesis order : total_order kcmp.

Local Abbreviation lt := (fun a b : A => kcmp (key a) (key b) < 0).

Lemma find_over_app (f : A -> bool) (l1 l2 : list A) :
  find f (l1 ++ l2) =
  match find f l1 with Some a => Some a | None => find f l2 end.
Proof.
  induction l1 as [|x l1 IH]; [reflexivity|].
  cbn [app find]. now destruct (f x).
Qed.

Lemma kcmp_refl a : kcmp a a = 0.
Proof. now apply order. Qed.

Lemma sorted_app_inv (l1 l2 : list A) :
  StronglySorted lt (l1 ++ l2) ->
  StronglySorted lt l1 /\ StronglySorted lt l2 /\
  forall a b, In a l1 -> In b l2 -> lt a b.
Proof.
  induction l1 as [|x l1 IH]; cbn [app]; intros S.
  - repeat split; [constructor|exact S|intros a b []].
  - apply StronglySorted_inv in S as [S F].
    destruct (IH S) as (S1 & S2 & C). rewrite Forall_forall in F.
    repeat split.
    + constructor; [exact S1|]. apply Forall_forall. intros y I.
      apply F. apply in_or_app. now left.
    + exact S2.
    + intros a b [<-|I] J; [apply F, in_or_app; now right|now apply C].
Qed.

Lemma sorted_app (l1 l2 : list A) :
  StronglySorted lt l1 -> StronglySorted lt l2 ->
  (forall a b, In a l1 -> In b l2 -> lt a b) ->
  StronglySorted lt (l1 ++ l2).
Proof.
  induction l1 as [|x l1 IH]; cbn [app]; intros S1 S2 C; [exact S2|].
  apply StronglySorted_inv in S1 as [S1 F]. constructor.
  - apply IH; [exact S1|exact S2|]. intros a b I J. apply C; [now right|exact J].
  - apply Forall_app. split; [exact F|].
    apply Forall_forall. intros b J. apply C; [now left|exact J].
Qed.

(** In an ordered tree the walk finds the entry with the key looked for,
    wherever it is. *)
Lemma rb_walk_ordered k : forall t,
  ordered key kcmp t ->
  rb_walk (fun this => kcmp k (key this)) t =
  find (fun this => kcmp k (key this) =? 0) (inorder t).
Proof.
  destruct order as (O0 & O1 & O2).
  assert (Miss : forall l : list A,
            (forall a, In a l -> kcmp k (key a) <> 0) ->
            find (fun this => kcmp k (key this) =? 0) l = None).
  { intros l H. destruct (find _ l) as [a|] eqn:F; [|reflexivity].
    apply find_some in F as [I E]. apply Z.eqb_eq in E. now apply H in I. }
  induction t as [|l IHl x r IHr]; intros S; [reflexivity|].
  unfold ordered in *. cbn [inorder rb_walk] in *.
  apply sorted_app_inv in S as (Sl & Sxr & C).
  apply StronglySorted_inv in Sxr as [Sr Fr]. rewrite Forall_forall in Fr.
  rewrite find_over_app. cbn [find].
  destruct (Z.ltb_spec (kcmp k (key x)) 0) as [L|L].
  - rewrite (IHl Sl).
    destruct (find _ (inorder l)) as [a|]; [reflexivity|].
    destruct (Z.eqb_spec (kcmp k (key x)) 0) as [|_]; [lia|].
    symmetry. apply Miss. intros a I E.
    apply O0 in E. subst k. specialize (Fr a I). cbv beta in Fr.
    apply O1 in Fr. lia.
  - destruct (Z.ltb_spec 0 (kcmp k (key x))) as [G|G].
    + rewrite (IHr Sr), (Miss (inorder l)).
      * destruct (Z.eqb_spec (kcmp k (key x)) 0) as [|_]; [lia|reflexivity].
      * intros a I E. apply O0 in E. subst k.
        specialize (C a x I (or_introl eq_refl)). cbv beta in C.
        apply O1 in G. lia.
    + assert (E : kcmp k (key x) = 0) by lia.
      rewrite (Miss (inorder l)).
      * now rewrite E.
      * intros a I E'. apply O0 in E, E'.
        specialize (C a x I (or_introl eq_refl)). cbv beta in C.
        rewrite <- E', E, kcmp_refl in C. lia.
Qed.

(** In an ordered tree a new entry is linked in at its place in the
    order, unless an entry with its key is there already: then the walk
    stops at that entry. *)
Lemma rb_link_ordered new : forall t,
  ordered key kcmp t ->
  match rb_link (fun this => kcmp (key new) (key this)) new t with
  | inl t' =>
      ordered key kcmp t' /\
      (forall a, In a (inorder t) -> key a <> key new) /\
      exists l1 l2, inorder t = l1 ++ l2 /\ inorder t' = l1 ++ new :: l2
  | inr found => In found (inorder t) /\ key found = key new
  end.
Proof.
  destruct order as (O0 & O1 & O2).
  induction t as [|l IHl x r IHr]; intros S.
  - cbn. split; [|split].
    + repeat constructor.
    + intros a [].
    + now exists [], [].
  - unfold ordered in *. cbn [inorder rb_link] in *.
    pose proof S as S0.
    apply sorted_app_inv in S as (Sl & Sxr & C).
    apply StronglySorted_inv in Sxr as [Sr Fr]. rewrite Forall_forall in Fr.
    destruct (Z.ltb_spec (kcmp (key new) (key x)) 0) as [L|L].
    + specialize (IHl Sl).
      destruct (rb_link _ new l) as [l'|found].
      * destruct IHl as (Sl' & N & l1 & l2 & E1 & E2).
        cbn [inorder]. split; [|split].
        -- rewrite E2 in *. rewrite E1 in *.
           rewrite <- app_assoc. cbn [app].
           rewrite <- app_assoc in S0. cbn [app] in S0.
           apply sorted_app_inv in S0 as (S1 & S2x & C1).
           apply sorted_app_inv in Sl' as (_ & Sn2 & Cn1).
           apply StronglySorted_inv in Sn2 as [_ Fn2].
           apply sorted_app; [exact S1| |].
           ++ constructor; [exact S2x|].
              apply Forall_app. split; [exact Fn2|].
              constructor; [exact L|].
              apply Forall_forall. intros b J. specialize (Fr b J).
              cbv beta in *. eapply O2; eauto.
           ++ intros a b I [<-|J]; [apply Cn1; [exact I|now left]|].
              now apply C1.
        -- intros a I. apply in_app_or in I as [I|[<-|I]].
           ++ now apply N.
           ++ intros E. rewrite E, kcmp_refl in L. lia.
           ++ intros E. specialize (Fr a I). cbv beta in Fr.
              rewrite E in Fr. apply O1 in Fr. lia.
        -- exists l1, (l2 ++ x :: inorder r). rewrite E1, E2.
           now rewrite <- !app_assoc.
      * destruct IHl as [I E]. split; [apply in_or_app; now left|exact E].
    + destruct (Z.ltb_spec 0 (kcmp (key new) (key x))) as [G|G].
      * specialize (IHr Sr).
        destruct (rb_link _ new r) as [r'|found].
        -- destruct IHr as (Sr' & N & l1 & l2 & E1 & E2).
           cbn [inorder]. split; [|split].
           ++ apply sorted_app; [exact Sl| |].
              ** constructor; [exact Sr'|].
                 rewrite E2. rewrite E1 in Fr.
                 apply Forall_app. split.
                 --- apply Forall_forall. intros b J. apply Fr, in_or_app.
                     now left.
                 --- constructor; [cbv beta; now apply O1|].
                     apply Forall_forall. intros b J. apply Fr, in_or_app.
                     now right.
              ** intros a b I [<-|J]; [apply C; [exact I|now left]|].
                 rewrite E2 in J. apply in_app_or in J as [J|[<-|J]].
                 --- apply C; [exact I|]. right. rewrite E1.
                     apply in_or_app. now left.
                 --- cbv beta. eapply O2; [apply (C a x I); now left|].
                     now apply O1.
                 --- apply C; [exact I|]. right. rewrite E1.
                     apply in_or_app. now right.
           ++ intros a I. apply in_app_or in I as [I|[<-|I]].
              ** intros E. specialize (C a x I (or_introl eq_refl)).
                 cbv beta in C. rewrite E in C. lia.
              ** intros E. rewrite E, kcmp_refl in G. lia.
              ** now apply N.
           ++ exists (inorder l ++ x :: l1), l2. rewrite E1, E2.
              now rewrite <- !app_assoc.
        -- destruct IHr as [I E].
           split; [apply in_or_app; right; now right|exact E].
      * assert (E : kcmp (key new) (key x) = 0) by lia.
        apply O0 in E. split; [apply in_or_app; right; now left|now symmetry].
Qed.

(** Looking for a key among entries of which one more is [new]. *)
Lemma find_with_new k new (l1 l2 : list A) :
  StronglySorted lt (l1 ++ new :: l2) ->
  find (fun this => kcmp k (key this) =? 0) (l1 ++ new :: l2) =
  if kcmp k (key new) =? 0 then Some new
  else find (fun this => kcmp k (key this) =? 0) (l1 ++ l2).
Proof.
  destruct order as (O0 & O1 & O2).
  intros S. rewrite !find_over_app. cbn [find].
  destruct (Z.eqb_spec (kcmp k (key new)) 0) as [E|E].
  - destruct (find _ l1) as [a|] eqn:F; [|reflexivity].
    apply find_some in F as [I Ea]. apply Z.eqb_eq in Ea.
    apply sorted_app_inv in S as (_ & _ & C).
    specialize (C a new I (or_introl eq_refl)). cbv beta in C.
    apply O0 in E, Ea. rewrite <- Ea, <- E, kcmp_refl in C. lia.
  - reflexivity.
Qed.

End Ordered.

End RbTreeTheory.

(** ** The set of security descriptors *)

Module SdSetTheory.
Import BufferIO BufferIOTheory RbTree RbTreeTheory SdSet.

Lemma memcmp_total_order : total_order memcmp.
Proof.
  assert (R : forall a, memcmp a a = 0).
  { induction a as [|x a IH]; [reflexivity|]. cbn. now rewrite Z.eqb_refl. }
  assert (B : forall x y, Z_of_byte x = Z_of_byte y -> x = y).
  { intros x y E. rewrite <- (UnalignedTheory.byte_of_Z_of_byte x),
      <- (UnalignedTheory.byte_of_Z_of_byte y). now rewrite E. }
  split; [|split].
  - intros a b. split; [|intros ->; apply R].
    revert b. induction a as [|x a IH]; intros [|y b] E; cbn in E;
      try reflexivity; try discriminate.
    destruct (Z.eqb_spec (Z_of_byte x) (Z_of_byte y)) as [Q|Q]; [|lia].
    f_equal; [now apply B|now apply IH].
  - induction a as [|x a IH]; intros [|y b]; cbn; try lia.
    rewrite (Z.eqb_sym (Z_of_byte y)).
    destruct (Z.eqb_spec (Z_of_byte x) (Z_of_byte y)); [apply IH|lia].
  - induction a as [|x a IH]; intros [|y b] [|z c]; cbn; try lia.
    destruct (Z.eqb_spec (Z_of_byte x) (Z_of_byte y)) as [Q|Q],
             (Z.eqb_spec (Z_of_byte y) (Z_of_byte z)) as [Q'|Q'],
             (Z.eqb_spec (Z_of_byte x) (Z_of_byte z)) as [Q''|Q''];
      try lia.
    apply IH.
Qed.

Section Set_.

Variable sha1_buffer : list byte -> list byte.
Variable hashes_cmp : list byte -> list byte -> Z.
Variable rb_insert_color : sd_node -> rb_tree sd_node -> rb_tree sd_node.

Hypothesis order : total_order hashes_cmp.
Hypothesis rotations :
  forall new t, inorder (rb_insert_color new t) = inorder t.

Local Abbreviation ok := (sd_set_ok sha1_buffer hashes_cmp).
Local Abbreviation lookup := (lookup_sd hashes_cmp).

(** A lookup goes by the entries of the tree, not by its shape. *)
Lemma lookup_sd_find set h :
  ordered hash hashes_cmp (rb_root set) ->
  lookup set h =
  match find (fun this => hashes_cmp h (hash this) =? 0)
             (inorder (rb_root set)) with
  | Some this => security_id this
  | None => -1
  end.
Proof.
  intros O. unfold lookup_sd.
  now rewrite (rb_walk_ordered hash hashes_cmp order h _ O).
Qed.

(** The index of a digest is not negative exactly when the tree has a
    node for the digest. *)
Lemma lookup_sd_found set h :
  ok set ->
  (0 <= lookup set h <->
   exists node, In node (inorder (rb_root set)) /\ hash node = h) /\
  (lookup set h < 0 -> lookup set h = -1) /\
  (0 <= lookup set h ->
   lookup set h < num_entries (sd set) /\
   exists d, nth_error (descriptors (sd set)) (Z.to_nat (lookup set h))
             = Some d /\ sha1_buffer d = h).
Proof.
  intros (O & _ & _ & N). rewrite (lookup_sd_find set h O).
  destruct order as (O0 & _ & _).
  destruct (find _ _) as [this|] eqn:F.
  - apply find_some in F as [I E]. apply Z.eqb_eq, O0 in E. subst h.
    destruct (N this I) as [R D]. split; [|split].
    + split; [intros _; now exists this|lia].
    + lia.
    + intros _. split; [lia|exact D].
  - split; [|split].
    + split; [lia|]. intros (node & I & E).
      apply find_none with (x := node) in F; [|exact I].
      apply Z.eqb_neq in F. exfalso. apply F, O0. now symmetry.
    + reflexivity.
    + lia.
Qed.

Lemma ztake_whole {A} (a : list A) : ztake (zlength a) a = a.
Proof. apply ztake_all. lia. Qed.

(** What [sd_set_add_sd] does to a set that has no node for the digest
    of the descriptor, when no allocation fails. *)
Lemma to_int_small x : - 2 ^ 31 <= x < 2 ^ 31 -> to_int x = x.
Proof. intros H. unfold to_int. rewrite Z.mod_small; lia. Qed.

Lemma sd_set_add_sd_new fails set descriptor :
  ok set ->
  num_entries (sd set) < 2 ^ 31 ->
  lookup set (sha1_buffer descriptor) < 0 ->
  fails MALLOC_new = false -> fails MALLOC_descr_copy = false ->
  fails REALLOC_descriptors = false -> fails REALLOC_sizes = false ->
  exists set',
    sd_set_add_sd sha1_buffer hashes_cmp rb_insert_color fails set descriptor
      = Some (num_entries (sd set), set') /\
    ok set' /\
    sd set' =
      mk_wim_security_data (num_entries (sd set) + 1)
        (descriptors (sd set) ++ [descriptor])
        (sizes (sd set) ++ [zlength descriptor])
        (total_length (sd set) + (zlength descriptor + 8)) /\
    lookup set' (sha1_buffer descriptor) = num_entries (sd set) /\
    forall h', h' <> sha1_buffer descriptor -> lookup set' h' = lookup set h'.
Proof.
  intros K Int L F1 F2 F3 F4.
  pose proof K as (O & Ld & Ls & N).
  destruct (lookup_sd_found set (sha1_buffer descriptor) K) as (Found & _ & _).
  unfold sd_set_add_sd.
  rewrite to_int_small
    by (pose proof (zlength_nonneg (descriptors (sd set))); lia).
  destruct (Z.leb_spec 0 (lookup set (sha1_buffer descriptor))) as [|_];
    [lia|].
  rewrite F1, F2, F3, F4. unfold insert_sd_node. cbn [rb_root sd].
  set (new := mk_sd_node (num_entries (sd set)) (sha1_buffer descriptor)).
  pose proof (rb_link_ordered hash hashes_cmp order new (rb_root set) O) as R.
  destruct (rb_link _ new (rb_root set)) as [linked|found].
  2:{ destruct R as [I E]. exfalso.
      assert (0 <= lookup set (sha1_buffer descriptor)); [|lia].
      apply Found. now exists found. }
  destruct R as (O' & Fresh & l1 & l2 & E1 & E2).
  unfold realloc_and_store.
  rewrite (ztake_all (num_entries (sd set)) (descriptors (sd set))) by lia.
  rewrite (ztake_all (num_entries (sd set)) (sizes (sd set))) by lia.
  rewrite ztake_whole.
  eexists. split; [reflexivity|].
  assert (P : 0 <= num_entries (sd set))
    by (rewrite <- Ld; apply zlength_nonneg).
  assert (K' : ok (mk_sd_set
                     (mk_wim_security_data (num_entries (sd set) + 1)
                        (descriptors (sd set) ++ [descriptor])
                        (sizes (sd set) ++ [zlength descriptor])
                        (total_length (sd set) + (zlength descriptor + 8)))
                     (rb_insert_color new linked))).
  { unfold sd_set_ok, ordered.
    cbn [rb_root sd num_entries descriptors sizes].
    rewrite rotations. split; [exact O'|].
    rewrite !zlength_app. unfold zlength at 2 4. cbn [List.length].
    split; [lia|]. split; [lia|].
    intros node I. rewrite E2 in I.
    assert (J : node = new \/ In node (inorder (rb_root set))).
    { rewrite E1. apply in_app_or in I as [I|[I|I]];
        [right; apply in_or_app; now left|left; now symmetry|
         right; apply in_or_app; now right]. }
    destruct J as [->|J].
    - cbn [security_id hash new]. split; [lia|].
      exists descriptor. split; [|reflexivity].
      rewrite nth_error_app2 by (unfold zlength in Ld; lia).
      replace (Z.to_nat (num_entries (sd set)) -
               List.length (descriptors (sd set)))%nat with 0%nat
        by (unfold zlength in Ld; lia).
      reflexivity.
    - destruct (N node J) as [R (d & D & H)]. split; [lia|].
      exists d. split; [|exact H].
      rewrite nth_error_app1 by (unfold zlength in Ld; lia). exact D. }
  split; [exact K'|]. split; [reflexivity|].
  assert (S' : StronglySorted
                 (fun a b => hashes_cmp (hash a) (hash b) < 0)
                 (l1 ++ new :: l2))
    by (rewrite <- E2; exact O').
  split.
  - rewrite lookup_sd_find by apply K'. cbn [rb_root].
    rewrite rotations, E2.
    rewrite (find_with_new hash hashes_cmp order _ new l1 l2 S').
    cbn [hash new]. destruct order as (O0 & _).
    rewrite (proj2 (O0 _ _) eq_refl). reflexivity.
  - intros h' D. rewrite lookup_sd_find by apply K'. cbn [rb_root].
    rewrite rotations, E2.
    rewrite (find_with_new hash hashes_cmp order _ new l1 l2 S').
    cbn [hash new]. destruct order as (O0 & _).
    destruct (Z.eqb_spec (hashes_cmp h' (sha1_buffer descriptor)) 0) as [Q|_].
    + apply O0 in Q. contradiction.
    + rewrite <- E1. symmetry. now apply lookup_sd_find.
Qed.

End Set_.

(** [sd_set_add_sd] on a set it has kept (the tree in the order of
    [hashes_cmp], a strict total order of the digests, and
    [rb_insert_color] moving nodes without changing their order from left
    to right), as long as the counters of the security data do not reach
    the limits of 32-bit fields (one more entry is fewer than 2^31
    entries, and the total length with the descriptor stays below 2^32):
    a descriptor whose digest has a node gets the index of that node and
    nothing changes; otherwise, when an allocation fails, the function
    returns -1 and nothing changes, and when none fails the descriptor
    and its size are appended to the arrays, its index is the former
    number of entries, the total length grows by the size and 8, and the
    indices of all other digests stay.  In each case the set is kept; an
    index that is returned is the index found for the digest from then
    on, so adding the descriptor again returns it again, whether
    allocations fail or not. *)
Theorem sd_set_add_sd_interns_descriptors
  (sha1_buffer : list byte -> list byte)
  (hashes_cmp : list byte -> list byte -> Z)
  (rb_insert_color : sd_node -> rb_tree sd_node -> rb_tree sd_node)
  (fails : allocation -> bool) (set : sd_set) (descriptor : list byte) :
  total_order hashes_cmp ->
  (forall new t, inorder (rb_insert_color new t) = inorder t) ->
  sd_set_ok sha1_buffer hashes_cmp set ->
  num_entries (sd set) + 1 < 2 ^ 31 ->
  total_length (sd set) + (zlength descriptor + 8) < 2 ^ 32 ->
  let h := sha1_buffer descriptor in
  let found := lookup_sd hashes_cmp set h in
  let failure :=
    fails MALLOC_new || fails MALLOC_descr_copy ||
    fails REALLOC_descriptors || fails REALLOC_sizes in
  exists id set',
    sd_set_add_sd sha1_buffer hashes_cmp rb_insert_color fails set descriptor
      = Some (id, set') /\
    sd_set_ok sha1_buffer hashes_cmp set' /\
    (0 <= found -> id = found /\ set' = set) /\
    (found < 0 -> failure = true -> id = -1 /\ set' = set) /\
    (found < 0 -> failure = false ->
     id = num_entries (sd set) /\
     sd set' =
       mk_wim_security_data (num_entries (sd set) + 1)
         (descriptors (sd set) ++ [descriptor])
         (sizes (sd set) ++ [zlength descriptor])
         (total_length (sd set) + (zlength descriptor + 8)) /\
     forall h', h' <> h ->
       lookup_sd hashes_cmp set' h' = lookup_sd hashes_cmp set h') /\
    (0 <= id ->
     lookup_sd hashes_cmp set' h = id /\
     (exists d, nth_error (descriptors (sd set')) (Z.to_nat id) = Some d /\
                sha1_buffer d = h) /\
     forall fails',
       sd_set_add_sd sha1_buffer hashes_cmp rb_insert_color fails' set'
         descriptor = Some (id, set')).
Proof.
  intros order rotations K Entries Total h found failure.
  assert (Again : forall s id,
            lookup_sd hashes_cmp s h = id -> 0 <= id ->
            forall fails',
              sd_set_add_sd sha1_buffer hashes_cmp rb_insert_color fails' s
                descriptor = Some (id, s)).
  { intros s id E P fails'. unfold sd_set_add_sd. fold h. rewrite E.
    destruct (Z.leb_spec 0 id); [reflexivity|lia]. }
  destruct (Z.le_gt_cases 0 found) as [P|P].
  - exists found, set. split; [now apply Again|]. split; [exact K|].
    split; [now split|]. split; [lia|]. split; [lia|].
    intros _. split; [reflexivity|]. split; [|now apply Again].
    now apply (lookup_sd_found sha1_buffer hashes_cmp order set h K).
  - destruct failure eqn:F.
    + exists (-1), set. split.
      * unfold sd_set_add_sd. fold h found.
        destruct (Z.leb_spec 0 found) as [|_]; [lia|].
        subst failure.
        destruct (fails MALLOC_new); [reflexivity|].
        destruct (fails MALLOC_descr_copy); [reflexivity|].
        destruct (fails REALLOC_descriptors); [reflexivity|].
        destruct (fails REALLOC_sizes); [reflexivity|discriminate].
      * split; [exact K|]. split; [lia|]. split; [now split|].
        split; [discriminate|lia].
    + subst failure. apply orb_false_iff in F as [F F4].
      apply orb_false_iff in F as [F F3].
      apply orb_false_iff in F as [F1 F2].
      destruct (sd_set_add_sd_new sha1_buffer hashes_cmp rb_insert_color
                  order rotations fails set descriptor K ltac:(lia) P
                  F1 F2 F3 F4)
        as (set' & E & K' & S & L & Others).
      exists (num_entries (sd set)), set'.
      split; [exact E|]. split; [exact K'|]. split; [lia|].
      split; [discriminate|]. split; [now intros _ _|].
      intros Q. split; [exact L|]. split; [|now apply Again].
      pose proof (lookup_sd_found sha1_buffer hashes_cmp order set' h K')
        as (_ & _ & D).
      fold h in L. rewrite L in D. now apply D.
Qed.

(** Witness: the same descriptor added twice to an empty set, the second
    time with every allocation failing. *)
Lemma sd_set_add_sd_interns_descriptors_witness :
  exists set',
    sd_set_add_sd plain_digest memcmp no_rotation no_failure empty_set
      [Byte.x01; Byte.x02] = Some (0, set') /\
    sd_set_add_sd plain_digest memcmp no_rotation (fun _ => true) set'
      [Byte.x01; Byte.x02] = Some (0, set') /\
    descriptors (sd set') = [[Byte.x01; Byte.x02]].
Proof.
  destruct (sd_set_add_sd_interns_descriptors plain_digest memcmp no_rotation
              no_failure empty_set [Byte.x01; Byte.x02])
    as (id & set' & E & _ & _ & _ & New & Again).
  - apply memcmp_total_order.
  - reflexivity.
  - unfold sd_set_ok, ordered, empty_set. cbn.
    split; [apply SSorted_nil|]. split; [reflexivity|].
    split; [reflexivity|]. intros node [].
  - reflexivity.
  - reflexivity.
  - destruct New as (I & S & _); [vm_compute; reflexivity|reflexivity|].
    cbn in I. subst id. exists set'. split; [exact E|].
    split; [apply Again; lia|]. rewrite S. reflexivity.
Defined.

End SdSetTheory.

(** ** The DOS names of a directory *)

Module DosNamesTheory.
Import BufferIO BufferIOTheory RbTree RbTreeTheory DosNames.

Lemma ino_cmp_total_order : total_order ino_cmp.
Proof.
  unfold ino_cmp. split; [|split].
  - intros a b. destruct (Z.ltb_spec a b), (Z.ltb_spec b a); lia.
  - intros a b. destruct (Z.ltb_spec a b), (Z.ltb_spec b a); lia.
  - intros a b c.
    destruct (Z.ltb_spec a b), (Z.ltb_spec b a), (Z.ltb_spec b c),
             (Z.ltb_spec c b), (Z.ltb_spec a c), (Z.ltb_spec c a); lia.
Qed.

Lemma ino_cmp_0 a b : ino_cmp a b = 0 <-> a = b.
Proof. apply ino_cmp_total_order. Qed.

(** A lookup goes by the nodes of the map, not by its shape. *)
Lemma lookup_dos_name_find map ino :
  ordered ntfs_ino ino_cmp map ->
  lookup_dos_name map ino =
  find (fun this => ino_cmp ino (ntfs_ino this) =? 0) (inorder map).
Proof.
  intros O. unfold lookup_dos_name.
  now rewrite (rb_walk_ordered ntfs_ino ino_cmp ino_cmp_total_order ino _ O).
Qed.

Lemma lookup_dos_name_Some map ino node :
  ordered ntfs_ino ino_cmp map ->
  lookup_dos_name map ino = Some node ->
  In node (inorder map) /\ ntfs_ino node = ino.
Proof.
  intros O. rewrite lookup_dos_name_find by exact O. intros F.
  apply find_some in F as [I E]. apply Z.eqb_eq in E. apply (proj1 (ino_cmp_0 _ _)) in E.
  split; [exact I|now symmetry].
Qed.

Lemma lookup_dos_name_None map ino :
  ordered ntfs_ino ino_cmp map ->
  lookup_dos_name map ino = None ->
  forall node, In node (inorder map) -> ntfs_ino node <> ino.
Proof.
  intros O. rewrite lookup_dos_name_find by exact O. intros F node I E.
  apply find_none with (x := node) in F; [|exact I].
  apply Z.eqb_neq in F. apply F. apply ino_cmp_0. now symmetry.
Qed.

(** [insert_dos_name] on a map in the order of the inode numbers, with
    [rb_insert_color] moving nodes without changing their order from
    left to right, and a name of at most 12 characters.  The call
    returns -1 and leaves the map as it is when there is no memory or the
    inode has a name in the map already; otherwise it returns 0, the map
    stays ordered, the inode is found with the new name, and every other
    inode is found as before.  [set_dentry_dos_name] then gives a dentry
    with a Win32 name of that inode the name as its short name. *)
Theorem insert_dos_name_then_lookup
  (rb_insert_color : dos_name_node -> dos_name_map -> dos_name_map)
  (malloc_ok : bool) (map : dos_name_map) (name : list byte)
  (name_len ino : Z) :
  (forall new t, inorder (rb_insert_color new t) = inorder t) ->
  ordered ntfs_ino ino_cmp map ->
  0 <= name_len <= 12 ->
  let new_node := mk_dos_name_node (ztake (name_len * 2) name)
                                   (name_len * 2) ino in
  exists r map',
    insert_dos_name rb_insert_color malloc_ok map name name_len ino =
      Some (r, map') /\
    ordered ntfs_ino ino_cmp map' /\
    (r = -1 <-> malloc_ok = false \/ lookup_dos_name map ino <> None) /\
    (r = -1 -> map' = map) /\
    (r <> -1 ->
     r = 0 /\
     lookup_dos_name map' ino = Some new_node /\
     (forall ino', ino' <> ino ->
        lookup_dos_name map' ino' = lookup_dos_name map ino') /\
     forall other_len,
       set_dentry_dos_name true (mk_wim_dentry true ino None other_len) map' =
       (WIMLIB_ERR_SUCCESS,
        mk_wim_dentry true ino (Some (ztake (name_len * 2) name))
                      (name_len * 2),
        false)).
Proof.
  intros rotations O L new_node. unfold insert_dos_name.
  destruct malloc_ok; cbn [negb].
  2:{ exists (-1), map. split; [reflexivity|]. split; [exact O|].
      split; [split; auto|]. split; [reflexivity|]. intros C. lia. }
  unfold sizeof_ntfschar. cbv zeta.
  rewrite (BufferIOTheory.u64_small (name_len * 2)) by lia.
  destruct (Z.leb_spec (name_len * 2) 24) as [_|]; [|lia]. cbn [negb].
  fold new_node.
  pose proof (rb_link_ordered ntfs_ino ino_cmp ino_cmp_total_order new_node
                map O) as R.
  cbn [ntfs_ino new_node] in R |- *. fold new_node in R |- *.
  destruct (rb_link _ new_node map) as [linked|found].
  - destruct R as (O' & Fresh & l1 & l2 & E1 & E2).
    exists 0, (rb_insert_color new_node linked).
    assert (O'' : ordered ntfs_ino ino_cmp (rb_insert_color new_node linked))
      by (unfold ordered; rewrite rotations; exact O').
    assert (S' : StronglySorted
                   (fun a b => ino_cmp (ntfs_ino a) (ntfs_ino b) < 0)
                   (l1 ++ new_node :: l2))
      by (rewrite <- E2; exact O').
    assert (F : forall k,
              lookup_dos_name (rb_insert_color new_node linked) k =
              if ino_cmp k ino =? 0 then Some new_node
              else lookup_dos_name map k).
    { intros k. rewrite !lookup_dos_name_find by assumption.
      rewrite rotations, E2, E1.
      apply (find_with_new ntfs_ino ino_cmp ino_cmp_total_order k
               new_node l1 l2 S'). }
    split; [reflexivity|]. split; [exact O''|]. split.
    { split; [discriminate|]. intros [C|C]; [discriminate|].
      exfalso. apply C.
      destruct (lookup_dos_name map ino) as [node|] eqn:Q; [|reflexivity].
      apply lookup_dos_name_Some in Q as [I E]; [|exact O].
      now apply Fresh in I. }
    split; [discriminate|]. intros _. split; [reflexivity|].
    assert (Here : lookup_dos_name (rb_insert_color new_node linked) ino =
                   Some new_node).
    { rewrite F. now rewrite (proj2 (ino_cmp_0 ino ino) eq_refl). }
    split; [exact Here|]. split.
    + intros ino' D. rewrite F.
      destruct (Z.eqb_spec (ino_cmp ino' ino) 0) as [Q|_]; [|reflexivity].
      apply (proj1 (ino_cmp_0 _ _)) in Q. contradiction.
    + intros other_len. unfold set_dentry_dos_name.
      cbn [is_win32_name i_ino short_name_len]. rewrite Here.
      cbn [negb name_len_bytes dos_name new_node].
      rewrite PlainResourceTheory.ztake_ztake. reflexivity.
  - destruct R as [I E]. exists (-1), map.
    split; [reflexivity|]. split; [exact O|]. split.
    + split; [intros _; right|reflexivity].
      rewrite lookup_dos_name_find by exact O. intros N.
      apply find_none with (x := found) in N; [|exact I].
      apply Z.eqb_neq in N. apply N. apply ino_cmp_0. now symmetry.
    + split; [reflexivity|]. intros C. lia.
Qed.

(** Witness: the name of inode 7 put into a map that has inode 5. *)
Lemma insert_dos_name_then_lookup_witness :
  let map := rb_node rb_NULL (mk_dos_name_node [Byte.x41; Byte.x00] 2 5)
                     rb_NULL in
  exists map',
    insert_dos_name keep_shape true map [Byte.x42; Byte.x00; Byte.xff] 1 7 =
      Some (0, map') /\
    lookup_dos_name map' 7 =
      Some (mk_dos_name_node [Byte.x42; Byte.x00] 2 7) /\
    lookup_dos_name map' 5 = lookup_dos_name map 5.
Proof.
  intros map.
  destruct (insert_dos_name_then_lookup keep_shape true map
              [Byte.x42; Byte.x00; Byte.xff] 1 7)
    as (r & map' & E & _ & _ & _ & New).
  - reflexivity.
  - unfold ordered, map. cbn. repeat constructor.
  - lia.
  - assert (R : r = 0) by (vm_compute in E; congruence).
    subst r. destruct New as (_ & H & Others & _); [discriminate|].
    exists map'. split; [exact E|]. split; [exact H|].
    apply Others. discriminate.
Defined.

End DosNamesTheory.

(** ** Security descriptors for NTFS-3g *)

Module SdFixupTheory.
Import Int BufferIO SdFixup.
Import BufferIOTheory.

Lemma zlength_cons {A} (x : A) l : zlength (x :: l) = 1 + zlength l.
Proof. unfold zlength. cbn [List.length]. lia. Qed.

Lemma field_app n a b off :
  0 <= off -> off + Z.of_nat n <= zlength a ->
  field n (a ++ b) off = field n a off.
Proof.
  intros O L. unfold field. f_equal.
  rewrite !zdrop_skipn, skipn_app, firstn_app.
  unfold zlength in L. rewrite length_skipn.
  replace (n - (List.length a - Z.to_nat off))%nat with 0%nat by lia.
  cbn [firstn]. now rewrite app_nil_r.
Qed.

Lemma field_behind n a b off :
  0 <= off -> field n (a ++ b) (zlength a + off) = field n b off.
Proof.
  intros P. unfold field. f_equal. rewrite !zdrop_skipn, skipn_app.
  unfold zlength.
  assert (E : skipn (Z.to_nat (Z.of_nat (List.length a) + off)) a = [])
    by (apply skipn_all2; lia).
  rewrite E. cbn [app]. do 2 f_equal. lia.
Qed.

Lemma field_inside n d s k off :
  0 <= s -> 0 <= off -> off + Z.of_nat n <= k ->
  field n (ztake k (zdrop s d)) off = field n d (s + off).
Proof.
  intros S O L. unfold field. f_equal.
  rewrite !zdrop_skipn, ztake_firstn, skipn_firstn_comm, firstn_firstn,
    skipn_skipn.
  rewrite Nat.min_l by lia. do 2 f_equal. lia.
Qed.

Lemma field_range n d off : 0 <= field n d off < 256 ^ Z.of_nat n.
Proof.
  unfold field.
  pose proof (le_value_range (firstn n (zdrop off d))) as R.
  rewrite length_firstn in R.
  assert (256 ^ Z.of_nat (Nat.min n (List.length (zdrop off d)))
          <= 256 ^ Z.of_nat n) by (apply Z.pow_le_mono_r; lia).
  lia.
Qed.

Lemma zlength_sub {A} (d : list A) s k :
  0 <= s -> 0 <= k -> s + k <= zlength d ->
  zlength (ztake k (zdrop s d)) = k.
Proof.
  intros S K L. rewrite ztake_firstn, zdrop_skipn. unfold zlength in *.
  rewrite length_firstn, length_skipn. lia.
Qed.

Lemma zlength_set_field n desc off v :
  0 <= off -> off + Z.of_nat n <= zlength desc ->
  zlength (set_field n desc off v) = zlength desc.
Proof.
  intros O L. unfold set_field.
  rewrite !zlength_app, zlength_ztake, zdrop_skipn.
  unfold zlength in *. rewrite le_bytes_length, length_skipn. lia.
Qed.

(** The parts of [sid_valid]. *)
Lemma sid_valid_true desc size off :
  sid_valid desc size off = true ->
  off mod 4 = 0 /\ 20 <= off /\ off <= size - 12 /\
  off + sid_size desc off <= size.
Proof.
  unfold sid_valid, sizeof_SID, sizeof_SECURITY_DESCRIPTOR_RELATIVE.
  intros V. repeat (apply andb_true_iff in V as [V ?]).
  repeat match goal with
         | H : (_ <=? _) = true |- _ => apply Z.leb_le in H
         | H : (_ =? _) = true |- _ => apply Z.eqb_eq in H
         end.
  repeat split; assumption.
Qed.

Lemma sid_size_range desc off : 8 <= sid_size desc off < 8 + 4 * 256.
Proof.
  unfold sid_size, offsetof_sub_authority.
  pose proof (field_range 1 desc (off + 1)) as R.
  change (256 ^ Z.of_nat 1) with 256 in R. lia.
Qed.

(** When [sd_fixup] returns a new descriptor for a descriptor of [size]
    bytes: it is the old one with the SID of the owner (of the group when
    the owner's cannot be moved) copied behind its end, where the offset
    of that SID now points; the rest of the header, the ACLs and every
    other byte are as they were, and the copy is the SID it was.  With a
    libntfs-3g that has [NTFS_MNT_RDONLY] the new descriptor is not
    changed by [sd_fixup] any more. *)
Theorem sd_fixup_moves_a_sid_behind_the_end
  (HAVE_NTFS_MNT_RDONLY malloc_ok : bool) (desc : list byte) (size : Z)
  (desc_new : list byte) (size_new : Z) :
  size = zlength desc -> size < 2 ^ 32 ->
  sd_fixup HAVE_NTFS_MNT_RDONLY malloc_ok desc size =
    new_descriptor desc_new size_new ->
  let moved :=
    if sid_valid desc size (field 4 desc owner_offset_at)
    then owner_offset_at else group_offset_at in
  let sid := field 4 desc moved in
  let sid_len := sid_size desc sid in
  20 <= sid /\ sid + sid_len <= size /\
  size_new = size + sid_len /\ zlength desc_new = size_new /\
  ztake moved desc_new = ztake moved desc /\
  field 4 desc_new moved = size /\
  ztake (size - (moved + 4)) (zdrop (moved + 4) desc_new) =
    zdrop (moved + 4) desc /\
  zdrop size desc_new = ztake sid_len (zdrop sid desc) /\
  sid_size desc_new size = sid_len /\
  (HAVE_NTFS_MNT_RDONLY = true ->
   forall malloc_ok',
     sd_fixup true malloc_ok' desc_new size_new = same_descriptor).
Proof.
  intros Z0 U F moved sid sid_len.
  unfold sd_fixup, sizeof_SECURITY_DESCRIPTOR_RELATIVE, sizeof_ACL in F.
  destruct (Z.ltb_spec size 20) as [|L]; [discriminate|].
  set (control := field 2 desc control_at) in *.
  set (dacl := if negb (Z.land control wimlib_SE_DACL_PRESENT =? 0)
               then field 4 desc dacl_offset_at else 0) in *.
  set (sacl := if negb (Z.land control wimlib_SE_SACL_PRESENT =? 0)
               then field 4 desc sacl_offset_at else 0) in *.
  destruct (negb (negb HAVE_NTFS_MNT_RDONLY &&
                  (negb (sacl =? 0) && (sacl =? size - 8))
                  || negb (dacl =? 0) && (dacl =? size - 8))) eqn:Affected;
    [discriminate|].
  apply negb_false_iff in Affected.
  destruct (sid_valid desc size (field 4 desc owner_offset_at)
            || sid_valid desc size (field 4 desc group_offset_at)) eqn:Valid;
    [|discriminate].
  cbn [negb] in F. destruct malloc_ok; [|discriminate]. cbn [negb] in F.
  assert (V : sid_valid desc size sid = true /\
              (moved = owner_offset_at \/ moved = group_offset_at)).
  { subst sid moved.
    destruct (sid_valid desc size (field 4 desc owner_offset_at)) eqn:Vo.
    - split; [exact Vo|now left].
    - cbn [orb] in Valid. split; [exact Valid|now right]. }
  destruct V as [V M].
  assert (M' : moved = 4 \/ moved = 8) by exact M.
  apply sid_valid_true in V as (_ & V20 & V12 & Vend). fold sid_len in Vend.
  pose proof (sid_size_range desc sid) as K. fold sid_len in K.
  assert (T : ztake size desc = desc) by (apply ztake_all; lia).
  rewrite T in F. rewrite u32_small in F by lia.
  assert (F' : desc_new =
               set_field 4 desc moved size ++ ztake sid_len (zdrop sid desc)
               /\ size_new = size + sid_len).
  { subst sid_len sid moved.
    destruct (sid_valid desc size (field 4 desc owner_offset_at));
      injection F as <- <-; split; reflexivity. }
  clear F. destruct F' as [-> ->].
  assert (Lp : zlength (set_field 4 desc moved size) = size).
  { rewrite zlength_set_field; change (Z.of_nat 4) with 4; lia. }
  assert (Ls : zlength (ztake sid_len (zdrop sid desc)) = sid_len)
    by (apply zlength_sub; lia).
  split; [exact V20|]. split; [exact Vend|]. split; [reflexivity|].
  split; [rewrite zlength_app; lia|].
  assert (Header :
            ztake moved (set_field 4 desc moved size) = ztake moved desc /\
            field 4 (set_field 4 desc moved size) moved = size /\
            ztake (size - (moved + 4))
                  (zdrop (moved + 4) (set_field 4 desc moved size)) =
              zdrop (moved + 4) desc /\
            field 2 (set_field 4 desc moved size) control_at = control /\
            field 4 (set_field 4 desc moved size) dacl_offset_at =
              field 4 desc dacl_offset_at).
  { unfold set_field. change (Z.of_nat 4) with 4.
    assert (Lt : zlength (ztake moved desc) = moved).
    { rewrite zlength_ztake. lia. }
    split.
    { rewrite <- Lt at 1. apply ztake_app_exact. }
    split.
    { pose proof (field_behind 4 (ztake moved desc)
                    (le_bytes 4 size ++ zdrop (moved + 4) desc) 0
                    ltac:(lia)) as X.
      rewrite Lt, Z.add_0_r in X. rewrite X.
      rewrite field_app
        by (unfold zlength; rewrite ?le_bytes_length;
            change (Z.of_nat 4) with 4; lia).
      unfold field. rewrite zdrop_skipn. cbn [Z.to_nat skipn].
      rewrite <- (le_bytes_length 4 size) at 1. rewrite firstn_all.
      rewrite le_value_le_bytes. change (256 ^ Z.of_nat 4) with (2 ^ 32).
      apply Z.mod_small. lia. }
    split.
    { rewrite app_assoc.
      assert (Lh : zlength (ztake moved desc ++ le_bytes 4 size) = moved + 4).
      { rewrite zlength_app, Lt. unfold zlength. now rewrite le_bytes_length. }
      rewrite <- Lh at 2. rewrite zdrop_app_exact.
      apply ztake_all. rewrite zdrop_skipn. unfold zlength in *.
      rewrite length_skipn. lia. }
    subst control. unfold field, control_at, dacl_offset_at,
      owner_offset_at, group_offset_at in *.
    do 20 (destruct desc as [|? desc];
           [exfalso; unfold zlength in Z0; cbn in Z0; lia|]).
    clear M'. destruct M as [-> | ->]; split; reflexivity. }
  destruct Header as (H1 & H2 & H3 & H4 & H5).
  split.
  { rewrite <- H1. rewrite ztake_firstn, firstn_app, <- ztake_firstn.
    unfold zlength in Lp.
    replace (Z.to_nat moved - List.length (set_field 4 desc moved size))%nat
      with 0%nat.
    - cbn [firstn]. now rewrite app_nil_r.
    - lia. }
  split.
  { rewrite field_app; [exact H2| |rewrite Lp];
      change (Z.of_nat 4) with 4; lia. }
  split.
  { assert (X : zdrop (moved + 4)
                   (set_field 4 desc moved size ++
                    ztake sid_len (zdrop sid desc)) =
               zdrop (moved + 4) (set_field 4 desc moved size) ++
               ztake sid_len (zdrop sid desc)).
    { rewrite !zdrop_skipn, skipn_app. f_equal. unfold zlength in Lp.
      replace (Z.to_nat (moved + 4) -
               List.length (set_field 4 desc moved size))%nat
        with 0%nat by lia.
      reflexivity. }
    assert (Lx : zlength (zdrop (moved + 4) (set_field 4 desc moved size)) =
                 size - (moved + 4)).
    { rewrite zdrop_skipn. unfold zlength in *. rewrite length_skipn. lia. }
    rewrite X, <- Lx, ztake_app_exact, <- H3.
    symmetry. apply ztake_all. lia. }
  split.
  { rewrite <- Lp at 1. apply zdrop_app_exact. }
  assert (Sid : sid_size (set_field 4 desc moved size ++
                          ztake sid_len (zdrop sid desc)) size = sid_len).
  { unfold sid_size at 1.
    pose proof (field_behind 1 (set_field 4 desc moved size)
                  (ztake sid_len (zdrop sid desc)) 1 ltac:(lia)) as X.
    rewrite Lp in X. rewrite X.
    rewrite field_inside by (change (Z.of_nat 1) with 1; lia).
    reflexivity. }
  split; [exact Sid|].
  intros -> malloc_ok'. cbn [negb andb orb] in Affected.
  apply andb_true_iff in Affected as [D0 D].
  apply Z.eqb_eq in D. apply negb_true_iff, Z.eqb_neq in D0.
  unfold sd_fixup, sizeof_SECURITY_DESCRIPTOR_RELATIVE, sizeof_ACL.
  destruct (Z.ltb_spec (size + sid_len) 20) as [|_]; [reflexivity|].
  cbn [negb andb orb].
  rewrite (field_app 2) by (unfold control_at; change (Z.of_nat 2) with 2; lia).
  rewrite (field_app 4 _ _ dacl_offset_at)
    by (unfold dacl_offset_at; change (Z.of_nat 4) with 4; lia).
  rewrite H4, H5. fold dacl.
  destruct (Z.eqb_spec dacl (size + sid_len - 8)) as [Q|_]; [lia|].
  now rewrite andb_false_r.
Qed.

(** Witness: a descriptor of 40 bytes that ends with an empty DACL. *)
Lemma sd_fixup_moves_a_sid_behind_the_end_witness :
  sd_fixup true true ends_with_empty_dacl 40 =
    new_descriptor
      (set_field 4 ends_with_empty_dacl 4 40 ++
       ztake 12 (zdrop 20 ends_with_empty_dacl)) 52 /\
  sd_fixup true true
    (set_field 4 ends_with_empty_dacl 4 40 ++
     ztake 12 (zdrop 20 ends_with_empty_dacl)) 52 = same_descriptor.
Proof.
  assert (E : sd_fixup true true ends_with_empty_dacl 40 =
              new_descriptor
                (set_field 4 ends_with_empty_dacl 4 40 ++
                 ztake 12 (zdrop 20 ends_with_empty_dacl)) 52)
    by (vm_compute; reflexivity).
  split; [exact E|].
  destruct (sd_fixup_moves_a_sid_behind_the_end true true
              ends_with_empty_dacl 40 _ _ eq_refl ltac:(lia) E)
    as (_ & _ & _ & _ & _ & _ & _ & _ & _ & Again).
  now apply Again.
Defined.

End SdFixupTheory.

(** ** Deleting images *)

Module ImagesTheory.
Import Int BufferIO BufferIOTheory Images.

Section Arrays.

Context {A : Type}.

Lemma nth_error_ztake (l : list A) n j :
  nth_error (ztake n l) j =
  if (Z.of_nat j <? n) then nth_error l j else None.
Proof.
  rewrite ztake_firstn, nth_error_firstn.
  destruct (Nat.ltb_spec j (Z.to_nat n)), (Z.ltb_spec (Z.of_nat j) n);
    try reflexivity; lia.
Qed.

Lemma nth_error_zdrop (l : list A) n j :
  0 <= n -> nth_error (zdrop n l) j = nth_error l (Z.to_nat n + j).
Proof. intros N. now rewrite zdrop_skipn, nth_error_skipn. Qed.

Lemma array_at_nth (a : list A) i :
  0 <= i -> array_at a i = nth_error a (Z.to_nat i).
Proof.
  intros P. unfold array_at. destruct (Z.ltb_spec i 0); [lia|reflexivity].
Qed.

(** A store in an array changes the element stored to and no other. *)
Lemma array_set_nth (a : list A) i x :
  0 <= i < zlength a ->
  exists a',
    array_set a i x = Some a' /\ List.length a' = List.length a /\
    forall j, nth_error a' j =
              if (j =? Z.to_nat i)%nat then Some x else nth_error a j.
Proof.
  intros R. unfold array_set.
  destruct (Z.ltb_spec i 0); [lia|].
  destruct (Z.leb_spec (zlength a) i); [lia|]. cbn [orb].
  eexists. split; [reflexivity|].
  assert (Lt : List.length (ztake i a) = Z.to_nat i).
  { rewrite ztake_firstn, length_firstn. unfold zlength in *. lia. }
  split.
  - rewrite length_app. cbn [List.length].
    rewrite Lt, zdrop_skipn, length_skipn. unfold zlength in *. lia.
  - intros j. rewrite nth_error_app, Lt.
    destruct (Nat.ltb_spec j (Z.to_nat i)) as [L|L].
    + rewrite nth_error_ztake.
      destruct (Nat.eqb_spec j (Z.to_nat i)); [lia|].
      destruct (Z.ltb_spec (Z.of_nat j) i); [reflexivity|lia].
    + destruct (Nat.eqb_spec j (Z.to_nat i)) as [->|N].
      * now rewrite Nat.sub_diag.
      * destruct (j - Z.to_nat i)%nat as [|k] eqn:D; [lia|].
        cbn [nth_error]. rewrite nth_error_zdrop by lia. f_equal. lia.
Qed.

(** The loop moves the [n] elements behind the slot [i] one place down
    and leaves the others where they are. *)
Lemma close_the_slot_nth : forall n i (md : list A),
  0 <= i -> i + Z.of_nat n < zlength md ->
  exists md',
    close_the_slot A n i md = Some md' /\
    List.length md' = List.length md /\
    forall j, nth_error md' j =
              if (Z.of_nat j <? i) then nth_error md j
              else if (Z.of_nat j <? i + Z.of_nat n) then nth_error md (S j)
              else nth_error md j.
Proof.
  induction n as [|n IH]; intros i md P B; cbn [close_the_slot].
  - exists md. split; [reflexivity|]. split; [reflexivity|].
    intros j. destruct (Z.ltb_spec (Z.of_nat j) i); [reflexivity|].
    destruct (Z.ltb_spec (Z.of_nat j) (i + Z.of_nat 0)); [lia|reflexivity].
  - rewrite array_at_nth by lia.
    destruct (nth_error md (Z.to_nat (i + 1))) as [next|] eqn:N.
    2:{ apply nth_error_None in N. unfold zlength in B. lia. }
    destruct (array_set_nth md i next ltac:(lia)) as (md1 & E1 & L1 & Set1).
    rewrite E1.
    destruct (IH (i + 1) md1 ltac:(lia)) as (md' & E & L & Set').
    { unfold zlength in *. rewrite L1. lia. }
    exists md'. split; [exact E|]. split; [congruence|].
    intros j. rewrite Set', !Set1.
    destruct (Z.ltb_spec (Z.of_nat j) i) as [C|C].
    + destruct (Z.ltb_spec (Z.of_nat j) (i + 1)); [|lia].
      destruct (Nat.eqb_spec j (Z.to_nat i)); [lia|reflexivity].
    + destruct (Z.ltb_spec (Z.of_nat j) (i + 1)) as [C1|C1].
      * destruct (Nat.eqb_spec j (Z.to_nat i)) as [->|]; [|lia].
        destruct (Z.ltb_spec (Z.of_nat (Z.to_nat i)) (i + Z.of_nat (S n)));
          [|lia].
        rewrite <- N. f_equal. lia.
      * destruct (Z.ltb_spec (Z.of_nat j) (i + 1 + Z.of_nat n)),
                 (Z.ltb_spec (Z.of_nat j) (i + Z.of_nat (S n))); try lia.
        -- destruct (Nat.eqb_spec (S j) (Z.to_nat i)); [lia|reflexivity].
        -- destruct (Nat.eqb_spec j (Z.to_nat i)); [lia|reflexivity].
Qed.

End Arrays.

Section Delete.

Variable A : Type.
Variable wimlib_select_image : WIMStruct A -> Z -> Z * WIMStruct A.
Variable ENABLE_SECURITY_DATA : bool.

Local Abbreviation delete_one :=
  (delete_one_image A wimlib_select_image ENABLE_SECURITY_DATA).

(** The deletion of one image that was selected. *)
Lemma delete_one_image_selected w image w1 :
  wimlib_select_image w image = (0, w1) ->
  current_image w1 = image ->
  1 <= image <= image_count w1 ->
  image_count w1 <= zlength (image_metadata w1) ->
  image_count w1 < 2 ^ 32 -> boot_idx w1 < 2 ^ 32 ->
  exists w' imd,
    delete_one w image = Some (0, w') /\
    array_at (image_metadata w1) (image - 1) = Some imd /\
    image_count w' = image_count w1 - 1 /\
    (forall k, 1 <= k <= image_count w' ->
       array_at (image_metadata w') (k - 1) =
       array_at (image_metadata w1) (if k <? image then k - 1 else k)) /\
    (image_count w' = 0 -> image_metadata w' = []) /\
    (0 < image_count w' ->
     List.length (image_metadata w') = List.length (image_metadata w1)) /\
    boot_idx w' =
      (if boot_idx w1 =? image then 0
       else if image <? boot_idx w1 then boot_idx w1 - 1
       else boot_idx w1) /\
    current_image w' = WIM_NO_IMAGE /\
    events w' =
      events w1 ++ [call_free_dentry_tree imd] ++
      (if ENABLE_SECURITY_DATA then [call_free_security_data imd] else []) ++
      [call_lookup_table_remove imd; call_xml_delete_image image].
Proof.
  intros Sel Cur R B Uc Ub.
  unfold delete_one_image. rewrite Sel. cbn [Z.eqb negb].
  rewrite (u32_small (image_count w1 - 1)), (u32_small (image - 1)),
    (u32_small image) by lia.
  rewrite Cur, array_at_nth by lia.
  destruct (nth_error (image_metadata w1) (Z.to_nat (image - 1)))
    as [imd|] eqn:N.
  2:{ apply nth_error_None in N. unfold zlength in B. lia. }
  destruct (close_the_slot_nth
              (Z.to_nat (image_count w1 - 1 - (image - 1))) (image - 1)
              (image_metadata w1) ltac:(lia) ltac:(lia))
    as (md & E & L & Nth).
  rewrite E. eexists _, imd. split; [reflexivity|].
  cbn [image_count boot_idx image_metadata current_image events].
  split; [reflexivity|]. split; [reflexivity|]. split.
  { intros k K.
    destruct (Z.eqb_spec (image_count w1 - 1) 0) as [|_]; [lia|].
    rewrite !array_at_nth by (destruct (k <? image); lia).
    rewrite Nth.
    destruct (Z.ltb_spec (Z.of_nat (Z.to_nat (k - 1))) (image - 1)),
             (Z.ltb_spec k image); try lia.
    - reflexivity.
    - destruct (Z.ltb_spec (Z.of_nat (Z.to_nat (k - 1)))
                  (image - 1 +
                   Z.of_nat (Z.to_nat (image_count w1 - 1 - (image - 1)))));
        [|lia].
      f_equal. lia. }
  split.
  { intros Z0. now rewrite Z0. }
  split.
  { intros P. destruct (Z.eqb_spec (image_count w1 - 1) 0); [lia|exact L]. }
  split.
  { destruct (Z.eqb_spec (boot_idx w1) image); [reflexivity|].
    destruct (Z.ltb_spec image (boot_idx w1)); [|reflexivity].
    apply u32_small. lia. }
  split; [reflexivity|].
  rewrite <- !app_assoc. reflexivity.
Qed.

Lemma delete_first_images_empties (n : nat) :
  selects_images A wimlib_select_image ->
  forall w,
  Z.of_nat n = image_count w ->
  0 <= boot_idx w <= image_count w ->
  image_count w <= zlength (image_metadata w) ->
  image_count w < 2 ^ 32 ->
  exists r w',
    delete_first_images A wimlib_select_image ENABLE_SECURITY_DATA n w =
      Some (r, w') /\
    image_count w' <= image_count w /\
    (r = 0 ->
     image_count w' = 0 /\ boot_idx w' = 0 /\
     (0 < image_count w ->
      image_metadata w' = [] /\ current_image w' = WIM_NO_IMAGE)).
Proof.
  intros Hsel. induction n as [|n IH]; intros w N Rb B Uc.
  - exists 0, w. split; [reflexivity|]. split; [lia|]. intros _. lia.
  - cbn [delete_first_images].
    destruct (wimlib_select_image w 1) as [r w1] eqn:Sel.
    destruct (Hsel _ _ _ _ Sel) as (C1 & B1 & L1 & Ok).
    destruct (Z.eqb_spec r 0) as [R0|R0].
    + subst r. destruct (Ok eq_refl) as [Cur _].
      destruct (delete_one_image_selected w 1 w1 Sel Cur ltac:(lia)
                  ltac:(unfold zlength in *; lia) ltac:(lia) ltac:(lia))
        as (w2 & imd & E & _ & C2 & _ & Z0 & L2 & Boot & Cur2 & _).
      rewrite E. cbn [Z.eqb negb].
      assert (Rb2 : 0 <= boot_idx w2 <= image_count w2).
      { rewrite Boot.
        destruct (Z.eqb_spec (boot_idx w1) 1); [lia|].
        destruct (Z.ltb_spec 1 (boot_idx w1)); lia. }
      assert (B2 : image_count w2 <= zlength (image_metadata w2)).
      { destruct (Z.eq_dec (image_count w2) 0) as [Q|Q].
        - rewrite Q. unfold zlength. lia.
        - unfold zlength in *. rewrite L2 by lia. lia. }
      destruct (IH w2 ltac:(lia) Rb2 B2 ltac:(lia))
        as (r & w' & E' & Le & Fin).
      exists r, w'. split; [exact E'|]. split; [lia|].
      intros R. destruct (Fin R) as (F1 & F2 & F3).
      split; [exact F1|]. split; [exact F2|]. intros _.
      destruct n as [|n].
      * cbn in E'. injection E' as _ <-.
        split; [apply Z0; lia|exact Cur2].
      * apply F3. lia.
    + unfold delete_one_image. rewrite Sel.
      destruct (Z.eqb_spec r 0) as [|_]; [contradiction|]. cbn [negb].
      destruct (Z.eqb_spec r 0) as [|_]; [contradiction|]. cbn [negb].
      exists r, w1. split; [reflexivity|]. split; [lia|].
      intros R. contradiction.
Qed.

End Delete.

Section DeleteAll.

Variable A : Type.
Variable wimlib_select_image : WIMStruct A -> Z -> Z * WIMStruct A.
Variable ENABLE_SECURITY_DATA : bool.

(** The loop goes on as long as the deletions return 0 and ends with the
    first one that does not. *)
Lemma delete_first_images_stops (n : nat) :
  selects_images A wimlib_select_image ->
  forall w,
  Z.of_nat n = image_count w ->
  0 <= boot_idx w <= image_count w ->
  image_count w <= zlength (image_metadata w) ->
  image_count w < 2 ^ 32 ->
  exists r w' k wk,
    delete_first_images A wimlib_select_image ENABLE_SECURITY_DATA n w =
      Some (r, w') /\
    deleted_first A wimlib_select_image ENABLE_SECURITY_DATA k w wk /\
    image_count wk = image_count w - Z.of_nat k /\
    (r = 0 -> k = n /\ w' = wk) /\
    (r <> 0 -> (k < n)%nat /\ wimlib_select_image wk 1 = (r, w')).
Proof.
  intros Hsel. induction n as [|n IH]; intros w N Rb B Uc.
  - exists 0, w, O, w. split; [reflexivity|]. split; [constructor|].
    split; [cbn; lia|]. split; [auto|]. intros R. contradiction.
  - cbn [delete_first_images].
    destruct (wimlib_select_image w 1) as [r w1] eqn:Sel.
    destruct (Hsel _ _ _ _ Sel) as (C1 & B1 & L1 & Ok).
    destruct (Z.eqb_spec r 0) as [R0|R0].
    + subst r. destruct (Ok eq_refl) as [Cur _].
      destruct (delete_one_image_selected A wimlib_select_image
                  ENABLE_SECURITY_DATA w 1 w1 Sel Cur ltac:(lia)
                  ltac:(unfold zlength in *; lia) ltac:(lia) ltac:(lia))
        as (w2 & imd & E & _ & C2 & _ & Z0 & L2 & Boot & Cur2 & _).
      rewrite E. cbn [Z.eqb negb].
      assert (Rb2 : 0 <= boot_idx w2 <= image_count w2).
      { rewrite Boot.
        destruct (Z.eqb_spec (boot_idx w1) 1); [lia|].
        destruct (Z.ltb_spec 1 (boot_idx w1)); lia. }
      assert (B2 : image_count w2 <= zlength (image_metadata w2)).
      { destruct (Z.eq_dec (image_count w2) 0) as [Q|Q].
        - rewrite Q. unfold zlength. lia.
        - unfold zlength in *. rewrite L2 by lia. lia. }
      destruct (IH w2 ltac:(lia) Rb2 B2 ltac:(lia))
        as (r & w' & k & wk & E' & D & Ck & Fin & Stop).
      exists r, w', (S k), wk. split; [exact E'|].
      split; [econstructor; [exact E|exact D]|].
      split; [lia|]. split.
      * intros R. destruct (Fin R) as [-> ->]. auto.
      * intros R. destruct (Stop R) as [Lt S]. split; [lia|exact S].
    + unfold delete_one_image. rewrite Sel.
      destruct (Z.eqb_spec r 0) as [|_]; [contradiction|]. cbn [negb].
      destruct (Z.eqb_spec r 0) as [|_]; [contradiction|]. cbn [negb].
      exists r, w1, O, w. split; [reflexivity|]. split; [constructor|].
      split; [cbn; lia|]. split; [intros R; contradiction|].
      intros _. split; [lia|exact Sel].
Qed.

End DeleteAll.

(** [wimlib_delete_image] for one image, once [wimlib_select_image] has
    selected it (so that it is one of the images of the archive): the
    function returns 0; the archive has one image less, the images before
    the deleted one keep their indices and the images behind it move one
    index down; the dentry tree freed and the lookup table entry removed
    are those of the deleted image, and the image is deleted from the XML
    data under the index it had.  The boot index becomes 0 when the boot
    image is deleted and follows the boot image otherwise, so that it
    stays an index of the archive or 0; no image is selected afterwards.
    The image count and the boot index are those of a header, below
    2^32. *)
Theorem wimlib_delete_image_closes_the_slot
  (A : Type) (wimlib_select_image : WIMStruct A -> Z -> Z * WIMStruct A)
  (ENABLE_SECURITY_DATA : bool) (w w1 : WIMStruct A) (image : Z) :
  wimlib_select_image w image = (0, w1) ->
  current_image w1 = image ->
  1 <= image <= image_count w1 ->
  image_count w1 <= zlength (image_metadata w1) ->
  image_count w1 < 2 ^ 32 -> boot_idx w1 < 2 ^ 32 ->
  exists w' imd,
    wimlib_delete_image A wimlib_select_image ENABLE_SECURITY_DATA w image =
      Some (0, w') /\
    array_at (image_metadata w1) (image - 1) = Some imd /\
    image_count w' = image_count w1 - 1 /\
    (forall k, 1 <= k <= image_count w' ->
       array_at (image_metadata w') (k - 1) =
       array_at (image_metadata w1) (if k <? image then k - 1 else k)) /\
    (image_count w' = 0 -> image_metadata w' = []) /\
    boot_idx w' =
      (if boot_idx w1 =? image then 0
       else if image <? boot_idx w1 then boot_idx w1 - 1
       else boot_idx w1) /\
    (0 <= boot_idx w1 <= image_count w1 ->
     0 <= boot_idx w' <= image_count w' /\
     (boot_idx w' <> 0 ->
      array_at (image_metadata w') (boot_idx w' - 1) =
      array_at (image_metadata w1) (boot_idx w1 - 1))) /\
    current_image w' = WIM_NO_IMAGE /\
    events w' =
      events w1 ++ [call_free_dentry_tree imd] ++
      (if ENABLE_SECURITY_DATA then [call_free_security_data imd] else []) ++
      [call_lookup_table_remove imd; call_xml_delete_image image].
Proof.
  intros Sel Cur R B Uc Ub.
  destruct (delete_one_image_selected A wimlib_select_image
              ENABLE_SECURITY_DATA w image w1 Sel Cur R B Uc Ub)
    as (w' & imd & E & I & C & Nth & Z0 & _ & Boot & Cur' & Ev).
  exists w', imd. unfold wimlib_delete_image, WIM_ALL_IMAGES.
  destruct (Z.eqb_spec image (-1)) as [|_]; [lia|].
  split; [exact E|]. split; [exact I|]. split; [exact C|].
  split; [exact Nth|]. split; [exact Z0|]. split; [exact Boot|].
  split; [|split; [exact Cur'|exact Ev]].
  intros Rb. rewrite Boot.
  destruct (Z.eqb_spec (boot_idx w1) image) as [Q|Q]; [split; [lia|easy]|].
  destruct (Z.ltb_spec image (boot_idx w1)) as [G|G].
  - split; [lia|]. intros _. rewrite Nth by lia.
    destruct (Z.ltb_spec (boot_idx w1 - 1) image); [lia|].
    reflexivity.
  - split; [lia|]. intros NZ. rewrite Nth by lia.
    destruct (Z.ltb_spec (boot_idx w1) image); [reflexivity|lia].
Qed.

(** Witness: the second of three images, the boot image being the
    third. *)
Lemma wimlib_delete_image_closes_the_slot_witness :
  let w := mk_WIMStruct string 3 3
             ["first"%string; "second"%string; "third"%string]
             WIM_NO_IMAGE [] in
  exists w',
    wimlib_delete_image string select_existing false w 2 = Some (0, w') /\
    image_count w' = 2 /\ boot_idx w' = 2 /\
    array_at (image_metadata w') 1 = Some "third"%string.
Proof.
  intros w.
  destruct (wimlib_delete_image_closes_the_slot string select_existing false
              w (mk_WIMStruct string 3 3
                   ["first"%string; "second"%string; "third"%string] 2 [])
              2)
    as (w' & imd & E & _ & C & Nth & _ & Boot & _).
  - reflexivity.
  - reflexivity.
  - cbn. lia.
  - vm_compute. discriminate.
  - reflexivity.
  - reflexivity.
  - exists w'. split; [exact E|]. split; [exact C|]. split; [exact Boot|].
    change 1 with (2 - 1) at 1. rewrite (Nth 2); [reflexivity|].
    rewrite C. cbn. lia.
Defined.

(** [wimlib_delete_image] with [WIM_ALL_IMAGES], for an archive whose
    boot index is 0 or an index of it: the function deletes the first
    image as many times as the archive has images, and stops at the first
    deletion that fails, with its return code.  That is, some number of
    deletions of the first image return 0, one after the other.  When the
    function returns 0 these are as many as the archive had images: it
    has no image left, its boot index is 0, and (if it had an image) the
    array of the image metadata is freed and no image is selected.  When
    the function returns another value, they are fewer, the value is the
    one [wimlib_select_image] returns for the first image of the archive
    they leave, and the archive is as this call leaves it: nothing is
    deleted after it.  An archive without images is left as it is.  The
    image count is one that an [int] holds, below 2^31. *)
Theorem wimlib_delete_image_all_leaves_no_image
  (A : Type) (wimlib_select_image : WIMStruct A -> Z -> Z * WIMStruct A)
  (ENABLE_SECURITY_DATA : bool) (w : WIMStruct A) :
  selects_images A wimlib_select_image ->
  0 <= boot_idx w <= image_count w ->
  image_count w <= zlength (image_metadata w) ->
  image_count w < 2 ^ 31 ->
  exists r w' k wk,
    wimlib_delete_image A wimlib_select_image ENABLE_SECURITY_DATA w
      WIM_ALL_IMAGES = Some (r, w') /\
    deleted_first A wimlib_select_image ENABLE_SECURITY_DATA k w wk /\
    image_count wk = image_count w - Z.of_nat k /\
    image_count w' <= image_count w /\
    (r = 0 ->
     Z.of_nat k = image_count w /\ w' = wk /\
     image_count w' = 0 /\ boot_idx w' = 0 /\
     (0 < image_count w ->
      image_metadata w' = [] /\ current_image w' = WIM_NO_IMAGE)) /\
    (r <> 0 ->
     Z.of_nat k < image_count w /\
     wimlib_select_image wk 1 = (r, w') /\
     image_count w' = image_count wk /\ boot_idx w' = boot_idx wk) /\
    (image_count w = 0 -> r = 0 /\ w' = w).
Proof.
  intros Hsel Rb B Uc. unfold wimlib_delete_image, int_of_u32.
  rewrite Z.eqb_refl.
  destruct (Z.ltb_spec (image_count w) (2 ^ 31)) as [_|]; [|lia].
  destruct (delete_first_images_empties A wimlib_select_image
              ENABLE_SECURITY_DATA (Z.to_nat (image_count w)) Hsel w
              ltac:(lia) Rb B ltac:(lia)) as (r & w' & E & Le & Fin).
  destruct (delete_first_images_stops A wimlib_select_image
              ENABLE_SECURITY_DATA (Z.to_nat (image_count w)) Hsel w
              ltac:(lia) Rb B ltac:(lia))
    as (r' & w'' & k & wk & E' & D & Ck & Done & Stop).
  rewrite E in E'. injection E' as <- <-.
  exists r, w', k, wk. split; [exact E|]. split; [exact D|].
  split; [exact Ck|]. split; [exact Le|]. split; [|split].
  - intros R. destruct (Done R) as [K W]. destruct (Fin R) as (F1 & F2 & F3).
    split; [lia|]. split; [exact W|]. split; [exact F1|].
    split; [exact F2|exact F3].
  - intros R. destruct (Stop R) as [K S].
    destruct (Hsel _ _ _ _ S) as (C & Bo & _).
    split; [lia|]. split; [exact S|]. split; [exact C|exact Bo].
  - intros Z0. rewrite Z0 in E. cbn in E. injection E as <- <-. now split.
Qed.

Lemma select_existing_selects_images :
  selects_images string select_existing.
Proof.
  intros w i r w1. unfold select_existing.
  destruct (Z.leb_spec 1 i), (Z.leb_spec i (image_count w));
    cbn [andb]; intros [= <- <-]; cbn; repeat split; try lia;
    discriminate.
Qed.

(** Witness: the archive of three images. *)
Lemma wimlib_delete_image_all_leaves_no_image_witness :
  exists w',
    wimlib_delete_image string select_existing true three_images
      WIM_ALL_IMAGES = Some (0, w') /\
    image_count w' = 0 /\ boot_idx w' = 0 /\ image_metadata w' = [].
Proof.
  destruct (wimlib_delete_image_all_leaves_no_image string select_existing
              true three_images select_existing_selects_images)
    as (r & w' & k & wk & E & _ & _ & _ & Fin & _).
  - cbn. lia.
  - vm_compute. discriminate.
  - reflexivity.
  - assert (R : r = 0).
    { vm_compute in E. injection E as <- _. reflexivity. }
    subst r. exists w'. split; [exact E|].
    destruct (Fin eq_refl) as (_ & _ & F1 & F2 & F3).
    split; [exact F1|]. split; [exact F2|]. apply F3. cbn. lia.
Defined.

End ImagesTheory.

(** ** Reading a well-formed compressed resource *)

Module ResourceLayoutTheory.
Import Int BufferIO Stdio LookupTable Resource ResourceLayout.
Import BufferIOTheory ResourceTheory NtfsCaptureTheory PlainResourceTheory.

Lemma zdrop_zdrop {A} (l : list A) a b :
  0 <= a -> 0 <= b -> zdrop a (zdrop b l) = zdrop (b + a) l.
Proof.
  intros Ha Hb. rewrite !zdrop_skipn, skipn_skipn. f_equal. lia.
Qed.

(** A window of a part of a list is a window of the list. *)
Lemma window_of_part {A} (before part behind : list A) s p :
  0 <= s -> 0 <= p -> s + p <= zlength part ->
  ztake p (zdrop (zlength before + s) (before ++ part ++ behind)) =
  ztake p (zdrop s part).
Proof.
  intros Hs Hp Hl.
  rewrite <- zdrop_zdrop by (try apply zlength_nonneg; lia).
  rewrite zdrop_app_exact. rewrite !ztake_firstn, !zdrop_skipn.
  rewrite skipn_app, firstn_app. rewrite length_skipn.
  unfold zlength in Hl.
  replace (Z.to_nat p - (List.length part - Z.to_nat s))%nat with 0%nat
    by lia.
  cbn [firstn]. now rewrite app_nil_r.
Qed.

Lemma window_of_window {A} (l : list A) a n s p :
  0 <= a -> 0 <= s -> 0 <= p -> s + p <= n ->
  ztake p (zdrop s (ztake n (zdrop a l))) = ztake p (zdrop (a + s) l).
Proof.
  intros Ha Hs Hp Hn.
  rewrite <- (zdrop_zdrop l s a) by lia.
  rewrite !ztake_firstn, !zdrop_skipn.
  rewrite firstn_skipn_comm, firstn_firstn.
  rewrite Nat.min_l by lia. now rewrite <- firstn_skipn_comm.
Qed.

(** The entries of a table. *)
Lemma decode_entries_table (w : nat) (f : nat -> Z) (ks : list nat) rest :
  (forall k, In k ks -> 0 <= f k < 256 ^ Z.of_nat w) ->
  decode_entries w (List.length ks)
    (concat (map (fun k => le_bytes w (f k)) ks) ++ rest) = map f ks.
Proof.
  induction ks as [|k ks IH]; intros R; [reflexivity|].
  cbn [List.length decode_entries map concat]. rewrite <- app_assoc.
  pose proof (le_bytes_length w (f k)) as L.
  pose proof (firstn_exact (le_bytes w (f k))
                (concat (map (fun k => le_bytes w (f k)) ks) ++ rest)) as F1.
  pose proof (skipn_exact (le_bytes w (f k))
                (concat (map (fun k => le_bytes w (f k)) ks) ++ rest)) as F2.
  rewrite L in F1, F2. rewrite F1, F2.
  rewrite le_value_le_bytes, Z.mod_small by (apply R; now left).
  f_equal. apply IH. intros k' I. apply R. now right.
Qed.

Lemma length_table (w : nat) (f : nat -> Z) (ks : list nat) :
  zlength (concat (map (fun k => le_bytes w (f k)) ks)) =
  Z.of_nat w * zlength ks.
Proof.
  unfold zlength. induction ks as [|k ks IH]; cbn [map concat List.length].
  - lia.
  - rewrite length_app, le_bytes_length. lia.
Qed.

Lemma firstn_succ {A} (l : list A) k x :
  nth_error l k = Some x -> firstn (S k) l = firstn k l ++ [x].
Proof.
  revert k. induction l as [|y l IH]; intros [|k] E; try discriminate.
  - injection E as ->. reflexivity.
  - cbn [firstn app]. f_equal. now apply IH.
Qed.

Lemma offset_of_chunk_succ chunks k c :
  nth_error chunks k = Some c ->
  offset_of_chunk chunks (S k) = offset_of_chunk chunks k + zlength c.
Proof.
  intros E. unfold offset_of_chunk. rewrite (firstn_succ _ _ _ E).
  rewrite concat_app, zlength_app. cbn [concat]. now rewrite app_nil_r.
Qed.

Lemma concat_split {A} (l : list (list A)) k x :
  nth_error l k = Some x ->
  concat l = concat (firstn k l) ++ x ++ concat (skipn (S k) l).
Proof.
  revert k. induction l as [|y l IH]; intros [|k] E; try discriminate.
  - injection E as ->. reflexivity.
  - cbn [firstn skipn concat]. rewrite <- app_assoc. f_equal. now apply IH.
Qed.

Lemma zlength_chunk_of data i :
  0 <= i ->
  zlength (chunk_of data i) =
  Z.max 0 (Z.min WIM_CHUNK_SIZE (zlength data - i * WIM_CHUNK_SIZE)).
Proof.
  intros I. unfold chunk_of, WIM_CHUNK_SIZE.
  rewrite zlength_ztake_min, zlength_zdrop_max by lia. lia.
Qed.

Lemma nth_error_map_seq {A} (f : nat -> A) a n j :
  (j < n)%nat -> nth_error (map f (seq a n)) j = Some (f (a + j)%nat).
Proof.
  revert a j. induction n as [|n IH]; intros a [|j] J; try lia.
  - cbn. now rewrite Nat.add_0_r.
  - cbn [seq map nth_error]. rewrite IH by lia. f_equal. f_equal. lia.
Qed.

Section Layout.

Variables lzx_decompress xpress_decompress : decompressor.
Variable resource_ctype : compression_type.
Variables before behind data : list byte.
Variable chunks : list (list byte).
Variable file : list byte.
Variables len offset : Z.

Let size := zlength data.
Let sc := offset / 32768.
Let ec := (offset + len - 1) / 32768.
Let last := (size - 1) / 32768.
Let w := if size <? 2 ^ 32 then 4 else 8.
Let first_entry := Z.max sc 1.
Let last_entry := if ec =? last then ec else ec + 1.
Let off (k : Z) := offset_of_chunk chunks (Z.to_nat k).

Hypothesis file_layout :
  file = before ++ compressed_resource size chunks ++ behind.
Hypothesis file_size : zlength file < 2 ^ 62.
Hypothesis data_size : size < 2 ^ 62.
Hypothesis stored :
  chunks_store (decompress lzx_decompress xpress_decompress resource_ctype)
               chunks data.
Hypothesis len_pos : 0 < len.
Hypothesis offset_nonneg : 0 <= offset.
Hypothesis in_resource : offset + len <= size.

Lemma order : 0 <= sc <= ec /\ ec <= last /\ last < 2 ^ 47.
Proof. subst sc ec last. Z.to_euclidean_division_equations. lia. Qed.

Lemma number_of_chunks : Z.of_nat (List.length chunks) = last + 1.
Proof.
  destruct stored as [N _]. rewrite N. fold size.
  unfold num_chunks, u64, WIM_CHUNK_SIZE. subst last.
  Z.to_euclidean_division_equations. lia.
Qed.

Lemma w_is : w = 4 \/ w = 8.
Proof. subst w. destruct (_ <? _); auto. Qed.

Lemma chunk_sizes_of i :
  0 <= i <= last ->
  zlength (chunk_of data i) =
  (if i =? last then size - last * 32768 else 32768) /\
  0 < size - last * 32768 <= 32768.
Proof.
  intros I. rewrite zlength_chunk_of by lia. unfold WIM_CHUNK_SIZE.
  fold size. pose proof order.
  destruct (Z.eqb_spec i last); subst last;
    Z.to_euclidean_division_equations; lia.
Qed.

Lemma stored_chunk i :
  0 <= i <= last ->
  exists c,
    nth_error chunks (Z.to_nat i) = Some c /\
    stores (decompress lzx_decompress xpress_decompress resource_ctype)
           c (chunk_of data i) /\
    0 <= zlength c <= zlength (chunk_of data i).
Proof.
  intros I. pose proof number_of_chunks as N.
  destruct (nth_error chunks (Z.to_nat i)) as [c|] eqn:E.
  2:{ apply nth_error_None in E. lia. }
  exists c. split; [reflexivity|].
  destruct stored as [_ St]. specialize (St _ _ E).
  rewrite Z2Nat.id in St by lia. split; [exact St|].
  pose proof (zlength_nonneg c).
  destruct St as [->|[L _]]; lia.
Qed.

Lemma off_0 : off 0 = 0.
Proof. reflexivity. Qed.

Lemma off_succ i c :
  0 <= i -> nth_error chunks (Z.to_nat i) = Some c ->
  off (i + 1) = off i + zlength c.
Proof.
  intros I E. unfold off.
  replace (Z.to_nat (i + 1)) with (S (Z.to_nat i)) by lia.
  now apply offset_of_chunk_succ.
Qed.

Lemma off_bound i : 0 <= i <= last + 1 -> 0 <= off i <= 32768 * i.
Proof.
  intros I. split; [apply zlength_nonneg|].
  assert (G : forall k : nat, Z.of_nat k <= last + 1 ->
                off (Z.of_nat k) <= 32768 * Z.of_nat k).
  { induction k as [|k IH]; intros K; [now cbn|].
    destruct (stored_chunk (Z.of_nat k) ltac:(lia)) as (c & E & _ & L).
    pose proof (off_succ (Z.of_nat k) c ltac:(lia) E) as O.
    replace (Z.of_nat (S k)) with (Z.of_nat k + 1) by lia.
    specialize (IH ltac:(lia)).
    destruct (chunk_sizes_of (Z.of_nat k) ltac:(lia)) as [U R].
    destruct (Z.of_nat k =? last); lia. }
  specialize (G (Z.to_nat i)). rewrite Z2Nat.id in G by lia. apply G. lia.
Qed.

Local Abbreviation entry :=
  (fun k : nat => le_bytes (Z.to_nat w) (offset_of_chunk chunks k)).

Lemma entry_size_is : chunk_entry_size size = w.
Proof. apply (chunk_entry_size_eq size 0 0). Qed.

Lemma table_split fe count :
  1 <= fe -> 0 <= count -> fe + count - 1 <= last ->
  chunk_table w chunks =
  concat (map entry (seq 1 (Z.to_nat (fe - 1)))) ++
  concat (map entry (seq (Z.to_nat fe) (Z.to_nat count))) ++
  concat (map entry (seq (Z.to_nat (fe + count))
                         (Z.to_nat (last - (fe + count) + 1)))).
Proof.
  intros F C L. unfold chunk_table. pose proof number_of_chunks as N.
  replace (List.length chunks - 1)%nat
    with (Z.to_nat (fe - 1) + (Z.to_nat count +
                                Z.to_nat (last - (fe + count) + 1)))%nat
    by lia.
  rewrite !seq_app, !map_app, !concat_app.
  replace (1 + Z.to_nat (fe - 1))%nat with (Z.to_nat fe) by lia.
  replace (Z.to_nat fe + Z.to_nat count)%nat with (Z.to_nat (fe + count))
    by lia.
  reflexivity.
Qed.

Lemma table_size : zlength (chunk_table w chunks) = w * last.
Proof.
  unfold chunk_table. rewrite length_table. unfold zlength.
  rewrite length_seq. pose proof number_of_chunks. pose proof order.
  pose proof w_is. lia.
Qed.

Lemma table_window fe count :
  1 <= fe -> 0 <= count -> fe + count - 1 <= last ->
  ztake (count * w) (zdrop (zlength before + (fe - 1) * w) file) =
  concat (map entry (seq (Z.to_nat fe) (Z.to_nat count))).
Proof.
  intros F C L. rewrite file_layout. unfold compressed_resource.
  rewrite entry_size_is, (table_split fe count F C L).
  set (A := concat (map entry (seq 1 (Z.to_nat (fe - 1))))).
  set (X := concat (map entry (seq (Z.to_nat fe) (Z.to_nat count)))).
  set (B := concat (map entry (seq _ (Z.to_nat (last - (fe + count) + 1))))).
  pose proof w_is as W.
  assert (LA : zlength A = (fe - 1) * w).
  { subst A. rewrite length_table. unfold zlength. rewrite length_seq. lia. }
  assert (LX : zlength X = count * w).
  { subst X. rewrite length_table. unfold zlength. rewrite length_seq. lia. }
  replace (before ++ ((A ++ X ++ B) ++ concat chunks) ++ behind)
    with ((before ++ A) ++ X ++ (B ++ concat chunks ++ behind))
    by (now rewrite <- !app_assoc).
  replace (zlength before + (fe - 1) * w) with (zlength (before ++ A) + 0)
    by (rewrite zlength_app; lia).
  rewrite window_of_part by lia.
  rewrite zdrop_0. apply ztake_all. lia.
Qed.

Lemma chunk_window i c s p :
  0 <= i <= last -> nth_error chunks (Z.to_nat i) = Some c ->
  0 <= s -> 0 <= p -> s + p <= zlength c ->
  ztake p (zdrop (zlength before + w * last + off i + s) file) =
  ztake p (zdrop s c).
Proof.
  intros I E Hs Hp L. rewrite file_layout. unfold compressed_resource.
  rewrite entry_size_is, (concat_split chunks _ _ E).
  set (T := chunk_table w chunks).
  set (A := concat (firstn (Z.to_nat i) chunks)).
  set (B := concat (skipn (S (Z.to_nat i)) chunks)).
  replace (before ++ (T ++ A ++ c ++ B) ++ behind)
    with ((before ++ T ++ A) ++ c ++ (B ++ behind))
    by (now rewrite <- !app_assoc).
  replace (zlength before + w * last + off i + s)
    with (zlength (before ++ T ++ A) + s).
  - now apply window_of_part.
  - rewrite !zlength_app. subst T. rewrite table_size.
    unfold off, offset_of_chunk. subst A. lia.
Qed.

Lemma resource_size :
  zlength (compressed_resource size chunks) = w * last + off (last + 1).
Proof.
  unfold compressed_resource. rewrite zlength_app, entry_size_is, table_size.
  f_equal. unfold off, offset_of_chunk. rewrite firstn_all2; [reflexivity|].
  pose proof number_of_chunks. pose proof order. lia.
Qed.

Lemma file_bounds :
  0 <= zlength before /\
  zlength before + w * last + off (last + 1) <= zlength file.
Proof.
  split; [apply zlength_nonneg|]. rewrite file_layout, !zlength_app.
  rewrite resource_size. pose proof (zlength_nonneg behind). lia.
Qed.

Lemma before_62 : 0 <= zlength before < 2 ^ 62.
Proof.
  pose proof file_bounds. pose proof (off_bound (last + 1)) as O.
  pose proof order. pose proof w_is. lia.
Qed.

Local Abbreviation needed_offsets :=
  (map (offset_of_chunk chunks)
       (seq (Z.to_nat sc) (Z.to_nat (last_entry - sc + 1)))).

Lemma read_chunk_table_value s :
  f_data (fp s) = file ->
  exists s',
    read_chunk_table size (zlength before) len offset s =
      (Value needed_offsets, s') /\
    f_data (fp s') = file /\ out s' = out s.
Proof.
  intros Fd. pose proof before_62 as B62.
  unfold read_chunk_table, io_bind, do_fseeko_SEEK_SET, fseeko_SEEK_SET.
  rewrite (file_offset_of_needed_chunk_entries_eq size (zlength before)
             len offset len_pos offset_nonneg in_resource data_size B62).
  rewrite (chunk_tab_buf_size_eq size (zlength before)
             len offset len_pos offset_nonneg in_resource data_size B62).
  rewrite (num_needed_chunk_entries_eq size (zlength before)
             len offset len_pos offset_nonneg in_resource data_size B62).
  rewrite entry_size_is, start_chunk_eq.
  fold sc ec last w first_entry last_entry.
  set (toff := zlength before + (first_entry - 1) * w).
  set (count := last_entry - first_entry + 1).
  pose proof order as O. pose proof w_is as W.
  assert (C : 0 <= count /\ first_entry + count - 1 <= last /\
              1 <= first_entry).
  { subst count first_entry last_entry. destruct (Z.eqb_spec ec last); lia. }
  assert (T : toff < 2 ^ 63).
  { subst toff first_entry. lia. }
  destruct (Z.ltb_spec toff (2 ^ 63)) as [_|]; [|lia].
  cbn [negb]. cbv beta iota.
  unfold do_fread, fread. cbn [fp f_pos f_data out trace]. rewrite Fd.
  subst toff. rewrite (table_window first_entry count) by lia.
  set (X := concat _).
  assert (LX : zlength X = count * w).
  { subst X. rewrite length_table. unfold zlength. rewrite length_seq. lia. }
  rewrite LX, Z.ltb_irrefl. cbv beta iota. rewrite LX, Z.eqb_refl.
  cbn [negb]. cbv beta iota.
  assert (V : (if sc =? 0 then [0] else []) ++
              decode_entries (Z.to_nat w) (Z.to_nat count) X =
              needed_offsets).
  { subst X.
    pose proof (decode_entries_table (Z.to_nat w) (offset_of_chunk chunks)
                  (seq (Z.to_nat first_entry) (Z.to_nat count)) []) as D.
    rewrite app_nil_r, length_seq in D. rewrite D.
    - subst first_entry count.
      destruct (Z.eqb_spec sc 0) as [Z0|NZ].
      + rewrite Z0. cbn [Z.to_nat]. rewrite Z0 in C.
        replace (Z.to_nat (last_entry - 0 + 1))
          with (S (Z.to_nat (last_entry - Z.max 0 1 + 1))) by lia.
        cbn [seq map app]. f_equal.
      + cbn [app]. f_equal. f_equal; f_equal; lia.
    - intros k K. apply in_seq in K.
      pose proof (off_bound (Z.of_nat k) ltac:(lia)) as Ob.
      unfold off in Ob. rewrite Nat2Z.id in Ob.
      split; [lia|].
      assert (P : 32768 * last < size).
      { subst last. Z.to_euclidean_division_equations. lia. }
      subst w. destruct (Z.ltb_spec size (2 ^ 32)).
      + change (256 ^ Z.of_nat (Z.to_nat 4)) with (2 ^ 32). lia.
      + change (256 ^ Z.of_nat (Z.to_nat 8)) with (2 ^ 64). lia. }
  rewrite V. unfold io_ret. eexists. split; [reflexivity|].
  cbn [fp f_data out]. split; reflexivity.
Qed.

Lemma needed_offset j :
  0 <= j <= last_entry - sc ->
  array_get needed_offsets j = Some (off (sc + j)).
Proof.
  intros J. unfold array_get. pose proof order.
  destruct (Z.ltb_spec j 0); [lia|].
  rewrite nth_error_map_seq by lia. unfold off. do 2 f_equal. lia.
Qed.

Lemma chunk_sizes_value i c :
  sc <= i <= ec -> nth_error chunks (Z.to_nat i) = Some c ->
  chunk_sizes (zlength (compressed_resource size chunks)) size offset
              needed_offsets i =
  Some (zlength c, zlength (chunk_of data i)).
Proof.
  intros I E. pose proof order as O. pose proof before_62 as B62.
  pose proof w_is as W.
  unfold chunk_sizes.
  rewrite (last_chunk_eq size (zlength before) len offset len_pos
             offset_nonneg in_resource data_size B62).
  rewrite start_chunk_eq. fold sc last.
  destruct (stored_chunk i ltac:(lia)) as (c' & E' & _ & Lc).
  rewrite E in E'. injection E' as <-.
  destruct (chunk_sizes_of i ltac:(lia)) as [U R].
  pose proof (off_succ i c ltac:(lia) E) as Os.
  pose proof (off_bound i ltac:(lia)) as Ob.
  destruct (Z.eqb_spec i last) as [IL|IL]; cbn [negb].
  - rewrite (u64_small (i - sc)) by lia.
    rewrite needed_offset
      by (subst last_entry; destruct (Z.eqb_spec ec last); lia).
    replace (sc + (i - sc)) with i by lia.
    rewrite (chunk_table_size_eq size (zlength before) len offset len_pos
               offset_nonneg in_resource data_size B62).
    fold last w. rewrite resource_size. rewrite <- IL, Os.
    replace (w * i + (off i + zlength c) - w * i) with (off i + zlength c)
      by lia.
    rewrite (u64_small (off i + zlength c)) by lia.
    replace (off i + zlength c - off i) with (zlength c) by lia.
    rewrite (u64_small (zlength c)), (u32_small (zlength c)) by lia.
    rewrite U. unfold WIM_CHUNK_SIZE.
    assert (M : 0 <= size mod 32768 < 32768) by (apply Z.mod_pos_bound; lia).
    rewrite u32_small by lia.
    assert (Q : size mod 32768 =
                if size - last * 32768 =? 32768 then 0
                else size - last * 32768).
    { destruct (Z.eqb_spec (size - last * 32768) 32768); subst last;
        Z.to_euclidean_division_equations; lia. }
    rewrite Q.
    destruct (Z.eqb_spec (size - last * 32768) 32768) as [Q'|Q'].
    + cbn. now rewrite Q'.
    + destruct (Z.eqb_spec (size - last * 32768) 0); [lia|reflexivity].
  - assert (IL' : i + 1 <= last_entry).
    { subst last_entry. destruct (Z.eqb_spec ec last); lia. }
    rewrite (u64_small (i + 1 - sc)), (u64_small (i - sc)) by lia.
    rewrite !needed_offset by lia.
    replace (sc + (i + 1 - sc)) with (i + 1) by lia.
    replace (sc + (i - sc)) with i by lia.
    rewrite Os. replace (off i + zlength c - off i) with (zlength c) by lia.
    rewrite (u64_small (zlength c)), (u32_small (zlength c)) by lia.
    now rewrite U.
Qed.

(** The number of bytes written before the turn of chunk [i]. *)
Let written (i : Z) : Z := Z.min len (Z.max 0 (i * 32768 - offset)).

Lemma end_chunk_is : end_chunk len offset = ec.
Proof.
  apply (end_chunk_eq size len offset len_pos offset_nonneg in_resource
           data_size).
Qed.

Lemma turn_arith i :
  sc <= i <= ec ->
  let st := start_offset offset i in
  let p := partial_chunk_size len offset i in
  0 <= st /\ 0 < p /\ st + p <= zlength (chunk_of data i) /\
  i * 32768 + st = offset + written i /\
  written (i + 1) = written i + p /\
  (i < ec -> st + p = 32768) /\
  0 <= written i /\ written (i + 1) <= len /\
  (i = ec -> written (i + 1) = len).
Proof.
  intros I st p. pose proof order as O.
  destruct (chunk_sizes_of i ltac:(lia)) as [U R]. rewrite U.
  subst st p. unfold partial_chunk_size, start_offset, end_offset.
  rewrite end_chunk_is, start_chunk_eq. fold sc.
  unfold start_chunk_offset, end_chunk_offset, WIM_CHUNK_SIZE.
  rewrite (u64_small (offset + len - 1)) by lia.
  assert (M1 : 0 <= offset mod 32768 < 32768) by (apply Z.mod_pos_bound; lia).
  assert (M2 : 0 <= (offset + len - 1) mod 32768 < 32768)
    by (apply Z.mod_pos_bound; lia).
  assert (D1 : offset = 32768 * sc + offset mod 32768)
    by (subst sc; apply Z.div_mod; lia).
  assert (D2 : offset + len - 1 = 32768 * ec + (offset + len - 1) mod 32768)
    by (subst ec; apply Z.div_mod; lia).
  assert (D3 : 32768 * last <= size - 1 < 32768 * last + 32768)
    by (subst last; Z.to_euclidean_division_equations; lia).
  subst written. cbv beta.
  destruct (Z.eqb_spec i sc) as [Es|Es], (Z.eqb_spec i ec) as [Ee|Ee],
           (Z.eqb_spec i last) as [El|El];
    rewrite u64_small by lia; lia.
Qed.

(** What holds before the turn of chunk [i]. *)
Let between_turns (i : Z) (s : io_state) : Prop :=
  f_data (fp s) = file /\
  (i <= ec -> f_pos (fp s) = zlength before + w * last + off i) /\
  out s = ztake (written i) (zdrop offset data).

Lemma zlength_out i s :
  sc <= i <= ec -> between_turns i s -> zlength (out s) = written i.
Proof.
  intros I (_ & _ & Out). rewrite Out.
  destruct (turn_arith i I) as (_ & P & _ & _ & Wn & _ & W0 & Wl & _).
  rewrite zlength_ztake_min, zlength_zdrop_max by lia. fold size. lia.
Qed.

Lemma piece_of_chunk i :
  sc <= i <= ec ->
  ztake (written i) (zdrop offset data) ++
  ztake (partial_chunk_size len offset i)
        (zdrop (start_offset offset i) (chunk_of data i)) =
  ztake (written (i + 1)) (zdrop offset data).
Proof.
  intros I.
  destruct (turn_arith i I) as (S0 & P & SP & Pos & Wn & _ & W0 & _).
  pose proof order as O.
  destruct (chunk_sizes_of i ltac:(lia)) as [U R].
  unfold chunk_of, WIM_CHUNK_SIZE.
  rewrite window_of_window by (destruct (i =? last); lia).
  rewrite Pos, Wn, <- zdrop_zdrop by lia.
  apply ztake_more; lia.
Qed.

Lemma read_chunk_data_turn i c s :
  sc <= i <= ec -> nth_error chunks (Z.to_nat i) = Some c ->
  between_turns i s ->
  exists s',
    read_chunk_data lzx_decompress xpress_decompress resource_ctype
      len offset i (zlength c) (zlength (chunk_of data i)) s =
      (Value tt, s') /\
    between_turns (i + 1) s'.
Proof.
  intros I E Inv. pose proof (zlength_out i s I Inv) as Lo.
  destruct Inv as (Fd & Pos & Out). specialize (Pos ltac:(lia)).
  pose proof order as O. pose proof before_62 as B62. pose proof w_is as W.
  pose proof file_bounds as FB.
  destruct (stored_chunk i ltac:(lia)) as (c' & E' & St & Lc).
  rewrite E in E'. injection E' as <-.
  destruct (chunk_sizes_of i ltac:(lia)) as [U R].
  pose proof (off_succ i c ltac:(lia) E) as Os.
  pose proof (off_bound i ltac:(lia)) as Ob.
  pose proof (off_bound (last + 1) ltac:(lia)) as Obl.
  pose proof (off_bound (i + 1) ltac:(lia)) as Ob1.
  pose proof (piece_of_chunk i I) as Piece.
  destruct (turn_arith i I) as (S0 & P & SP & _ & Wn & Mid & W0 & Wl & _).
  set (st := start_offset offset i) in *.
  set (p := partial_chunk_size len offset i) in *.
  unfold read_chunk_data. fold st p.
  destruct St as [Raw|[Less Dec]].
  - (* the chunk is stored as it is *)
    subst c. rewrite Z.eqb_refl.
    assert (Seek : exists s1,
               (if negb (st =? 0) then do_fseeko_SEEK_CUR st
                else io_ret true) s = (Value true, s1) /\
               f_data (fp s1) = file /\
               f_pos (fp s1) = zlength before + w * last + off i + st /\
               out s1 = out s).
    { destruct (Z.eqb_spec st 0) as [Z0|NZ]; cbn [negb].
      - exists s. unfold io_ret. repeat split; auto. lia.
      - unfold do_fseeko_SEEK_CUR, fseeko_SEEK_CUR. rewrite Pos.
        destruct (Z.ltb_spec (zlength before + w * last + off i + st)
                    (2 ^ 63)); [|lia].
        eexists. split; [reflexivity|]. cbn [fp f_data f_pos out].
        repeat split; auto. }
    destruct Seek as (s1 & R1 & Fd1 & Pos1 & Out1).
    unfold io_bind at 1. rewrite R1. cbn [negb]. cbv beta iota.
    unfold io_bind at 1. unfold do_fread_out, io_bind, do_fread, fread.
    rewrite Fd1, Pos1, Out1, Lo.
    rewrite (chunk_window i _ st p) by (try exact E; lia).
    set (got := ztake p (zdrop st (chunk_of data i))).
    assert (Lg : zlength got = p).
    { subst got. rewrite zlength_ztake_min, zlength_zdrop_max by lia. lia. }
    rewrite Lg.
    destruct (Z.ltb_spec (len - written i) p); [lia|].
    unfold write_out. cbn [out fp trace].
    rewrite Lo, Lg.
    destruct (Z.ltb_spec len (written i + p)); [lia|].
    unfold io_ret. cbv beta iota. rewrite Lg, Z.eqb_refl. cbn [negb].
    eexists. split; [reflexivity|].
    unfold between_turns. cbn [fp f_data f_pos out].
    split; [reflexivity|]. split.
    + intros I1. rewrite Os, U.
      destruct (Z.eqb_spec i last); lia.
    + rewrite Out. exact Piece.
  - (* the chunk is stored compressed *)
    destruct (Z.eqb_spec (zlength c) (zlength (chunk_of data i))); [lia|].
    unfold io_bind at 1. unfold do_fread, fread. rewrite Fd, Pos.
    pose proof (chunk_window i c 0 (zlength c) ltac:(lia) E ltac:(lia)
                  ltac:(lia) ltac:(lia)) as Win.
    rewrite Z.add_0_r, zdrop_0, (ztake_all _ c) in Win by lia.
    rewrite Win.
    destruct (Z.ltb_spec (WIM_CHUNK_SIZE - 1) (zlength c)) as [Big|_].
    { unfold WIM_CHUNK_SIZE in Big. destruct (i =? last); lia. }
    rewrite Z.eqb_refl. cbn [negb].
    unfold io_bind, emit. cbn [fp out trace]. rewrite Dec.
    assert (Buf : buffer_of (zlength (chunk_of data i)) (chunk_of data i) =
                  chunk_of data i).
    { unfold buffer_of. rewrite ztake_all by lia. rewrite Z.sub_diag.
      apply app_nil_r. }
    rewrite Buf. unfold write_out. cbn [fp out trace].
    assert (Lp : zlength (ztake p (zdrop st (chunk_of data i))) = p).
    { rewrite zlength_ztake_min, zlength_zdrop_max by lia. lia. }
    destruct (Z.eqb_spec p (zlength (chunk_of data i))) as [Whole|Part];
      cbn [negb].
    + assert (St0 : st = 0) by lia.
      assert (Same : ztake p (zdrop st (chunk_of data i)) = chunk_of data i).
      { rewrite St0, zdrop_0. apply ztake_all. lia. }
      rewrite Same in Piece, Lp. cbn [fp out trace]. rewrite Lo, Lp.
      destruct (Z.ltb_spec len (written i + p)); [lia|].
      eexists. split; [reflexivity|].
      unfold between_turns. cbn [fp f_data f_pos out].
      split; [reflexivity|]. split; [intros _; lia|].
      rewrite Out. exact Piece.
    + destruct (Z.ltb_spec (zlength (chunk_of data i)) (st + p)); [lia|].
      cbn [fp out trace]. rewrite Lo, Lp.
      destruct (Z.ltb_spec len (written i + p)); [lia|].
      eexists. split; [reflexivity|].
      unfold between_turns. cbn [fp f_data f_pos out].
      split; [reflexivity|]. split; [intros _; lia|].
      rewrite Out. exact Piece.
Qed.

Local Abbreviation csize := (zlength (compressed_resource size chunks)).

Lemma read_chunk_turn i s :
  sc <= i <= ec -> between_turns i s ->
  exists s',
    read_chunk lzx_decompress xpress_decompress csize size resource_ctype
      len offset needed_offsets i s = (Value tt, s') /\
    between_turns (i + 1) s'.
Proof.
  intros I Inv. pose proof order as O.
  destruct (stored_chunk i ltac:(lia)) as (c & E & _).
  unfold read_chunk, io_bind, emit. cbv beta iota.
  rewrite (chunk_sizes_value i c I E).
  apply (read_chunk_data_turn i c _ I E).
  exact Inv.
Qed.

Lemma read_chunks_turns (n : nat) : forall i s,
  sc <= i -> i + Z.of_nat n = ec + 1 -> between_turns i s ->
  exists s',
    read_chunks lzx_decompress xpress_decompress csize size resource_ctype
      len offset needed_offsets n i s = (Value tt, s') /\
    between_turns (ec + 1) s'.
Proof.
  induction n as [|n IH]; intros i s I N Inv.
  - exists s. split; [reflexivity|].
    replace (ec + 1) with i by lia. exact Inv.
  - cbn [read_chunks]. unfold io_bind.
    destruct (read_chunk_turn i s ltac:(lia) Inv) as (s1 & R1 & Inv1).
    rewrite R1. apply IH; [lia|lia|exact Inv1].
Qed.

Lemma read_compressed_resource_body_value fp0 :
  f_data fp0 = file ->
  exists s,
    read_compressed_resource_body lzx_decompress xpress_decompress
      csize size (zlength before) resource_ctype len offset
      (mk_io_state fp0 [] []) = (Value tt, s) /\
    out s = ztake len (zdrop offset data).
Proof.
  intros Fd. pose proof order as O. pose proof before_62 as B62.
  pose proof w_is as W.
  unfold read_compressed_resource_body.
  destruct (Z.eqb_spec len 0) as [|_]; [lia|].
  unfold io_bind.
  destruct (read_chunk_table_value (mk_io_state fp0 [] []) Fd)
    as (s1 & R1 & Fd1 & Out1).
  rewrite R1. unfold after_chunk_table.
  rewrite (needed_offset 0)
    by (subst last_entry; destruct (Z.eqb_spec ec last); lia).
  rewrite Z.add_0_r.
  unfold file_offset_of_first_needed_chunk.
  rewrite (chunk_table_size_eq size (zlength before) len offset len_pos
             offset_nonneg in_resource data_size B62).
  fold last w.
  pose proof (off_bound sc ltac:(lia)) as Ob.
  rewrite (u64_small (zlength before + w * last)) by lia.
  rewrite (u64_small (zlength before + w * last + off sc)) by lia.
  unfold io_bind, do_fseeko_SEEK_SET, fseeko_SEEK_SET.
  pose proof file_bounds as FB.
  pose proof (off_bound (last + 1) ltac:(lia)) as Obl.
  destruct (Z.ltb_spec (zlength before + w * last + off sc) (2 ^ 63));
    [|lia].
  cbn [negb]. cbv beta iota.
  rewrite end_chunk_is, start_chunk_eq. fold sc.
  destruct (read_chunks_turns (Z.to_nat (ec - sc + 1)) sc
              (mk_io_state
                 (mk_FILE (f_data (fp s1))
                          (zlength before + w * last + off sc))
                 (out s1)
                 (trace s1 ++
                  [call_fseeko_SEEK_SET
                     (zlength before + w * last + off sc)])))
    as (s2 & R2 & Inv2); [lia|lia| |].
  - unfold between_turns. cbn [fp f_data f_pos out].
    split; [exact Fd1|]. split; [reflexivity|].
    rewrite Out1. cbn [out].
    destruct (turn_arith sc ltac:(lia)) as (_ & _ & _ & P & _).
    assert (D1 : offset = 32768 * sc + offset mod 32768)
      by (subst sc; apply Z.div_mod; lia).
    assert (M1 : 0 <= offset mod 32768 < 32768)
      by (apply Z.mod_pos_bound; lia).
    replace (written sc) with 0 by (subst written; cbv beta; lia).
    now rewrite ztake_firstn.
  - exists s2. split; [exact R2|].
    destruct Inv2 as (_ & _ & Out2). rewrite Out2.
    destruct (turn_arith ec ltac:(lia)) as (_ & _ & _ & _ & _ & _ & _ & _ & F).
    now rewrite F.
Qed.

End Layout.

(** [read_compressed_resource] on a compressed resource that has the
    structure the function describes (the table of the chunk offsets in
    entries of 4 or 8 bytes, then the chunks, each stored as it is or in
    fewer bytes that the decompressor for the compression type turns back
    into the chunk), anywhere in a file of less than 2^62 bytes: every
    read that stays inside the resource returns 0, and [contents_ret]
    holds the [len] bytes of the uncompressed data from [offset] on. *)
Theorem read_compressed_resource_returns_the_range
  (lzx_decompress xpress_decompress : decompressor)
  (resource_ctype : compression_type)
  (before behind data : list byte) (chunks : list (list byte))
  (fp0 : FILE) (len offset : Z) :
  f_data fp0 =
    before ++ compressed_resource (zlength data) chunks ++ behind ->
  zlength (f_data fp0) < 2 ^ 62 ->
  zlength data < 2 ^ 62 ->
  chunks_store (decompress lzx_decompress xpress_decompress resource_ctype)
               chunks data ->
  0 <= offset -> 0 <= len -> offset + len <= zlength data ->
  exists s,
    read_compressed_resource lzx_decompress xpress_decompress fp0
      (zlength (compressed_resource (zlength data) chunks)) (zlength data)
      (zlength before) resource_ctype len offset =
      (Ret WIMLIB_ERR_SUCCESS, s) /\
    out s = ztake len (zdrop offset data).
Proof.
  intros Layout Fits Size Stored Off Len In.
  unfold read_compressed_resource, run_io.
  destruct (Z.eq_dec len 0) as [->|NZ].
  - unfold read_compressed_resource_body. cbn [Z.eqb]. unfold io_return.
    eexists. split; [reflexivity|]. cbn [out]. now rewrite ztake_firstn.
  - destruct (read_compressed_resource_body_value lzx_decompress
                xpress_decompress resource_ctype before behind data chunks
                (f_data fp0) len offset Layout Fits Size Stored
                ltac:(lia) Off In fp0 eq_refl) as (s & R & Out).
    rewrite R. exists s. split; [reflexivity|exact Out].
Qed.

(** Witness: a resource of the five bytes [AAAAA], held in one chunk of
    three bytes behind the first byte of the file. *)
Lemma read_compressed_resource_returns_the_range_witness :
  exists s,
    read_compressed_resource Examples.fill_A Examples.fill_A
      (mk_FILE [Byte.xff; Byte.x01; Byte.x02; Byte.x03; Byte.xee] 0)
      3 5 1 WIMLIB_COMPRESSION_TYPE_LZX 3 1 = (Ret WIMLIB_ERR_SUCCESS, s) /\
    out s = [Byte.x41; Byte.x41; Byte.x41].
Proof.
  destruct (read_compressed_resource_returns_the_range
              Examples.fill_A Examples.fill_A WIMLIB_COMPRESSION_TYPE_LZX
              [Byte.xff] [Byte.xee] (repeat Byte.x41 5)
              [[Byte.x01; Byte.x02; Byte.x03]]
              (mk_FILE [Byte.xff; Byte.x01; Byte.x02; Byte.x03; Byte.xee] 0)
              3 1)
    as (s & R & Out).
  - reflexivity.
  - reflexivity.
  - reflexivity.
  - split; [reflexivity|].
    intros [|i] c E; cbn in E.
    + injection E as <-. right. split; reflexivity.
    + destruct i; discriminate.
  - lia.
  - lia.
  - cbn. lia.
  - exists s. split; [exact R|exact Out].
Defined.

End ResourceLayoutTheory.

(** ** Extracting a compressed resource of an archive *)

Module WimResourceTheory.
Import Int BufferIO ResourceEntry Stdio LookupTable Resource ResourceLayout.
Import WimResource PlainResource.
Import BufferIOTheory ResourceTheory PlainResourceTheory ResourceLayoutTheory.

Section Content.

Variables lzx_decompress xpress_decompress : decompressor.
Variable tfopen : string -> option FILE.
Variable sha1 : list byte -> list byte.
Variable lte : wim_lookup_table_entry.
Variable b : list byte.

(** Every read inside the resource gives the bytes asked for. *)
Hypothesis reads :
  forall size offset,
    0 <= offset -> 0 < size -> offset + size <= zlength b ->
    read_wim_resource lzx_decompress xpress_decompress tfopen lte size offset
      no_flags = (Ret WIMLIB_ERR_SUCCESS, ztake size (zdrop offset b)).

Variable sink : Type.
Variable extract_chunk : list byte -> Z -> Z -> sink -> wimlib_error_code * sink.

Hypothesis extract_chunk_ok :
  forall buf n off a, fst (extract_chunk buf n off a) = WIMLIB_ERR_SUCCESS.

Local Abbreviation loop :=
  (extract_loop lzx_decompress xpress_decompress tfopen sink extract_chunk).

Lemma extract_loop_content sizeof_buf check_hash :
  0 < sizeof_buf ->
  forall fuel remaining offset st,
  0 <= offset -> 0 <= remaining ->
  remaining <= Z.of_nat fuel * sizeof_buf ->
  offset + remaining <= zlength b ->
  offset + remaining < 2 ^ 63 ->
  extracted sink st = ztake offset b ->
  let r := loop fuel lte sizeof_buf check_hash remaining offset st in
  fst r = Some (inl WIMLIB_ERR_SUCCESS) /\
  extracted sink (snd r) = ztake (offset + remaining) b.
Proof.
  intros SB.
  induction fuel as [|fuel IH]; intros remaining offset st O R F B U E;
    cbn [extract_loop].
  - assert (remaining = 0) by lia. subst. cbn.
    now rewrite Z.add_0_r.
  - destruct (Z.eqb_spec remaining 0) as [->|NZ].
    + cbn. now rewrite Z.add_0_r.
    + set (to_read := Z.min remaining sizeof_buf).
      assert (T : 0 < to_read <= remaining) by (subst to_read; lia).
      rewrite (reads to_read offset) by lia.
      pose proof (extract_chunk_ok (ztake to_read (zdrop offset b)) to_read
                    offset (arg sink st)) as K.
      destruct (extract_chunk _ _ _ _) as [ret arg']. cbn [fst] in K.
      subst ret.
      assert (P : 2 ^ 63 < 2 ^ 64) by reflexivity.
      rewrite (u64_small (remaining - to_read)) by lia.
      rewrite (u64_small (offset + to_read)) by lia.
      destruct (IH (remaining - to_read) (offset + to_read)
                  (mk_extract_state sink
                     (if check_hash
                      then sha1_update (ctx sink st)
                             (ztake to_read (zdrop offset b)) to_read
                      else ctx sink st) arg'
                     (extracted sink st ++
                      ztake to_read (ztake to_read (zdrop offset b)))))
        as [S X]; try lia.
      * cbn [extracted]. rewrite ztake_ztake, E. apply ztake_more; lia.
      * split; [exact S|]. rewrite X. f_equal. lia.
Qed.

Lemma extract_content size extract_chunk_arg :
  0 <= size -> size <= zlength b -> size < 2 ^ 63 ->
  let r := extract_wim_resource lzx_decompress xpress_decompress tfopen sha1
             sink extract_chunk lte size extract_chunk_arg in
  extracted sink (snd r) = ztake size b /\
  (size <> wim_resource_size lte -> fst r = Some (Ret WIMLIB_ERR_SUCCESS)) /\
  (size = wim_resource_size lte ->
   fst r = Some (Ret (if hashes_equal (sha1 (ztake size b)) (hash lte)
                      then WIMLIB_ERR_SUCCESS
                      else WIMLIB_ERR_INVALID_RESOURCE_HASH))).
Proof.
  intros P B U r. subst r. unfold extract_wim_resource.
  set (fuel := Z.to_nat ((size + WIM_CHUNK_SIZE - 1) / WIM_CHUNK_SIZE)).
  set (st0 := mk_extract_state sink sha1_init extract_chunk_arg []).
  destruct (Z.eq_dec size 0) as [->|NZ].
  - assert (Z0 : forall sb ch,
              extract_loop lzx_decompress xpress_decompress tfopen sink
                extract_chunk fuel lte sb ch 0 0 st0 =
              (Some (inl WIMLIB_ERR_SUCCESS), st0))
      by (intros; destruct fuel; reflexivity).
    rewrite Z0, !(ztake_firstn 0 b). cbn [Z.to_nat firstn].
    destruct (Z.eqb_spec 0 (wim_resource_size lte)) as [Q|Q].
    + unfold sha1_final. cbn [ctx st0]. unfold sha1_init.
      destruct (hashes_equal _ _); cbn [negb fst snd extracted];
        (split; [reflexivity|split; [congruence|reflexivity]]).
    + cbn [fst snd extracted st0].
      split; [reflexivity|split; [reflexivity|congruence]].
  - pose proof (fuel_enough size ltac:(lia)) as [SB F]. fold fuel in F.
    pose proof (extract_loop_content (Z.min WIM_CHUNK_SIZE size)
                  (size =? wim_resource_size lte) SB fuel size 0 st0)
      as X.
    cbv zeta in X. rewrite Z.add_0_l in X.
    assert (E0 : extracted sink st0 = ztake 0 b)
      by (rewrite ztake_firstn; reflexivity).
    destruct X as [S X]; try lia; try exact E0.
    pose proof (extract_loop_ctx lzx_decompress xpress_decompress tfopen
                  sink extract_chunk lte (Z.min WIM_CHUNK_SIZE size) fuel
                  size 0 st0 eq_refl) as Cx.
    cbv zeta in Cx.
    destruct (Z.eqb_spec size (wim_resource_size lte)) as [Q|Q].
    + destruct (extract_loop _ _ _ _ _ _ _ _ _ _ _ _) as [st final].
      cbn [fst snd] in *. rewrite S. unfold sha1_final. rewrite Cx, X.
      destruct (hashes_equal _ _); cbn [negb fst snd];
        (split; [exact X|split; [congruence|reflexivity]]).
    + destruct (extract_loop _ _ _ _ _ _ _ _ _ _ _ _) as [st final].
      cbn [fst snd] in *. rewrite S. cbn [fst snd].
      split; [exact X|split; [reflexivity|congruence]].
Qed.

End Content.

(** A read inside a compressed resource of an archive. *)
Lemma read_compressed_in_wim lzx_decompress xpress_decompress tfopen
  lte fp0 before behind chunks data size offset :
  compressed_in_wim lzx_decompress xpress_decompress lte fp0 before behind
    chunks data ->
  zlength (f_data fp0) < 2 ^ 62 -> zlength data < 2 ^ 62 ->
  0 <= offset -> 0 < size -> offset + size <= zlength data ->
  read_wim_resource lzx_decompress xpress_decompress tfopen lte size offset
    no_flags = (Ret WIMLIB_ERR_SUCCESS, ztake size (zdrop offset data)).
Proof.
  intros (Loc & (w & Wim & Fp) & Ct & Layout & Cs & Us & Ro & St) Fits Ds O S I.
  unfold read_wim_resource. cbn [WIMLIB_RESOURCE_FLAG_RAW no_flags
                                  WIMLIB_RESOURCE_FLAG_MULTITHREADED].
  rewrite u64_small by lia. rewrite Us.
  destruct (Z.leb_spec (offset + size) (zlength data)) as [_|]; [|lia].
  cbn [negb]. rewrite Loc, Wim, Fp.
  destruct (wim_resource_compression_type lte) eqn:Ctype;
    [contradiction| |]; cbn [is_none_ctype negb orb]; rewrite ?Cs, ?Us, ?Ro;
    unfold read_compressed_resource, run_io.
  - destruct (read_compressed_resource_body_value lzx_decompress
                xpress_decompress WIMLIB_COMPRESSION_TYPE_LZX before behind
                data chunks (f_data fp0) size offset Layout Fits Ds St
                S O I fp0 eq_refl) as (s & R & Out).
    rewrite R. now rewrite Out.
  - destruct (read_compressed_resource_body_value lzx_decompress
                xpress_decompress WIMLIB_COMPRESSION_TYPE_XPRESS before
                behind data chunks (f_data fp0) size offset Layout Fits Ds
                St S O I fp0 eq_refl) as (s & R & Out).
    rewrite R. now rewrite Out.
Qed.

(** [extract_wim_resource] on a compressed resource of an archive that
    has the structure [read_compressed_resource] describes, with a
    callback that does not fail: the callback is handed exactly the first
    [size] bytes of the uncompressed data, in order.  A partial extraction
    then returns 0; a full one returns 0 when the digest of these bytes
    is the digest of the entry and [WIMLIB_ERR_INVALID_RESOURCE_HASH] when
    it is not. *)
Theorem extract_compressed_resource_hands_over_the_data
  (lzx_decompress xpress_decompress : decompressor)
  (tfopen : string -> option FILE) (sha1 : list byte -> list byte)
  (sink : Type)
  (extract_chunk : list byte -> Z -> Z -> sink -> wimlib_error_code * sink)
  (lte : wim_lookup_table_entry) (fp0 : FILE)
  (before behind : list byte) (chunks : list (list byte))
  (data : list byte) (size : Z) (extract_chunk_arg : sink) :
  compressed_in_wim lzx_decompress xpress_decompress lte fp0 before behind
    chunks data ->
  zlength (f_data fp0) < 2 ^ 62 -> zlength data < 2 ^ 62 ->
  0 <= size <= zlength data ->
  (forall buf n off a,
     fst (extract_chunk buf n off a) = WIMLIB_ERR_SUCCESS) ->
  let r := extract_wim_resource lzx_decompress xpress_decompress tfopen sha1
             sink extract_chunk lte size extract_chunk_arg in
  extracted sink (snd r) = ztake size data /\
  (size < zlength data -> fst r = Some (Ret WIMLIB_ERR_SUCCESS)) /\
  (size = zlength data ->
   fst r = Some (Ret (if hashes_equal (sha1 data) (hash lte)
                      then WIMLIB_ERR_SUCCESS
                      else WIMLIB_ERR_INVALID_RESOURCE_HASH))).
Proof.
  intros C Fits Ds Sz K r.
  assert (Us : wim_resource_size lte = zlength data).
  { destruct C as (_ & _ & _ & _ & _ & Us & _). exact Us. }
  destruct (extract_content lzx_decompress xpress_decompress tfopen sha1
              lte data
              (fun size offset O S I =>
                 read_compressed_in_wim lzx_decompress xpress_decompress
                   tfopen lte fp0 before behind chunks data size offset
                   C Fits Ds O S I)
              sink extract_chunk K size extract_chunk_arg)
    as (X & Part & Full); try lia.
  fold r in X, Part, Full. split; [exact X|]. split.
  - intros L. apply Part. lia.
  - intros E. rewrite Full by lia. rewrite E, ztake_all by lia. reflexivity.
Qed.

(** Witness: the resource of the tiny archive, collected by the
    callback. *)
Lemma extract_compressed_resource_hands_over_the_data_witness :
  let r := extract_wim_resource Examples.fill_A Examples.fill_A
             Examples.no_file Examples.toy_sha1 (list byte) collect
             (tiny_lte (repeat Byte.x41 5)) 5 [] in
  extracted (list byte) (snd r) = repeat Byte.x41 5 /\
  fst r = Some (Ret WIMLIB_ERR_SUCCESS).
Proof.
  intros r.
  destruct (extract_compressed_resource_hands_over_the_data
              Examples.fill_A Examples.fill_A Examples.no_file
              Examples.toy_sha1 (list byte) collect
              (tiny_lte (repeat Byte.x41 5)) tiny_archive
              [Byte.xff] [Byte.xee] [[Byte.x01; Byte.x02; Byte.x03]]
              (repeat Byte.x41 5) 5 [])
    as (X & _ & F).
  - split; [reflexivity|]. split; [eexists; split; reflexivity|].
    split; [discriminate|]. split; [reflexivity|]. split; [reflexivity|].
    split; [reflexivity|]. split; [reflexivity|].
    split; [reflexivity|].
    intros [|i] c E; cbn in E.
    + injection E as <-. right. split; reflexivity.
    + destruct i; discriminate.
  - reflexivity.
  - reflexivity.
  - cbn. lia.
  - intros. reflexivity.
  - split; [exact X|]. subst r. rewrite F; reflexivity.
Defined.

End WimResourceTheory.

(** ** The dentry tree [build_dentry_tree] builds *)

Module DentryTreeTheory.
Import BufferIO ResourceEntry LookupTable Modify DentryTree.
Import LookupTableTheory ModifyTheory.

Section Tree.

Variable sha1 : list byte -> list byte.

(** What a capture function [build] does on [src]. *)
Let builds_tree
  (build : string -> string -> source -> lookup_table ->
           wimlib_error_code * dentry * lookup_table) (src : source) : Prop :=
  forall root_name source_path t,
    (forall d t',
       build root_name source_path src t = (WIMLIB_ERR_SUCCESS, d, t') ->
       d = tree_of sha1 root_name src) /\
    (every_call_succeeds src = true ->
     exists t',
       build root_name source_path src t =
       (WIMLIB_ERR_SUCCESS, tree_of sha1 root_name src, t')).

Lemma capture_file_tree st_size content calls root_name source_path t :
  (forall d t',
     capture_file sha1 root_name source_path st_size content calls t =
       (WIMLIB_ERR_SUCCESS, d, t') ->
     d = mk_dentry root_name false (sha1 content) []) /\
  (every_call_succeeds (source_file st_size content calls) = true ->
   exists t',
     capture_file sha1 root_name source_path st_size content calls t =
     (WIMLIB_ERR_SUCCESS, mk_dentry root_name false (sha1 content) [], t')).
Proof.
  unfold capture_file. cbn [every_call_succeeds dentry_hash]. split.
  - intros d t'. destruct (sha1sum_ret calls); try discriminate.
    destruct (lookup_resource t (sha1 content)).
    + now intros [= <- _].
    + destruct (negb (STRDUP_ok calls)); [discriminate|].
      destruct (negb (Modify.new_lookup_table_entry_ok calls));
        [discriminate|].
      now intros [= <- _].
  - intros H. apply andb_prop in H as [H N]. apply andb_prop in H as [S D].
    destruct (sha1sum_ret calls); try discriminate.
    rewrite D, N. cbn [negb].
    destruct (lookup_resource t (sha1 content)); eexists; reflexivity.
Qed.

Lemma readdir_loop_tree build source_path entries :
  Forall (fun e => match snd e with
                   | Some c => builds_tree build c
                   | None => True
                   end) entries ->
  forall n dir h children t,
    (forall d t',
       readdir_loop build source_path entries (mk_dentry n dir h children) t =
         (WIMLIB_ERR_SUCCESS, d, t') ->
       d = mk_dentry n dir h
             (children ++ tree_of_entries (tree_of sha1) entries)) /\
    (all_entries every_call_succeeds entries = true ->
     exists t',
       readdir_loop build source_path entries (mk_dentry n dir h children) t =
       (WIMLIB_ERR_SUCCESS,
        mk_dentry n dir h (children ++ tree_of_entries (tree_of sha1) entries),
        t')).
Proof.
  induction 1 as [|[d_name child] rest Hc _ IH]; intros n dir h children t;
    cbn [readdir_loop tree_of_entries all_entries].
  - rewrite app_nil_r. split.
    + now intros d t' [= <- _].
    + intros _. eexists. reflexivity.
  - destruct (is_dot_or_dotdot d_name); cbn [orb andb]; [apply IH|].
    destruct child as [c|].
    2:{ split; [discriminate|]. cbn [andb]. discriminate. }
    cbn [snd] in Hc.
    destruct (Hc d_name (source_path ++ "/" ++ d_name)%string t) as [Only Ok].
    destruct (build d_name _ c t) as [[ret child_dentry] t1].
    split.
    + intros d t'. destruct ret; try discriminate.
      rewrite (Only child_dentry t1 eq_refl). cbn [link_dentry].
      intros R. apply IH in R. rewrite R, <- app_assoc. reflexivity.
    + intros A. apply andb_prop in A as [A1 A2].
      destruct (Ok A1) as (t1' & E). injection E as -> -> ->.
      cbn [link_dentry].
      destruct (IH n dir h (children ++ [tree_of sha1 d_name c]) t1')
        as [_ Ok'].
      destruct (Ok' A2) as (t' & R). exists t'. rewrite R.
      now rewrite <- app_assoc.
Qed.

Lemma build_dentry_tree_tree src : builds_tree (build_dentry_tree sha1) src.
Proof.
  induction src as [st_size content calls|opendir_ok entries IH]
    using source_induction;
    intros root_name source_path t; cbn [build_dentry_tree tree_of].
  - apply capture_file_tree.
  - cbn [every_call_succeeds].
    destruct opendir_ok; cbn [negb andb].
    + apply (readdir_loop_tree _ source_path entries IH root_name true
               (repeat Byte.x00 WIM_HASH_SIZE) [] t).
    + split; discriminate.
Qed.

End Tree.

(** The dentry tree [build_dentry_tree] builds is the tree on disk:
    whenever the function returns 0, whatever the lookup table was, the
    dentry of a regular file carries the SHA-1 of its content and has no
    children, and the dentry of a directory has one child for each of its
    entries but [.] and [..], named as the entry and in the order
    [readdir] gave them.  The function does return 0 when every [stat],
    [opendir], [sha1sum] and allocation made for the tree succeeds. *)
Theorem build_dentry_tree_builds_the_tree_on_disk
  (sha1 : list byte -> list byte) (root_name source_path : string)
  (src : source) (table : lookup_table) :
  (forall d table',
     build_dentry_tree sha1 root_name source_path src table =
       (WIMLIB_ERR_SUCCESS, d, table') ->
     d = tree_of sha1 root_name src) /\
  (every_call_succeeds src = true ->
   exists table',
     build_dentry_tree sha1 root_name source_path src table =
     (WIMLIB_ERR_SUCCESS, tree_of sha1 root_name src, table')).
Proof. apply build_dentry_tree_tree. Qed.

(** Witness: the tree with two copies of one file. *)
Lemma build_dentry_tree_builds_the_tree_on_disk_witness :
  exists table',
    build_dentry_tree Examples.toy_sha1 "root" "/src" Examples.twin_tree [] =
    (WIMLIB_ERR_SUCCESS,
     mk_dentry "root" true (repeat Byte.x00 WIM_HASH_SIZE)
       [mk_dentry "a" false Examples.hello [];
        mk_dentry "sub" true (repeat Byte.x00 WIM_HASH_SIZE)
          [mk_dentry "b" false Examples.hello [];
           mk_dentry "c" false [Byte.x2a] []]],
     table').
Proof.
  destruct (build_dentry_tree_builds_the_tree_on_disk Examples.toy_sha1
              "root" "/src" Examples.twin_tree []) as [_ Ok].
  apply Ok. reflexivity.
Defined.

End DentryTreeTheory.

(** ** The digest of an NTFS attribute *)

Module NtfsSha1sumTheory.
Import Int BufferIO ResourceEntry LookupTable NtfsCapture.
Import BufferIOTheory NtfsCaptureTheory PlainResourceTheory.

Section Loop.

Variable BUFFER_SIZE : Z.
Hypothesis BUFFER_SIZE_pos : 0 < BUFFER_SIZE.

Lemma sha1sum_loop_run ar : forall fuel pos remaining ctx,
  0 <= pos -> 0 <= remaining -> pos + remaining = zlength (data ar) ->
  (Z.to_nat remaining < fuel)%nat ->
  sha1sum_loop BUFFER_SIZE fuel ar pos remaining ctx =
  Some (if (remaining =? 0) || ntfs_attr_pread_ok ar
        then Some (ctx ++ zdrop pos (data ar)) else None).
Proof.
  induction fuel as [|fuel IH]; intros pos remaining ctx P R L F; [lia|].
  cbn [sha1sum_loop].
  destruct (Z.eqb_spec remaining 0) as [Z0|NZ]; cbn [orb].
  - rewrite zdrop_all by lia. now rewrite app_nil_r.
  - unfold ntfs_attr_pread. destruct (ntfs_attr_pread_ok ar); [|reflexivity].
    set (to_read := Z.min remaining BUFFER_SIZE).
    assert (G : zlength (ztake to_read (zdrop pos (data ar))) = to_read).
    { rewrite zlength_ztake_min, zlength_zdrop_max by lia. lia. }
    rewrite G, Z.eqb_refl. cbn [negb].
    rewrite IH by lia. rewrite orb_true_r.
    unfold Resource.sha1_update. rewrite (ztake_all to_read) by lia.
    rewrite <- app_assoc. do 3 f_equal. apply ztake_zdrop_step; lia.
Qed.

End Loop.

(** [ntfs_attr_sha1sum] returns 0 or [WIMLIB_ERR_NTFS_3G].  It returns 0
    exactly when the attribute can be opened, every read it needs delivers
    the bytes asked for, and a reparse point has the 8 bytes of its
    header; [md] is then the SHA-1 of the whole attribute, for a reparse
    point of what follows the header, whose first four bytes are the
    reparse tag returned, read as a little-endian number.  An empty
    attribute needs no read. *)
Theorem ntfs_attr_sha1sum_digests_the_attribute
  (sha1 : list byte -> list byte) (BUFFER_SIZE : Z) (ar : ATTR_RECORD)
  (is_reparse_point : bool) :
  0 < BUFFER_SIZE ->
  let header := if is_reparse_point then 8 else 0 in
  let readable :=
    ntfs_attr_open_ok ar = true /\
    (is_reparse_point = true ->
     ntfs_attr_pread_ok ar = true /\ 8 <= zlength (data ar)) /\
    (header < zlength (data ar) -> ntfs_attr_pread_ok ar = true) in
  exists ret md reparse_tag,
    ntfs_attr_sha1sum sha1 BUFFER_SIZE ar is_reparse_point =
      Some (ret, md, reparse_tag) /\
    (ret = WIMLIB_ERR_SUCCESS \/ ret = WIMLIB_ERR_NTFS_3G) /\
    (ret = WIMLIB_ERR_SUCCESS <-> readable) /\
    (ret = WIMLIB_ERR_SUCCESS ->
     md = sha1 (zdrop header (data ar)) /\
     (is_reparse_point = true ->
      reparse_tag = le_value (firstn 4 (data ar)))).
Proof.
  intros BS header readable. subst header readable.
  pose proof (zlength_nonneg (data ar)) as N.
  unfold ntfs_attr_sha1sum.
  destruct (ntfs_attr_open_ok ar); cbn [negb].
  2:{ eexists _, _, _. split; [reflexivity|]. split; [now right|].
      split; [|discriminate]. split; [discriminate|]. now intros [? _]. }
  destruct is_reparse_point.
  - unfold ntfs_attr_pread. destruct (ntfs_attr_pread_ok ar) eqn:Pread.
    2:{ eexists _, _, _. split; [reflexivity|]. split; [now right|].
        split; [|discriminate]. split; [discriminate|].
        intros (_ & H & _). now destruct H. }
    rewrite zdrop_0, zlength_ztake_min.
    destruct (Z.eqb_spec (Z.max 0 (Z.min 8 (zlength (data ar)))) 8)
      as [G|G]; cbn [negb].
    2:{ eexists _, _, _. split; [reflexivity|]. split; [now right|].
        split; [|discriminate]. split; [discriminate|].
        intros (_ & H & _). destruct H as [_ H]; [reflexivity|]. lia. }
    rewrite (sha1sum_loop_run BUFFER_SIZE BS ar) by (unfold zlength in *; lia).
    rewrite Pread, orb_true_r.
    eexists _, _, _. split; [reflexivity|]. split; [now left|].
    split.
    + split; [intros _|reflexivity].
      split; [reflexivity|]. split; [intros _; split; [reflexivity|lia]|].
      reflexivity.
    + intros _. split; [reflexivity|]. intros _.
      rewrite ztake_firstn, firstn_firstn. reflexivity.
  - rewrite (sha1sum_loop_run BUFFER_SIZE BS ar) by (unfold zlength in *; lia).
    destruct (Z.eqb_spec (zlength (data ar)) 0) as [Z0|NZ]; cbn [orb].
    + eexists _, _, _. split; [reflexivity|]. split; [now left|].
      split.
      * split; [intros _|reflexivity].
        split; [reflexivity|]. split; [discriminate|]. lia.
      * intros _. split; [reflexivity|discriminate].
    + destruct (ntfs_attr_pread_ok ar).
      * eexists _, _, _. split; [reflexivity|]. split; [now left|].
        split.
        -- split; [intros _|reflexivity].
           split; [reflexivity|]. split; [discriminate|]. reflexivity.
        -- intros _. split; [reflexivity|discriminate].
      * eexists _, _, _. split; [reflexivity|]. split; [now right|].
        split; [|discriminate]. split; [discriminate|].
        intros (_ & _ & H). specialize (H ltac:(lia)). discriminate.
Qed.

(** Witness: a reparse point of ten bytes, read five bytes at a time. *)
Lemma ntfs_attr_sha1sum_digests_the_attribute_witness :
  let ar := mk_ATTR_RECORD AT_REPARSE_POINT []
              [Byte.x03; Byte.x00; Byte.x00; Byte.xa0;
               Byte.x00; Byte.x00; Byte.x00; Byte.x00; Byte.x68; Byte.x69]
              false true true true true true true WIMLIB_ERR_SUCCESS
              EmptyString true in
  ntfs_attr_sha1sum Examples.toy_sha1 5 ar true =
  Some (WIMLIB_ERR_SUCCESS, [Byte.x68; Byte.x69], 0xa0000003).
Proof.
  intros ar.
  destruct (ntfs_attr_sha1sum_digests_the_attribute Examples.toy_sha1 5 ar
              true) as (ret & md & tag & E & _ & Ok & V); [lia|].
  assert (R : ret = WIMLIB_ERR_SUCCESS).
  { apply Ok. split; [reflexivity|].
    split; [intros _; split; [reflexivity|vm_compute; discriminate]|].
    intros _. reflexivity. }
  destruct (V R) as [M T]. rewrite E, R, M, (T eq_refl). reflexivity.
Defined.

End NtfsSha1sumTheory.

(** ** The streams kept for reuse *)

Module FpTabTheory.
Import Stdio FpTab.

Lemma streams_app a b : streams (a ++ b) = streams a ++ streams b.
Proof.
  induction a as [|[fp|] a IH]; cbn [app streams]; [reflexivity| |exact IH].
  now rewrite IH.
Qed.

Lemma put_first_free_Some tab fp tab' :
  put_first_free tab fp = Some tab' ->
  List.length tab' = List.length tab /\ In None tab /\
  exists a b, streams tab = a ++ b /\ streams tab' = a ++ fp :: b.
Proof.
  revert tab'. induction tab as [|[other|] tab IH]; intros tab' E;
    cbn [put_first_free] in E; [discriminate| |].
  - destruct (put_first_free tab fp) as [rest|]; [|discriminate].
    injection E as <-. destruct (IH rest eq_refl) as (L & I & a & b & S1 & S2).
    split; [cbn; now rewrite L|]. split; [now right|].
    exists (other :: a), b. cbn [streams app]. now rewrite S1, S2.
  - injection E as <-. split; [reflexivity|]. split; [now left|].
    exists [], (streams tab). split; reflexivity.
Qed.

Lemma put_first_free_None tab fp :
  put_first_free tab fp = None -> ~ In None tab.
Proof.
  induction tab as [|[other|] tab IH]; cbn [put_first_free]; intros E.
  - intros [].
  - destruct (put_first_free tab fp); [discriminate|].
    intros [H|H]; [discriminate|]. now apply IH.
  - discriminate.
Qed.

Lemma take_first_fp_Some tab fp tab' :
  take_first_fp tab = Some (fp, tab') ->
  List.length tab' = List.length tab /\
  streams tab = fp :: streams tab'.
Proof.
  revert tab'. induction tab as [|[other|] tab IH]; intros tab' E;
    cbn [take_first_fp] in E; [discriminate| |].
  - injection E as <- <-. split; reflexivity.
  - destruct (take_first_fp tab) as [[f rest]|]; [|discriminate].
    injection E as <- <-. destruct (IH rest eq_refl) as [L S1].
    split; [cbn; now rewrite L|]. exact S1.
Qed.

Lemma take_first_fp_None tab :
  take_first_fp tab = None -> streams tab = [].
Proof.
  induction tab as [|[other|] tab IH]; cbn [take_first_fp streams]; intros E.
  - reflexivity.
  - discriminate.
  - destruct (take_first_fp tab) as [[f rest]|]; [discriminate|].
    now apply IH.
Qed.

(** [wim_release_fp] returns 0 or [WIMLIB_ERR_NOMEM], the latter exactly
    when the table has no free entry and cannot be enlarged, and then it
    leaves the table as it is.  When it returns 0 the table holds the
    stream released and every stream it held, each in its place; it then
    has the size it had, or four entries more. *)
Theorem wim_release_fp_keeps_every_stream
  (REALLOC_ok : bool) (w : WIMStruct) (fp : FILE) :
  let r := wim_release_fp REALLOC_ok w fp in
  (fst r = WIMLIB_ERR_SUCCESS \/ fst r = WIMLIB_ERR_NOMEM) /\
  (fst r = WIMLIB_ERR_NOMEM <->
   REALLOC_ok = false /\ ~ In None (fp_tab w)) /\
  (fst r = WIMLIB_ERR_NOMEM -> snd r = w) /\
  (fst r = WIMLIB_ERR_SUCCESS ->
   filename (snd r) = filename w /\
   (num_allocated_fps (snd r) = num_allocated_fps w \/
    num_allocated_fps (snd r) = num_allocated_fps w + 4) /\
   exists a b,
     streams (fp_tab w) = a ++ b /\
     streams (fp_tab (snd r)) = a ++ fp :: b).
Proof.
  intros r. subst r. unfold wim_release_fp, num_allocated_fps.
  destruct (put_first_free (fp_tab w) fp) as [tab|] eqn:E.
  - destruct (put_first_free_Some _ _ _ E) as (L & I & S).
    cbn [fst snd filename fp_tab].
    split; [now left|]. split; [|split; [discriminate|]].
    + split; [discriminate|]. intros [_ N]. contradiction.
    + intros _. split; [reflexivity|]. split; [left; now rewrite L|exact S].
  - pose proof (put_first_free_None _ _ E) as N.
    destruct REALLOC_ok; cbn [negb fst snd filename fp_tab].
    + split; [now left|]. split; [|split; [discriminate|]].
      * split; [discriminate|]. now intros [? _].
      * intros _. split; [reflexivity|]. split.
        -- right. rewrite length_app. cbn [List.length]. lia.
        -- exists (streams (fp_tab w)), [].
           rewrite streams_app, app_nil_r. split; reflexivity.
    + split; [now right|]. split; [|split; [reflexivity|discriminate]].
      split; [intros _; now split|reflexivity].
Qed.

(** [wim_get_fp] on an archive that has a file name: when the table holds
    a stream, the function returns the first one and takes it out of the
    table, which keeps its size and its other streams; only when the
    table holds none does it return what [tfopen] gives for the file
    name, [NULL] included, and the table stays as it is. *)
Theorem wim_get_fp_takes_the_first_stream
  (tfopen : string -> option FILE) (w : WIMStruct) (name : string) :
  filename w = Some name ->
  exists fp w',
    wim_get_fp tfopen w = inr (fp, w') /\
    filename w' = filename w /\
    num_allocated_fps w' = num_allocated_fps w /\
    match streams (fp_tab w) with
    | first :: rest => fp = Some first /\ streams (fp_tab w') = rest
    | [] => fp = tfopen name /\ w' = w
    end.
Proof.
  intros F. unfold wim_get_fp, num_allocated_fps. rewrite F.
  destruct (take_first_fp (fp_tab w)) as [[fp tab]|] eqn:E.
  - destruct (take_first_fp_Some _ _ _ E) as [L S].
    eexists _, _. split; [reflexivity|]. cbn [filename fp_tab].
    split; [reflexivity|]. split; [now rewrite L|].
    rewrite S. split; reflexivity.
  - rewrite (take_first_fp_None _ E).
    eexists _, _. split; [reflexivity|]. rewrite F.
    repeat split; reflexivity.
Qed.

(** Witness: a stream released into an empty table comes back. *)
Lemma wim_get_fp_takes_the_first_stream_witness :
  let fp := mk_FILE [Byte.x4d] 0 in
  let w := snd (wim_release_fp true (mk_WIMStruct (Some "a.wim"%string) [])
                               fp) in
  exists w',
    wim_get_fp Examples.no_file w = inr (Some fp, w') /\
    streams (fp_tab w') = [].
Proof.
  intros fp w.
  destruct (wim_get_fp_takes_the_first_stream Examples.no_file w
              "a.wim"%string eq_refl) as (r & w' & E & _ & _ & M).
  cbn in M. destruct M as [-> S]. exists w'. split; [exact E|exact S].
Defined.

End FpTabTheory.

(** ** Adding an image *)

Module AddImageTheory.
Import Int BufferIO ResourceEntry LookupTable Images AddImage.
Import BufferIOTheory ImagesTheory.

Section Add.

Variable dentry : Type.
Variable wimlib_select_image :
  WIMStruct (struct_image_metadata dentry) -> Z ->
  Z * WIMStruct (struct_image_metadata dentry).
Variable random_hash : list byte.

(** The array after the image has been put in. *)
Lemma add_new_dentry_tree_run table w root :
  0 <= image_count w <= zlength (image_metadata w) ->
  image_count w + 1 < 2 ^ 32 ->
  exists imd,
    add_new_dentry_tree dentry wimlib_select_image true true random_hash
      table w root =
    (let '(ret, w') :=
       wimlib_select_image
         (mk_WIMStruct _ (image_count w + 1) (boot_idx w) imd
                       (current_image w) (events w)) (image_count w + 1) in
     Some (inr ret, imd_lookup_entry random_hash :: table, w')) /\
    zlength imd = image_count w + 1 /\
    (forall k, 0 <= k < image_count w ->
               array_at imd k = array_at (image_metadata w) k) /\
    array_at imd (image_count w) =
      Some (mk_image_metadata (Some root) (Some random_hash) true).
Proof.
  intros C U. unfold add_new_dentry_tree. cbn [negb].
  rewrite u32_small by lia.
  destruct (Z.ltb_spec (zlength (image_metadata w)) (image_count w)); [lia|].
  destruct (Z.ltb_spec (image_count w + 1) (image_count w)); [lia|].
  cbn [orb].
  replace (image_count w + 1 - image_count w) with 1 by lia.
  change (Z.to_nat 1) with 1%nat. cbn [repeat].
  set (imd0 := ztake (image_count w) (image_metadata w) ++
               [mk_image_metadata None None false]).
  assert (L0 : zlength imd0 = image_count w + 1).
  { subst imd0. rewrite zlength_app, zlength_ztake. unfold zlength at 2.
    cbn [List.length]. lia. }
  assert (I0 : 0 <= image_count w + 1 - 1 < zlength imd0) by lia.
  destruct (array_set_nth imd0 (image_count w + 1 - 1)
              (mk_image_metadata (Some root) (Some random_hash) true) I0)
    as (imd & E & L & Nth).
  rewrite E. exists imd. split; [reflexivity|].
  split; [unfold zlength in *; lia|]. split.
  - intros k K. rewrite !array_at_nth by lia. rewrite Nth.
    destruct (Nat.eqb_spec (Z.to_nat k) (Z.to_nat (image_count w + 1 - 1)));
      [lia|].
    subst imd0. rewrite nth_error_app1.
    + rewrite nth_error_ztake.
      destruct (Z.ltb_spec (Z.of_nat (Z.to_nat k)) (image_count w));
        [reflexivity|lia].
    + pose proof (zlength_ztake (image_count w) (image_metadata w)) as T.
      unfold zlength in *. lia.
  - rewrite array_at_nth by lia. rewrite Nth.
    replace (image_count w + 1 - 1) with (image_count w) by lia.
    now rewrite Nat.eqb_refl.
Qed.

End Add.

(** [add_new_dentry_tree] on an archive of less than 2^32 - 1 images.  If
    [CALLOC] or [new_lookup_table_entry] returns no memory, the function
    returns [WIMLIB_ERR_NOMEM] and leaves the archive and its lookup table
    as they are.  Otherwise the archive has one image more: the images it
    had keep their indices, the new last image has the dentry tree given,
    is marked as modified and has a lookup table entry of its own, flagged
    as metadata, at the head of the lookup table; the boot index is as it
    was; the function selects the new image and returns what
    [wimlib_select_image] returns. *)
Theorem add_new_dentry_tree_appends_the_image
  (dentry : Type)
  (wimlib_select_image :
     WIMStruct (struct_image_metadata dentry) -> Z ->
     Z * WIMStruct (struct_image_metadata dentry))
  (CALLOC_ok new_lookup_table_entry_ok : bool) (random_hash : list byte)
  (table : lookup_table) (w : WIMStruct (struct_image_metadata dentry))
  (root : dentry) :
  0 <= image_count w <= zlength (image_metadata w) ->
  image_count w + 1 < 2 ^ 32 ->
  let r := add_new_dentry_tree dentry wimlib_select_image CALLOC_ok
             new_lookup_table_entry_ok random_hash table w root in
  if CALLOC_ok && new_lookup_table_entry_ok then
    exists w1 lte,
      r = (let '(ret, w') := wimlib_select_image w1 (image_count w + 1) in
           Some (inr ret, lte :: table, w')) /\
      hash lte = random_hash /\
      flags (resource_entry lte) = WIM_RESHDR_FLAG_METADATA /\
      image_count w1 = image_count w + 1 /\
      boot_idx w1 = boot_idx w /\
      zlength (image_metadata w1) = image_count w + 1 /\
      (forall k, 0 <= k < image_count w ->
         array_at (image_metadata w1) k = array_at (image_metadata w) k) /\
      array_at (image_metadata w1) (image_count w) =
        Some (mk_image_metadata (Some root) (Some random_hash) true)
  else r = Some (inl WIMLIB_ERR_NOMEM, table, w).
Proof.
  intros C U r. subst r.
  destruct CALLOC_ok; [|reflexivity].
  destruct new_lookup_table_entry_ok; cbn [andb].
  - destruct (add_new_dentry_tree_run dentry wimlib_select_image random_hash
                table w root C U) as (imd & E & L & Old & New).
    eexists _, _. split; [exact E|]. cbn [image_count boot_idx image_metadata].
    repeat split; auto.
  - unfold add_new_dentry_tree. cbn [negb].
    rewrite u32_small by lia.
    destruct (Z.ltb_spec (zlength (image_metadata w)) (image_count w));
      [lia|].
    destruct (Z.ltb_spec (image_count w + 1) (image_count w));
      [lia|reflexivity].
Qed.

(** Witness: a third image for an archive of two. *)
Lemma add_new_dentry_tree_appends_the_image_witness :
  let w := mk_WIMStruct (struct_image_metadata string) 2 1
             [mk_image_metadata (Some "one"%string) None false;
              mk_image_metadata (Some "two"%string) None false] 0 [] in
  exists table' w',
    add_new_dentry_tree string (fun w _ => (0, w)) true true [Byte.x07]
      [] w "three"%string = Some (inr 0, table', w') /\
    image_count w' = 3 /\
    array_at (image_metadata w') 2 =
      Some (mk_image_metadata (Some "three"%string) (Some [Byte.x07]) true).
Proof.
  intros w.
  pose proof (add_new_dentry_tree_appends_the_image string
                (fun w _ => (0, w)) true true [Byte.x07] [] w
                "three"%string) as T.
  cbv zeta in T. cbn [andb] in T.
  destruct T as (w1 & lte & E & _ & _ & C & _ & _ & _ & New).
  - vm_compute. split; discriminate.
  - reflexivity.
  - exists [lte], w1. split; [exact E|]. split; [exact C|exact New].
Defined.

(** An image that is added and then deleted leaves the images as they
    were: for an archive of less than 2^32 - 1 images whose boot index is
    0 or one of its images, with enough memory and a selection that
    changes nothing but the current image, [add_new_dentry_tree] followed
    by [wimlib_delete_image] of the new image returns 0 both times; the
    archive then has the number of images, the boot index and, under
    every index, the image it had before, and what was freed and removed
    is the image that was added. *)
Theorem add_then_delete_restores_the_images
  (dentry : Type)
  (wimlib_select_image :
     WIMStruct (struct_image_metadata dentry) -> Z ->
     Z * WIMStruct (struct_image_metadata dentry))
  (ENABLE_SECURITY_DATA : bool) (random_hash : list byte)
  (table : lookup_table) (w : WIMStruct (struct_image_metadata dentry))
  (root : dentry) :
  selects_in_place (struct_image_metadata dentry) wimlib_select_image ->
  0 <= image_count w <= zlength (image_metadata w) ->
  image_count w + 1 < 2 ^ 32 ->
  0 <= boot_idx w <= image_count w ->
  exists table' w1 w2,
    add_new_dentry_tree dentry wimlib_select_image true true random_hash
      table w root = Some (inr 0, table', w1) /\
    current_image w1 = image_count w + 1 /\
    wimlib_delete_image (struct_image_metadata dentry) wimlib_select_image
      ENABLE_SECURITY_DATA w1 (image_count w + 1) = Some (0, w2) /\
    image_count w2 = image_count w /\
    boot_idx w2 = boot_idx w /\
    (forall k, 0 <= k < image_count w ->
       array_at (image_metadata w2) k = array_at (image_metadata w) k) /\
    let added := mk_image_metadata (Some root) (Some random_hash) true in
    events w2 =
      events w ++ [call_free_dentry_tree added] ++
      (if ENABLE_SECURITY_DATA then [call_free_security_data added] else []) ++
      [call_lookup_table_remove added;
       call_xml_delete_image (image_count w + 1)].
Proof.
  intros Sel C U B.
  destruct (add_new_dentry_tree_run dentry wimlib_select_image random_hash
              table w root C U) as (imd & E & L & Old & New).
  rewrite Sel in E by (cbn [image_count]; lia).
  set (w1 := mk_WIMStruct _ (image_count w + 1) (boot_idx w) imd
                          (image_count w + 1) (events w)) in E.
  assert (S1 : wimlib_select_image w1 (image_count w + 1) = (0, w1)).
  { rewrite Sel by (unfold w1; cbn [image_count]; lia). reflexivity. }
  destruct (delete_one_image_selected (struct_image_metadata dentry)
              wimlib_select_image ENABLE_SECURITY_DATA w1
              (image_count w + 1) w1 S1 eq_refl)
    as (w2 & added & D & A & Cn & Nth & _ & _ & Boot & _ & Ev).
  { unfold w1. cbn [image_count]. lia. }
  { unfold w1. cbn [image_count image_metadata]. lia. }
  { unfold w1. cbn [image_count]. lia. }
  { unfold w1. cbn [boot_idx]. lia. }
  unfold w1 in *. cbn [image_count image_metadata boot_idx events] in *.
  replace (image_count w + 1 - 1) with (image_count w) in * by lia.
  rewrite New in A. injection A as <-.
  exists (imd_lookup_entry random_hash :: table), w1, w2.
  split; [exact E|]. split; [reflexivity|]. split.
  { unfold wimlib_delete_image, WIM_ALL_IMAGES.
    destruct (Z.eqb_spec (image_count w + 1) (-1)); [lia|exact D]. }
  split; [exact Cn|]. split.
  { rewrite Boot. destruct (Z.eqb_spec (boot_idx w) (image_count w + 1));
      [lia|].
    destruct (Z.ltb_spec (image_count w + 1) (boot_idx w)); [lia|reflexivity]. }
  split.
  { intros k K. specialize (Nth (k + 1) ltac:(lia)).
    replace (k + 1 - 1) with k in Nth by lia. rewrite Nth.
    destruct (Z.ltb_spec (k + 1) (image_count w + 1)); [|lia].
    apply Old. lia. }
  exact Ev.
Qed.

(** Witness: the archive of two images. *)
Lemma add_then_delete_restores_the_images_witness :
  let select := fun (w : WIMStruct (struct_image_metadata string)) (i : Z) =>
                  (0, mk_WIMStruct (struct_image_metadata string) (image_count w)
                        (boot_idx w) (image_metadata w) i (events w)) in
  let w := mk_WIMStruct (struct_image_metadata string) 2 1
             [mk_image_metadata (Some "one"%string) None false;
              mk_image_metadata (Some "two"%string) None false] 0 [] in
  exists table' w1 w2,
    add_new_dentry_tree string select true true [Byte.x07] [] w
      "three"%string = Some (inr 0, table', w1) /\
    wimlib_delete_image (struct_image_metadata string) select false w1 3 =
      Some (0, w2) /\
    image_count w2 = 2 /\ boot_idx w2 = 1.
Proof.
  intros select w.
  destruct (add_then_delete_restores_the_images string select false
              [Byte.x07] [] w "three"%string)
    as (table' & w1 & w2 & E & _ & D & C & B & _).
  - intros w0 i _. reflexivity.
  - vm_compute. split; discriminate.
  - reflexivity.
  - cbn. lia.
  - exists table', w1, w2. split; [exact E|]. split; [exact D|].
    split; [exact C|exact B].
Defined.

End AddImageTheory.

(** ** The streams of a captured NTFS inode *)

Module NtfsStreamsTheory.
Import Int BufferIO ResourceEntry LookupTable NtfsCapture NtfsStreams.
Import BufferIOTheory LookupTableTheory NtfsCaptureTheory.

Section Streams.

Variable sha1 : list byte -> list byte.
Variable BUFFER_SIZE : Z.
Variable free_lookup_table_entry :
  lookup_table -> option (list byte) -> lookup_table.

Hypothesis BUFFER_SIZE_pos : 0 < BUFFER_SIZE.

Lemma attach_stream_inode ar lte st st' :
  attach_stream free_lookup_table_entry ar lte st = inl st' ->
  (unnamed ar = true -> i_lte (d_inode st) = None) ->
  i_reparse_tag (d_inode st') = i_reparse_tag (d_inode st) /\
  if unnamed ar
  then i_lte (d_inode st') = lte /\
       ads_entries (d_inode st') = ads_entries (d_inode st)
  else i_lte (d_inode st') = i_lte (d_inode st) /\
       ads_entries (d_inode st') =
       ads_entries (d_inode st) ++
       [mk_wim_ads_entry (stream_name_utf8 ar) lte].
Proof.
  unfold attach_stream, unnamed.
  destruct (name_length ar =? 0).
  - intros E U. rewrite (U eq_refl) in E. injection E as <-. cbn. auto.
  - destruct (utf16_to_utf8_ret ar); try discriminate.
    destruct (negb (inode_add_ads_ok ar)); [discriminate|].
    intros E _. injection E as <-. cbn. auto.
Qed.

Lemma attach_stream_not_0 ar lte st st' :
  (unnamed ar = false -> inode_add_ads_ok ar = true) ->
  attach_stream free_lookup_table_entry ar lte st <>
  inr (WIMLIB_ERR_SUCCESS, st').
Proof.
  intros A. unfold attach_stream. unfold unnamed in A.
  destruct (name_length ar =? 0) eqn:NL.
  - destruct (i_lte (d_inode st)); discriminate.
  - destruct (utf16_to_utf8_ret ar); try discriminate.
    rewrite (A eq_refl). discriminate.
Qed.

(** One turn of the loop, as the inode sees it. *)
Lemma capture_stream_inode type0 path ar st :
  (unnamed ar = false -> inode_add_ads_ok ar = true) ->
  (unnamed ar = true -> i_lte (d_inode st) = None) ->
  (forall st',
     capture_stream sha1 BUFFER_SIZE free_lookup_table_entry type0 path ar st
       <> Some (inr (WIMLIB_ERR_SUCCESS, st'))) /\
  (forall st',
     capture_stream sha1 BUFFER_SIZE free_lookup_table_entry type0 path ar st
       = Some (inl st') ->
     (ATTR_TYPES_eqb type0 AT_REPARSE_POINT = false ->
      i_reparse_tag (d_inode st') = i_reparse_tag (d_inode st)) /\
     if unnamed ar
     then i_lte (d_inode st') = stream_lte sha1 type0 ar /\
          ads_entries (d_inode st') = ads_entries (d_inode st)
     else i_lte (d_inode st') = i_lte (d_inode st) /\
          ads_entries (d_inode st') =
          ads_entries (d_inode st) ++
          [mk_wim_ads_entry (stream_name_utf8 ar)
                            (stream_lte sha1 type0 ar)]).
Proof.
  intros A U.
  unfold capture_stream, ntfs_get_attribute_value_length, stream_lte.
  destruct (value_length_fails ar).
  { cbn. split; intros st'; discriminate. }
  destruct (zlength (data ar) =? 0).
  { split; intros st'.
    - intros E. injection E as E. now apply attach_stream_not_0 in E.
    - intros E. injection E as E.
      apply attach_stream_inode in E; [|exact U]. destruct E as [T E].
      split; [intros _; exact T|exact E]. }
  destruct (_ && _); [split; intros st'; discriminate|].
  destruct (ntfs_attr_sha1sum _ _ _ _) as [[[ret md] tag]|] eqn:S;
    [|split; intros st'; discriminate].
  destruct ret; try (split; intros st'; discriminate).
  apply ntfs_attr_sha1sum_digest in S; [|exact BUFFER_SIZE_pos]. subst md.
  destruct (intern_stream _ _ _ _ _ _) as [ret t1].
  destruct ret; try (split; intros st'; discriminate).
  split; intros st'.
  - intros E. injection E as E. now apply attach_stream_not_0 in E.
  - intros E. injection E as E.
    apply attach_stream_inode in E.
    + cbn [d_inode] in E. destruct E as [T E]. split.
      * intros R. rewrite R in T. exact T.
      * destruct (ATTR_TYPES_eqb type0 AT_REPARSE_POINT); exact E.
    + cbn [d_inode]. intros F. specialize (U F).
      now destruct (ATTR_TYPES_eqb _ _).
Qed.

Lemma capture_loop_inode type0 path : forall attrs st st',
  capture_loop sha1 BUFFER_SIZE free_lookup_table_entry type0 path attrs st =
    Some (WIMLIB_ERR_SUCCESS, st') ->
  Forall (fun ar => unnamed ar = false -> inode_add_ads_ok ar = true) attrs ->
  (i_lte (d_inode st) = None /\ (List.length (filter unnamed attrs) <= 1)%nat)
  \/ List.length (filter unnamed attrs) = 0%nat ->
  i_lte (d_inode st') =
    unnamed_stream sha1 type0 attrs (i_lte (d_inode st)) /\
  ads_entries (d_inode st') =
    ads_entries (d_inode st) ++ named_streams sha1 type0 attrs /\
  (ATTR_TYPES_eqb type0 AT_REPARSE_POINT = false ->
   i_reparse_tag (d_inode st') = i_reparse_tag (d_inode st)).
Proof.
  unfold unnamed_stream, named_streams.
  induction attrs as [|ar attrs IH]; intros st st' R A U;
    cbn [capture_loop] in R.
  - injection R as <-. cbn. rewrite app_nil_r. auto.
  - inversion A as [|? ? Aar Arest]; subst.
    assert (Un : unnamed ar = true -> i_lte (d_inode st) = None).
    { intros UN. cbn [filter] in U. rewrite UN in U. cbn [List.length] in U.
      destruct U as [[N _]|Z]; [exact N|discriminate]. }
    destruct (capture_stream_inode type0 path ar st Aar Un) as [Not0 Step].
    destruct (capture_stream _ _ _ _ _ _ _) as [[st1|[ret st1]]|] eqn:C;
      [| |discriminate].
    + destruct (Step st1 eq_refl) as [Tag Ino].
      cbn [filter] in *.
      destruct (unnamed ar) eqn:UN; cbn [negb List.length map] in *.
      * destruct Ino as [L1 A1].
        destruct (IH st1 st' R Arest ltac:(right; lia)) as (L & Ad & T).
        assert (F0 : filter unnamed attrs = []).
        { destruct (filter unnamed attrs); [reflexivity|].
          cbn [List.length] in U. lia. }
        rewrite F0 in L. rewrite L, Ad, A1, L1.
        split; [reflexivity|]. split; [reflexivity|].
        intros Rp. rewrite (T Rp). now apply Tag.
      * destruct Ino as [L1 A1].
        destruct (IH st1 st' R Arest) as (L & Ad & T).
        { destruct U as [[N Le]|Z]; [left|right; exact Z].
          split; [|exact Le]. now rewrite L1. }
        rewrite L, Ad, A1, L1, <- app_assoc.
        split; [reflexivity|]. split; [reflexivity|].
        intros Rp. rewrite (T Rp). now apply Tag.
    + exfalso. injection R as -> ->. now apply (Not0 st').
Qed.

End Streams.

(** The streams [capture_ntfs_streams] gives an inode.  When the function
    returns 0 for an inode that has no unnamed stream yet, whose
    attributes of the type asked for have at most one unnamed stream, and
    for each of whose named streams [inode_add_ads] returns an entry: the
    unnamed stream is the stream of the inode, every named stream is a
    new alternate data stream entry under its UTF-8 name, in the order of
    the attributes and behind the entries the inode had; each refers to
    the lookup table entry of the SHA-1 of its payload, an empty stream
    to none.  The reparse tag of the inode changes only in a capture of
    reparse points. *)
Theorem capture_ntfs_streams_fills_the_inode
  (sha1 : list byte -> list byte) (BUFFER_SIZE : Z)
  (free_lookup_table_entry : lookup_table -> option (list byte) -> lookup_table)
  (inode : wim_inode) (ni : list ATTR_RECORD) (path : string)
  (t : lookup_table) (type0 : ATTR_TYPES) (st : capture_state) :
  let attrs := filter (fun ar => ATTR_TYPES_eqb (type ar) type0) ni in
  0 < BUFFER_SIZE ->
  capture_ntfs_streams sha1 BUFFER_SIZE free_lookup_table_entry
    inode ni path t type0 = Some (WIMLIB_ERR_SUCCESS, st) ->
  i_lte inode = None ->
  (List.length (filter unnamed attrs) <= 1)%nat ->
  Forall (fun ar => unnamed ar = false -> inode_add_ads_ok ar = true) attrs ->
  i_lte (d_inode st) = unnamed_stream sha1 type0 attrs None /\
  ads_entries (d_inode st) =
    ads_entries inode ++ named_streams sha1 type0 attrs /\
  (ATTR_TYPES_eqb type0 AT_REPARSE_POINT = false ->
   i_reparse_tag (d_inode st) = i_reparse_tag inode).
Proof.
  intros attrs B R N One Ads.
  unfold capture_ntfs_streams in R. fold attrs in R.
  destruct (capture_loop_inode sha1 BUFFER_SIZE free_lookup_table_entry B
              type0 path attrs _ st R Ads) as (L & A & T).
  - left. split; [exact N|exact One].
  - cbn [d_inode] in *. rewrite N in L. auto.
Qed.

(** Witness: a file with its data and one named stream. *)
Lemma capture_ntfs_streams_fills_the_inode_witness :
  let main := mk_ATTR_RECORD AT_DATA [] [Byte.x68; Byte.x69]
                false true true true true true true WIMLIB_ERR_SUCCESS
                EmptyString true in
  let zone := mk_ATTR_RECORD AT_DATA [90; 111; 110; 101] [Byte.x33]
                false true true true true true true WIMLIB_ERR_SUCCESS
                "Zone"%string true in
  exists st,
    capture_ntfs_streams Examples.toy_sha1 4096 Examples.keep_table
      (mk_wim_inode None 0 []) [main; zone] "/f"%string [] AT_DATA =
      Some (WIMLIB_ERR_SUCCESS, st) /\
    i_lte (d_inode st) = Some [Byte.x68; Byte.x69] /\
    ads_entries (d_inode st) =
      [mk_wim_ads_entry "Zone"%string (Some [Byte.x33])].
Proof.
  intros main zone.
  destruct (capture_ntfs_streams Examples.toy_sha1 4096 Examples.keep_table
              (mk_wim_inode None 0 []) [main; zone] "/f"%string [] AT_DATA)
    as [[ret st]|] eqn:E; [|vm_compute in E; discriminate].
  assert (R : ret = WIMLIB_ERR_SUCCESS).
  { vm_compute in E. injection E as <- _. reflexivity. }
  subst ret. exists st. split; [reflexivity|].
  destruct (capture_ntfs_streams_fills_the_inode Examples.toy_sha1 4096
              Examples.keep_table (mk_wim_inode None 0 []) [main; zone]
              "/f"%string [] AT_DATA st ltac:(lia) E eq_refl)
    as (L & A & _).
  - cbn. lia.
  - repeat constructor.
  - split; [exact L|exact A].
Defined.

End NtfsStreamsTheory.

(** ** Writing a blob to an NTFS volume *)

Module NtfsApplyTheory.
Import Int BufferIO NtfsApply.
Import BufferIOTheory NtfsCaptureTheory PlainResourceTheory.

Section Chunks.

Variable ntfs_attr_pwrite : Z -> Z -> Z -> list byte -> Z.

Lemma write_to_attrs_complete offset size chunk :
  0 <= size < 2 ^ 64 ->
  forall attrs calls,
  (forall attr, In attr attrs ->
     ntfs_attr_pwrite attr offset size chunk = size) ->
  write_to_attrs ntfs_attr_pwrite attrs offset size chunk calls =
  (true, calls ++ map (fun attr =>
                         call_ntfs_attr_pwrite attr offset size chunk) attrs).
Proof.
  intros S. induction attrs as [|attr rest IH]; intros calls W;
    cbn [write_to_attrs map].
  - now rewrite app_nil_r.
  - rewrite (W attr) by now left. rewrite u64_small, Z.eqb_refl by lia.
    cbn [negb]. rewrite IH by (intros a I; apply W; now right).
    now rewrite <- app_assoc.
Qed.

Lemma write_to_attrs_short offset size chunk :
  forall attrs calls before attr behind,
  attrs = before ++ attr :: behind ->
  (forall a, In a before -> u64 (ntfs_attr_pwrite a offset size chunk) = size) ->
  u64 (ntfs_attr_pwrite attr offset size chunk) <> size ->
  write_to_attrs ntfs_attr_pwrite attrs offset size chunk calls =
  (false, calls ++ map (fun a => call_ntfs_attr_pwrite a offset size chunk)
                       (before ++ [attr])).
Proof.
  intros attrs calls before. revert attrs calls.
  induction before as [|b before IH]; intros attrs calls attr behind -> W F;
    cbn [app write_to_attrs map].
  - destruct (Z.eqb_spec (u64 (ntfs_attr_pwrite attr offset size chunk)) size);
      [contradiction|reflexivity].
  - rewrite (W b) by now left. rewrite Z.eqb_refl. cbn [negb].
    rewrite (IH _ _ attr behind eq_refl) by (auto; intros a I; apply W; now right).
    now rewrite <- app_assoc.
Qed.

End Chunks.

(** The chunks of a blob that is no reparse point ([reparse_ptr] is
    [NULL]), handed to [ntfs_3g_extract_chunk] one after the other, are
    written one behind the other to every open attribute, as long as the
    offsets stay below 2^63, the positions an [s64] holds: when each
    [ntfs_attr_pwrite] returns the size it was given, every call returns
    0, and the calls made are, chunk by chunk, one for each open
    attribute (in their order) at the offset that is the number of bytes
    of the chunks before; the offset of the context has then advanced by
    the size of all chunks.  The attributes stay open and the reparse
    buffer is not touched. *)
Theorem extract_chunks_writes_chunks_back_to_back
  (ntfs_attr_pwrite : Z -> Z -> Z -> list byte -> Z)
  (chunks : list (list byte)) (ctx : ntfs_3g_apply_ctx) :
  (forall attr pos chunk,
     ntfs_attr_pwrite attr pos (zlength chunk) chunk = zlength chunk) ->
  reparse_ptr ctx = None ->
  0 <= offset ctx -> offset ctx + zlength (concat chunks) < 2 ^ 63 ->
  extract_chunks ntfs_attr_pwrite chunks ctx =
  (Ret WIMLIB_ERR_SUCCESS,
   mk_ctx (open_attrs ctx) (offset ctx + zlength (concat chunks)) None
          (rpdata ctx)
          (pwrites ctx ++ fan_out (open_attrs ctx) (offset ctx) chunks)).
Proof.
  intros W. revert ctx.
  induction chunks as [|chunk rest IH]; intros ctx N O B;
    cbn [extract_chunks fan_out concat].
  - destruct ctx as [a o r d p]. cbn in *. subst r.
    now rewrite Z.add_0_r, app_nil_r.
  - cbn [concat] in B. rewrite zlength_app in B.
    pose proof (zlength_nonneg chunk) as Lc.
    pose proof (zlength_nonneg (concat rest)) as Lr.
    unfold ntfs_3g_extract_chunk.
    assert (P64 : 2 ^ 63 < 2 ^ 64) by reflexivity.
    rewrite write_to_attrs_complete by (try lia; intros; apply W).
    cbn [negb reparse_ptr open_attrs offset rpdata pwrites]. rewrite N.
    rewrite u64_small by lia.
    rewrite IH; cbn [reparse_ptr open_attrs offset rpdata pwrites];
      [|reflexivity|lia|lia].
    rewrite zlength_app, <- app_assoc, Z.add_assoc. reflexivity.
Qed.

(** Witness: two chunks for two attributes. *)
Lemma extract_chunks_writes_chunks_back_to_back_witness :
  let ctx := mk_ctx [7; 9] 0 None [] [] in
  extract_chunks (fun _ _ count _ => count)
    [[Byte.x61; Byte.x62]; [Byte.x63]] ctx =
  (Ret WIMLIB_ERR_SUCCESS,
   mk_ctx [7; 9] 3 None []
     [call_ntfs_attr_pwrite 7 0 2 [Byte.x61; Byte.x62];
      call_ntfs_attr_pwrite 9 0 2 [Byte.x61; Byte.x62];
      call_ntfs_attr_pwrite 7 2 1 [Byte.x63];
      call_ntfs_attr_pwrite 9 2 1 [Byte.x63]]).
Proof.
  intros ctx.
  apply (extract_chunks_writes_chunks_back_to_back
           (fun _ _ count _ => count) [[Byte.x61; Byte.x62]; [Byte.x63]] ctx).
  - reflexivity.
  - reflexivity.
  - cbn. lia.
  - reflexivity.
Defined.

(** A write that falls short aborts the chunk: when [ntfs_attr_pwrite]
    returns another value than the size for one of the open attributes,
    [ntfs_3g_extract_chunk] returns [WIMLIB_ERR_NTFS_3G]; the attributes
    before the first such one have been written to, those behind it have
    not, and the offset and the reparse buffer are as they were. *)
Theorem extract_chunk_stops_at_the_first_short_write
  (ntfs_attr_pwrite : Z -> Z -> Z -> list byte -> Z)
  (chunk : list byte) (size : Z) (ctx : ntfs_3g_apply_ctx)
  (before behind : list Z) (attr : Z) :
  open_attrs ctx = before ++ attr :: behind ->
  (forall a, In a before ->
     u64 (ntfs_attr_pwrite a (offset ctx) size chunk) = size) ->
  u64 (ntfs_attr_pwrite attr (offset ctx) size chunk) <> size ->
  ntfs_3g_extract_chunk ntfs_attr_pwrite chunk size ctx =
  (Ret WIMLIB_ERR_NTFS_3G,
   mk_ctx (open_attrs ctx) (offset ctx) (reparse_ptr ctx) (rpdata ctx)
          (pwrites ctx ++
           map (fun a => call_ntfs_attr_pwrite a (offset ctx) size chunk)
               (before ++ [attr]))).
Proof.
  intros A W F. unfold ntfs_3g_extract_chunk.
  rewrite (write_to_attrs_short ntfs_attr_pwrite (offset ctx) size chunk
             (open_attrs ctx) (pwrites ctx) before attr behind A W F).
  reflexivity.
Qed.

(** Witness: the second of three attributes takes one byte only. *)
Lemma extract_chunk_stops_at_the_first_short_write_witness :
  let pwrite := fun attr (_ : Z) count (_ : list byte) =>
                  if attr =? 9 then 1 else count in
  fst (ntfs_3g_extract_chunk pwrite [Byte.x61; Byte.x62] 2
         (mk_ctx [7; 9; 11] 0 None [] [])) = Ret WIMLIB_ERR_NTFS_3G.
Proof.
  intros pwrite.
  rewrite (extract_chunk_stops_at_the_first_short_write pwrite
             [Byte.x61; Byte.x62] 2 (mk_ctx [7; 9; 11] 0 None [] [])
             [7] [11] 9).
  - reflexivity.
  - reflexivity.
  - intros a [<-|[]]. reflexivity.
  - vm_compute. discriminate.
Defined.

(** [ntfs_3g_first_extraction_alias] on an inode with at least one
    alias: the dentry returned is an alias of the inode; it is the first
    alias that has a short name when there is one, and the last alias of
    the list otherwise. *)
Theorem first_extraction_alias_prefers_a_short_name
  (wim_dentry : Type) (dentry_has_short_name : wim_dentry -> bool)
  (aliases : list wim_dentry) :
  aliases <> [] ->
  exists dentry,
    ntfs_3g_first_extraction_alias wim_dentry dentry_has_short_name aliases =
      inr dentry /\
    In dentry aliases /\
    if existsb dentry_has_short_name aliases
    then dentry_has_short_name dentry = true /\
         exists before behind,
           aliases = before ++ dentry :: behind /\
           forallb (fun d => negb (dentry_has_short_name d)) before = true
    else exists before, aliases = before ++ [dentry].
Proof.
  destruct aliases as [|first rest]; [contradiction|]. intros _.
  cbn [ntfs_3g_first_extraction_alias]. eexists. split; [reflexivity|].
  revert first. induction rest as [|next rest IH]; intros first;
    cbn [alias_from existsb].
  - destruct (dentry_has_short_name first) eqn:S; cbn [orb].
    + split; [now left|]. split; [exact S|].
      exists [], []. split; reflexivity.
    + split; [now left|]. exists []. reflexivity.
  - destruct (dentry_has_short_name first) eqn:S; cbn [orb].
    + split; [now left|]. split; [exact S|].
      exists [], (next :: rest). split; reflexivity.
    + destruct (IH next) as [I E]. split; [now right|].
      cbn [existsb] in E.
      destruct (dentry_has_short_name next || existsb _ rest).
      * destruct E as (T & before & behind & A & F). split; [exact T|].
        exists (first :: before), behind. cbn [app forallb].
        rewrite A, S, F. split; reflexivity.
      * destruct E as (before & A). exists (first :: before).
        cbn [app]. now rewrite A.
Qed.

(** Witness: the second of three aliases has a short name. *)
Lemma first_extraction_alias_prefers_a_short_name_witness :
  ntfs_3g_first_extraction_alias (string * bool) snd
    [("long name"%string, false); ("LONGNA~1"%string, true);
     ("other"%string, true)] = inr ("LONGNA~1"%string, true).
Proof.
  destruct (first_extraction_alias_prefers_a_short_name (string * bool) snd
              [("long name"%string, false); ("LONGNA~1"%string, true);
               ("other"%string, true)])
    as (d & E & _ & _); [discriminate|].
  rewrite E. f_equal. cbn in E. now injection E as <-.
Defined.

End NtfsApplyTheory.

(** ** Reading back a captured NTFS stream *)

Module NtfsResourceTheory.
Import Int BufferIO ResourceEntry Stdio LookupTable Resource NtfsCapture.
Import NtfsResource.
Import BufferIOTheory LookupTableTheory NtfsCaptureTheory PlainResourceTheory.
Import ResourceLayoutTheory WimResourceTheory.

Section Stream.

Variable sha1 : list byte -> list byte.
Variable BUFFER_SIZE : Z.
Variable free_lookup_table_entry :
  lookup_table -> option (list byte) -> lookup_table.
Hypothesis BUFFER_SIZE_pos : 0 < BUFFER_SIZE.

(** The entry a turn of the capture loop puts in the table for a stream
    whose digest the table does not have. *)
Lemma capture_stream_new_entry type0 path ar st st' :
  capture_stream sha1 BUFFER_SIZE free_lookup_table_entry type0 path ar st =
    Some (inl st') ->
  zlength (data ar) <> 0 -> zlength (data ar) < 2 ^ 63 ->
  lookup_resource (table st) (sha1 (stream_payload type0 ar)) = None ->
  (unnamed ar = true -> i_lte (d_inode st) = None) ->
  exists lte loc,
    table st' = lte :: table st /\
    hash lte = sha1 (stream_payload type0 ar) /\
    refcnt lte = 1 /\
    resource_location lte = RESOURCE_IN_NTFS_VOLUME /\
    original_size (resource_entry lte) = zlength (stream_payload type0 ar) /\
    size (resource_entry lte) = zlength (stream_payload type0 ar) /\
    ntfs_loc lte = Some loc /\
    path_utf8 loc = path /\
    is_reparse_point loc = ATTR_TYPES_eqb type0 AT_REPARSE_POINT.
Proof.
  unfold capture_stream, ntfs_get_attribute_value_length.
  intros C NZ Big Miss Un. revert C.
  destruct (value_length_fails ar); [cbn; discriminate|].
  destruct (Z.eqb_spec (zlength (data ar)) 0) as [|_]; [contradiction|].
  destruct (ATTR_TYPES_eqb type0 AT_REPARSE_POINT) eqn:Rp; cbn [andb].
  - destruct (Z.ltb_spec (zlength (data ar)) 8) as [|Ge]; [discriminate|].
    destruct (ntfs_attr_sha1sum _ _ _ _) as [[[ret md] tag]|] eqn:S;
      [|discriminate].
    destruct ret; try discriminate.
    rewrite <- Rp in S.
    apply ntfs_attr_sha1sum_digest in S; [|exact BUFFER_SIZE_pos]. subst md.
    unfold intern_stream. cbn [table]. rewrite Miss.
    destruct (negb (CALLOC_ntfs_loc_ok ar)); [discriminate|].
    destruct (negb (MALLOC_path_ok ar)); [discriminate|].
    destruct (_ && _); [discriminate|].
    destruct (negb (NtfsCapture.new_lookup_table_entry_ok ar));
      [discriminate|].
    intros E. injection E as E.
    apply attach_stream_table in E; [|cbn [d_inode]; exact Un].
    destruct E as [T _]. cbn [table] in T.
    eexists _, _. split; [exact T|]. cbn.
    assert (P64 : 2 ^ 63 < 2 ^ 64) by reflexivity.
    rewrite u64_small by lia.
    unfold stream_payload. rewrite Rp, zlength_zdrop_max by lia.
    rewrite Z.max_r by lia. repeat split; reflexivity.
  - destruct (ntfs_attr_sha1sum _ _ _ _) as [[[ret md] tag]|] eqn:S;
      [|discriminate].
    destruct ret; try discriminate.
    rewrite <- Rp in S.
    apply ntfs_attr_sha1sum_digest in S; [|exact BUFFER_SIZE_pos]. subst md.
    unfold intern_stream. cbn [table]. rewrite Miss.
    destruct (negb (CALLOC_ntfs_loc_ok ar)); [discriminate|].
    destruct (negb (MALLOC_path_ok ar)); [discriminate|].
    destruct (_ && _); [discriminate|].
    destruct (negb (NtfsCapture.new_lookup_table_entry_ok ar));
      [discriminate|].
    intros E. injection E as E.
    apply attach_stream_table in E; [|cbn [d_inode]; exact Un].
    destruct E as [T _]. cbn [table] in T.
    eexists _, _. split; [exact T|]. cbn.
    unfold stream_payload. rewrite Rp, zdrop_0. repeat split; reflexivity.
Qed.

End Stream.

(** A read inside a stream in an NTFS volume whose attribute is open. *)
Lemma read_ntfs_stream lzx_decompress xpress_decompress tfopen
  lte loc content n offset :
  resource_location lte = RESOURCE_IN_NTFS_VOLUME ->
  ntfs_loc lte = Some loc ->
  let payload := zdrop (if is_reparse_point loc then 8 else 0) content in
  original_size (resource_entry lte) = zlength payload ->
  zlength content < 2 ^ 63 ->
  0 <= offset -> 0 < n -> offset + n <= zlength payload ->
  read_wim_resource lzx_decompress xpress_decompress tfopen
    (with_open_attr content lte) n offset no_flags =
  (Ret WIMLIB_ERR_SUCCESS, ztake n (zdrop offset payload)).
Proof.
  intros Loc Nl payload Os Big O N I.
  assert (P64 : 2 ^ 63 < 2 ^ 64) by reflexivity.
  assert (Lp : zlength payload <= zlength content).
  { subst payload. pose proof (zlength_nonneg content).
    destruct (is_reparse_point loc); rewrite zlength_zdrop_max; lia. }
  unfold read_wim_resource, with_open_attr.
  cbn [WIMLIB_RESOURCE_FLAG_RAW no_flags LookupTable.resource_entry
       LookupTable.resource_location LookupTable.ntfs_loc LookupTable.attr].
  rewrite u64_small by lia. rewrite Os.
  destruct (Z.leb_spec (offset + n) (zlength payload)) as [_|]; [|lia].
  cbn [negb]. rewrite Loc, Nl.
  assert (W : ztake n (zdrop (if is_reparse_point loc
                              then u64 (offset + 8) else offset) content) =
              ztake n (zdrop offset payload)).
  { subst payload. destruct (is_reparse_point loc).
    - rewrite u64_small by lia. rewrite zdrop_zdrop by lia. do 2 f_equal. lia.
    - now rewrite zdrop_0. }
  rewrite W.
  rewrite zlength_ztake_min, zlength_zdrop_max by lia.
  destruct (Z.eqb_spec (Z.max 0 (Z.min n (Z.max 0 (zlength payload - offset))))
              n); [reflexivity|lia].
Qed.

(** A stream captured from an NTFS volume reads back as what was
    checksummed.  When a turn of the loop of [capture_ntfs_streams] goes
    on after a stream that is not empty (and of fewer than 2^63 bytes),
    whose digest the lookup table did not have, and that is a named
    stream or the first unnamed stream of its inode (the inode has none
    yet), the table has one entry more, at its head: it counts one
    reference, lies in the NTFS volume under the path captured, and has
    the SHA-1 and the size of the payload (the attribute, without its
    first 8 bytes for a reparse point).  Extracting the whole resource of
    this entry, once its attribute is open, with a callback that does not
    fail, hands over exactly the payload and returns 0: the digest
    verifies. *)
Theorem captured_ntfs_stream_reads_back
  (sha1 : list byte -> list byte) (BUFFER_SIZE : Z)
  (free_lookup_table_entry : lookup_table -> option (list byte) -> lookup_table)
  (lzx_decompress xpress_decompress : decompressor)
  (tfopen : string -> option FILE) (sink : Type)
  (extract_chunk : list byte -> Z -> Z -> sink -> wimlib_error_code * sink)
  (type0 : ATTR_TYPES) (path : string) (ar : ATTR_RECORD)
  (st st' : capture_state) (extract_chunk_arg : sink) :
  0 < BUFFER_SIZE ->
  capture_stream sha1 BUFFER_SIZE free_lookup_table_entry type0 path ar st =
    Some (inl st') ->
  zlength (data ar) <> 0 -> zlength (data ar) < 2 ^ 63 ->
  lookup_resource (table st) (sha1 (stream_payload type0 ar)) = None ->
  (unnamed ar = true -> i_lte (d_inode st) = None) ->
  (forall buf n off a,
     fst (extract_chunk buf n off a) = WIMLIB_ERR_SUCCESS) ->
  exists lte,
    table st' = lte :: table st /\
    hash lte = sha1 (stream_payload type0 ar) /\
    refcnt lte = 1 /\
    resource_location lte = RESOURCE_IN_NTFS_VOLUME /\
    wim_resource_size lte = zlength (stream_payload type0 ar) /\
    let r := extract_wim_resource lzx_decompress xpress_decompress tfopen
               sha1 sink extract_chunk (with_open_attr (data ar) lte)
               (wim_resource_size lte) extract_chunk_arg in
    fst r = Some (Ret WIMLIB_ERR_SUCCESS) /\
    extracted sink (snd r) = stream_payload type0 ar.
Proof.
  intros B C NZ Big Miss Un K.
  destruct (capture_stream_new_entry sha1 BUFFER_SIZE free_lookup_table_entry
              B type0 path ar st st' C NZ Big Miss Un)
    as (lte & loc & T & H & Rc & Loc & Os & _ & Nl & _ & Rp).
  exists lte. split; [exact T|]. split; [exact H|]. split; [exact Rc|].
  split; [exact Loc|]. split; [exact Os|].
  assert (Pl : stream_payload type0 ar =
               zdrop (if is_reparse_point loc then 8 else 0) (data ar)).
  { unfold stream_payload. now rewrite Rp. }
  assert (Lp : zlength (stream_payload type0 ar) <= zlength (data ar)).
  { unfold stream_payload. pose proof (zlength_nonneg (data ar)).
    destruct (ATTR_TYPES_eqb _ _); rewrite zlength_zdrop_max; lia. }
  pose proof (zlength_nonneg (stream_payload type0 ar)) as P0.
  assert (Reads : forall n offset,
            0 <= offset -> 0 < n ->
            offset + n <= zlength (stream_payload type0 ar) ->
            read_wim_resource lzx_decompress xpress_decompress tfopen
              (with_open_attr (data ar) lte) n offset no_flags =
            (Ret WIMLIB_ERR_SUCCESS,
             ztake n (zdrop offset (stream_payload type0 ar)))).
  { intros n offset O N I. rewrite Pl in *.
    now apply (read_ntfs_stream lzx_decompress xpress_decompress tfopen
                 lte loc (data ar) n offset Loc Nl). }
  destruct (extract_content lzx_decompress xpress_decompress tfopen sha1
              (with_open_attr (data ar) lte) (stream_payload type0 ar)
              Reads sink extract_chunk K (wim_resource_size lte)
              extract_chunk_arg)
    as (X & _ & Full).
  - unfold wim_resource_size. lia.
  - unfold wim_resource_size. lia.
  - unfold wim_resource_size. lia.
  - cbv zeta. unfold wim_resource_size in *.
    cbn [with_open_attr LookupTable.resource_entry LookupTable.hash] in *.
    rewrite Full by reflexivity. rewrite X, Os, ztake_all by lia.
    rewrite H, hashes_equal_refl. split; reflexivity.
Qed.

(** Witness: the stream [hi] of a file. *)
Lemma captured_ntfs_stream_reads_back_witness :
  let ar := mk_ATTR_RECORD AT_DATA [] [Byte.x68; Byte.x69]
              false true true true true true true WIMLIB_ERR_SUCCESS
              EmptyString true in
  let st := mk_capture_state [] (mk_wim_inode None 0 []) in
  exists st' lte,
    capture_stream Examples.toy_sha1 4096 Examples.keep_table AT_DATA
      "/f"%string ar st = Some (inl st') /\
    table st' = [lte] /\
    extracted (list byte)
      (snd (extract_wim_resource Examples.fill_A Examples.fill_A
              Examples.no_file Examples.toy_sha1 (list byte)
              PlainResource.collect
              (with_open_attr [Byte.x68; Byte.x69] lte)
              (wim_resource_size lte) [])) = [Byte.x68; Byte.x69].
Proof.
  intros ar st.
  destruct (capture_stream Examples.toy_sha1 4096 Examples.keep_table AT_DATA
              "/f"%string ar st) as [[st'|r]|] eqn:C;
    [|vm_compute in C; discriminate|vm_compute in C; discriminate].
  destruct (captured_ntfs_stream_reads_back Examples.toy_sha1 4096
              Examples.keep_table Examples.fill_A Examples.fill_A
              Examples.no_file (list byte) PlainResource.collect AT_DATA
              "/f"%string ar st st' [])
    as (lte & T & _ & _ & _ & _ & _ & X).
  - lia.
  - exact C.
  - vm_compute. discriminate.
  - reflexivity.
  - reflexivity.
  - intros _. reflexivity.
  - intros. reflexivity.
  - exists st', lte. split; [reflexivity|]. split; [exact T|exact X].
Defined.

End NtfsResourceTheory.
